(** * reduce: adaptive prefix-assignment symmetry reduction

    A shallow embedding of the C sources of 'reduce' (reduce.c, graph.c,
    common.c) and the properties of its components: the command-line
    parser, the sorting subroutines, the orbit cells of a labelled graph,
    the traversal builder, the orbit-minimum indicator, the orbit selector
    and the search engine [reducer_get_prefix_assignment].

    Conventions.  C [int] values that are array positions or vertex numbers
    are [nat]; C integers that can be negative (the [ind] array of
    [traversal_prepare], the automorphism indices, the threshold) are [Z].
    Arrays are lists read with [!!!] and written with [<[i:=x]>].
    [ERROR(...)] (exit status 1) and [ABORT(...)] (abort) are the two
    failure constructors of [outcome]. *)

From Stdlib Require Import ZArith List Lia String Ascii Bool Arith.
From Stdlib Require Import Permutation Sorted.
From stdpp Require Import base list.

Open Scope nat_scope.

(** ** Outcomes of fallible code *)

Inductive outcome (A : Type) : Type :=
| Ok (a : A)
| Error (msg : string)
| Abort (msg : string).
Arguments Ok {A} a.
Arguments Error {A} msg.
Arguments Abort {A} msg.

Definition bind {A B} (m : outcome A) (f : A -> outcome B) : outcome B :=
  match m with
  | Ok a => f a
  | Error s => Error s
  | Abort s => Abort s
  end.

Notation "'let*' x ':=' m 'in' k" := (bind m (fun x => k))
  (at level 10, x name, m at level 100, k at level 200).
Notation "'let*' ' pat ':=' m 'in' k" :=
  (bind m (fun x => match x with pat => k end))
  (at level 10, pat pattern, m at level 100, k at level 200).

(** ** Truncated order of the automorphism group (reduce.c) *)

Module AutOrder.

(** [(int) x] for a [long] x: the low 32 bits, read as a signed integer. *)
Definition int_of_long (x : Z) : Z :=
  ((x + 2 ^ 31) mod 2 ^ 32 - 2 ^ 31)%Z.

(** The loop [while( *ai != 0) { mpz_mul_si(aut_order, aut_order, *ai); ai++; }]
    over the zero-terminated index array; [acc] is the mpz accumulator. *)
Fixpoint aut_order_loop (acc : Z) (ai : list Z) : Z :=
  match ai with
  | [] => acc
  | x :: rest => if (x =? 0)%Z then acc else aut_order_loop (acc * x)%Z rest
  end.

Definition aut_order_trunc (ai : list Z) : Z :=
  let aut_order := aut_order_loop 1 ai in
  let aut_trunc := 999999999%Z in
  if (aut_order <? aut_trunc)%Z then int_of_long aut_order else aut_trunc.

(** The order of the group as the product of the stabilizer indices. *)
Definition index_product (idx : list Z) : Z := fold_right Z.mul 1%Z idx.

(** [graph_aut_idx]: the indices recorded by the level callback followed by
    the terminating 0 written by [graph_getcan]. *)
Definition graph_aut_idx (idx : list Z) : list Z := idx ++ [0%Z].

End AutOrder.

(** ** The command-line argument parser (reduce.c) *)

Module Args.

Inductive argtype :=
| ARG_NO_PARAM | ARG_STRING_PARAM | ARG_LONG_PARAM | ARG_INT_ARRAY_PARAM.

Record argdef_t := mk_argdef {
  short_desc : ascii;
  long_desc : string;
  type : argtype
}.

Definition argdefs_table : list argdef_t :=
  [ mk_argdef "h" "help" ARG_NO_PARAM;
    mk_argdef "u" "usage" ARG_NO_PARAM;
    mk_argdef "v" "verbose" ARG_NO_PARAM;
    mk_argdef "g" "graph" ARG_NO_PARAM;
    mk_argdef "n" "no-cnf" ARG_NO_PARAM;
    mk_argdef "s" "symmetry-only" ARG_NO_PARAM;
    mk_argdef "i" "incremental" ARG_NO_PARAM;
    mk_argdef "t" "threshold" ARG_LONG_PARAM;
    mk_argdef "l" "length" ARG_LONG_PARAM;
    mk_argdef "p" "prefix" ARG_INT_ARRAY_PARAM;
    mk_argdef "f" "file" ARG_STRING_PARAM;
    mk_argdef "o" "output" ARG_STRING_PARAM;
    mk_argdef "Z" "ZZZZZZ" ARG_NO_PARAM ].

(** [for(argdefs_count = 0; argdefs[argdefs_count].short_desc != 'Z'; ...)] *)
Fixpoint count_to_sentinel (t : list argdef_t) : nat :=
  match t with
  | [] => 0
  | d :: rest =>
      if Ascii.eqb (short_desc d) "Z" then 0 else S (count_to_sentinel rest)
  end.

Definition argdefs_count : nat := count_to_sentinel argdefs_table.
Definition argdefs : list argdef_t := take argdefs_count argdefs_table.

(** What a [void *] of [parsed_params] points to. *)
Inductive param :=
| PNull
| PLong (l : Z)
| PString (s : string)
| PIntArray (a : list Z).

Record argparse_t := mk_argparse {
  argv : list string;
  parsed_args : list string;
  parsed_params : list param
}.

Definition argc (p : argparse_t) : nat := length (argv p).
Definition num_parsed_args (p : argparse_t) : nat := length (parsed_args p).

(** [s[j]], with the terminating NUL past the end. *)
Definition char_at (s : string) (j : nat) : ascii :=
  match String.get j s with
  | Some c => c
  | None => Ascii.zero
  end.

Definition arg_at (av : list string) (i : nat) : string :=
  nth i av EmptyString.

(** *** sscanf with a single integer conversion *)

Definition is_space (c : ascii) : bool :=
  let n := nat_of_ascii c in
  (n =? 32) || ((9 <=? n) && (n <=? 13)).

Definition digit_of (c : ascii) : option Z :=
  let n := nat_of_ascii c in
  if (48 <=? n) && (n <=? 57) then Some (Z.of_nat (n - 48)) else None.

Fixpoint skip_space (s : string) : string :=
  match s with
  | String c rest => if is_space c then skip_space rest else s
  | EmptyString => s
  end.

Fixpoint scan_digits (acc : Z) (seen : bool) (s : string) : option Z :=
  match s with
  | String c rest =>
      match digit_of c with
      | Some d => scan_digits (10 * acc + d)%Z true rest
      | None => if seen then Some acc else None
      end
  | EmptyString => if seen then Some acc else None
  end.

(** The integer that an integer conversion of [sscanf] finds: leading
    white space, an optional sign, at least one digit; what follows the
    digits is ignored. *)
Definition scan_integer (s : string) : option Z :=
  match skip_space s with
  | String "-" rest => option_map Z.opp (scan_digits 0 false rest)
  | String "+" rest => scan_digits 0 false rest
  | t => scan_digits 0 false t
  end.

(** The C library converts the digits as [strtol] does: an integer outside
    the range of [long] (64 bits) becomes [LONG_MAX] or [LONG_MIN]. *)
Definition clamp_long (z : Z) : Z :=
  Z.max (- 2 ^ 63) (Z.min (2 ^ 63 - 1) z).

(** [sscanf(s, "%ld", &l) == 1] and the [long] it stores. *)
Definition sscanf_ld (s : string) : option Z :=
  option_map clamp_long (scan_integer s).

(** [sscanf(s, "%d", &v) == 1] and the [int] it stores: the low 32 bits of
    the converted [long]. *)
Definition sscanf_d (s : string) : option Z :=
  option_map (fun z => AutOrder.int_of_long (clamp_long z)) (scan_integer s).

(** *** Parameter readers; each returns the parameter and the new [i] *)

Definition arg_get_long (av : list string) (i : nat) : outcome (param * nat) :=
  if length av <=? i + 1 then
    Error "expected an integer parameter but ran out of arguments"
  else match sscanf_ld (arg_at av (i + 1)) with
       | None => Error "parse error in parameter at the command line"
       | Some l => Ok (PLong l, i + 1)
       end.

Definition arg_get_string (av : list string) (i : nat) : outcome (param * nat) :=
  if length av <=? i + 1 then
    Error "expected a string parameter but ran out of arguments"
  else if Ascii.eqb (char_at (arg_at av (i + 1)) 0) "-" then
    Error "expected a string parameter but got an argument"
  else Ok (PString (arg_at av (i + 1)), i + 1).

(** [for(; j < p->argc && p->argv[j][0] != '-'; j++);] *)
Fixpoint int_array_end (fuel : nat) (av : list string) (j : nat) : nat :=
  match fuel with
  | 0 => j
  | S fuel' =>
      if (j <? length av) && negb (Ascii.eqb (char_at (arg_at av j) 0) "-")
      then int_array_end fuel' av (S j)
      else j
  end.

(** [b[k] = v-1] is computed on [int]. *)
Fixpoint int_array_fill (av : list string) (i : nat) (k len : nat)
  : outcome (list Z) :=
  match len with
  | 0 => Ok []
  | S len' =>
      match sscanf_d (arg_at av (i + 1 + k)) with
      | None => Error "parse error in parameter at the command line"
      | Some v =>
          let* b := int_array_fill av i (S k) len' in
          Ok (AutOrder.int_of_long (v - 1) :: b)
      end
  end.

Definition arg_get_int_array (av : list string) (i : nat)
  : outcome (param * nat) :=
  let j := int_array_end (length av) av (i + 1) in
  let len := j - (i + 1) in
  let* b := int_array_fill av i 0 len in
  Ok (PIntArray (Z.of_nat len :: b), j - 1).

(** *** First pass: check and count the arguments *)

Definition find_short (d : ascii) : option argdef_t :=
  find (fun a => Ascii.eqb (short_desc a) d) argdefs.

Definition find_long (d : string) : option argdef_t :=
  find (fun a => String.eqb (long_desc a) d) argdefs.

Definition has_param (t : argtype) : bool :=
  match t with
  | ARG_NO_PARAM => false
  | _ => true
  end.

(** The loop over the characters [argv[i][j]], [j >= 1], of a short-form
    argument; [s] is the string from position [j] on. *)
Fixpoint check_short (s : string) (c : nat) : outcome nat :=
  match s with
  | EmptyString => Ok c
  | String d rest =>
      match find_short d with
      | None => Error "unrecognized argument at command line"
      | Some a =>
          if has_param (type a) && negb (String.eqb rest EmptyString)
          then Error "argument should be immediately followed by a parameter"
          else check_short rest (S c)
      end
  end.

Definition is_short (s : string) : bool :=
  Ascii.eqb (char_at s 0) "-" && negb (Ascii.eqb (char_at s 1) "-").
Definition is_long (s : string) : bool :=
  Ascii.eqb (char_at s 0) "-" && Ascii.eqb (char_at s 1) "-".

Definition string_from (s : string) (j : nat) : string :=
  String.substring j (String.length s - j) s.

Fixpoint check_args (rest : list string) (c : nat) : outcome nat :=
  match rest with
  | [] => Ok c
  | a :: rest' =>
      let* c1 := (if is_short a then check_short (string_from a 1) c else Ok c) in
      let* c2 := (if is_long a then
                    match find_long (string_from a 2) with
                    | Some _ => Ok (S c1)
                    | None => Error "unrecognized argument at command line"
                    end
                  else Ok c1) in
      check_args rest' c2
  end.

(** *** Second pass: parse *)

Definition is_dup (name : string) (seen : list string) : bool :=
  existsb (String.eqb name) seen.

(** The body shared by the two forms up to the [switch]: record the name,
    reject duplicates, then read the parameter with the reader chosen by
    the caller for each type. *)
Definition record_arg (p : argparse_t) (a : argdef_t)
    (r : outcome (param * nat)) : outcome (argparse_t * nat) :=
  if is_dup (long_desc a) (parsed_args p) then
    Error "duplicate argument at command line"
  else
    let* '(v, i') := r in
    Ok (mk_argparse (argv p) (parsed_args p ++ [long_desc a])
                    (parsed_params p ++ [v]), i').

(** The [switch] of the short form. *)
Definition read_short (av : list string) (i : nat) (t : argtype)
  : outcome (param * nat) :=
  match t with
  | ARG_NO_PARAM => Ok (PNull, i)
  | ARG_LONG_PARAM => arg_get_long av i
  | ARG_INT_ARRAY_PARAM => arg_get_int_array av i
  | ARG_STRING_PARAM => arg_get_string av i
  end.

(** The [switch] of the long form, as written in the source: the case
    [ARG_INT_ARRAY_PARAM] calls [arg_get_long]. *)
Definition read_long (av : list string) (i : nat) (t : argtype)
  : outcome (param * nat) :=
  match t with
  | ARG_NO_PARAM => Ok (PNull, i)
  | ARG_LONG_PARAM => arg_get_long av i
  | ARG_INT_ARRAY_PARAM => arg_get_long av i
  | ARG_STRING_PARAM => arg_get_string av i
  end.

(** [for(int j = 1; !stop && argv[i][j] != 0; j++)]: [s] is the rest of
    [argv[i]] from [j] on; reading a parameter sets [stop]. *)
Fixpoint parse_short (s : string) (p : argparse_t) (i : nat)
  : outcome (argparse_t * nat) :=
  match s with
  | EmptyString => Ok (p, i)
  | String d rest =>
      match find_short d with
      | None => Error "unrecognized argument at command line"
      | Some a =>
          let* '(p', i') := record_arg p a (read_short (argv p) i (type a)) in
          if has_param (type a) then Ok (p', i') else parse_short rest p' i'
      end
  end.

Definition parse_long (s : string) (p : argparse_t) (i : nat)
  : outcome (argparse_t * nat) :=
  match find_long (string_from s 2) with
  | None => Error "unrecognized argument at command line"
  | Some a => record_arg p a (read_long (argv p) i (type a))
  end.

(** [for(int i = 1; i < argc; i++)] where the body moves [i] forward. *)
Fixpoint parse_args (fuel : nat) (p : argparse_t) (i : nat)
  : outcome argparse_t :=
  match fuel with
  | 0 => Ok p
  | S fuel' =>
      if argc p <=? i then Ok p
      else
        let a := arg_at (argv p) i in
        if is_short a then
          let* '(p', i') := parse_short (string_from a 1) p i in
          parse_args fuel' p' (S i')
        else if is_long a then
          let* '(p', i') := parse_long a p i in
          parse_args fuel' p' (S i')
        else Error "bad argument at command line"
  end.

Definition arg_parse (av : list string) : outcome argparse_t :=
  let* _ := check_args (tail av) 0 in
  parse_args (length av) (mk_argparse av [] []) 1.

(** *** Accessors *)

Fixpoint lookup_param (names : list string) (ps : list param) (s : string)
  : option param :=
  match names, ps with
  | nm :: names', v :: ps' =>
      if String.eqb s nm then Some v else lookup_param names' ps' s
  | _, _ => None
  end.

Definition arg_have (p : argparse_t) (s : string) : bool :=
  existsb (String.eqb s) (parsed_args p).

(** [arg_int_array] returns the stored pointer as an [int *], whatever
    the pointer designates. *)
Definition arg_int_array (p : argparse_t) (s : string) : outcome param :=
  match lookup_param (parsed_args p) (parsed_params p) s with
  | Some v => Ok v
  | None => Abort "argument not found"
  end.

(** [q[i]] for an [int *q] that holds a stored pointer.  On the platform
    of the program a [long] has 64 bits, an [int] has 32 and the low half
    comes first, so that the block of a long is read as its low and its
    high half.  [None]: the read is past the end of the block, or the
    pointer is that of a string or the null pointer of a flag; the model
    gives no result for it. *)
Definition int_at (v : param) (i : nat) : option Z :=
  match v with
  | PIntArray a => a !! i
  | PLong l =>
      [AutOrder.int_of_long l; AutOrder.int_of_long (Z.shiftr l 32)] !! i
  | _ => None
  end.

(** [q[i], q[i+1], ..., q[i+cnt-1]] *)
Fixpoint ints_at (v : param) (i cnt : nat) : option (list Z) :=
  match cnt with
  | 0 => Some []
  | S cnt' =>
      match int_at v i, ints_at v (S i) cnt' with
      | Some x, Some l => Some (x :: l)
      | _, _ => None
      end
  end.

(** [*((long * ) q)] for a stored pointer [q]: the long at the start of
    the block; for the block of an int array, its first two entries. *)
Definition long_at (v : param) : option Z :=
  match v with
  | PLong l => Some l
  | PIntArray (a0 :: a1 :: _) => Some (a0 mod 2 ^ 32 + 2 ^ 32 * a1)%Z
  | _ => None
  end.

(** [arg_long] reads a long through the stored pointer, whatever the
    pointer designates. *)
Definition arg_long (p : argparse_t) (s : string) : option (outcome Z) :=
  match lookup_param (parsed_args p) (parsed_params p) s with
  | Some v => option_map Ok (long_at v)
  | None => Some (Abort "argument not found")
  end.

(** The prefix that [reducer_parse] reads from the command line:
    [k = q[0]], the test of [k], and after [q++] the entries
    [q[0], ..., q[k-1]], before their range is tested. *)
Definition cli_prefix (av : list string) : option (outcome (list Z)) :=
  match arg_parse av with
  | Ok p =>
      if arg_have p "prefix" then
        match arg_int_array p "prefix" with
        | Ok q =>
            match int_at q 0 with
            | Some k =>
                if (k <? 0)%Z then Some (Error "bad prefix parameters")
                else option_map Ok (ints_at q 1 (Z.to_nat k))
            | None => None
            end
        | Error msg => Some (Error msg)
        | Abort msg => Some (Abort msg)
        end
      else Some (Error "no prefix on the command line")
  | Error msg => Some (Error msg)
  | Abort msg => Some (Abort msg)
  end.

End Args.

(** ** Heapsort (common.c) *)

Module Common.

(** The heap macros and the 1-based view of the array ([a--]). *)
Definition LEFT (x : nat) : nat := 2 * x.
Definition RIGHT (x : nat) : nat := 2 * x + 1.
Definition PARENT (x : nat) : nat := x / 2.

Definition get1 (a : list nat) (x : nat) : nat := a !!! (x - 1).
Definition set1 (a : list nat) (x v : nat) : list nat := <[x - 1 := v]> a.

Section Heapsort.

(** [heapsort_int] compares the entries themselves, [heapsort_int_indirect]
    compares [a[p[x]]]; [key] is the compared quantity of an entry. *)
Variable key : nat -> nat.

(** [while(x > 1) { y = PARENT(x); if(a[x] <= a[y]) break; exchange; x = y; }] *)
Fixpoint sift_up (fuel : nat) (a : list nat) (x : nat) : list nat :=
  match fuel with
  | 0 => a
  | S fuel' =>
      if 1 <? x then
        let y := PARENT x in
        if key (get1 a x) <=? key (get1 a y) then a
        else
          let t := get1 a x in
          sift_up fuel' (set1 (set1 a x (get1 a y)) y t) y
      else a
  end.

(** [for(i = 2; i <= n; i++) { x = i; ... }] *)
Definition build_heap (n : nat) (a : list nat) : list nat :=
  fold_left (fun a i => sift_up i a i) (seq 2 (n - 1)) a.

(** The insertion loop [while((y = LEFT(x)) < i) { ... }] followed by
    [a[x] = t]. *)
Fixpoint sift_down (fuel : nat) (a : list nat) (i t x : nat) : list nat :=
  match fuel with
  | 0 => set1 a x t
  | S fuel' =>
      let y := LEFT x in
      if y <? i then
        let z := RIGHT x in
        let y' := if (z <? i) && (key (get1 a y) <? key (get1 a z))
                  then z else y in
        if key (get1 a y') <=? key t then set1 a x t
        else sift_down fuel' (set1 a x (get1 a y')) i t y'
      else set1 a x t
  end.

(** Body of [for(i = n; i > 1; i--)]:
    [t = a[i]; a[i] = a[1]; x = 1; ...; a[x] = t]. *)
Definition delete_max (a : list nat) (i : nat) : list nat :=
  let t := get1 a i in
  sift_down i (set1 a i (get1 a 1)) i t 1.

Definition heapsort_by (n : nat) (a : list nat) : list nat :=
  fold_left delete_max (rev (seq 2 (n - 1))) (build_heap n a).

End Heapsort.

(** *** Correctness of heapsort *)

Section HeapsortCorrect.

Variable key : nat -> nat.

Lemma PARENT_spec x : x = 2 * PARENT x \/ x = 2 * PARENT x + 1.
Proof.
  unfold PARENT. pose proof (Nat.div_mod_eq x 2).
  pose proof (Nat.mod_upper_bound x 2). lia.
Qed.

Lemma length_set1 a x v : length (set1 a x v) = length a.
Proof. apply length_insert. Qed.

Lemma get1_set1_eq a x v : 1 <= x <= length a -> get1 (set1 a x v) x = v.
Proof. intros H. unfold get1, set1. apply list_lookup_total_insert_eq. lia. Qed.

Lemma get1_set1_ne a x c v :
  1 <= x -> 1 <= c -> c <> x -> get1 (set1 a x v) c = get1 a c.
Proof. intros. unfold get1, set1. apply list_lookup_total_insert_ne. lia. Qed.

Lemma get1_lookup (a : list nat) c :
  1 <= c <= length a -> a !! (c - 1) = Some (get1 a c).
Proof. intros H. unfold get1. apply list_lookup_lookup_total_lt. lia. Qed.

(** Exchanging two entries permutes the array. *)
Lemma exchange_perm a x y :
  1 <= x <= length a -> 1 <= y <= length a ->
  set1 (set1 a x (get1 a y)) y (get1 a x) ≡ₚ a.
Proof.
  intros Hx Hy. unfold set1.
  apply Permutation_insert_swap; apply get1_lookup; assumption.
Qed.

(** The heap order on the positions 1..m: every entry is at most its
    parent. *)
Definition heap_upto (a : list nat) (m : nat) : Prop :=
  forall c, 2 <= c <= m -> key (get1 a c) <= key (get1 a (PARENT c)).

(** The heap order everywhere except between [x] and its parent. *)
Definition almost_heap (a : list nat) (x m : nat) : Prop :=
  (forall c, 2 <= c <= m -> c <> x ->
     key (get1 a c) <= key (get1 a (PARENT c))) /\
  (forall c, 2 <= c <= m -> PARENT c = x -> 2 <= x ->
     key (get1 a c) <= key (get1 a (PARENT x))).

Lemma sift_up_length fuel a x : length (sift_up key fuel a x) = length a.
Proof.
  revert a x. induction fuel as [|fuel IH]; intros a x; simpl; [reflexivity|].
  destruct (1 <? x); [|reflexivity].
  destruct (key (get1 a x) <=? key (get1 a (PARENT x))); [reflexivity|].
  rewrite IH, !length_set1. reflexivity.
Qed.

Lemma sift_up_perm fuel a x :
  x <= length a -> sift_up key fuel a x ≡ₚ a.
Proof.
  revert a x. induction fuel as [|fuel IH]; intros a x Hx; simpl; [reflexivity|].
  destruct (Nat.ltb_spec 1 x); [|reflexivity].
  destruct (key (get1 a x) <=? key (get1 a (PARENT x))); [reflexivity|].
  pose proof (PARENT_spec x).
  rewrite IH by (rewrite !length_set1; lia).
  apply exchange_perm; lia.
Qed.

Lemma sift_up_heap fuel a x m :
  x <= fuel -> x <= m -> m <= length a -> almost_heap a x m ->
  heap_upto (sift_up key fuel a x) m.
Proof.
  revert a x. induction fuel as [|fuel IH]; intros a x Hf Hxm Hm [H1 H2]; simpl.
  - intros c Hc. apply H1; lia.
  - destruct (Nat.ltb_spec 1 x) as [Hx|Hx]; [|intros c Hc; apply H1; lia].
    destruct (Nat.leb_spec (key (get1 a x)) (key (get1 a (PARENT x)))) as [Hk|Hk].
    + intros c Hc. destruct (Nat.eq_dec c x) as [->|Hne]; [exact Hk|].
      apply H1; assumption.
    + pose proof (PARENT_spec x) as Hpx. set (y := PARENT x) in *.
      set (b := set1 (set1 a x (get1 a y)) y (get1 a x)).
      assert (Hbx : get1 b x = get1 a y).
      { unfold b. rewrite get1_set1_ne by lia. apply get1_set1_eq. lia. }
      assert (Hby : get1 b y = get1 a x).
      { unfold b. apply get1_set1_eq. rewrite length_set1. lia. }
      assert (Hbc : forall c, 1 <= c -> c <> x -> c <> y -> get1 b c = get1 a c).
      { intros c Hc1 Hc2 Hc3. unfold b. rewrite !get1_set1_ne by lia. reflexivity. }
      apply IH; [lia|lia|unfold b; rewrite !length_set1; lia|]. split.
      * intros c Hc Hcy. pose proof (PARENT_spec c) as Hpc.
        destruct (Nat.eq_dec c x) as [->|Hcx].
        -- fold y. rewrite Hbx, Hby. lia.
        -- rewrite (Hbc c) by lia.
           destruct (Nat.eq_dec (PARENT c) x) as [Epx|Npx].
           ++ rewrite Epx, Hbx. apply H2; [lia|exact Epx|lia].
           ++ destruct (Nat.eq_dec (PARENT c) y) as [Epy|Npy].
              ** rewrite Epy, Hby. specialize (H1 c Hc Hcx). rewrite Epy in H1. lia.
              ** rewrite (Hbc (PARENT c)) by lia. apply H1; assumption.
      * intros c Hc Hpc Hy2. pose proof (PARENT_spec y) as Hpy.
        rewrite (Hbc (PARENT y)) by lia.
        assert (Hyy : key (get1 a y) <= key (get1 a (PARENT y))) by (apply H1; lia).
        destruct (Nat.eq_dec c x) as [->|Hcx].
        -- rewrite Hbx. exact Hyy.
        -- pose proof (PARENT_spec c).
           rewrite (Hbc c) by lia. specialize (H1 c Hc Hcx). rewrite Hpc in H1. lia.
Qed.

Lemma fold_left_snoc {S A} (f : S -> A -> S) (l : list A) (x : A) (s : S) :
  fold_left f (l ++ [x]) s = f (fold_left f l s) x.
Proof. rewrite fold_left_app. reflexivity. Qed.

Lemma fold_left_rev_snoc {S A} (f : S -> A -> S) (l : list A) (x : A) (s : S) :
  fold_left f (rev (l ++ [x])) s = fold_left f (rev l) (f s x).
Proof. rewrite rev_app_distr. reflexivity. Qed.

Lemma build_heap_spec n a :
  n <= length a ->
  heap_upto (build_heap key n a) n /\ build_heap key n a ≡ₚ a /\
  length (build_heap key n a) = length a.
Proof.
  intros Hn. unfold build_heap.
  assert (H : forall m, m + 1 <= n \/ m = 0 ->
            let r := fold_left (fun a i => sift_up key i a i) (seq 2 m) a in
            heap_upto r (m + 1) /\ r ≡ₚ a /\ length r = length a).
  { induction m as [|m IH]; intros Hm; cbv zeta.
    - simpl. split; [intros c Hc; lia|]. split; reflexivity.
    - rewrite seq_S, fold_left_snoc.
      destruct IH as (Hh & Hp & Hl); [lia|].
      set (r := fold_left _ (seq 2 m) a) in *.
      replace (2 + m) with (S (S m)) by lia.
      split; [|split].
      + replace (S m + 1) with (S (S m)) by lia.
        apply sift_up_heap; [lia|lia|lia|]. split.
        * intros c Hc Hne. apply Hh. lia.
        * intros c Hc Hpc _. pose proof (PARENT_spec c). lia.
      + rewrite sift_up_perm by lia. exact Hp.
      + rewrite sift_up_length. exact Hl. }
  destruct n as [|n].
  - simpl. split; [intros c Hc; lia|]. split; reflexivity.
  - replace (S n - 1) with n by lia.
    destruct (H n ltac:(lia)) as (Hh & Hp & Hl).
    replace (S n) with (n + 1) by lia. tauto.
Qed.

(** Writing [t] into a hole keeps the heap order when [t] fits between
    the parent and the children of the hole. *)
Lemma heap_fill a m x t :
  heap_upto a m -> 1 <= x -> x <= m -> m <= length a ->
  (2 <= x -> key t <= key (get1 a (PARENT x))) ->
  (forall c, 2 <= c <= m -> PARENT c = x -> key (get1 a c) <= key t) ->
  heap_upto (set1 a x t) m.
Proof.
  intros Hh Hx Hxm Hm Hup Hdown c Hc. pose proof (PARENT_spec c) as Hpc.
  destruct (Nat.eq_dec c x) as [->|Hcx].
  - rewrite get1_set1_eq by lia. rewrite get1_set1_ne by lia. apply Hup. lia.
  - rewrite (get1_set1_ne a x c) by lia.
    destruct (Nat.eq_dec (PARENT c) x) as [Epx|Npx].
    + rewrite Epx, get1_set1_eq by lia. apply Hdown; assumption.
    + rewrite get1_set1_ne by lia. apply Hh. exact Hc.
Qed.

Lemma sift_down_spec fuel a i t x :
  i <= x + fuel -> 1 <= x -> x < i -> i <= length a + 1 ->
  heap_upto a (i - 1) ->
  (2 <= x -> key t <= key (get1 a (PARENT x))) ->
  heap_upto (sift_down key fuel a i t x) (i - 1) /\
  sift_down key fuel a i t x ≡ₚ set1 a x t /\
  length (sift_down key fuel a i t x) = length a /\
  (forall c, i <= c -> get1 (sift_down key fuel a i t x) c = get1 a c).
Proof.
  revert a x. induction fuel as [|fuel IH]; intros a x Hf Hx Hxi Hi Hh Hup; [lia|].
  simpl. unfold LEFT, RIGHT.
  assert (Hstop : (forall c, 2 <= c <= i - 1 -> PARENT c = x ->
                             key (get1 a c) <= key t) ->
    heap_upto (set1 a x t) (i - 1) /\ set1 a x t ≡ₚ set1 a x t /\
    length (set1 a x t) = length a /\
    (forall c, i <= c -> get1 (set1 a x t) c = get1 a c)).
  { intros Hd. split; [apply heap_fill; try assumption; lia|].
    split; [reflexivity|]. split; [apply length_set1|].
    intros c Hc. apply get1_set1_ne; lia. }
  destruct (Nat.ltb_spec (2 * x) i) as [Hy|Hy].
  - set (y' := if (2 * x + 1 <? i) && (key (get1 a (2 * x)) <? key (get1 a (2 * x + 1)))
               then 2 * x + 1 else 2 * x).
    assert (Hy' : (y' = 2 * x \/ y' = 2 * x + 1) /\ y' < i /\
                  key (get1 a (2 * x)) <= key (get1 a y') /\
                  (2 * x + 1 < i -> key (get1 a (2 * x + 1)) <= key (get1 a y'))).
    { unfold y'. destruct (Nat.ltb_spec (2 * x + 1) i) as [Hz|Hz];
        destruct (Nat.ltb_spec (key (get1 a (2 * x))) (key (get1 a (2 * x + 1))));
        cbn [andb]; repeat split; lia. }
    destruct Hy' as (Hy1 & Hy2 & Hy3 & Hy4).
    assert (Hchildren : forall c, 2 <= c <= i - 1 -> PARENT c = x ->
                                  key (get1 a c) <= key (get1 a y')).
    { intros c Hc Hpc. pose proof (PARENT_spec c).
      assert (c = 2 * x \/ c = 2 * x + 1) as [->| ->] by lia; [exact Hy3|].
      apply Hy4. lia. }
    assert (Hpy : PARENT y' = x).
    { pose proof (PARENT_spec y'). lia. }
    destruct (Nat.leb_spec (key (get1 a y')) (key t)) as [Hk|Hk].
    + apply Hstop. intros c Hc Hpc. specialize (Hchildren c Hc Hpc). lia.
    + assert (Hh' : heap_upto (set1 a x (get1 a y')) (i - 1)).
      { apply heap_fill; try assumption; try lia.
        intros Hx2. transitivity (key (get1 a x)).
        - specialize (Hh y' ltac:(lia)). rewrite Hpy in Hh. exact Hh.
        - apply Hh. lia. }
      destruct (IH (set1 a x (get1 a y')) y') as (R1 & R2 & R3 & R4);
        [lia|lia|lia|rewrite length_set1; lia|exact Hh'| |].
      { intros _. rewrite Hpy, get1_set1_eq by lia. lia. }
      split; [exact R1|]. split; [|split].
      * rewrite R2.
        assert (E : set1 (set1 a x (get1 a y')) y' t
                    = set1 (set1 (set1 a x t) x (get1 (set1 a x t) y')) y'
                           (get1 (set1 a x t) x)).
        { rewrite get1_set1_eq by lia. rewrite (get1_set1_ne a x y') by lia.
          unfold set1 at 4. unfold set1 at 4.
          rewrite list_insert_insert_eq. reflexivity. }
        rewrite E. apply exchange_perm; rewrite length_set1; lia.
      * rewrite R3. apply length_set1.
      * intros c Hc. rewrite R4 by lia. apply get1_set1_ne; lia.
  - apply Hstop. intros c Hc Hpc. pose proof (PARENT_spec c). lia.
Qed.

(** The root of a heap carries a largest key. *)
Lemma root_max a m c :
  heap_upto a m -> 1 <= c <= m -> key (get1 a c) <= key (get1 a 1).
Proof.
  intros Hh. induction c as [c IH] using lt_wf_ind. intros Hc.
  destruct (Nat.eq_dec c 1) as [->|Hne]; [lia|].
  pose proof (PARENT_spec c). transitivity (key (get1 a (PARENT c))).
  - apply Hh. lia.
  - apply IH; lia.
Qed.

Lemma drop_eq_get1 (r a : list nat) i :
  length r = length a -> (forall c, i < c -> get1 r c = get1 a c) ->
  drop i r = drop i a.
Proof.
  intros Hl Hf. apply list_eq. intros k. rewrite !lookup_drop.
  destruct (Nat.lt_ge_cases (i + k) (length a)) as [Hk|Hk].
  - rewrite !list_lookup_lookup_total_lt by lia. f_equal.
    specialize (Hf (i + k + 1) ltac:(lia)). unfold get1 in Hf.
    replace (i + k + 1 - 1) with (i + k) in Hf by lia. exact Hf.
  - rewrite !lookup_ge_None_2 by lia. reflexivity.
Qed.

Lemma delete_max_spec a i :
  2 <= i -> i <= length a -> heap_upto a i ->
  length (delete_max key a i) = length a /\
  heap_upto (delete_max key a i) (i - 1) /\
  take i (delete_max key a i) ≡ₚ take i a /\
  drop i (delete_max key a i) = drop i a /\
  get1 (delete_max key a i) i = get1 a 1.
Proof.
  intros Hi Hil Hh. unfold delete_max.
  set (a1 := set1 a i (get1 a 1)).
  destruct (sift_down_spec i a1 i (get1 a i) 1) as (R1 & R2 & R3 & R4);
    [lia|lia|lia|unfold a1; rewrite length_set1; lia| |lia|].
  { intros c Hc. unfold a1. pose proof (PARENT_spec c).
    rewrite !get1_set1_ne by lia. apply Hh. lia. }
  set (r := sift_down key i a1 i (get1 a i) 1) in *.
  assert (Hlen : length r = length a) by (rewrite R3; apply length_set1).
  assert (Hdrop : drop i r = drop i a).
  { apply drop_eq_get1; [exact Hlen|]. intros c Hc. rewrite R4 by lia.
    unfold a1. apply get1_set1_ne; lia. }
  assert (Hperm : r ≡ₚ a).
  { rewrite R2. unfold a1.
    replace (get1 a i) with (get1 a i) by reflexivity.
    apply (exchange_perm a i 1); lia. }
  split; [exact Hlen|]. split; [exact R1|]. split; [|split; [exact Hdrop|]].
  - apply (Permutation_app_inv_r (drop i a)).
    rewrite <- Hdrop at 1. rewrite !take_drop. exact Hperm.
  - rewrite R4 by lia. unfold a1. apply get1_set1_eq. lia.
Qed.

(** The keys are in nondecreasing order along the positions 1..n. *)
Definition sorted_by (a : list nat) (n : nat) : Prop :=
  forall j k, 1 <= j -> j <= k -> k <= n -> key (get1 a j) <= key (get1 a k).

Lemma take_keys_bounded (a : list nat) i B :
  i <= length a ->
  (Forall (fun v => key v <= B) (take i a) <->
   forall c, 1 <= c <= i -> key (get1 a c) <= B).
Proof.
  intros Hi. rewrite Forall_lookup. split.
  - intros H c Hc. apply (H (c - 1)). rewrite lookup_take_lt by lia.
    apply get1_lookup. lia.
  - intros H k v Hk. pose proof (lookup_lt_Some _ _ _ Hk) as Hlt.
    rewrite length_take in Hlt. rewrite lookup_take_lt in Hk by lia.
    specialize (H (k + 1) ltac:(lia)). unfold get1 in H.
    replace (k + 1 - 1) with k in H by lia.
    rewrite (list_lookup_total_correct _ _ _ Hk) in H. exact H.
Qed.

Lemma delete_loop_spec n m a :
  m + 1 <= n -> n = length a ->
  heap_upto a (m + 1) ->
  (forall j k, 1 <= j -> j <= k -> m + 1 < k -> k <= n ->
               key (get1 a j) <= key (get1 a k)) ->
  let r := fold_left (delete_max key) (rev (seq 2 m)) a in
  sorted_by r n /\ r ≡ₚ a /\ length r = length a.
Proof.
  revert a. induction m as [|m IH]; intros a Hm Hn Hh Hs; cbv zeta.
  - simpl. split; [|split; reflexivity].
    intros j k Hj Hjk Hk. destruct (Nat.eq_dec k 1) as [->|Hne].
    + replace j with 1 by lia. lia.
    + apply Hs; lia.
  - rewrite seq_S, fold_left_rev_snoc.
    replace (S m + 1) with (m + 2) in * by lia.
    replace (2 + m) with (m + 2) by lia.
    destruct (delete_max_spec a (m + 2)) as (D1 & D2 & D3 & D4 & D5);
      [lia|lia|exact Hh|].
    set (a' := delete_max key a (m + 2)) in *.
    replace (m + 2 - 1) with (m + 1) in D2 by lia.
    assert (Hfar : forall c, m + 2 < c -> get1 a' c = get1 a c).
    { intros c Hc. unfold get1.
      assert (E : drop (m + 2) a' !!! (c - 1 - (m + 2))
                  = drop (m + 2) a !!! (c - 1 - (m + 2))) by (rewrite D4; reflexivity).
      rewrite !lookup_total_drop in E.
      replace (m + 2 + (c - 1 - (m + 2))) with (c - 1) in E by lia. exact E. }
    assert (Hpre : forall B, (forall c, 1 <= c <= m + 2 -> key (get1 a c) <= B) ->
                             forall c, 1 <= c <= m + 2 -> key (get1 a' c) <= B).
    { intros B HB. apply take_keys_bounded; [lia|].
      rewrite D3. apply take_keys_bounded; [lia|exact HB]. }
    destruct (IH a') as (R1 & R2 & R3); [lia|lia|exact D2| |].
    + intros j k Hj Hjk Hk1 Hk2.
      destruct (Nat.eq_dec k (m + 2)) as [->|Hne].
      * rewrite D5. apply Hpre; [|lia]. intros c Hc. eapply root_max; eauto.
      * rewrite (Hfar k) by lia.
        destruct (Nat.le_gt_cases j (m + 2)) as [Hj2|Hj2].
        -- apply Hpre; [|lia]. intros c Hc. apply Hs; lia.
        -- rewrite (Hfar j) by lia. apply Hs; lia.
    + split; [exact R1|]. split; [|lia].
      rewrite R2. rewrite <- (take_drop (m + 2) a'), <- (take_drop (m + 2) a).
      rewrite D3, D4. reflexivity.
Qed.

Theorem heapsort_by_spec n a :
  n = length a ->
  sorted_by (heapsort_by key n a) n /\ heapsort_by key n a ≡ₚ a /\
  length (heapsort_by key n a) = length a.
Proof.
  intros Hn. unfold heapsort_by.
  destruct (build_heap_spec n a ltac:(lia)) as (B1 & B2 & B3).
  destruct n as [|n].
  - simpl in *. split; [intros j k; lia|]. split; [exact B2|exact B3].
  - replace (S n - 1) with n by lia.
    destruct (delete_loop_spec (S n) n (build_heap key (S n) a))
      as (R1 & R2 & R3); [lia|lia| |intros; lia|].
    + replace (n + 1) with (S n) by lia. exact B1.
    + split; [exact R1|]. split; [rewrite R2; exact B2|lia].
Qed.

End HeapsortCorrect.

Definition heapsort_int (n : nat) (a : list nat) : list nat :=
  heapsort_by (fun v => v) n a.

Definition heapsort_int_indirect (n : nat) (a : list nat) (p : list nat)
  : list nat :=
  heapsort_by (fun v => a !!! v) n p.

End Common.

(** ** Graphs and the canonical labeler (graph.c) *)

Module Graph.

(** The input side of [graph_struct]: order, edge buffer, and the colour
    partition that [lab] and [ptn] encode. *)
Record graph_t := mk_graph {
  order : nat;
  edgebuf : list (nat * nat);
  colors : list nat
}.

(** What the call of [sparsenauty] in [graph_getcan] yields: the canonical
    labeling, the orbit array, the generators collected by [automproc],
    the indices collected by [lvlproc], and the canonical graph [ncg],
    given by the row of neighbours [ce + cv[i]] (of length [cd[i]]) of
    every vertex [i]. *)
Record canon_t := mk_canon {
  lab : list nat;
  orb : list nat;
  aut_gen : list (list nat);
  aut_idx : list Z;
  can : list (list nat)
}.

Definition edge_make (i j : nat) : nat * nat :=
  if i <? j then (i, j) else (j, i).

Definition graph_dup (g : graph_t) : graph_t := g.

Definition graph_add_edge (g : graph_t) (i j : nat) : outcome graph_t :=
  if (order g <=? i) || (order g <=? j) || (i =? j) then Abort "bad edge"
  else Ok (mk_graph (order g) (edgebuf g ++ [edge_make i j]) (colors g)).

Definition graph_order (g : graph_t) : nat := order g.

Section Labeler.

(** The external labeler: [sparsenauty] as called by [graph_getcan]. *)
Variable sparsenauty : graph_t -> canon_t.

(** [d[i]++; d[j]++;] for every edge of the buffer.  The ends of the
    edges of a graph are below its order ([graph_add_edge] tests them), so
    that both writes are inside [d]. *)
Definition degrees (n : nat) (es : list (nat * nat)) : list nat :=
  fold_left (fun d e =>
               let d := <[fst e := S (d !!! fst e)]> d in
               <[snd e := S (d !!! snd e)]> d)
            es (replicate n 0).

(** The canonical edge buffer that [graph_getcan] builds from [ncg]: for
    every vertex [i] in ascending order the row of [i] is sorted and gives
    the edge [edge_make(i, j)] for each of its entries [j] with [i < j]. *)
Definition can_edgebuf (n : nat) (rows : list (list nat)) : list (nat * nat) :=
  flat_map (fun i =>
              let a := Common.heapsort_int (length (rows !!! i)) (rows !!! i) in
              map (edge_make i) (List.filter (fun j => i <? j) a))
           (seq 0 n).

(** The order of the edge codes, which hold the smaller end in the high
    and the larger end in the low half. *)
Definition edge_ltb (e f : nat * nat) : bool :=
  (fst e <? fst f) || ((fst e =? fst f) && (snd e <? snd f)).

(** [for(l = 1; l < m; l++) if(cbuf[l-1] >= cbuf[l]) ABORT(...)] passes. *)
Fixpoint ascending (cbuf : list (nat * nat)) : bool :=
  match cbuf with
  | e :: (f :: _) as rest => edge_ltb e f && ascending rest
  | _ => true
  end.

(** [graph_getcan] for a graph that has no canonical form yet: the tests
    around the call of [sparsenauty], and what the call yields. *)
Definition graph_getcan (g : graph_t) : outcome canon_t :=
  let n := order g in
  let m := length (edgebuf g) in
  if negb (list_sum (degrees n (edgebuf g)) =? 2 * m) then Abort "bad v array"
  else
    let c := sparsenauty g in
    let cbuf := can_edgebuf n (can c) in
    if negb (length cbuf =? m) then Abort "bad canonical form"
    else if negb (ascending cbuf) then Abort "bad sort in canonical form"
    else Ok c.

(** The accessors of the stored results.  Each of them calls
    [graph_getcan], which returns at once for a graph that has its
    canonical form ([have_can]); the functions below are the reads that
    follow, and a caller that can meet a graph for the first time runs
    [graph_getcan] before. *)
Definition graph_can_lab (g : graph_t) : list nat := lab (sparsenauty g).
Definition graph_orbits (g : graph_t) : list nat := orb (sparsenauty g).
Definition graph_aut_gens (g : graph_t) : list (list nat) :=
  aut_gen (sparsenauty g).
Definition graph_aut_idx (g : graph_t) : list Z :=
  AutOrder.graph_aut_idx (aut_idx (sparsenauty g)).

Definition graph_same_orbit (g : graph_t) (i j : nat) : outcome bool :=
  if (order g <=? i) || (order g <=? j) then
    Abort "vertex number out of bounds"
  else if i =? j then Ok true
  else
    let* _ := graph_getcan g in
    Ok (graph_orbits g !!! i =? graph_orbits g !!! j).

(** *** Orbit cells *)

(** [for(; i < n; i++) if(g->orb[p[i-1]] != g->orb[p[i]]) break;] *)
Fixpoint cell_end (fuel : nat) (orb p : list nat) (n i : nat) : nat :=
  match fuel with
  | 0 => i
  | S fuel' =>
      if i <? n then
        if orb !!! (p !!! (i - 1)) =? orb !!! (p !!! i)
        then cell_end fuel' orb p n (S i) else i
      else i
  end.

(** [heapsort_int(i - last, p + last)] *)
Definition sort_slice (p : list nat) (last i : nat) : list nat :=
  take last p
  ++ Common.heapsort_int (i - last) (take (i - last) (drop last p))
  ++ drop i p.

(** [while(last < n) { ...; last = i; }] *)
Fixpoint sort_cells (fuel : nat) (orb : list nat) (n : nat) (p : list nat)
    (last : nat) : list nat :=
  match fuel with
  | 0 => p
  | S fuel' =>
      if last <? n then
        let i := cell_end n orb p n (last + 1) in
        sort_cells fuel' orb n (sort_slice p last i) i
      else p
  end.

Definition orbit_cells_of (n : nat) (orb : list nat) : list nat :=
  sort_cells n orb n (Common.heapsort_int_indirect n orb (seq 0 n)) 0.

Definition graph_orbit_cells (g : graph_t) : list nat :=
  orbit_cells_of (order g) (graph_orbits g).

End Labeler.

(** *** The orbit cells list the vertices by orbit number, then by vertex *)

Section Cells.

Variable orb : list nat.
Variable n : nat.

Definition lex_sorted (p : list nat) (m : nat) : Prop :=
  forall i j, i < j -> j < m ->
    orb !!! (p !!! i) < orb !!! (p !!! j) \/
    (orb !!! (p !!! i) = orb !!! (p !!! j) /\ p !!! i < p !!! j).

Definition key_sorted (p : list nat) : Prop :=
  forall i j, i <= j -> j < n -> orb !!! (p !!! i) <= orb !!! (p !!! j).

(** A position at which a cell starts. *)
Definition cell_start (p : list nat) (i : nat) : Prop :=
  i = 0 \/ orb !!! (p !!! (i - 1)) <> orb !!! (p !!! i).

Lemma cell_end_spec fuel p i :
  1 <= i -> i <= n -> n <= i + fuel ->
  let e := cell_end fuel orb p n i in
  i <= e /\ e <= n /\
  (forall k, i <= k -> k < e -> orb !!! (p !!! (k - 1)) = orb !!! (p !!! k)) /\
  (e = n \/ orb !!! (p !!! (e - 1)) <> orb !!! (p !!! e)).
Proof.
  revert i. induction fuel as [|fuel IH]; intros i Hi Hin Hf; cbv zeta; simpl.
  - assert (i = n) by lia. subst. repeat split; try (intros; lia).
  - destruct (Nat.ltb_spec i n) as [Hlt|Hge].
    + destruct (Nat.eqb_spec (orb !!! (p !!! (i - 1))) (orb !!! (p !!! i))) as [E|E].
      * destruct (IH (S i)) as (H1 & H2 & H3 & H4); [lia|lia|lia|].
        split; [lia|]. split; [lia|]. split; [|exact H4].
        intros k Hk1 Hk2. destruct (Nat.eq_dec k i) as [->|Hne]; [exact E|].
        apply H3; lia.
      * split; [lia|]. split; [lia|]. split; [intros; lia|]. right. exact E.
    + split; [lia|]. split; [lia|]. split; [intros; lia|]. left. lia.
Qed.

Lemma get1_index (a : list nat) c : Common.get1 a (c + 1) = a !!! c.
Proof. unfold Common.get1. f_equal. lia. Qed.

Lemma sort_slice_spec p last e :
  last < e -> e <= n -> length p = n ->
  (forall k, last <= k -> k < e -> orb !!! (p !!! k) = orb !!! (p !!! last)) ->
  let p' := sort_slice p last e in
  length p' = n /\ p' ≡ₚ p /\
  (forall k, k < last \/ e <= k -> p' !!! k = p !!! k) /\
  (forall i j, last <= i -> i <= j -> j < e -> p' !!! i <= p' !!! j) /\
  (forall k, k < n -> orb !!! (p' !!! k) = orb !!! (p !!! k)).
Proof.
  intros Hle Hen Hlen Hsame. cbv zeta. unfold sort_slice.
  set (sl := take (e - last) (drop last p)).
  assert (Hsl : length sl = e - last).
  { unfold sl. rewrite length_take, length_drop. lia. }
  destruct (Common.heapsort_by_spec (fun v => v) (e - last) sl ltac:(lia))
    as (S1 & S2 & S3).
  fold (Common.heapsort_int (e - last) sl) in S1, S2, S3.
  set (hs := Common.heapsort_int (e - last) sl) in *.
  assert (Hp : p = take last p ++ sl ++ drop e p).
  { unfold sl. rewrite <- (take_drop last p) at 1. f_equal.
    rewrite <- (take_drop (e - last) (drop last p)) at 1. f_equal.
    rewrite drop_drop. f_equal. lia. }
  assert (Htl : length (take last p) = last) by (rewrite length_take; lia).
  assert (Hmid : forall k, last <= k -> k < e ->
            (take last p ++ hs ++ drop e p) !!! k = hs !!! (k - last)).
  { intros k Hk1 Hk2.
    rewrite lookup_total_app_r by lia. rewrite lookup_total_app_l by lia.
    rewrite Htl. reflexivity. }
  assert (Hin_hs : forall k, last <= k -> k < e ->
            exists k', last <= k' /\ k' < e /\
                       (take last p ++ hs ++ drop e p) !!! k = p !!! k').
  { intros k Hk1 Hk2. rewrite Hmid by lia.
    assert (Hin : hs !!! (k - last) ∈ sl).
    { rewrite <- S2. apply list_elem_of_lookup. exists (k - last).
      apply list_lookup_lookup_total_lt. lia. }
    apply list_elem_of_lookup in Hin as [k0 Hk0].
    pose proof (lookup_lt_Some _ _ _ Hk0) as Hk0l.
    exists (last + k0). split; [lia|]. split; [lia|].
    unfold sl in Hk0. rewrite lookup_take_lt, lookup_drop in Hk0 by lia.
    symmetry. apply list_lookup_total_correct. exact Hk0. }
  split; [|split; [|split; [|split]]].
  - rewrite !length_app, Htl, S3, Hsl, length_drop. lia.
  - rewrite S2. rewrite <- Hp. reflexivity.
  - intros k [Hk|Hk].
    + rewrite lookup_total_app_l by lia. apply lookup_total_take_lt. lia.
    + rewrite lookup_total_app_r by lia. rewrite lookup_total_app_r by lia.
      rewrite lookup_total_drop, Htl, S3, Hsl. f_equal. lia.
  - intros i j Hi Hij Hj. rewrite (Hmid i), (Hmid j) by lia.
    specialize (S1 (i - last + 1) (j - last + 1)).
    rewrite !get1_index in S1. apply S1; lia.
  - intros k Hk. destruct (Nat.lt_ge_cases k last) as [H1|H1].
    + f_equal. rewrite lookup_total_app_l by lia. apply lookup_total_take_lt. lia.
    + destruct (Nat.lt_ge_cases k e) as [H2|H2].
      * destruct (Hin_hs k H1 H2) as (k' & Hk1 & Hk2 & ->).
        rewrite (Hsame k') by lia. rewrite (Hsame k) by lia. reflexivity.
      * f_equal. rewrite lookup_total_app_r by lia.
        rewrite lookup_total_app_r by lia.
        rewrite lookup_total_drop, Htl, S3, Hsl. f_equal. lia.
Qed.

Lemma perm_lookup_distinct (p : list nat) i j :
  p ≡ₚ seq 0 n -> i < j -> j < n -> p !!! i <> p !!! j.
Proof.
  intros Hp Hij Hj E.
  assert (Hnd : NoDup p) by (rewrite Hp; apply NoDup_seq).
  assert (Hl : length p = n) by (rewrite Hp; apply length_seq).
  assert (i = j); [|lia].
  eapply NoDup_lookup; [exact Hnd| |].
  - apply list_lookup_lookup_total_lt. lia.
  - rewrite E. apply list_lookup_lookup_total_lt. lia.
Qed.

Lemma sort_cells_spec fuel p last :
  n <= last + fuel -> last <= n ->
  p ≡ₚ seq 0 n -> key_sorted p -> lex_sorted p last ->
  (last < n -> cell_start p last) ->
  let r := sort_cells fuel orb n p last in
  r ≡ₚ seq 0 n /\ lex_sorted r n.
Proof.
  revert p last. induction fuel as [|fuel IH];
    intros p last Hf Hl Hp Hk Hlex Hcs; cbv zeta; simpl.
  - assert (last = n) by lia. subst. tauto.
  - destruct (Nat.ltb_spec last n) as [Hlt|Hge];
      [|assert (last = n) by lia; subst; tauto].
    assert (Hlen : length p = n) by (rewrite Hp; apply length_seq).
    destruct (cell_end_spec n p (last + 1)) as (E1 & E2 & E3 & E4); [lia..|].
    set (e := cell_end n orb p n (last + 1)) in *.
    assert (Hsame : forall k, last <= k -> k < e ->
                      orb !!! (p !!! k) = orb !!! (p !!! last)).
    { intros k. induction k as [|k IHk]; intros Hk1 Hk2.
      - replace last with 0 by lia. reflexivity.
      - destruct (Nat.eq_dec (S k) last) as [<-|Hne]; [reflexivity|].
        rewrite <- IHk by lia. specialize (E3 (S k) ltac:(lia) ltac:(lia)).
        replace (S k - 1) with k in E3 by lia. symmetry. exact E3. }
    destruct (sort_slice_spec p last e) as (P1 & P2 & P3 & P4 & P5);
      [lia|lia|exact Hlen|exact Hsame|].
    set (p' := sort_slice p last e) in *.
    assert (Hp' : p' ≡ₚ seq 0 n) by (rewrite P2; exact Hp).
    apply IH; [lia|lia|exact Hp'| | |].
    + intros i j Hij Hj. rewrite !P5 by lia. apply Hk; assumption.
    + intros i j Hij Hj.
      destruct (Nat.lt_ge_cases j last) as [Hjl|Hjl].
      * rewrite !P3 by lia. apply Hlex; assumption.
      * destruct (Nat.lt_ge_cases i last) as [Hil|Hil].
        -- left. rewrite !P5 by lia. rewrite (Hsame j) by lia.
           assert (H1 : orb !!! (p !!! i) <= orb !!! (p !!! (last - 1)))
             by (apply Hk; lia).
           destruct (Hcs Hlt) as [H0|H0]; [lia|].
           assert (H2 : orb !!! (p !!! (last - 1)) <= orb !!! (p !!! last))
             by (apply Hk; lia).
           lia.
        -- right. rewrite !P5 by lia. rewrite (Hsame i), (Hsame j) by lia.
           split; [reflexivity|].
           pose proof (P4 i j ltac:(lia) ltac:(lia) ltac:(lia)).
           pose proof (perm_lookup_distinct p' i j Hp' Hij ltac:(lia)). lia.
    + intros He. right. rewrite !P5 by lia. destruct E4 as [E4|E4]; [lia|exact E4].
Qed.

Theorem orbit_cells_spec :
  orbit_cells_of n orb ≡ₚ seq 0 n /\ lex_sorted (orbit_cells_of n orb) n.
Proof.
  unfold orbit_cells_of.
  destruct (Common.heapsort_by_spec (fun v => orb !!! v) n (seq 0 n))
    as (S1 & S2 & S3); [rewrite length_seq; reflexivity|].
  fold (Common.heapsort_int_indirect n orb (seq 0 n)) in S1, S2, S3.
  apply sort_cells_spec; [lia|lia|exact S2| | |].
  - intros i j Hij Hj. specialize (S1 (i + 1) (j + 1)).
    rewrite !get1_index in S1. apply S1; lia.
  - intros i j Hij Hj. lia.
  - intros _. left. reflexivity.
Qed.

End Cells.

End Graph.

(** ** Orbit traversals (reduce.c) *)

Module Traversal.
Import Graph.

Section Traversal.

Variable sparsenauty : graph_t -> canon_t.

(** The total part of [graph_same_orbit], for arguments in range. *)
Definition same_orbit (g : graph_t) (i j : nat) : bool :=
  (i =? j) || (graph_orbits sparsenauty g !!! i =? graph_orbits sparsenauty g !!! j).

Record orbit_scan := mk_scan {
  s_ind : list Z;
  s_list : list nat;
  s_rootpos : Z;
  s_len : nat
}.

(** Body of the first loop: number the vertices of the orbit of [root]. *)
Definition scan_step (n root : nat) (g : graph_t) (s : orbit_scan) (i : nat)
  : orbit_scan :=
  if same_orbit g i root then
    mk_scan (<[i := Z.of_nat (s_len s)]> (s_ind s))
            (<[s_len s := i]> (s_list s))
            (if i =? root then Z.of_nat (s_len s) else s_rootpos s)
            (S (s_len s))
  else
    mk_scan (<[i := (- (Z.of_nat n + 1))%Z]> (s_ind s))
            (s_list s) (s_rootpos s) (s_len s).

Definition scan_orbit (n root : nat) (g : graph_t) : orbit_scan :=
  fold_left (scan_step n root g) (seq 0 n)
            (mk_scan (replicate n 0%Z) (replicate n 0) (-1)%Z 0).

(** [for(int j = 0; j < len; j++) if(ind[list[j]] >= 0) { done = 0; break; }] *)
Definition all_done (ind : list Z) (lst : list nat) (len : nat) : bool :=
  forallb (fun j => (ind !!! (lst !!! j) <? 0)%Z) (seq 0 len).

(** [for(int i = 0; i < n; i++) t[q][i] = p[t[j][i]];] computes the array
    of the composition p after tau from the row tau = t[j]. *)
Definition compose (p tau : list nat) : list nat :=
  map (fun x => p !!! x) tau.

(** Body of the loop over [j] for one generator [p]. *)
Definition extend_step (p : list nat) (lst : list nat)
    (st : list Z * list (list nat)) (j : nat) : list Z * list (list nat) :=
  let '(ind, t) := st in
  let u := lst !!! j in
  let v := p !!! u in
  let q := ind !!! v in
  if (0 <=? q)%Z && (ind !!! u <? 0)%Z then
    (<[v := (-1)%Z]> ind,
     <[Z.to_nat q := compose p (t !!! j)]> t)
  else st.

Definition gen_sweep (lst : list nat) (len : nat)
    (st : list Z * list (list nat)) (p : list nat)
  : list Z * list (list nat) :=
  fold_left (extend_step p lst) (seq 0 len) st.

(** [while(1)]: one unit of fuel per round of the outer loop; [None] when
    the fuel is used up before the loop is left. *)
Fixpoint sweep_loop (fuel : nat) (gens : list (list nat))
    (lst : list nat) (len : nat) (st : list Z * list (list nat))
  : option (list Z * list (list nat)) :=
  match fuel with
  | 0 => None
  | S fuel' =>
      if all_done (fst st) lst len then Some st
      else sweep_loop fuel' gens lst len (fold_left (gen_sweep lst len) gens st)
  end.

(** [for(int j = 0; j < len; j++) if(t[j][root] != list[j]) ABORT(...)] *)
Definition check_traversal (t : list (list nat)) (lst : list nat)
    (len root : nat) : bool :=
  forallb (fun j => (t !!! j) !!! root =? lst !!! j) (seq 0 len).

Definition traversal_prepare (fuel : nat) (root : nat) (g : graph_t)
  : option (outcome (nat * list (list nat))) :=
  let n := graph_order g in
  if n <=? root then Some (Abort "bad root")
  else
    let s := scan_orbit n root g in
    let len := s_len s in
    let t0 := replicate len (replicate n 0) in
    let ind := <[root := (-1)%Z]> (s_ind s) in
    let t1 := <[Z.to_nat (s_rootpos s) := seq 0 n]> t0 in
    match sweep_loop fuel (graph_aut_gens sparsenauty g) (s_list s) len (ind, t1) with
    | None => None
    | Some (_, t) =>
        if check_traversal t (s_list s) len root then Some (Ok (len, t))
        else Some (Abort "bad traversal")
    end.

(** *** The scan of the orbit of the root *)

Definition orbit_elems (g : graph_t) (root : nat) : list nat :=
  List.filter (fun i => same_orbit g i root) (seq 0 (graph_order g)).

Definition scan_init (n : nat) : orbit_scan :=
  mk_scan (replicate n 0%Z) (replicate n 0) (-1)%Z 0.

Lemma filter_seq_bound (f : nat -> bool) (m x : nat) :
  In x (List.filter f (seq 0 m)) -> x < m.
Proof.
  intros H. apply filter_In in H as [H _]. apply in_seq in H. lia.
Qed.

Lemma filter_length_le {A} (f : A -> bool) (l : list A) :
  length (List.filter f l) <= length l.
Proof.
  induction l as [|a l IH]; simpl; [lia|]. destruct (f a); simpl; lia.
Qed.

Lemma scan_orbit_spec (n root : nat) (g : graph_t) (m : nat) :
  m <= n ->
  let s := fold_left (scan_step n root g) (seq 0 m) (scan_init n) in
  let L := List.filter (fun i => same_orbit g i root) (seq 0 m) in
  s_len s = length L /\ length (s_list s) = n /\ length (s_ind s) = n /\
  take (s_len s) (s_list s) = L /\
  (forall i, i < m -> same_orbit g i root = false ->
             s_ind s !!! i = (- (Z.of_nat n + 1))%Z) /\
  (forall i, i < m -> same_orbit g i root = true ->
             exists pos, s_ind s !!! i = Z.of_nat pos /\ L !! pos = Some i) /\
  (root < m -> exists pos, s_rootpos s = Z.of_nat pos /\ L !! pos = Some root).
Proof.
  induction m as [|m IH]; intros Hm; cbv zeta.
  - simpl. repeat split; try (intros; lia).
    + apply length_replicate.
    + apply length_replicate.
  - specialize (IH ltac:(lia)). simpl in IH.
    destruct IH as (Hlen & Hll & Hli & Htake & Hout & Hin & Hroot).
    rewrite seq_S, fold_left_app, List.filter_app. simpl.
    set (s := fold_left (scan_step n root g) (seq 0 m) (scan_init n)) in *.
    set (L := List.filter (fun i => same_orbit g i root) (seq 0 m)) in *.
    assert (HLm : length L <= m).
    { unfold L. etransitivity; [apply filter_length_le|]. rewrite length_seq. lia. }
    destruct (same_orbit g m root) eqn:Hso; unfold scan_step; rewrite Hso; simpl.
    + rewrite !length_insert, length_app. simpl.
      repeat split; try lia.
      * rewrite Hlen.
        erewrite take_S_r; [|apply list_lookup_insert_eq; lia].
        rewrite take_insert_ge by lia. rewrite <- Hlen, Htake. reflexivity.
      * intros i Hi Hf. assert (i <> m) by congruence.
        rewrite list_lookup_total_insert_ne by lia. apply Hout; [lia|assumption].
      * intros i Hi Ht. destruct (Nat.eq_dec i m) as [->|Hne].
        -- exists (length L). rewrite list_lookup_total_insert_eq by lia.
           split; [congruence|]. rewrite lookup_app_r by lia.
           rewrite Nat.sub_diag. reflexivity.
        -- rewrite list_lookup_total_insert_ne by lia.
           destruct (Hin i ltac:(lia) Ht) as (pos & Hp1 & Hp2).
           exists pos. split; [assumption|].
           rewrite lookup_app_l; [assumption|]. eapply lookup_lt_Some; eauto.
      * intros Hr. destruct (Nat.eqb_spec m root) as [->|Hne].
        -- exists (length L). split; [congruence|].
           rewrite lookup_app_r by lia. rewrite Nat.sub_diag. reflexivity.
        -- destruct (Hroot ltac:(lia)) as (pos & Hp1 & Hp2).
           exists pos. split; [assumption|].
           rewrite lookup_app_l; [assumption|]. eapply lookup_lt_Some; eauto.
    + rewrite length_insert, app_nil_r.
      repeat split; try lia; try assumption.
      * intros i Hi Hf. destruct (Nat.eq_dec i m) as [->|Hne].
        -- rewrite list_lookup_total_insert_eq by lia. reflexivity.
        -- rewrite list_lookup_total_insert_ne by lia. apply Hout; [lia|assumption].
      * intros i Hi Ht. assert (i <> m) by congruence.
        rewrite list_lookup_total_insert_ne by lia. apply Hin; [lia|assumption].
      * intros Hr. assert (root <> m).
        { intros ->. unfold same_orbit in Hso. rewrite Nat.eqb_refl in Hso. discriminate. }
        apply Hroot. lia.
Qed.

Lemma scan_orbit_full (n root : nat) (g : graph_t) :
  s_len (scan_orbit n root g)
  = length (List.filter (fun i => same_orbit g i root) (seq 0 n)) /\
  length (s_list (scan_orbit n root g)) = n /\
  length (s_ind (scan_orbit n root g)) = n /\
  take (s_len (scan_orbit n root g)) (s_list (scan_orbit n root g))
  = List.filter (fun i => same_orbit g i root) (seq 0 n) /\
  (forall i, i < n -> same_orbit g i root = false ->
             s_ind (scan_orbit n root g) !!! i = (- (Z.of_nat n + 1))%Z) /\
  (forall i, i < n -> same_orbit g i root = true ->
             exists pos, s_ind (scan_orbit n root g) !!! i = Z.of_nat pos /\
                         List.filter (fun i => same_orbit g i root) (seq 0 n) !! pos
                         = Some i) /\
  (root < n -> exists pos, s_rootpos (scan_orbit n root g) = Z.of_nat pos /\
                           List.filter (fun i => same_orbit g i root) (seq 0 n) !! pos
                           = Some root).
Proof. exact (scan_orbit_spec n root g n (Nat.le_refl n)). Qed.

(** *** Permutations as arrays, products of generators, reachability *)

Definition perm_of (n : nat) (p : list nat) : Prop := Permutation p (seq 0 n).

(** The permutations that are products of generators from [gens]. *)
Inductive gen_product (n : nat) (gens : list (list nat)) : list nat -> Prop :=
| gp_id : gen_product n gens (seq 0 n)
| gp_step p tau :
    In p gens -> gen_product n gens tau -> gen_product n gens (compose p tau).

(** The vertices that images under generators reach from [root]. *)
Inductive reach (gens : list (list nat)) (root : nat) : nat -> Prop :=
| reach_root : reach gens root root
| reach_step p u : In p gens -> reach gens root u -> reach gens root (p !!! u).

Lemma perm_of_length n p : perm_of n p -> length p = n.
Proof.
  intros H. apply Permutation_length in H. rewrite length_seq in H. exact H.
Qed.

Lemma perm_of_bound n p x : perm_of n p -> x < n -> p !!! x < n.
Proof.
  intros H Hx. pose proof (perm_of_length _ _ H) as Hl.
  assert (Hin : In (p !!! x) p).
  { apply list_elem_of_In, list_elem_of_lookup. exists x.
    apply list_lookup_lookup_total_lt. lia. }
  eapply Permutation_in in Hin; [|exact H]. apply in_seq in Hin. lia.
Qed.

Lemma compose_seq n p : length p = n -> compose p (seq 0 n) = p.
Proof.
  intros Hl. apply list_eq_same_length with n.
  - exact Hl.
  - unfold compose. rewrite length_map, length_seq. reflexivity.
  - intros i x y Hi Hx Hy. unfold compose in Hx.
    rewrite list_lookup_fmap, lookup_seq_lt in Hx by lia. simpl in Hx.
    rewrite (list_lookup_lookup_total_lt p i) in Hy by lia. congruence.
Qed.

Lemma gen_product_perm n gens tau :
  Forall (perm_of n) gens -> gen_product n gens tau -> perm_of n tau.
Proof.
  intros Hg H. induction H as [|p tau Hp _ IH].
  - unfold perm_of. reflexivity.
  - unfold perm_of in *. rewrite List.Forall_forall in Hg.
    pose proof (Hg p Hp) as Hpp.
    transitivity (compose p (seq 0 n)).
    + unfold compose. apply Permutation_map. exact IH.
    + rewrite compose_seq; [exact Hpp|]. apply perm_of_length. exact Hpp.
Qed.

Lemma gen_product_length n gens tau :
  gen_product n gens tau -> length tau = n.
Proof.
  intros H. induction H as [|p tau Hp _ IH].
  - apply length_seq.
  - unfold compose. rewrite length_map. exact IH.
Qed.

Lemma compose_lookup p tau i :
  i < length tau -> compose p tau !!! i = p !!! (tau !!! i).
Proof.
  intros Hi. unfold compose. apply list_lookup_total_correct.
  rewrite list_lookup_fmap, (list_lookup_lookup_total_lt tau i) by lia.
  reflexivity.
Qed.

(** *** Invariants of the sweep *)

Section Sweep.

Variable g : graph_t.
Variable root : nat.

Let n := graph_order g.
Let gens := graph_aut_gens sparsenauty g.
Let L := orbit_elems g root.
Let len := length L.

Variable lst : list nat.
Hypothesis Hroot : root < n.
Hypothesis Hlst : forall pos i, L !! pos = Some i -> lst !!! pos = i.

Lemma L_bound pos i : L !! pos = Some i -> i < n /\ pos < len.
Proof.
  intros H. split.
  - apply (filter_seq_bound (fun i => same_orbit g i root)).
    apply list_elem_of_In, list_elem_of_lookup. eauto.
  - eapply lookup_lt_Some; eauto.
Qed.

Lemma L_orbit pos i : L !! pos = Some i -> same_orbit g i root = true.
Proof.
  intros H. assert (Hin : In i L).
  { apply list_elem_of_In, list_elem_of_lookup. eauto. }
  apply filter_In in Hin. tauto.
Qed.

Lemma L_complete i :
  i < n -> same_orbit g i root = true -> exists pos, L !! pos = Some i.
Proof.
  intros Hi Ho. assert (Hin : In i L).
  { apply filter_In. split; [apply in_seq; fold n; lia|exact Ho]. }
  apply list_elem_of_In, list_elem_of_lookup in Hin. exact Hin.
Qed.

Lemma L_NoDup : NoDup L.
Proof.
  apply NoDup_ListNoDup. apply List.NoDup_filter. apply List.seq_NoDup.
Qed.

Lemma L_inj pos pos' i : L !! pos = Some i -> L !! pos' = Some i -> pos = pos'.
Proof. intros H1 H2. eapply NoDup_lookup; eauto using L_NoDup. Qed.

Lemma L_pos pos : pos < len -> L !! pos = Some (lst !!! pos).
Proof.
  intros Hp. destruct (lookup_lt_is_Some_2 L pos Hp) as [i Hi].
  rewrite (Hlst _ _ Hi). exact Hi.
Qed.

(** Done vertices are reachable from the root. *)
Definition done_reach (ind : list Z) : Prop :=
  forall pos i, L !! pos = Some i -> (ind !!! i < 0)%Z -> reach gens root i.

Lemma extend_step_done_reach p st j :
  In p gens -> j < len -> done_reach (fst st) ->
  done_reach (fst (extend_step p lst st j)).
Proof.
  intros Hp Hj Hd. destruct st as [ind t]. unfold extend_step.
  destruct ((0 <=? ind !!! (p !!! (lst !!! j)))%Z &&
            (ind !!! (lst !!! j) <? 0)%Z) eqn:Hc; [|exact Hd].
  apply andb_true_iff in Hc as [Hq Hu]. apply Z.ltb_lt in Hu.
  simpl in *. intros pos i Hi Hneg.
  destruct (Nat.eq_dec i (p !!! (lst !!! j))) as [->|Hne].
  - apply reach_step; [exact Hp|]. eapply Hd; [apply L_pos; exact Hj|exact Hu].
  - rewrite list_lookup_total_insert_ne in Hneg by congruence. eapply Hd; eauto.
Qed.

Lemma fold_seq_invariant {S} (P : S -> Prop) (f : S -> nat -> S) (m : nat) s :
  (forall s j, j < m -> P s -> P (f s j)) -> P s -> P (fold_left f (seq 0 m) s).
Proof.
  intros Hstep. induction m as [|m IH]; intros Hs; [exact Hs|].
  rewrite seq_S, fold_left_app. simpl. apply Hstep; [lia|].
  apply IH; [|exact Hs]. intros; apply Hstep; [lia|assumption].
Qed.

Lemma fold_list_invariant {S A} (P : S -> Prop) (f : S -> A -> S) (l : list A) s :
  (forall s a, In a l -> P s -> P (f s a)) -> P s -> P (fold_left f l s).
Proof.
  revert s. induction l as [|a l IH]; intros s Hstep Hs; [exact Hs|].
  simpl. apply IH.
  - intros; apply Hstep; [right|]; assumption.
  - apply Hstep; [left; reflexivity|exact Hs].
Qed.

Lemma round_done_reach st :
  done_reach (fst st) ->
  done_reach (fst (fold_left (gen_sweep lst len) gens st)).
Proof.
  apply (fold_list_invariant (fun st => done_reach (fst st))).
  intros s p Hp Hs. unfold gen_sweep.
  apply (fold_seq_invariant (fun st => done_reach (fst st))); [|exact Hs].
  intros; apply extend_step_done_reach; assumption.
Qed.

(** An orbit element that is never reached is never done. *)
Lemma all_done_reach ind :
  done_reach ind -> all_done ind lst len = true ->
  forall pos i, L !! pos = Some i -> reach gens root i.
Proof.
  intros Hd Ha pos i Hi. unfold all_done in Ha.
  rewrite forallb_forall in Ha.
  destruct (L_bound _ _ Hi) as [_ Hp].
  specialize (Ha pos ltac:(apply in_seq; lia)).
  apply Z.ltb_lt in Ha. rewrite (Hlst _ _ Hi) in Ha. eapply Hd; eauto.
Qed.

Lemma sweep_loop_uncovered fuel st w pos :
  L !! pos = Some w -> ~ reach gens root w -> done_reach (fst st) ->
  sweep_loop fuel gens lst len st = None.
Proof.
  intros Hw Hnr. revert st. induction fuel as [|fuel IH]; intros st Hd; [reflexivity|].
  simpl. destruct (all_done (fst st) lst len) eqn:Ha.
  - exfalso. apply Hnr. eapply all_done_reach; eauto.
  - apply IH. apply round_done_reach. exact Hd.
Qed.

(** The full invariant, for generators that are permutations. *)

Hypothesis Hgens : Forall (perm_of n) gens.

Definition row_ok (t : list (list nat)) (pos i : nat) : Prop :=
  gen_product n gens (t !!! pos) /\ (t !!! pos) !!! root = i.

Definition inv (st : list Z * list (list nat)) : Prop :=
  length (fst st) = n /\ length (snd st) = len /\
  (forall i, i < n -> same_orbit g i root = false ->
             fst st !!! i = (- (Z.of_nat n + 1))%Z) /\
  (forall pos i, L !! pos = Some i ->
     fst st !!! i = Z.of_nat pos \/
     (fst st !!! i = (-1)%Z /\ row_ok (snd st) pos i)) /\
  (exists rp, L !! rp = Some root /\ fst st !!! root = (-1)%Z /\
              snd st !!! rp = seq 0 n).

Lemma gens_bound p x : In p gens -> x < n -> p !!! x < n.
Proof.
  intros Hp Hx. apply perm_of_bound; [|exact Hx].
  rewrite List.Forall_forall in Hgens. apply Hgens. exact Hp.
Qed.

Lemma extend_step_inv p st j :
  In p gens -> j < len -> inv st -> inv (extend_step p lst st j).
Proof.
  intros Hp Hj Hinv. destruct st as [ind t]. unfold extend_step.
  destruct ((0 <=? ind !!! (p !!! (lst !!! j)))%Z &&
            (ind !!! (lst !!! j) <? 0)%Z) eqn:Hc; [|exact Hinv].
  apply andb_true_iff in Hc as [Hq Hu].
  apply Z.leb_le in Hq. apply Z.ltb_lt in Hu.
  destruct Hinv as (Hli & Hlt & Hout & Hin & (rp & Hrp & Hrind & Hrt)).
  simpl in *.
  pose proof (L_pos j Hj) as HLj. set (u := lst !!! j) in *.
  destruct (L_bound _ _ HLj) as [Hun _].
  pose proof (gens_bound p u Hp Hun) as Hvn. set (v := p !!! u) in *.
  assert (Hvo : same_orbit g v root = true).
  { destruct (same_orbit g v root) eqn:E; [reflexivity|].
    rewrite (Hout v Hvn E) in Hq. lia. }
  destruct (L_complete v Hvn Hvo) as [pv Hpv].
  destruct (L_bound _ _ Hpv) as [_ Hpvl].
  assert (Hqv : ind !!! v = Z.of_nat pv).
  { destruct (Hin _ _ Hpv) as [E|[E _]]; [exact E|lia]. }
  assert (Hrow : row_ok t j u).
  { destruct (Hin _ _ HLj) as [E|[_ E]]; [lia|exact E]. }
  rewrite Hqv, Nat2Z.id.
  assert (Hvr : v <> root) by (intros E; rewrite E in Hqv; lia).
  unfold inv; simpl. rewrite !length_insert.
  split; [exact Hli|]. split; [exact Hlt|]. split; [|split].
  - intros i Hi Hf. assert (i <> v) by congruence.
    rewrite list_lookup_total_insert_ne by congruence. apply Hout; assumption.
  - intros pos i Hpi. destruct (Nat.eq_dec i v) as [->|Hne].
    + right. rewrite (L_inj _ _ _ Hpi Hpv).
      split; [apply list_lookup_total_insert_eq; lia|].
      unfold row_ok. rewrite list_lookup_total_insert_eq by lia.
      destruct Hrow as [Hg Hr]. split.
      * apply gp_step; assumption.
      * rewrite compose_lookup.
        -- rewrite Hr. reflexivity.
        -- rewrite (gen_product_length _ _ _ Hg). exact Hroot.
    + rewrite list_lookup_total_insert_ne by congruence.
      destruct (Hin _ _ Hpi) as [E|[E1 E2]]; [left; exact E|right].
      split; [exact E1|]. unfold row_ok.
      rewrite list_lookup_total_insert_ne; [exact E2|].
      intros ->. apply Hne. congruence.
  - exists rp. split; [exact Hrp|]. split.
    + rewrite list_lookup_total_insert_ne by congruence. exact Hrind.
    + rewrite list_lookup_total_insert_ne; [exact Hrt|].
      intros ->. apply Hvr. congruence.
Qed.

Lemma gen_sweep_inv st p : In p gens -> inv st -> inv (gen_sweep lst len st p).
Proof.
  intros Hp Hs. unfold gen_sweep. apply fold_seq_invariant; [|exact Hs].
  intros; apply extend_step_inv; assumption.
Qed.

Lemma round_inv st : inv st -> inv (fold_left (gen_sweep lst len) gens st).
Proof.
  apply fold_list_invariant. intros; apply gen_sweep_inv; assumption.
Qed.

Lemma sweep_loop_inv fuel st st' :
  inv st -> sweep_loop fuel gens lst len st = Some st' ->
  inv st' /\ all_done (fst st') lst len = true.
Proof.
  revert st. induction fuel as [|fuel IH]; intros st Hs H; [discriminate|].
  simpl in H. destruct (all_done (fst st) lst len) eqn:Ha.
  - injection H as <-. split; assumption.
  - eapply IH; [|exact H]. apply round_inv. exact Hs.
Qed.

(** When the loop is left every row of the table is a product of
    generators that carries the root to its orbit element. *)
Lemma inv_done_rows st :
  inv st -> all_done (fst st) lst len = true ->
  forall pos i, L !! pos = Some i -> row_ok (snd st) pos i.
Proof.
  intros (_ & _ & _ & Hin & _) Ha pos i Hi.
  unfold all_done in Ha. rewrite forallb_forall in Ha.
  destruct (L_bound _ _ Hi) as [_ Hp].
  specialize (Ha pos ltac:(apply in_seq; lia)). apply Z.ltb_lt in Ha.
  rewrite (Hlst _ _ Hi) in Ha.
  destruct (Hin _ _ Hi) as [E|[_ E]]; [lia|exact E].
Qed.

Lemma inv_check_traversal st :
  inv st -> all_done (fst st) lst len = true ->
  check_traversal (snd st) lst len root = true.
Proof.
  intros Hs Ha. unfold check_traversal. apply forallb_forall.
  intros j Hj. apply in_seq in Hj. apply Nat.eqb_eq.
  pose proof (L_pos j ltac:(lia)) as HLj.
  destruct (inv_done_rows st Hs Ha _ _ HLj) as [_ E]. exact E.
Qed.

(** *** Progress of the sweep when the generators cover the orbit *)

Hypothesis Hclosed : forall p u,
  In p gens -> u < n -> same_orbit g u root = true ->
  same_orbit g (p !!! u) root = true.
Hypothesis Hcover : forall pos i, L !! pos = Some i -> reach gens root i.

Definition undone (ind : list Z) : nat :=
  length (List.filter (fun i => (0 <=? ind !!! i)%Z) L).

Lemma filter_length_mono {A} (f f' : A -> bool) (l : list A) :
  (forall x, In x l -> f' x = true -> f x = true) ->
  length (List.filter f' l) <= length (List.filter f l).
Proof.
  induction l as [|a l IH]; intros H; simpl; [lia|].
  assert (IH' := IH (fun x Hx => H x (or_intror Hx))).
  destruct (f' a) eqn:E'.
  - rewrite (H a (or_introl eq_refl) E'). simpl. lia.
  - destruct (f a); simpl; lia.
Qed.

Lemma filter_length_strict {A} (f f' : A -> bool) (l : list A) (w : A) :
  (forall x, In x l -> f' x = true -> f x = true) ->
  In w l -> f w = true -> f' w = false ->
  length (List.filter f' l) < length (List.filter f l).
Proof.
  induction l as [|a l IH]; intros H Hw Hf Hf'; [destruct Hw|].
  simpl. assert (Hm := filter_length_mono f f' l (fun x Hx => H x (or_intror Hx))).
  destruct Hw as [->|Hw].
  - rewrite Hf, Hf'. simpl. lia.
  - assert (IH' := IH (fun x Hx => H x (or_intror Hx)) Hw Hf Hf').
    destruct (f' a) eqn:E'.
    + rewrite (H a (or_introl eq_refl) E'). simpl. lia.
    + destruct (f a); simpl; lia.
Qed.

Lemma forallb_false_witness {A} (f : A -> bool) (l : list A) :
  forallb f l = false -> exists x, In x l /\ f x = false.
Proof.
  induction l as [|a l IH]; simpl; [discriminate|].
  destruct (f a) eqn:E; simpl.
  - intros H. destruct (IH H) as (x & Hx & Hfx). exists x. tauto.
  - intros _. exists a. tauto.
Qed.

Lemma fold_fires {S A} (P Q : S -> Prop) (f : S -> A -> S) (l : list A) a s :
  In a l ->
  (forall s b, In b l -> P s -> P (f s b)) ->
  (forall s, P s -> Q (f s a)) ->
  (forall s b, Q s -> Q (f s b)) ->
  P s -> Q (fold_left f l s).
Proof.
  intros Ha HP HPQ HQ Hs.
  apply in_split in Ha as (l1 & l2 & ->).
  rewrite fold_left_app. simpl.
  apply (fold_list_invariant Q); [intros; apply HQ; assumption|].
  apply HPQ. apply (fold_list_invariant P); [|exact Hs].
  intros s' b Hb. apply HP. apply in_or_app. left. exact Hb.
Qed.

Lemma extend_step_mono p st j x :
  (fst st !!! x < 0)%Z -> (fst (extend_step p lst st j) !!! x < 0)%Z.
Proof.
  destruct st as [ind t]. unfold extend_step.
  destruct ((0 <=? ind !!! (p !!! (lst !!! j)))%Z &&
            (ind !!! (lst !!! j) <? 0)%Z); simpl; [|tauto].
  intros H. rewrite list_lookup_total_insert. case_decide; [lia|exact H].
Qed.

Lemma gen_sweep_mono p st x :
  (fst st !!! x < 0)%Z -> (fst (gen_sweep lst len st p) !!! x < 0)%Z.
Proof.
  unfold gen_sweep.
  apply (fold_list_invariant (fun st => (fst st !!! x < 0)%Z)).
  intros; apply extend_step_mono; assumption.
Qed.

Lemma round_mono st x :
  (fst st !!! x < 0)%Z ->
  (fst (fold_left (gen_sweep lst len) gens st) !!! x < 0)%Z.
Proof.
  apply (fold_list_invariant (fun st => (fst st !!! x < 0)%Z)).
  intros; apply gen_sweep_mono; assumption.
Qed.

Lemma extend_step_fires p st j :
  In p gens -> j < len -> inv st -> (fst st !!! (lst !!! j) < 0)%Z ->
  (fst (extend_step p lst st j) !!! (p !!! (lst !!! j)) < 0)%Z.
Proof.
  intros Hp Hj Hs Hu. destruct st as [ind t]. unfold extend_step.
  destruct Hs as (Hli & _). simpl in *.
  destruct (L_bound _ _ (L_pos j Hj)) as [Hun _].
  pose proof (gens_bound p _ Hp Hun) as Hvn.
  destruct ((0 <=? ind !!! (p !!! (lst !!! j)))%Z &&
            (ind !!! (lst !!! j) <? 0)%Z) eqn:Hc; simpl.
  - rewrite list_lookup_total_insert_eq by lia. lia.
  - apply andb_false_iff in Hc as [Hc|Hc].
    + apply Z.leb_gt in Hc. exact Hc.
    + apply Z.ltb_ge in Hc. lia.
Qed.

Lemma gen_sweep_fires p st j :
  In p gens -> j < len -> inv st -> (fst st !!! (lst !!! j) < 0)%Z ->
  (fst (gen_sweep lst len st p) !!! (p !!! (lst !!! j)) < 0)%Z.
Proof.
  intros Hp Hj Hs Hu. unfold gen_sweep.
  apply (fold_fires (fun st => inv st /\ (fst st !!! (lst !!! j) < 0)%Z)
                    (fun st => (fst st !!! (p !!! (lst !!! j)) < 0)%Z)
                    _ _ j).
  - apply in_seq. lia.
  - intros s b Hb [H1 H2]. apply in_seq in Hb. split.
    + apply extend_step_inv; [assumption|lia|assumption].
    + apply extend_step_mono. exact H2.
  - intros s [H1 H2]. apply extend_step_fires; assumption.
  - intros s b H. apply extend_step_mono. exact H.
  - split; assumption.
Qed.

Lemma round_fires p st j :
  In p gens -> j < len -> inv st -> (fst st !!! (lst !!! j) < 0)%Z ->
  (fst (fold_left (gen_sweep lst len) gens st) !!! (p !!! (lst !!! j)) < 0)%Z.
Proof.
  intros Hp Hj Hs Hu.
  apply (fold_fires (fun st => inv st /\ (fst st !!! (lst !!! j) < 0)%Z)
                    (fun st => (fst st !!! (p !!! (lst !!! j)) < 0)%Z)
                    _ _ p).
  - exact Hp.
  - intros s b Hb [H1 H2]. split.
    + apply gen_sweep_inv; assumption.
    + apply gen_sweep_mono. exact H2.
  - intros s [H1 H2]. apply gen_sweep_fires; assumption.
  - intros s b H. apply gen_sweep_mono. exact H.
  - split; assumption.
Qed.

Lemma reach_orbit x :
  reach gens root x -> x < n /\ same_orbit g x root = true.
Proof.
  intros H. induction H as [|p u Hp _ [IH1 IH2]].
  - split; [exact Hroot|]. unfold same_orbit. rewrite Nat.eqb_refl. reflexivity.
  - split; [apply gens_bound; assumption|apply Hclosed; assumption].
Qed.

(** Between the done and the undone vertices there is an edge of some
    generator. *)
Lemma frontier (ind : list Z) x :
  (ind !!! root < 0)%Z -> reach gens root x ->
  (ind !!! x < 0)%Z \/
  exists p u, In p gens /\ reach gens root u /\
              (ind !!! u < 0)%Z /\ (0 <= ind !!! (p !!! u))%Z.
Proof.
  intros Hr H. induction H as [|p u Hp Hu IH].
  - left. exact Hr.
  - destruct IH as [IH|IH]; [|right; exact IH].
    destruct (Z_lt_dec (ind !!! (p !!! u)) 0) as [Hv|Hv]; [left; exact Hv|].
    right. exists p, u. repeat split; try assumption. lia.
Qed.

Lemma round_progress st :
  inv st -> all_done (fst st) lst len = false ->
  undone (fst (fold_left (gen_sweep lst len) gens st)) < undone (fst st).
Proof.
  intros Hs Ha. unfold all_done in Ha.
  apply forallb_false_witness in Ha as (jw & Hjw & Hw).
  apply in_seq in Hjw. apply Z.ltb_ge in Hw.
  pose proof (L_pos jw ltac:(lia)) as HLw.
  pose proof (Hcover _ _ HLw) as Hrw.
  assert (Hrind : (fst st !!! root < 0)%Z).
  { destruct Hs as (_ & _ & _ & _ & (rp & _ & E & _)). lia. }
  destruct (frontier (fst st) _ Hrind Hrw) as [Hc|(p & u & Hp & Hu & Hud & Hv)];
    [lia|].
  destruct (reach_orbit u Hu) as [Hun Huo].
  destruct (L_complete u Hun Huo) as [j Hj].
  destruct (L_bound _ _ Hj) as [_ Hjl].
  pose proof (Hlst _ _ Hj) as Hlj.
  destruct (reach_orbit _ (reach_step gens root p u Hp Hu)) as [Hvn Hvo].
  destruct (L_complete _ Hvn Hvo) as [jv Hjv].
  unfold undone.
  apply (filter_length_strict _ _ L (p !!! u)).
  - intros x _ Hx. apply Z.leb_le in Hx. apply Z.leb_le.
    destruct (Z_lt_dec (fst st !!! x) 0) as [Hn|Hn]; [|lia].
    pose proof (round_mono st x Hn). lia.
  - apply list_elem_of_In, list_elem_of_lookup. eauto.
  - apply Z.leb_le. exact Hv.
  - apply Z.leb_gt. rewrite <- Hlj. apply round_fires; try assumption.
    rewrite Hlj. exact Hud.
Qed.

Lemma sweep_loop_terminates fuel st :
  inv st -> undone (fst st) < fuel ->
  exists st', sweep_loop fuel gens lst len st = Some st'.
Proof.
  revert st. induction fuel as [|fuel IH]; intros st Hs Hm; [lia|].
  simpl. destruct (all_done (fst st) lst len) eqn:Ha; [eauto|].
  apply IH; [apply round_inv; exact Hs|].
  pose proof (round_progress st Hs Ha). lia.
Qed.

End Sweep.

(** *** The state at the entry of the sweep *)

Section Entry.

Variable g : graph_t.
Variable root : nat.
Hypothesis Hroot : root < graph_order g.

Let n := graph_order g.
Let gens := graph_aut_gens sparsenauty g.
Let L := orbit_elems g root.
Let s := scan_orbit n root g.

Definition entry_state : list Z * list (list nat) :=
  (<[root := (-1)%Z]> (s_ind s),
   <[Z.to_nat (s_rootpos s) := seq 0 n]> (replicate (s_len s) (replicate n 0))).

Lemma scan_len : s_len s = length L.
Proof. apply (scan_orbit_full n root g). Qed.

Lemma scan_list pos i : L !! pos = Some i -> s_list s !!! pos = i.
Proof.
  intros H. destruct (scan_orbit_full n root g) as (_ & _ & _ & Htake & _).
  change (take (s_len s) (s_list s) = L) in Htake.
  rewrite <- Htake in H. apply lookup_take_Some in H as [H _].
  apply list_lookup_total_correct. exact H.
Qed.

Lemma entry_done_reach : done_reach g root (fst entry_state).
Proof.
  destruct (scan_orbit_full n root g) as (_ & _ & Hli & _ & _ & Hin & _).
  fold s in Hli, Hin.
  intros pos i Hi Hneg. simpl in Hneg.
  destruct (Nat.eq_dec i root) as [->|Hne]; [apply reach_root|].
  rewrite list_lookup_total_insert_ne in Hneg by congruence.
  destruct (L_bound g root _ _ Hi) as [Hin' _].
  destruct (Hin i Hin' (L_orbit g root _ _ Hi)) as (pos' & E & _).
  rewrite E in Hneg. lia.
Qed.

Lemma entry_inv : inv g root entry_state.
Proof.
  destruct (scan_orbit_full n root g) as (Hlen & _ & Hli & _ & Hout & Hin & Hrp).
  fold s in Hlen, Hli, Hout, Hin, Hrp.
  change (List.filter (fun i => same_orbit g i root) (seq 0 n)) with L in *.
  destruct (Hrp Hroot) as (rp & Erp & HLrp).
  destruct (L_bound g root _ _ HLrp) as [_ Hrpl].
  assert (Hrow : snd entry_state !!! rp = seq 0 n).
  { simpl. rewrite Erp, Nat2Z.id. apply list_lookup_total_insert_eq.
    rewrite length_replicate, Hlen. exact Hrpl. }
  unfold inv. simpl fst. split; [|split; [|split; [|split]]].
  - rewrite length_insert. exact Hli.
  - simpl. rewrite length_insert, length_replicate. exact Hlen.
  - intros i Hi Hf. assert (i <> root).
    { intros ->. unfold same_orbit in Hf. rewrite Nat.eqb_refl in Hf. discriminate. }
    rewrite list_lookup_total_insert_ne by congruence. apply Hout; assumption.
  - intros pos i Hi. destruct (Nat.eq_dec i root) as [->|Hne].
    + right. split; [apply list_lookup_total_insert_eq; lia|].
      rewrite (L_inj g root _ _ _ Hi HLrp). unfold row_ok. rewrite Hrow.
      split; [apply gp_id|]. apply lookup_total_seq_lt. exact Hroot.
    + left. rewrite list_lookup_total_insert_ne by congruence.
      destruct (L_bound g root _ _ Hi) as [Hin' _].
      destruct (Hin i Hin' (L_orbit g root _ _ Hi)) as (pos' & E & HL').
      rewrite E. f_equal. eapply L_inj; eauto.
  - exists rp. split; [exact HLrp|]. split; [|exact Hrow].
    apply list_lookup_total_insert_eq. lia.
Qed.

End Entry.

(** *** What [traversal_prepare] returns *)

Lemma traversal_prepare_unfold fuel root g :
  root < graph_order g ->
  traversal_prepare fuel root g =
  match sweep_loop fuel (graph_aut_gens sparsenauty g)
          (s_list (scan_orbit (graph_order g) root g))
          (s_len (scan_orbit (graph_order g) root g)) (entry_state g root) with
  | None => None
  | Some (_, t) =>
      if check_traversal t (s_list (scan_orbit (graph_order g) root g))
           (s_len (scan_orbit (graph_order g) root g)) root
      then Some (Ok (s_len (scan_orbit (graph_order g) root g), t))
      else Some (Abort "bad traversal")
  end.
Proof.
  intros H. unfold traversal_prepare.
  destruct (Nat.leb_spec (graph_order g) root); [lia|]. reflexivity.
Qed.

Lemma traversal_prepare_root fuel root g r :
  traversal_prepare fuel root g = Some (Ok r) -> root < graph_order g.
Proof.
  unfold traversal_prepare.
  destruct (Nat.leb_spec (graph_order g) root); [discriminate|]. intros _. lia.
Qed.

(** Partial correctness: whatever the fuel, a returned table is a
    transversal of the orbit of the root made of products of generators. *)
Lemma traversal_prepare_sound fuel root g len t :
  Forall (perm_of (graph_order g)) (graph_aut_gens sparsenauty g) ->
  traversal_prepare fuel root g = Some (Ok (len, t)) ->
  len = length (orbit_elems g root) /\ length t = len /\
  (forall j v, orbit_elems g root !! j = Some v ->
     gen_product (graph_order g) (graph_aut_gens sparsenauty g) (t !!! j) /\
     (t !!! j) !!! root = v) /\
  (exists jr, orbit_elems g root !! jr = Some root /\
              t !!! jr = seq 0 (graph_order g)).
Proof.
  intros Hg H. pose proof (traversal_prepare_root _ _ _ _ H) as Hroot.
  rewrite traversal_prepare_unfold in H by exact Hroot.
  destruct (sweep_loop _ _ _ _ _) as [[ind t']|] eqn:Hs; [|discriminate].
  destruct (check_traversal _ _ _ _); [|discriminate].
  injection H as <- <-.
  rewrite scan_len in Hs |- *.
  apply (sweep_loop_inv g root _ Hroot (scan_list g root) Hg) in Hs
    as [Hinv Hdone]; [|apply entry_inv; exact Hroot].
  split; [reflexivity|]. split; [apply Hinv|]. split.
  - intros j v Hj.
    eapply (inv_done_rows g root) with (st := (ind, t')); eauto using scan_list.
  - destruct Hinv as (_ & _ & _ & _ & (rp & H1 & _ & H2)). eauto.
Qed.

(** The orbit elements in list order, as read off the returned table;
    this holds by the final check alone. *)
Lemma traversal_prepare_images fuel root g len t :
  traversal_prepare fuel root g = Some (Ok (len, t)) ->
  len = length (orbit_elems g root) /\
  forall j v, orbit_elems g root !! j = Some v -> (t !!! j) !!! root = v.
Proof.
  intros H. pose proof (traversal_prepare_root _ _ _ _ H) as Hroot.
  rewrite traversal_prepare_unfold in H by exact Hroot.
  destruct (sweep_loop _ _ _ _ _) as [[ind t']|] eqn:Hs; [|discriminate].
  destruct (check_traversal _ _ _ _) eqn:Hc; [|discriminate].
  injection H as <- <-. split; [apply scan_len|].
  intros j v Hj. unfold check_traversal in Hc. rewrite forallb_forall in Hc.
  destruct (L_bound g root _ _ Hj) as [_ Hjl].
  specialize (Hc j ltac:(apply in_seq; rewrite scan_len; lia)).
  apply Nat.eqb_eq in Hc. rewrite Hc. apply scan_list. exact Hj.
Qed.

(** Total correctness under the contract of the labeler. *)
Lemma traversal_prepare_returns root g :
  root < graph_order g ->
  Forall (perm_of (graph_order g)) (graph_aut_gens sparsenauty g) ->
  (forall p u, In p (graph_aut_gens sparsenauty g) -> u < graph_order g ->
               same_orbit g u root = true -> same_orbit g (p !!! u) root = true) ->
  (forall v, v < graph_order g -> same_orbit g v root = true ->
             reach (graph_aut_gens sparsenauty g) root v) ->
  exists t, traversal_prepare (S (length (orbit_elems g root))) root g
            = Some (Ok (length (orbit_elems g root), t)).
Proof.
  intros Hroot Hg Hclosed Hcover.
  rewrite traversal_prepare_unfold by exact Hroot. rewrite scan_len.
  assert (Hcov' : forall pos i, orbit_elems g root !! pos = Some i ->
                                reach (graph_aut_gens sparsenauty g) root i).
  { intros pos i Hi. apply Hcover; [eapply L_bound|eapply L_orbit]; eauto. }
  destruct (sweep_loop_terminates g root _ Hroot (scan_list g root) Hg Hclosed Hcov'
              (S (length (orbit_elems g root))) (entry_state g root))
    as [[ind t] Hs].
  - apply entry_inv. exact Hroot.
  - unfold undone. pose proof (filter_length_le
      (fun i => (0 <=? fst (entry_state g root) !!! i)%Z) (orbit_elems g root)). lia.
  - rewrite Hs. exists t.
    apply (sweep_loop_inv g root _ Hroot (scan_list g root) Hg) in Hs
      as [Hinv Hdone]; [|apply entry_inv; exact Hroot].
    assert (Hc : check_traversal (snd (ind, t))
                   (s_list (scan_orbit (graph_order g) root g))
                   (length (orbit_elems g root)) root = true).
    { eapply (inv_check_traversal g root); eauto using scan_list. }
    simpl in Hc. rewrite Hc. reflexivity.
Qed.

(** Without coverage the loop is never left. *)
Lemma traversal_prepare_stuck root g w fuel :
  root < graph_order g -> w < graph_order g -> same_orbit g w root = true ->
  ~ reach (graph_aut_gens sparsenauty g) root w ->
  traversal_prepare fuel root g = None.
Proof.
  intros Hroot Hw Hwo Hnr.
  rewrite traversal_prepare_unfold by exact Hroot. rewrite scan_len.
  assert (exists pos, orbit_elems g root !! pos = Some w) as [pos Hpos]
    by (eapply L_complete; eauto).
  erewrite (sweep_loop_uncovered g root); eauto using scan_list, entry_done_reach.
Qed.

End Traversal.

End Traversal.

(** ** The orbit-minimum indicator (reduce.c) *)

Module OrbitMin.
Import Graph.

(** [for(; j < n && c[p[i]] == c[p[j]]; j++);] *)
Fixpoint cell_stop (fuel : nat) (c p : list nat) (n i j : nat) : nat :=
  match fuel with
  | 0 => j
  | S fuel' =>
      if (j <? n) && (c !!! (p !!! i) =? c !!! (p !!! j))
      then cell_stop fuel' c p n i (S j)
      else j
  end.

(** [relabel[v]], or [v] when [relabel == NULL]. *)
Definition relabel_at (relabel : option (list nat)) (v : nat) : nat :=
  match relabel with
  | Some r => r !!! v
  | None => v
  end.

(** The second loop of [orbit_min_ind]; [i] jumps from cell to cell. *)
Fixpoint orbit_min_loop (fuel : nat) (c p : list nat)
    (relabel : option (list nat)) (n i : nat) (ind : list nat) : list nat :=
  match fuel with
  | 0 => ind
  | S fuel' =>
      if i <? n then
        let ind' := <[relabel_at relabel (p !!! i) := 1]> ind in
        let j := cell_stop n c p n i (i + 1) in
        orbit_min_loop fuel' c p relabel n j ind'
      else ind
  end.

Section OrbitMin.

Variable sparsenauty : graph_t -> canon_t.

Definition orbit_min_ind (g : graph_t) (relabel : option (list nat))
  : list nat :=
  let n := graph_order g in
  let p := graph_orbit_cells sparsenauty g in
  let c := graph_orbits sparsenauty g in
  orbit_min_loop n c p relabel n 0 (replicate n 0).

End OrbitMin.

(** *** The indicator marks the first vertex of every cell *)

Section Marks.

Variable c : list nat.
Variable n : nat.
Variable p : list nat.
Variable relabel : option (list nat).

Hypothesis Hperm : p ≡ₚ seq 0 n.
Hypothesis Hlex : lex_sorted c p n.
Hypothesis Hnu_bound : forall u, u < n -> relabel_at relabel u < n.
Hypothesis Hnu_inj : forall u w,
  u < n -> w < n -> relabel_at relabel u = relabel_at relabel w -> u = w.

Lemma p_length : length p = n.
Proof. rewrite Hperm. apply length_seq. Qed.

Lemma p_bound k : k < n -> p !!! k < n.
Proof.
  intros Hk. assert (Hin : p !!! k ∈ seq 0 n).
  { rewrite <- Hperm. apply list_elem_of_lookup. exists k.
    apply list_lookup_lookup_total_lt. rewrite p_length. exact Hk. }
  apply elem_of_seq in Hin. lia.
Qed.

Lemma p_surj w : w < n -> exists k, k < n /\ p !!! k = w.
Proof.
  intros Hw. assert (Hin : w ∈ p).
  { rewrite Hperm. apply elem_of_seq. lia. }
  apply list_elem_of_lookup in Hin as [k Hk]. exists k.
  split; [rewrite <- p_length; eapply lookup_lt_Some; eauto|].
  apply list_lookup_total_correct. exact Hk.
Qed.

Lemma p_key_sorted i j :
  i <= j -> j < n -> c !!! (p !!! i) <= c !!! (p !!! j).
Proof.
  intros Hij Hj. destruct (Nat.eq_dec i j) as [->|Hne]; [lia|].
  destruct (Hlex i j ltac:(lia) Hj); lia.
Qed.

Lemma cell_stop_spec fuel i j :
  i < j -> j <= n -> n <= j + fuel ->
  (forall k, i <= k -> k < j -> c !!! (p !!! k) = c !!! (p !!! i)) ->
  let e := cell_stop fuel c p n i j in
  j <= e /\ e <= n /\
  (forall k, i <= k -> k < e -> c !!! (p !!! k) = c !!! (p !!! i)) /\
  (e = n \/ c !!! (p !!! i) <> c !!! (p !!! e)).
Proof.
  revert j. induction fuel as [|fuel IH]; intros j Hij Hjn Hf Hsame; cbv zeta; simpl.
  - assert (j = n) by lia. subst. split; [lia|]. split; [lia|].
    split; [exact Hsame|]. left. reflexivity.
  - destruct (Nat.ltb_spec j n) as [Hlt|Hge]; cbn [andb].
    + destruct (Nat.eqb_spec (c !!! (p !!! i)) (c !!! (p !!! j))) as [E|E].
      * destruct (IH (S j)) as (H1 & H2 & H3 & H4); [lia|lia|lia| |].
        { intros k Hk1 Hk2. destruct (Nat.eq_dec k j) as [->|Hne];
            [symmetry; exact E|apply Hsame; lia]. }
        split; [lia|]. split; [lia|]. split; assumption.
      * split; [lia|]. split; [lia|]. split; [exact Hsame|]. right. exact E.
    + split; [lia|]. split; [lia|]. split; [exact Hsame|]. left. lia.
Qed.

(** The first vertex of a cell is the least vertex of its orbit. *)
Lemma cell_start_min k :
  k < n ->
  (cell_start c p k <->
   forall w, w < n -> c !!! w = c !!! (p !!! k) -> p !!! k <= w).
Proof.
  intros Hk. split.
  - intros Hcs w Hw Hc. destruct (p_surj w Hw) as (k' & Hk' & <-).
    destruct (Nat.lt_trichotomy k' k) as [Hlt|[->|Hgt]]; [|lia|].
    + exfalso. destruct Hcs as [H0|Hne]; [lia|]. apply Hne.
      pose proof (p_key_sorted k' (k - 1) ltac:(lia) ltac:(lia)).
      pose proof (p_key_sorted (k - 1) k ltac:(lia) ltac:(lia)). lia.
    + destruct (Hlex k k' Hgt Hk'); lia.
  - intros Hmin. destruct (Nat.eq_dec k 0) as [->|Hk0]; [left; reflexivity|].
    right. intros E. pose proof (p_bound (k - 1) ltac:(lia)) as Hb.
    specialize (Hmin _ Hb E).
    destruct (Hlex (k - 1) k ltac:(lia) Hk); lia.
Qed.

Definition marks (i : nat) (ind : list nat) : Prop :=
  length ind = n /\
  (forall u, u < n -> ind !!! relabel_at relabel u = 1 \/
                      ind !!! relabel_at relabel u = 0) /\
  (forall k, k < i -> k < n -> cell_start c p k ->
             ind !!! relabel_at relabel (p !!! k) = 1) /\
  (forall u, u < n -> ind !!! relabel_at relabel u = 1 ->
             exists k, k < i /\ k < n /\ cell_start c p k /\ p !!! k = u).

Lemma orbit_min_loop_marks fuel i ind :
  n <= i + fuel -> i <= n -> (i < n -> cell_start c p i) -> marks i ind ->
  marks n (orbit_min_loop fuel c p relabel n i ind).
Proof.
  revert i ind. induction fuel as [|fuel IH]; intros i ind Hf Hi Hcs Hm; simpl.
  - assert (i = n) by lia. subst. exact Hm.
  - destruct (Nat.ltb_spec i n) as [Hlt|Hge];
      [|assert (i = n) by lia; subst; exact Hm].
    destruct (cell_stop_spec n i (i + 1)) as (E1 & E2 & E3 & E4); [lia..| |].
    { intros k Hk1 Hk2. replace k with i by lia. reflexivity. }
    set (e := cell_stop n c p n i (i + 1)) in *.
    destruct Hm as (M1 & M2 & M3 & M4).
    pose proof (p_bound i Hlt) as Hpi.
    pose proof (Hnu_bound _ Hpi) as Hnpi.
    apply IH; [lia|lia| |].
    + intros He. right. rewrite (E3 (e - 1)) by lia. destruct E4; [lia|assumption].
    + split; [rewrite length_insert; exact M1|]. split; [|split].
      * intros u Hu.
        destruct (Nat.eq_dec (relabel_at relabel (p !!! i)) (relabel_at relabel u))
          as [E|E].
        -- left. rewrite <- E. apply list_lookup_total_insert_eq. lia.
        -- rewrite list_lookup_total_insert_ne by exact E. apply M2. exact Hu.
      * intros k Hk Hkn Hck.
        destruct (Nat.eq_dec (relabel_at relabel (p !!! i))
                             (relabel_at relabel (p !!! k))) as [E|E].
        -- rewrite <- E. apply list_lookup_total_insert_eq. lia.
        -- rewrite list_lookup_total_insert_ne by exact E.
           apply M3; [|exact Hkn|exact Hck].
           destruct (Nat.lt_ge_cases k i) as [H1|H1]; [exact H1|].
           exfalso. destruct (Nat.eq_dec k i) as [->|Hne]; [congruence|].
           destruct Hck as [H0|Hne']; [lia|]. apply Hne'.
           rewrite (E3 (k - 1)), (E3 k) by lia. reflexivity.
      * intros u Hu H1.
        destruct (Nat.eq_dec (relabel_at relabel (p !!! i)) (relabel_at relabel u))
          as [E|E].
        -- exists i. split; [lia|]. split; [lia|]. split; [apply Hcs; lia|].
           apply Hnu_inj; assumption.
        -- rewrite list_lookup_total_insert_ne in H1 by exact E.
           destruct (M4 u Hu H1) as (k & Hk1 & Hk2 & Hk3 & Hk4).
           exists k. repeat split; try assumption. lia.
Qed.

Lemma orbit_min_loop_spec :
  let ind := orbit_min_loop n c p relabel n 0 (replicate n 0) in
  length ind = n /\
  forall u, u < n ->
    (ind !!! relabel_at relabel u = 1 \/ ind !!! relabel_at relabel u = 0) /\
    (ind !!! relabel_at relabel u = 1 <->
     forall w, w < n -> c !!! w = c !!! u -> u <= w).
Proof.
  cbv zeta.
  destruct (orbit_min_loop_marks n 0 (replicate n 0)) as (M1 & M2 & M3 & M4);
    [lia|lia|intros _; left; reflexivity| |].
  { split; [apply length_replicate|]. split; [|split].
    - intros u Hu. right. apply lookup_total_replicate_2. apply Hnu_bound. exact Hu.
    - intros k Hk. lia.
    - intros u Hu H1. rewrite lookup_total_replicate_2 in H1; [discriminate|].
      apply Hnu_bound. exact Hu. }
  split; [exact M1|]. intros u Hu. split; [apply M2; exact Hu|]. split.
  - intros H1. destruct (M4 u Hu H1) as (k & _ & Hk & Hcs & <-).
    apply cell_start_min; assumption.
  - intros Hmin. destruct (p_surj u Hu) as (k & Hk & <-).
    apply M3; [exact Hk|exact Hk|]. apply cell_start_min; assumption.
Qed.

End Marks.

End OrbitMin.

(** ** Divergence and failure together *)

(** [None] stands for a computation that has not finished with the fuel
    it was given. *)
Definition M (A : Type) : Type := option (outcome A).

Definition ret {A} (a : A) : M A := Some (Ok a).
Definition abort {A} (msg : string) : M A := Some (Abort msg).
Definition error {A} (msg : string) : M A := Some (Error msg).
Definition lift {A} (o : outcome A) : M A := Some o.

Definition bindM {A B} (m : M A) (f : A -> M B) : M B :=
  match m with
  | None => None
  | Some (Ok a) => f a
  | Some (Error s) => Some (Error s)
  | Some (Abort s) => Some (Abort s)
  end.

Notation "'let+' x ':=' m 'in' k" := (bindM m (fun x => k))
  (at level 10, x name, m at level 100, k at level 200).
Notation "'let+' ' pat ':=' m 'in' k" :=
  (bindM m (fun x => match x with pat => k end))
  (at level 10, pat pattern, m at level 100, k at level 200).

(** ** The orbit selector (reduce.c) *)

Module OrbitSelect.
Import Graph OrbitMin.

Record select_state := mk_select {
  q : list nat;
  max_length : Z;
  max_p : nat;
  have_good : bool;
  have_first_eligible : bool;
  first_eligible : nat
}.

(** [do { q[w] = 1; w = a[w]; len++; } while(z != w);] *)
Fixpoint cycle_walk (fuel : nat) (a : list nat) (z w : nat) (q : list nat)
    (len : nat) : option (list nat * nat) :=
  match fuel with
  | 0 => None
  | S fuel' =>
      let q' := <[w := 1]> q in
      let w' := a !!! w in
      if z =? w' then Some (q', S len)
      else cycle_walk fuel' a z w' q' (S len)
  end.

(** [while(u < l) { z = m[u]; if(q[z] == 2) { ... } u++; }] with the
    counters [num_fixed] and [num_moved]. *)
Fixpoint count_cycles (fuel : nat) (a : list nat) (ms : list nat)
    (q : list nat) (num_fixed num_moved : nat)
  : option (list nat * nat * nat) :=
  match ms with
  | [] => Some (q, num_fixed, num_moved)
  | z :: rest =>
      if q !!! z =? 2 then
        match cycle_walk fuel a z z q 0 with
        | None => None
        | Some (q', len) =>
            count_cycles fuel a rest q'
              (if len =? 1 then num_fixed + len else num_fixed)
              (if 2 <=? len then num_moved + len else num_moved)
        end
      else count_cycles fuel a rest q num_fixed num_moved
  end.

(** [for(int u = 0; u < j - i; u++) q[p[u + i]] = 2;] *)
Definition mark_cell (p : list nat) (i j : nat) (q : list nat) : list nat :=
  fold_left (fun q u => <[p !!! (u + i) := 2]> q) (seq 0 (j - i)) q.

(** The two updates of [max_length] and [max_p] after the counting. *)
Definition update_max (st : select_state) (p : list nat) (i j : nat)
    (num_fixed num_moved : nat) (q' : list nat) : select_state :=
  let len := Z.of_nat (j - i) in
  let st1 :=
    if negb (have_good st) && (max_length st <=? len)%Z
    then mk_select (q st) len (p !!! i) (have_good st)
                   (have_first_eligible st) (first_eligible st)
    else st in
  let st2 :=
    if (0 <? num_fixed) && (0 <? num_moved) then
      if negb (have_good st1) || (max_length st1 <? len)%Z
      then mk_select (q st1) len (p !!! i) true
                     (have_first_eligible st1) (first_eligible st1)
      else st1
    else st1 in
  mk_select q' (max_length st2) (max_p st2) (have_good st2)
            (have_first_eligible st2) (first_eligible st2).

(** Body of [while((a = graph_aut_gen(g)) != NULL)] for the cell [i..j-1]. *)
Definition gen_update (n : nat) (p ms : list nat) (i j : nat)
    (st : option select_state) (a : list nat) : option select_state :=
  match st with
  | None => None
  | Some st =>
      match count_cycles n a ms (mark_cell p i j (q st)) 0 0 with
      | None => None
      | Some (q', num_fixed, num_moved) =>
          Some (update_max st p i j num_fixed num_moved q')
      end
  end.

(** Body of the loop over the cells. *)
Definition cell_update (n : nat) (gens : list (list nat)) (p ms : list nat)
    (i j : nat) (st : select_state) : option select_state :=
  if 0 <? q st !!! (p !!! i) then
    let st1 :=
      if have_first_eligible st then st
      else mk_select (q st) (max_length st) (max_p st) (have_good st)
                     true (p !!! i) in
    fold_left (gen_update n p ms i j) gens (Some st1)
  else Some st.

Fixpoint select_loop (fuel : nat) (n : nat) (gens : list (list nat))
    (c p ms : list nat) (i : nat) (st : select_state) : option select_state :=
  match fuel with
  | 0 => Some st
  | S fuel' =>
      if i <? n then
        let j := cell_stop n c p n i (i + 1) in
        match cell_update n gens p ms i j st with
        | None => None
        | Some st' => select_loop fuel' n gens c p ms j st'
        end
      else Some st
  end.

(** The initial marking: variable vertices, minus the prefix. *)
Definition eligible_init (n l : nat) (m : list nat) (k : nat) (f : list nat)
  : list nat :=
  let q0 := replicate n 0 in
  let q1 := fold_left (fun q u => <[m !!! u := 1]> q) (seq 0 l) q0 in
  fold_left (fun q u => <[f !!! u := 0]> q) (seq 0 k) q1.

(** [for(int i = 0; i < n; i++) if(q[i] > 0 && t[i] > 0) return i;] *)
Definition previous_orbit_hit (n : nat) (q t : list nat) : option nat :=
  find (fun i => (0 <? q !!! i) && (0 <? t !!! i)) (seq 0 n).

Section OrbitSelect.

Variable sparsenauty : graph_t -> canon_t.

Definition orbit_select (g : graph_t) (l : nat) (m : list nat)
    (k : nat) (f : list nat) (t : option (list nat)) : M nat :=
  let n := graph_order g in
  let p := graph_orbit_cells sparsenauty g in
  let c := graph_orbits sparsenauty g in
  let q0 := eligible_init n l m k f in
  match match t with
        | Some t => previous_orbit_hit n q0 t
        | None => None
        end with
  | Some i => ret i
  | None =>
      match select_loop n n (graph_aut_gens sparsenauty g) c p (take l m) 0
              (mk_select q0 (-1)%Z 0 false false 0) with
      | None => None
      | Some st =>
          if negb (have_first_eligible st) then abort "no eligible orbit"
          else if (2 <=? max_length st)%Z then ret (max_p st)
          else ret (first_eligible st)
      end
  end.

End OrbitSelect.

End OrbitSelect.
(** ** The reducer (reduce.c) *)

Module Reducer.
Import Graph Traversal OrbitMin OrbitSelect.

(** [struct reducer_struct], without the CNF and the legends.  Integers
    kept on the work stack and in the scratch record are [Z]. *)
Record reducer_t := mk_reducer {
  r_n : nat (* number of vertices in base graph *);
  r_base : graph_t (* the base graph *);
  r_v : nat (* number of variables *);
  r_var : list nat (* variable vertices in base graph *);
  r_r : nat (* number of values *);
  r_val : list nat (* value vertices in base graph *);
  r_t : Z (* threshold size for automorphism group *);
  r_prefix_capacity : nat (* prefix capacity *);
  r_target_length : Z (* prefix target length *);
  r_k : nat (* length of prefix sequence *);
  r_prefix : list nat (* the prefix sequence *);
  r_initialized : bool (* initialized? *);
  r_orbits : list (list nat) (* indicators for prefix element orbits *);
  r_trav_sizes : list nat (* traversal sizes *);
  r_trav_ind : list (list nat) (* traversal indicators *);
  r_traversals : list (list (list nat)) (* the traversal permutations *);
  r_last_prefix_g : option graph_t (* last graph in the prefix sequence *);
  r_work : list Z (* the work stack *);
  r_seed_min : list (list nat) (* indicators for seed-orbit minima *);
  r_scratch : list Z (* scratch *);
  r_stack_top : Z (* position of the stack top *);
  r_stat_gen : list Z (* generated assignments *);
  r_stat_can : list Z (* canonical assignments *);
  r_stat_out : list Z (* assignments output *);
  r_verbose : bool (* verbose output? *)
}.

Definition set_prefix_capacity (x : nat) (r : reducer_t) : reducer_t :=
  mk_reducer (r_n r) (r_base r) (r_v r) (r_var r) (r_r r) (r_val r) (r_t r) x (r_target_length r) (r_k r) (r_prefix r) (r_initialized r) (r_orbits r) (r_trav_sizes r) (r_trav_ind r) (r_traversals r) (r_last_prefix_g r) (r_work r) (r_seed_min r) (r_scratch r) (r_stack_top r) (r_stat_gen r) (r_stat_can r) (r_stat_out r) (r_verbose r).
Definition set_k (x : nat) (r : reducer_t) : reducer_t :=
  mk_reducer (r_n r) (r_base r) (r_v r) (r_var r) (r_r r) (r_val r) (r_t r) (r_prefix_capacity r) (r_target_length r) x (r_prefix r) (r_initialized r) (r_orbits r) (r_trav_sizes r) (r_trav_ind r) (r_traversals r) (r_last_prefix_g r) (r_work r) (r_seed_min r) (r_scratch r) (r_stack_top r) (r_stat_gen r) (r_stat_can r) (r_stat_out r) (r_verbose r).
Definition set_prefix (x : list nat) (r : reducer_t) : reducer_t :=
  mk_reducer (r_n r) (r_base r) (r_v r) (r_var r) (r_r r) (r_val r) (r_t r) (r_prefix_capacity r) (r_target_length r) (r_k r) x (r_initialized r) (r_orbits r) (r_trav_sizes r) (r_trav_ind r) (r_traversals r) (r_last_prefix_g r) (r_work r) (r_seed_min r) (r_scratch r) (r_stack_top r) (r_stat_gen r) (r_stat_can r) (r_stat_out r) (r_verbose r).
Definition set_initialized (x : bool) (r : reducer_t) : reducer_t :=
  mk_reducer (r_n r) (r_base r) (r_v r) (r_var r) (r_r r) (r_val r) (r_t r) (r_prefix_capacity r) (r_target_length r) (r_k r) (r_prefix r) x (r_orbits r) (r_trav_sizes r) (r_trav_ind r) (r_traversals r) (r_last_prefix_g r) (r_work r) (r_seed_min r) (r_scratch r) (r_stack_top r) (r_stat_gen r) (r_stat_can r) (r_stat_out r) (r_verbose r).
Definition set_orbits (x : list (list nat)) (r : reducer_t) : reducer_t :=
  mk_reducer (r_n r) (r_base r) (r_v r) (r_var r) (r_r r) (r_val r) (r_t r) (r_prefix_capacity r) (r_target_length r) (r_k r) (r_prefix r) (r_initialized r) x (r_trav_sizes r) (r_trav_ind r) (r_traversals r) (r_last_prefix_g r) (r_work r) (r_seed_min r) (r_scratch r) (r_stack_top r) (r_stat_gen r) (r_stat_can r) (r_stat_out r) (r_verbose r).
Definition set_trav_sizes (x : list nat) (r : reducer_t) : reducer_t :=
  mk_reducer (r_n r) (r_base r) (r_v r) (r_var r) (r_r r) (r_val r) (r_t r) (r_prefix_capacity r) (r_target_length r) (r_k r) (r_prefix r) (r_initialized r) (r_orbits r) x (r_trav_ind r) (r_traversals r) (r_last_prefix_g r) (r_work r) (r_seed_min r) (r_scratch r) (r_stack_top r) (r_stat_gen r) (r_stat_can r) (r_stat_out r) (r_verbose r).
Definition set_trav_ind (x : list (list nat)) (r : reducer_t) : reducer_t :=
  mk_reducer (r_n r) (r_base r) (r_v r) (r_var r) (r_r r) (r_val r) (r_t r) (r_prefix_capacity r) (r_target_length r) (r_k r) (r_prefix r) (r_initialized r) (r_orbits r) (r_trav_sizes r) x (r_traversals r) (r_last_prefix_g r) (r_work r) (r_seed_min r) (r_scratch r) (r_stack_top r) (r_stat_gen r) (r_stat_can r) (r_stat_out r) (r_verbose r).
Definition set_traversals (x : list (list (list nat))) (r : reducer_t) : reducer_t :=
  mk_reducer (r_n r) (r_base r) (r_v r) (r_var r) (r_r r) (r_val r) (r_t r) (r_prefix_capacity r) (r_target_length r) (r_k r) (r_prefix r) (r_initialized r) (r_orbits r) (r_trav_sizes r) (r_trav_ind r) x (r_last_prefix_g r) (r_work r) (r_seed_min r) (r_scratch r) (r_stack_top r) (r_stat_gen r) (r_stat_can r) (r_stat_out r) (r_verbose r).
Definition set_last_prefix_g (x : option graph_t) (r : reducer_t) : reducer_t :=
  mk_reducer (r_n r) (r_base r) (r_v r) (r_var r) (r_r r) (r_val r) (r_t r) (r_prefix_capacity r) (r_target_length r) (r_k r) (r_prefix r) (r_initialized r) (r_orbits r) (r_trav_sizes r) (r_trav_ind r) (r_traversals r) x (r_work r) (r_seed_min r) (r_scratch r) (r_stack_top r) (r_stat_gen r) (r_stat_can r) (r_stat_out r) (r_verbose r).
Definition set_work (x : list Z) (r : reducer_t) : reducer_t :=
  mk_reducer (r_n r) (r_base r) (r_v r) (r_var r) (r_r r) (r_val r) (r_t r) (r_prefix_capacity r) (r_target_length r) (r_k r) (r_prefix r) (r_initialized r) (r_orbits r) (r_trav_sizes r) (r_trav_ind r) (r_traversals r) (r_last_prefix_g r) x (r_seed_min r) (r_scratch r) (r_stack_top r) (r_stat_gen r) (r_stat_can r) (r_stat_out r) (r_verbose r).
Definition set_seed_min (x : list (list nat)) (r : reducer_t) : reducer_t :=
  mk_reducer (r_n r) (r_base r) (r_v r) (r_var r) (r_r r) (r_val r) (r_t r) (r_prefix_capacity r) (r_target_length r) (r_k r) (r_prefix r) (r_initialized r) (r_orbits r) (r_trav_sizes r) (r_trav_ind r) (r_traversals r) (r_last_prefix_g r) (r_work r) x (r_scratch r) (r_stack_top r) (r_stat_gen r) (r_stat_can r) (r_stat_out r) (r_verbose r).
Definition set_scratch (x : list Z) (r : reducer_t) : reducer_t :=
  mk_reducer (r_n r) (r_base r) (r_v r) (r_var r) (r_r r) (r_val r) (r_t r) (r_prefix_capacity r) (r_target_length r) (r_k r) (r_prefix r) (r_initialized r) (r_orbits r) (r_trav_sizes r) (r_trav_ind r) (r_traversals r) (r_last_prefix_g r) (r_work r) (r_seed_min r) x (r_stack_top r) (r_stat_gen r) (r_stat_can r) (r_stat_out r) (r_verbose r).
Definition set_stack_top (x : Z) (r : reducer_t) : reducer_t :=
  mk_reducer (r_n r) (r_base r) (r_v r) (r_var r) (r_r r) (r_val r) (r_t r) (r_prefix_capacity r) (r_target_length r) (r_k r) (r_prefix r) (r_initialized r) (r_orbits r) (r_trav_sizes r) (r_trav_ind r) (r_traversals r) (r_last_prefix_g r) (r_work r) (r_seed_min r) (r_scratch r) x (r_stat_gen r) (r_stat_can r) (r_stat_out r) (r_verbose r).
Definition set_stat_gen (x : list Z) (r : reducer_t) : reducer_t :=
  mk_reducer (r_n r) (r_base r) (r_v r) (r_var r) (r_r r) (r_val r) (r_t r) (r_prefix_capacity r) (r_target_length r) (r_k r) (r_prefix r) (r_initialized r) (r_orbits r) (r_trav_sizes r) (r_trav_ind r) (r_traversals r) (r_last_prefix_g r) (r_work r) (r_seed_min r) (r_scratch r) (r_stack_top r) x (r_stat_can r) (r_stat_out r) (r_verbose r).
Definition set_stat_can (x : list Z) (r : reducer_t) : reducer_t :=
  mk_reducer (r_n r) (r_base r) (r_v r) (r_var r) (r_r r) (r_val r) (r_t r) (r_prefix_capacity r) (r_target_length r) (r_k r) (r_prefix r) (r_initialized r) (r_orbits r) (r_trav_sizes r) (r_trav_ind r) (r_traversals r) (r_last_prefix_g r) (r_work r) (r_seed_min r) (r_scratch r) (r_stack_top r) (r_stat_gen r) x (r_stat_out r) (r_verbose r).
Definition set_stat_out (x : list Z) (r : reducer_t) : reducer_t :=
  mk_reducer (r_n r) (r_base r) (r_v r) (r_var r) (r_r r) (r_val r) (r_t r) (r_prefix_capacity r) (r_target_length r) (r_k r) (r_prefix r) (r_initialized r) (r_orbits r) (r_trav_sizes r) (r_trav_ind r) (r_traversals r) (r_last_prefix_g r) (r_work r) (r_seed_min r) (r_scratch r) (r_stack_top r) (r_stat_gen r) (r_stat_can r) x (r_verbose r).

(** Reads and writes of [int] arrays at [int] positions. *)
Definition rdZ (l : list Z) (i : Z) : Z := l !!! Z.to_nat i.
Definition wrZ (l : list Z) (i : Z) (x : Z) : list Z := <[Z.to_nat i := x]> l.

(** [for(int i = 0; i < m; i++) { s[a + i] = X(i); s[b + i] = Y(i); }] *)
Definition write2 (X Y : nat -> Z) (a b : Z) (m : nat) (s : list Z) : list Z :=
  fold_left (fun s i => wrZ (wrZ s (a + Z.of_nat i) (X i)) (b + Z.of_nat i) (Y i))
            (seq 0 m) s.

(** [for(int i = 0; i < m; i++) s[b + i] = f(s[b + i]);] *)
Definition map_range (f : Z -> Z) (b : Z) (m : nat) (s : list Z) : list Z :=
  fold_left (fun s i => wrZ s (b + Z.of_nat i) (f (rdZ s (b + Z.of_nat i))))
            (seq 0 m) s.

(** [enlarge_int_array] and its siblings: abort unless the capacity
    grows, then copy the old entries into the new block. *)
Definition enlarge {A} (dflt : A) (a : list A) (capacity new_capacity : nat)
  : outcome (list A) :=
  if new_capacity <=? capacity then Abort "new capacity is no larger than old"
  else Ok (take capacity a ++ replicate (new_capacity - capacity) dflt).

Definition reducer_enlarge_prefix (r : reducer_t) (capacity : nat)
  : outcome reducer_t :=
  let c := r_prefix_capacity r in
  let* prefix := enlarge 0 (r_prefix r) c capacity in
  let r := set_prefix prefix r in
  let* r :=
    (if r_initialized r then
       let* orbits := enlarge [] (r_orbits r) c capacity in
       let* seed_min := enlarge [] (r_seed_min r) c capacity in
       let* trav_sizes := enlarge 0 (r_trav_sizes r) c capacity in
       let* trav_ind := enlarge [] (r_trav_ind r) c capacity in
       let* traversals := enlarge [] (r_traversals r) c capacity in
       let* work := enlarge 0%Z (r_work r) ((2 * c + 1) * (c + 1))
                            ((2 * capacity + 1) * (capacity + 1)) in
       let* scratch := enlarge 0%Z (r_scratch r) (2 * c + 2)
                               (2 * capacity + 2) in
       let* stat_gen := enlarge 0%Z (r_stat_gen r) c capacity in
       let* stat_can := enlarge 0%Z (r_stat_can r) c capacity in
       let* stat_out := enlarge 0%Z (r_stat_out r) c capacity in
       Ok (set_stat_out stat_out (set_stat_can stat_can (set_stat_gen stat_gen
          (set_scratch scratch (set_work work (set_traversals traversals
          (set_trav_ind trav_ind (set_trav_sizes trav_sizes
          (set_seed_min seed_min (set_orbits orbits r))))))))))
     else Ok r) in
  Ok (set_prefix_capacity capacity r).

(** [for(int j = 0; j < cnt; j++) graph_add_edge(g, r->prefix[j], r->val[0]);] *)
Fixpoint add_prefix_edges (g : graph_t) (prefix val : list nat) (j cnt : nat)
  : outcome graph_t :=
  match cnt with
  | 0 => Ok g
  | S cnt' =>
      let* g' := graph_add_edge g (prefix !!! j) (val !!! 0) in
      add_prefix_edges g' prefix val (S j) cnt'
  end.

(** The scan of the traversal positions [start, start+1, ...] for the
    first image of the prefix element whose seed-minimum bit is set. *)
Definition first_seed (trav : list (list nat)) (size root : nat)
    (seed : list nat) (start : nat) : option nat :=
  find (fun s => negb (seed !!! ((trav !!! s) !!! root) =? 0))
       (seq start (size - start)).

(** *** The consistency tests at the end of [reducer_parse] *)

(** [heapsort_int(l, q); for(i = 1; i < l; i++) if(q[i-1] == q[i]) ERROR] *)
Definition repeats_element (l : nat) (a : list nat) : bool :=
  let q := Common.heapsort_int l (take l a) in
  existsb (fun i => q !!! (i - 1) =? q !!! i) (seq 1 (l - 1)).

(** The translation array from graph vertices to CNF variables.  With a
    CNF, [legend i] is what [sscanf] reads from the legend of variable
    [i]; without one the loop is [for(i < v) var_trans[i] = i] over the
    freshly allocated block, whose initial contents are [junk]. *)
Definition build_var_trans (have_cnf : bool) (nv n v : nat) (var : list nat)
    (legend : nat -> option Z) (junk : list Z) : outcome (list Z) :=
  if have_cnf then
    let fix fill (i cnt : nat) (vt : list Z) (q : list nat)
      : outcome (list Z * list nat) :=
      match cnt with
      | 0 => Ok (vt, q)
      | S cnt' =>
          match legend i with
          | None => Error "parse error in variable legend"
          | Some u1 =>
              let u := (u1 - 1)%Z in
              if (u <? 0)%Z || (Z.of_nat nv <=? u)%Z
              then Error "parsed CNF variable in legend is out of range"
              else fill (S i) cnt' (<[var !!! i := u]> vt) (q ++ [Z.to_nat u])
          end
      end in
    let* '(vt, q) := fill 0 v (replicate n (-1)%Z) [] in
    if repeats_element v q then Error "repeated CNF variable in legend"
    else Ok vt
  else
    Ok (fold_left (fun vt i => <[i := Z.of_nat i]> vt) (seq 0 v) junk).

Definition reducer_parse_checks (have_cnf : bool) (nv n v : nat)
    (var : list nat) (legend : nat -> option Z) (r : nat) (val : list nat)
    (k : nat) (prefix : list nat) (target_length : Z) (junk : list Z)
  : outcome (list Z) :=
  if (target_length <=? 0)%Z && (k =? 0) then
    Error "no prefix given and nonpositive target length for prefix"
  else if (target_length <? Z.of_nat k)%Z then
    Error "length of given prefix exceeds given target length for prefix"
  else if repeats_element v var then Error "variable list repeats an element"
  else if repeats_element r val then Error "value list repeats an element"
  else if repeats_element k prefix then Error "prefix repeats an element"
  else
    let* var_trans := build_var_trans have_cnf nv n v var legend junk in
    if existsb (fun i => (var_trans !!! (prefix !!! i) =? -1)%Z) (seq 0 k)
    then Error "prefix element is not a declared variable vertex"
    else Ok var_trans.

Section Engine.

Variable sparsenauty : graph_t -> canon_t.

(** [MALLOC] does not initialise the block it returns.  [residue k] is
    what the block holds that [reducer_expand_prefix] allocates for
    [seed_min[k]] and does not write. *)
Variable residue : nat -> list nat.

(** The check of the base graph at level 0: the variable list is a union
    of orbits, and every value vertex is alone in its orbit. *)
Fixpoint check_union (fuel : nat) (n : nat) (c p q : list nat) (s : nat) : bool :=
  match fuel with
  | 0 => true
  | S fuel' =>
      if s <? n then
        let u := cell_stop n c p n s (s + 1) in
        forallb (fun j => q !!! (p !!! j) =? q !!! (p !!! s)) (seq (s + 1) (u - (s + 1)))
        && check_union fuel' n c p q u
      else true
  end.

Definition check_fixed (n : nat) (c p val : list nat) (nvals : nat) : bool :=
  forallb (fun j =>
    forallb (fun s =>
      negb ((p !!! j =? val !!! s) &&
            (((0 <? j) && (c !!! (p !!! (j - 1)) =? c !!! (p !!! j))) ||
             ((j <? n - 1) && (c !!! (p !!! j) =? c !!! (p !!! (j + 1)))))))
      (seq 0 nvals))
    (seq 0 n).

Definition check_base (r : reducer_t) (g : graph_t) : outcome unit :=
  let p := graph_orbit_cells sparsenauty g in
  let c := graph_orbits sparsenauty g in
  let q := fold_left (fun q j => <[r_var r !!! j := 1]> q) (seq 0 (r_v r))
                     (replicate (r_n r) 0) in
  if negb (check_union (r_n r) (r_n r) c p q 0) then
    Error "variable list is not a union of orbits of base graph"
  else if negb (check_fixed (r_n r) c p (r_val r) (r_r r)) then
    Error "value vertex is not fixed by the automorphism group of the base graph"
  else Ok tt.

(** What [graph_print_orbits(stderr, g, l, m)] checks while it prints:
    the entries of [m] are vertices and [m] is a union of orbits of [g]. *)
Definition graph_print_orbits (g : graph_t) (l : nat) (m : list nat)
  : outcome unit :=
  let n := graph_order g in
  let p := graph_orbit_cells sparsenauty g in
  let c := graph_orbits sparsenauty g in
  if negb (forallb (fun i => m !!! i <? n) (seq 0 l)) then Abort "bad m array"
  else
    let q := fold_left (fun q i => <[m !!! i := 1]> q) (seq 0 l) (replicate n 0) in
    if negb (check_union n n c p q 0)
    then Abort "bad m array -- not a union of orbits"
    else Ok tt.

(** [k > 0 ? r->trav_ind[k-1] : NULL] *)
Definition previous_trav_ind (r : reducer_t) (k : nat) : option (list nat) :=
  if 0 <? k then Some (r_trav_ind r !!! (k - 1)) else None.

(** [for(int j = 0; j < r->n; j++) r->orbits[k][j] = graph_same_orbit(...)] *)
Fixpoint same_orbit_row (g : graph_t) (i : nat) (j cnt : nat)
  : outcome (list nat) :=
  match cnt with
  | 0 => Ok []
  | S cnt' =>
      let* b := graph_same_orbit sparsenauty g i j in
      let* rest := same_orbit_row g i (S j) cnt' in
      Ok ((if b then 1 else 0) :: rest)
  end.

Definition reducer_expand_prefix (fuel : nat) (r : reducer_t) (k p : nat)
    (prev : option graph_t) : M (reducer_t * graph_t) :=
  if negb (r_initialized r) then abort "cannot expand an uninitialized prefix"
  else
    let+ r := lift (if r_prefix_capacity r <=? k + 1
                    then reducer_enlarge_prefix r (2 * r_prefix_capacity r + 1)
                    else Ok r) in
    let r := set_prefix (<[k := p]> (r_prefix r)) r in
    if r_k r <? k then abort "unsupported expansion"
    else
      let r := if r_k r =? k then
                 set_k (k + 1)
                   (set_stat_out (<[k := 0%Z]> (r_stat_out r))
                   (set_stat_can (<[k := 0%Z]> (r_stat_can r))
                   (set_stat_gen (<[k := 0%Z]> (r_stat_gen r)) r)))
               else r in
      let+ g := lift (match prev with
                      | Some g => Ok g
                      | None => add_prefix_edges (graph_dup (r_base r))
                                  (r_prefix r) (r_val r) 0 k
                      end) in
      (* print_aut_order(stderr, g) reads graph_aut_idx(g) *)
      let+ _ := lift (graph_getcan sparsenauty g) in
      let+ _ := lift (if k =? 0 then check_base r g else Ok tt) in
      let+ _ := lift (graph_print_orbits g (r_v r) (r_var r)) in
      let+ _ := (if r_verbose r then
                   orbit_select sparsenauty g (r_v r) (r_var r) k (r_prefix r)
                                (previous_trav_ind r k)
                 else ret 0) in
      let r := set_seed_min (<[k := residue k]> (r_seed_min r)) r in
      let+ '(len, trav) := traversal_prepare sparsenauty fuel (r_prefix r !!! k) g in
      let r := set_traversals (<[k := trav]> (r_traversals r))
                 (set_trav_sizes (<[k := len]> (r_trav_sizes r)) r) in
      let a := map (fun j => (trav !!! j) !!! (r_prefix r !!! k)) (seq 0 len) in
      let ind := fold_left (fun ind x => <[x := 1]> ind) a (replicate (r_n r) 0) in
      let r := set_trav_ind (<[k := ind]> (r_trav_ind r)) r in
      let+ g' := lift (add_prefix_edges (graph_dup (r_base r))
                         (r_prefix r) (r_val r) 0 (k + 1)) in
      let+ row := lift (same_orbit_row g' (r_prefix r !!! k) 0 (r_n r)) in
      let r := set_orbits (<[k := row]> (r_orbits r)) r in
      ret (r, g').

(** [for(; i < k; i++) g = reducer_expand_prefix(r, i, r->prefix[i], g);] *)
Fixpoint initialize_levels (fuel : nat) (r : reducer_t) (g : option graph_t)
    (i cnt : nat) : M (reducer_t * option graph_t) :=
  match cnt with
  | 0 => ret (r, g)
  | S cnt' =>
      let+ '(r', g') := reducer_expand_prefix fuel r i (r_prefix r !!! i) g in
      initialize_levels fuel r' (Some g') (S i) cnt'
  end.

Definition reducer_initialize (fuel : nat) (r : reducer_t) : M reducer_t :=
  if r_initialized r then ret r
  else
    let k := r_k r in
    let c := r_prefix_capacity r in
    if c <? k then abort "prefix overrun at init"
    else
      let r := set_initialized true
        (set_stat_out (replicate c 0%Z) (set_stat_can (replicate c 0%Z)
        (set_stat_gen (replicate c 0%Z)
        (set_stack_top 0%Z (set_scratch (replicate (2 * c + 2) 0%Z)
        (set_seed_min (replicate c [])
        (set_work (replicate ((2 * c + 1) * (c + 1)) 0%Z)
        (set_traversals (replicate c []) (set_trav_ind (replicate c [])
        (set_trav_sizes (replicate c 0) (set_orbits (replicate c []) r))))))))))) in
      let+ '(r, g) := initialize_levels fuel r None 0 k in
      match g with
      | Some g =>
          (* print_aut_order(stderr, g) reads graph_aut_idx(g) *)
          let+ _ := lift (graph_getcan sparsenauty g) in
          let+ _ := lift (graph_print_orbits g (r_v r) (r_var r)) in
          let+ _ := (if r_verbose r then
                       orbit_select sparsenauty g (r_v r) (r_var r) k (r_prefix r)
                                    (previous_trav_ind r k)
                     else ret 0) in
          ret (set_last_prefix_g (Some g) r)
      | None => ret r
      end.

(** *** [reducer_get_prefix_assignment] *)

(** The block run when the stack is empty: choose the first prefix
    element if there is none, compute the seed minima of the base graph,
    push the first frame and reset the counters. *)
Definition start_stack (fuel : nat) (r : reducer_t) : M reducer_t :=
  let+ r :=
    (if r_k r =? 0 then
       (* orbit_select reads graph_orbit_cells(r->base) *)
       let+ _ := lift (graph_getcan sparsenauty (r_base r)) in
       let+ p := orbit_select sparsenauty (r_base r) (r_v r) (r_var r)
                   (r_k r) (r_prefix r) (previous_trav_ind r (r_k r)) in
       let+ '(r', g) := reducer_expand_prefix fuel r (r_k r) p None in
       ret (set_last_prefix_g (Some g) r')
     else ret r) in
  (* orbit_min_ind reads graph_orbit_cells(r->base) *)
  let+ _ := lift (graph_getcan sparsenauty (r_base r)) in
  let r := set_seed_min
             (<[0 := orbit_min_ind sparsenauty (r_base r) None]> (r_seed_min r)) r in
  match first_seed (r_traversals r !!! 0) (r_trav_sizes r !!! 0)
                   (r_prefix r !!! 0) (r_seed_min r !!! 0) 0 with
  | None => abort "no minimum found for base orbit"
  | Some p =>
      let w0 := Z.of_nat (((r_traversals r !!! 0) !!! p) !!! (r_prefix r !!! 0)) in
      let work := wrZ (wrZ (wrZ (r_work r) 0 w0) 1 0%Z) 2 1%Z in
      let zero := fold_left (fun s i => <[i := 0%Z]> s) (seq 0 (r_k r)) in
      ret (set_stat_can (zero (r_stat_can r))
          (set_stat_gen (zero (r_stat_gen r))
          (set_stat_out (zero (r_stat_out r))
          (set_stack_top 3%Z (set_work work r)))))
  end.

(** The two nested loops that find the current variable; the last match
    in the order of the loops is kept. *)
Definition find_current (r : reducer_t) (lvl : nat) (vars : Z) (size : nat)
  : (Z * Z) :=
  fold_left
    (fun cur j =>
       fold_left
         (fun cur i =>
            if (rdZ (r_work r) (vars + Z.of_nat i)
                =? Z.of_nat (((r_traversals r !!! lvl) !!! j) !!! (r_prefix r !!! lvl)))%Z
            then (Z.of_nat j, Z.of_nat i) else cur)
         (seq 0 size) cur)
    (seq 0 (r_trav_sizes r !!! lvl)) ((-1)%Z, (-1)%Z).

(** [for(int i = 0; i < n; i++) nu[r->traversals[lvl][current][i]] = i;] *)
Definition inverse_of (n : nat) (tau : list nat) : list nat :=
  fold_left (fun nu i => <[tau !!! i := i]> nu) (seq 0 n) (replicate n 0).

(** The value index of position [i] of the candidate: [vals[i]], or the
    saved [current_val] at the current position. *)
Definition cand_val (work : list Z) (vals : Z) (current_idx current_val : Z)
    (i : nat) : Z :=
  if (Z.of_nat i =? current_idx)%Z then current_val
  else rdZ work (vals + Z.of_nat i).

(** [graph_dup(r->base)] with the edges of the candidate assignment. *)
Fixpoint candidate_graph (g : graph_t) (r : reducer_t) (work : list Z)
    (vars vals current_idx current_val : Z) (i cnt : nat) : outcome graph_t :=
  match cnt with
  | 0 => Ok g
  | S cnt' =>
      let* g' := graph_add_edge g (Z.to_nat (rdZ work (vars + Z.of_nat i)))
                   (r_val r !!! Z.to_nat (cand_val work vals current_idx current_val i)) in
      candidate_graph g' r work vars vals current_idx current_val (S i) cnt'
  end.

(** [for(; t < n; t++) { qlab = lab[t]; if(r->orbits[lvl][nu[qlab]]) break; }] *)
Definition find_qlab (n : nat) (lab orbit nu : list nat) : option nat :=
  find (fun ql => negb (orbit !!! (nu !!! ql) =? 0))
       (map (fun t => lab !!! t) (seq 0 n)).

(** The normalized record in [scratch]: size, variables, value indices,
    truncated group order. *)
Definition normalize (r : reducer_t) (work : list Z) (nu : list nat)
    (vars vals current_idx current_val : Z) (size : nat) (aut : Z) : list Z :=
  let s0 := wrZ (r_scratch r) 0 (Z.of_nat size) in
  let s1 := write2
    (fun i => Z.of_nat (nu !!! Z.to_nat (rdZ work (vars + Z.of_nat i))))
    (cand_val work vals current_idx current_val)
    1 (1 + Z.of_nat size) size s0 in
  wrZ s1 (2 * Z.of_nat size + 1) aut.

(** [for(int i = 0; i < size; i++) norm_vals[i] = r->val[norm_vals[i]];] *)
Definition values_to_vertices (r : reducer_t) (scratch : list Z) (size : nat)
  : list Z :=
  map_range (fun x => Z.of_nat (r_val r !!! Z.to_nat x))
            (1 + Z.of_nat size) size scratch.

Inductive step_result :=
| Emit (r : reducer_t) (a : list Z)
| Continue (r : reducer_t).

(** The block "Expand prefix" of the branch "Expand":
    [if(size + 1 > k) { ... }]. *)
Definition grow_prefix (fuel : nat) (r : reducer_t) (size : nat) : M reducer_t :=
  if r_k r <? size + 1 then
    match r_last_prefix_g r with
    | None => abort "no last prefix graph"
    | Some lpg =>
        (* orbit_select reads graph_orbit_cells(lpg) *)
        let+ _ := lift (graph_getcan sparsenauty lpg) in
        let+ p := orbit_select sparsenauty lpg (r_v r) (r_var r) (r_k r)
                    (r_prefix r) (previous_trav_ind r (r_k r)) in
        let+ '(r', lpg') := reducer_expand_prefix fuel r (r_k r) p (Some lpg) in
        ret (set_last_prefix_g (Some lpg') r')
    end
  else ret r.

(** The rest of the branch "Expand": push the child frame with the
    normalized assignment, compute the seed minima of the new level and
    choose the first variable of the child. *)
Definition push_child (r : reducer_t) (g : graph_t) (nu : list nat)
    (size : nat) : M step_result :=
  let lvl := size - 1 in
  let top := r_stack_top r in
  let zs := Z.of_nat size in
  let work := wrZ (r_work r) (top + 2 * (zs + 1)) (zs + 1) in
  let work := write2
    (fun i => rdZ (r_scratch r) (1 + Z.of_nat i))
    (fun i => rdZ (r_scratch r) (1 + zs + Z.of_nat i))
    top (top + (zs + 1)) size work in
  let r := set_stack_top (top + 2 * (zs + 1) + 1)%Z (set_work work r) in
  let r := set_seed_min
             (<[lvl + 1 := orbit_min_ind sparsenauty g (Some nu)]> (r_seed_min r)) r in
  match first_seed (r_traversals r !!! (lvl + 1)) (r_trav_sizes r !!! (lvl + 1))
                   (r_prefix r !!! (lvl + 1)) (r_seed_min r !!! (lvl + 1)) 0 with
  | None => abort "no minimum found in extending orbit"
  | Some s =>
      let x := Z.of_nat (((r_traversals r !!! (lvl + 1)) !!! s)
                           !!! (r_prefix r !!! (lvl + 1))) in
      let work := wrZ (wrZ (r_work r) (top + zs) x) (top + (zs + 1) + zs) 0%Z in
      ret (Continue (set_work work r))
  end.

Definition expand (fuel : nat) (r : reducer_t) (g : graph_t) (nu : list nat)
    (size : nat) : M step_result :=
  let+ r := grow_prefix fuel r size in
  push_child r g nu size.

(** What follows the acceptance of the candidate by isomorph rejection. *)
Definition accept (fuel : nat) (r : reducer_t) (g : graph_t) (nu : list nat)
    (vars vals current_idx current_val : Z) (size : nat) : M step_result :=
  let lvl := size - 1 in
  let r := set_stat_can
             (<[lvl := (r_stat_can r !!! lvl + 1)%Z]> (r_stat_can r)) r in
  let aut := AutOrder.aut_order_trunc (graph_aut_idx sparsenauty g) in
  let r := set_scratch
             (normalize r (r_work r) nu vars vals current_idx current_val size aut) r in
  if (Z.of_nat size =? r_target_length r)%Z || (aut <=? r_t r)%Z then
    let r := set_scratch (values_to_vertices r (r_scratch r) size) r in
    let r := set_stat_out
               (<[lvl := (r_stat_out r !!! lvl + 1)%Z]> (r_stat_out r)) r in
    ret (Emit r (r_scratch r))
  else expand fuel r g nu size.

(** Case "current_val < d": save the next value, build the candidate
    graph and test it. *)
Definition try_value (fuel : nat) (r : reducer_t)
    (vars vals current current_idx current_val : Z) (size : nat)
  : M step_result :=
  let lvl := size - 1 in
  let r := set_stat_gen
             (<[lvl := (r_stat_gen r !!! lvl + 1)%Z]> (r_stat_gen r)) r in
  let r := set_work (wrZ (r_work r) (vals + current_idx) (current_val + 1)) r in
  let r := set_stack_top (r_stack_top r + (2 * Z.of_nat size + 1))%Z r in
  let nu := inverse_of (r_n r) ((r_traversals r !!! lvl) !!! Z.to_nat current) in
  if negb (nu !!! Z.to_nat (rdZ (r_work r) (vars + current_idx))
           =? r_prefix r !!! lvl)
  then abort "bad nu"
  else
    let+ g := lift (candidate_graph (graph_dup (r_base r)) r (r_work r)
                      vars vals current_idx current_val 0 size) in
    (* graph_can_lab(g) *)
    let+ _ := lift (graph_getcan sparsenauty g) in
    match find_qlab (r_n r) (graph_can_lab sparsenauty g)
                    (r_orbits r !!! lvl) nu with
    | None => abort "bad qlab"
    | Some qlab =>
        let+ same := lift (graph_same_orbit sparsenauty g qlab
                             (Z.to_nat (rdZ (r_work r) (vars + current_idx)))) in
        if same then accept fuel r g nu vars vals current_idx current_val size
        else ret (Continue r)
    end.

(** Case "proceed to the next variable". *)
Definition next_variable (r : reducer_t)
    (vars vals current current_idx : Z) (size : nat) : step_result :=
  let lvl := size - 1 in
  match first_seed (r_traversals r !!! lvl) (r_trav_sizes r !!! lvl)
                   (r_prefix r !!! lvl) (r_seed_min r !!! lvl)
                   (Z.to_nat (current + 1)) with
  | None => Continue r
  | Some s =>
      let x := Z.of_nat (((r_traversals r !!! lvl) !!! s) !!! (r_prefix r !!! lvl)) in
      let work := wrZ (wrZ (r_work r) (vars + current_idx) x)
                      (vals + current_idx) 0%Z in
      Continue (set_stack_top (r_stack_top r + 2 * Z.of_nat size + 1)%Z
                  (set_work work r))
  end.

(** One round of [while(r->stack_top > 0)]. *)
Definition step (fuel : nat) (r : reducer_t) : M step_result :=
  let zsize := rdZ (r_work r) (r_stack_top r - 1) in
  let size := Z.to_nat zsize in
  let vars := (r_stack_top r - 1 - 2 * zsize)%Z in
  let vals := (r_stack_top r - 1 - zsize)%Z in
  let r := set_stack_top (r_stack_top r - (2 * zsize + 1))%Z r in
  let lvl := size - 1 in
  let '(current, current_idx) := find_current r lvl vars size in
  if (current =? -1)%Z then abort "no current variable"
  else if (Z.of_nat (r_prefix_capacity r) <=? zsize)%Z then abort "prefix overrun"
  else
    let current_val := rdZ (r_work r) (vals + current_idx) in
    if (current_val <? Z.of_nat (r_r r))%Z
    then try_value fuel r vars vals current current_idx current_val size
    else ret (next_variable r vars vals current current_idx size).

Fixpoint run (fuel : nat) (r : reducer_t) : M (reducer_t * option (list Z)) :=
  match fuel with
  | 0 => None
  | S fuel' =>
      if (0 <? r_stack_top r)%Z then
        let+ res := step fuel' r in
        match res with
        | Emit r' a => ret (r', Some a)
        | Continue r' => run fuel' r'
        end
      else if (r_stack_top r <? 0)%Z then abort "work stack out of balance"
      else ret (r, None)
  end.

Definition reducer_get_prefix_assignment (fuel : nat) (r : reducer_t)
  : M (reducer_t * option (list Z)) :=
  if (r_target_length r =? 0)%Z then ret (r, None)
  else
    let+ r := (if (r_stack_top r =? 0)%Z then start_stack fuel r else ret r) in
    run fuel r.

End Engine.

End Reducer.

(** * Properties of the components *)

Import Graph Traversal OrbitMin OrbitSelect Reducer.

(** ** Truncated group order *)

Lemma aut_order_loop_product (idx : list Z) (acc : Z) :
  Forall (fun x => (0 < x)%Z) idx ->
  AutOrder.aut_order_loop acc (AutOrder.graph_aut_idx idx)
  = (acc * AutOrder.index_product idx)%Z.
Proof.
  intros H. revert acc. induction H as [|x idx Hx _ IH]; intros acc; simpl.
  - lia.
  - destruct (Z.eqb_spec x 0) as [E|_]; [lia|].
    unfold AutOrder.graph_aut_idx in IH. rewrite IH.
    unfold AutOrder.index_product. simpl. lia.
Qed.

Lemma index_product_pos (idx : list Z) :
  Forall (fun x => (0 < x)%Z) idx -> (0 < AutOrder.index_product idx)%Z.
Proof.
  intros H. induction H as [|x idx Hx _ IH]; unfold AutOrder.index_product in *;
    simpl; lia.
Qed.

Lemma int_of_long_small (x : Z) :
  (- 2 ^ 31 <= x < 2 ^ 31)%Z -> AutOrder.int_of_long x = x.
Proof.
  intros H. unfold AutOrder.int_of_long.
  rewrite Z.mod_small by lia. lia.
Qed.

(** C2 (as amended): for stabilizer indices that are positive, the value
    computed by [aut_order_trunc], which is stored as the trailing field
    of the record and compared with the threshold, is the minimum of the
    group order (the product of the indices) and 999999999. *)
Theorem aut_order_trunc_min (idx : list Z) :
  Forall (fun x => (0 < x)%Z) idx ->
  AutOrder.aut_order_trunc (AutOrder.graph_aut_idx idx)
  = Z.min (AutOrder.index_product idx) 999999999.
Proof.
  intros H. unfold AutOrder.aut_order_trunc.
  rewrite aut_order_loop_product by exact H. rewrite Z.mul_1_l.
  pose proof (index_product_pos idx H) as Hp.
  destruct (Z.ltb_spec (AutOrder.index_product idx) 999999999) as [Hlt|Hge].
  - rewrite int_of_long_small by lia. lia.
  - lia.
Qed.

Lemma aut_order_trunc_min_witness :
  AutOrder.aut_order_trunc (AutOrder.graph_aut_idx [4; 3; 2]%Z)
  = Z.min (AutOrder.index_product [4; 3; 2]%Z) 999999999.
Proof.
  apply (aut_order_trunc_min [4; 3; 2]%Z).
  repeat constructor.
Defined.

(** C2 as stated fails: a group of order 2^30, given by thirty indices
    equal to 2, is reported as 999999999 and not as min(2^30, 2^31 - 1). *)
Lemma aut_order_trunc_not_int_max :
  Forall (fun x => (0 < x)%Z) (repeat 2%Z 30) /\
  AutOrder.aut_order_trunc (AutOrder.graph_aut_idx (repeat 2%Z 30))
  <> Z.min (AutOrder.index_product (repeat 2%Z 30)) (2 ^ 31 - 1).
Proof.
  split.
  - apply Forall_forall. intros x Hx. apply list_elem_of_In in Hx.
    apply repeat_spec in Hx. lia.
  - vm_compute. discriminate.
Qed.

(** ** Command line *)

(** C9: the short form [-p 1 2] stores the prefix (0, 1); the long form
    [--prefix 1 2] reads one integer through [arg_get_long] and then
    rejects the next word, so the two forms do not have the same effect. *)
Theorem long_prefix_form_diverges :
  Args.cli_prefix ["reduce"; "-p"; "1"; "2"]%string = Some (Ok [0; 1]%Z) /\
  Args.cli_prefix ["reduce"; "--prefix"; "1"; "2"]%string
  = Some (Error "bad argument at command line") /\
  (exists p, Args.arg_parse ["reduce"; "--prefix"; "1"]%string = Ok p /\
             Args.parsed_params p = [Args.PLong 1]) /\
  (exists p, Args.arg_parse ["reduce"; "-p"; "1"]%string = Ok p /\
             Args.parsed_params p = [Args.PIntArray [1; 0]%Z]).
Proof.
  split; [reflexivity|]. split; [reflexivity|].
  split; eexists; split; reflexivity.
Qed.

(** With a single parameter the long form passes [arg_parse]; the long is
    then read through an [int *]: its low half as the length of the
    prefix, its high half as the first element. *)
Lemma long_prefix_form_single :
  Args.cli_prefix ["reduce"; "--prefix"; "1"]%string = Some (Ok [0%Z]) /\
  Args.cli_prefix ["reduce"; "--prefix"; "2"]%string = None.
Proof. split; reflexivity. Qed.

(** ** Traversals *)

Section TraversalProperties.

Variable sparsenauty : graph_t -> canon_t.

Lemma orbit_elems_sorted g root :
  StronglySorted lt (orbit_elems sparsenauty g root).
Proof.
  unfold orbit_elems. generalize 0 as a.
  induction (graph_order g) as [|m IH]; intros a; simpl; [constructor|].
  destruct (same_orbit sparsenauty g a root).
  - constructor; [apply IH|]. apply List.Forall_forall. intros x Hx.
    apply filter_In in Hx as [Hx _]. apply in_seq in Hx. lia.
  - apply IH.
Qed.

Lemma orbit_elems_In g root v :
  In v (orbit_elems sparsenauty g root) <->
  v < graph_order g /\ same_orbit sparsenauty g v root = true.
Proof.
  unfold orbit_elems. rewrite filter_In, in_seq. intuition lia.
Qed.

Lemma strongly_sorted_lookup (l : list nat) i j x y :
  StronglySorted lt l -> i < j -> l !! i = Some x -> l !! j = Some y -> x < y.
Proof.
  intros Hs. revert i j. induction Hs as [|a l Hs IH Hall]; intros i j Hij Hi Hj.
  - discriminate.
  - destruct j as [|j]; [lia|]. simpl in Hj. destruct i as [|i].
    + injection Hi as <-. rewrite List.Forall_forall in Hall. apply Hall.
      apply list_elem_of_In, list_elem_of_lookup. eauto.
    + simpl in Hi. apply (IH i j); [lia|assumption|assumption].
Qed.

Lemma find_seq_first (f : nat -> bool) (a m s : nat) :
  find f (seq a m) = Some s ->
  a <= s < a + m /\ f s = true /\ forall j, a <= j < s -> f j = false.
Proof.
  revert a. induction m as [|m IH]; intros a; simpl; [discriminate|].
  destruct (f a) eqn:E.
  - intros [= <-]. split; [lia|]. split; [exact E|]. intros; lia.
  - intros H. destruct (IH _ H) as (H1 & H2 & H3).
    repeat split; try lia; try assumption.
    intros j Hj. destruct (Nat.eq_dec j a) as [->|Hne]; [exact E|]. apply H3. lia.
Qed.

Lemma find_seq_none (f : nat -> bool) (a m : nat) :
  find f (seq a m) = None -> forall j, a <= j < a + m -> f j = false.
Proof. intros H j Hj. apply (find_none _ _ H). apply in_seq. lia. Qed.

(** C6: under the contract of the labeler (the generators are
    permutations of the vertices, they preserve the orbit partition, and
    their products carry the root to every vertex of its orbit),
    [traversal_prepare] returns, and every table it returns has one row
    per orbit element; row j is a permutation of 0..n-1 that is a product
    of generators and maps the root to the j-th orbit element, and the
    row of the root is the identity. *)
Theorem traversal_prepare_valid (g : graph_t) (root : nat) :
  root < graph_order g ->
  Forall (perm_of (graph_order g)) (graph_aut_gens sparsenauty g) ->
  (forall p u, In p (graph_aut_gens sparsenauty g) -> u < graph_order g ->
               graph_orbits sparsenauty g !!! (p !!! u)
               = graph_orbits sparsenauty g !!! u) ->
  (forall v, v < graph_order g -> same_orbit sparsenauty g v root = true ->
             reach (graph_aut_gens sparsenauty g) root v) ->
  (exists fuel r, traversal_prepare sparsenauty fuel root g = Some (Ok r)) /\
  forall fuel len t,
    traversal_prepare sparsenauty fuel root g = Some (Ok (len, t)) ->
    len = length (orbit_elems sparsenauty g root) /\ length t = len /\
    (forall j v, orbit_elems sparsenauty g root !! j = Some v ->
       perm_of (graph_order g) (t !!! j) /\
       gen_product (graph_order g) (graph_aut_gens sparsenauty g) (t !!! j) /\
       (t !!! j) !!! root = v) /\
    (forall j, orbit_elems sparsenauty g root !! j = Some root ->
               t !!! j = seq 0 (graph_order g)).
Proof.
  intros Hroot Hg Hclosed Hcover. split.
  - destruct (traversal_prepare_returns sparsenauty root g Hroot Hg) as [t Ht].
    + intros p u Hp Hu Ho. unfold same_orbit in *.
      rewrite (Hclosed p u Hp Hu).
      apply orb_true_iff in Ho as [Ho|Ho].
      * apply Nat.eqb_eq in Ho. subst u. rewrite Nat.eqb_refl. apply orb_true_r.
      * rewrite Ho. apply orb_true_r.
    + exact Hcover.
    + eauto.
  - intros fuel len t Ht.
    destruct (traversal_prepare_sound sparsenauty fuel root g len t Hg Ht)
      as (H1 & H2 & H3 & (jr & H4 & H5)).
    split; [exact H1|]. split; [exact H2|]. split.
    + intros j v Hj. destruct (H3 j v Hj) as [Hp Hr].
      split; [|split; assumption]. eapply gen_product_perm; eauto.
    + intros j Hj. rewrite (L_inj sparsenauty g root _ _ _ Hj H4). exact H5.
Qed.

(** C4 (as amended): when some vertex of the orbit of the root is not
    reached by products of the generators, [traversal_prepare] neither
    aborts nor returns a table: for every number of rounds of its outer
    loop, the loop has not been left. *)
Theorem traversal_prepare_uncovered (g : graph_t) (root w : nat) :
  root < graph_order g -> w < graph_order g ->
  same_orbit sparsenauty g w root = true ->
  ~ reach (graph_aut_gens sparsenauty g) root w ->
  forall fuel, traversal_prepare sparsenauty fuel root g = None.
Proof.
  intros Hroot Hw Hwo Hnr fuel.
  eapply traversal_prepare_stuck; eauto.
Qed.

End TraversalProperties.

(** The canonical graph that belongs to a labeling [l]: the row of the
    vertex at position [i] lists the neighbours of [l[i]], each by its
    position in [l]. *)
Fixpoint position (v : nat) (l : list nat) : nat :=
  match l with
  | [] => 0
  | x :: l' => if x =? v then 0 else S (position v l')
  end.

Definition neighbours (g : graph_t) (v : nat) : list nat :=
  flat_map (fun e => if fst e =? v then [snd e]
                     else if snd e =? v then [fst e] else [])
           (edgebuf g).

Definition canonical_rows (g : graph_t) (l : list nat) : list (list nat) :=
  map (fun v => map (fun w => position w l) (neighbours g v)) l.

(** A labeler result with one orbit {0,1,2}, generated by a 3-cycle. *)
Definition cycle3_labeler (g : graph_t) : canon_t :=
  mk_canon [0; 1; 2; 3] [0; 0; 0; 3] [[1; 2; 0; 3]] [3%Z]
           (canonical_rows g [0; 1; 2; 3]).
Definition cycle3_graph : graph_t := mk_graph 4 [(0, 1); (1, 2); (0, 2)] [0; 0; 0; 1].

Lemma cycle3_contract :
  1 < graph_order cycle3_graph /\
  Forall (perm_of (graph_order cycle3_graph))
         (graph_aut_gens cycle3_labeler cycle3_graph) /\
  (forall p u, In p (graph_aut_gens cycle3_labeler cycle3_graph) ->
               u < graph_order cycle3_graph ->
               graph_orbits cycle3_labeler cycle3_graph !!! (p !!! u)
               = graph_orbits cycle3_labeler cycle3_graph !!! u) /\
  (forall v, v < graph_order cycle3_graph ->
             same_orbit cycle3_labeler cycle3_graph v 1 = true ->
             reach (graph_aut_gens cycle3_labeler cycle3_graph) 1 v).
Proof.
  split; [simpl; lia|]. split; [|split].
  - repeat constructor. unfold perm_of.
    apply (bool_decide_unpack _). vm_compute. exact I.
  - intros p u [<-|[]] Hu. simpl in Hu.
    do 4 (destruct u as [|u]; [reflexivity|]). lia.
  - intros v Hv Ho. simpl in Hv.
    pose (p := [1; 2; 0; 3]).
    assert (Hp : In p (graph_aut_gens cycle3_labeler cycle3_graph)) by (left; reflexivity).
    pose proof (reach_root (graph_aut_gens cycle3_labeler cycle3_graph) 1) as R1.
    pose proof (reach_step _ _ p 1 Hp R1) as R2.
    pose proof (reach_step _ _ p _ Hp R2) as R0.
    destruct v as [|[|[|[|v]]]]; [exact R0|exact R1|exact R2|discriminate|lia].
Qed.

Lemma traversal_prepare_valid_witness :
  exists fuel r,
    traversal_prepare cycle3_labeler fuel 1 cycle3_graph = Some (Ok r).
Proof.
  destruct cycle3_contract as (H1 & H2 & H3 & H4).
  exact (proj1 (traversal_prepare_valid cycle3_labeler cycle3_graph 1 H1 H2 H3 H4)).
Defined.

(** A labeler result that declares the orbit {0,1} but yields only the
    identity as generator. *)
Definition stuck_labeler (g : graph_t) : canon_t :=
  mk_canon [0; 1] [0; 0] [[0; 1]] [2%Z] (canonical_rows g [0; 1]).
Definition stuck_graph : graph_t := mk_graph 2 [] [0; 0].

Lemma stuck_unreached :
  0 < graph_order stuck_graph /\ 1 < graph_order stuck_graph /\
  same_orbit stuck_labeler stuck_graph 1 0 = true /\
  ~ reach (graph_aut_gens stuck_labeler stuck_graph) 0 1.
Proof.
  split; [simpl; lia|]. split; [simpl; lia|]. split; [reflexivity|].
  assert (H : forall x, reach (graph_aut_gens stuck_labeler stuck_graph) 0 x -> x = 0).
  { intros x Hx. induction Hx as [|p u [<-|[]] _ IH]; [reflexivity|].
    subst u. reflexivity. }
  intros Hr. apply H in Hr. discriminate.
Qed.

Lemma traversal_prepare_uncovered_witness :
  traversal_prepare stuck_labeler 1000 0 stuck_graph = None.
Proof.
  destruct stuck_unreached as (H1 & H2 & H3 & H4).
  exact (traversal_prepare_uncovered stuck_labeler stuck_graph 0 1 H1 H2 H3 H4 1000).
Defined.

(** C4 as stated fails: here the generators do not cover the orbit of
    the root, and no number of rounds ends in an abort. *)
Lemma traversal_prepare_never_aborts :
  (1 < graph_order stuck_graph /\
   same_orbit stuck_labeler stuck_graph 1 0 = true /\
   ~ reach (graph_aut_gens stuck_labeler stuck_graph) 0 1) /\
  ~ exists fuel msg,
      traversal_prepare stuck_labeler fuel 0 stuck_graph = Some (Abort msg).
Proof.
  destruct stuck_unreached as (H1 & H2 & H3 & H4).
  split; [tauto|]. intros (fuel & msg & H).
  rewrite (traversal_prepare_stuck stuck_labeler 0 stuck_graph 1 fuel H1 H2 H3 H4) in H.
  discriminate.
Qed.

(** ** Orbit minima *)

Section OrbitMinProperties.

Variable sparsenauty : graph_t -> canon_t.

Lemma least_of_class (c : list nat) (n u : nat) :
  u < n ->
  exists m, m < n /\ c !!! m = c !!! u /\
            forall w, w < n -> c !!! w = c !!! u -> m <= w.
Proof.
  intros Hu.
  destruct (dec_inh_nat_subset_has_unique_least_element
              (fun w => w < n /\ c !!! w = c !!! u)) as (m & [[Hm1 Hm2] Hm3] & _).
  - intros w. destruct (Nat.lt_dec w n); [|right; tauto].
    destruct (Nat.eq_dec (c !!! w) (c !!! u)); [left|right]; tauto.
  - exists u. tauto.
  - exists m. repeat split; try assumption. intros w Hw Hc. apply Hm3. tauto.
Qed.

(** C7: for a relabeling nu that is a permutation of the vertices (or no
    relabeling), the vector computed by [orbit_min_ind] has length n, its
    entries at the positions nu(u) are 0 or 1, the entry at nu(u) is 1
    exactly when u is the least vertex of its orbit in the ordinary order
    of the integers, and so exactly one vertex of every orbit carries a 1. *)
Theorem orbit_min_ind_one_per_orbit (g : graph_t) (relabel : option (list nat)) :
  (forall nu, relabel = Some nu -> perm_of (graph_order g) nu) ->
  length (orbit_min_ind sparsenauty g relabel) = graph_order g /\
  (forall u, u < graph_order g ->
     (orbit_min_ind sparsenauty g relabel !!! relabel_at relabel u = 1 \/
      orbit_min_ind sparsenauty g relabel !!! relabel_at relabel u = 0) /\
     (orbit_min_ind sparsenauty g relabel !!! relabel_at relabel u = 1 <->
      forall w, w < graph_order g ->
                graph_orbits sparsenauty g !!! w = graph_orbits sparsenauty g !!! u ->
                u <= w)) /\
  (forall u, u < graph_order g ->
     exists m, m < graph_order g /\
       graph_orbits sparsenauty g !!! m = graph_orbits sparsenauty g !!! u /\
       orbit_min_ind sparsenauty g relabel !!! relabel_at relabel m = 1 /\
       forall m', m' < graph_order g ->
         graph_orbits sparsenauty g !!! m' = graph_orbits sparsenauty g !!! u ->
         orbit_min_ind sparsenauty g relabel !!! relabel_at relabel m' = 1 ->
         m' = m).
Proof.
  intros Hnu. set (n := graph_order g). set (c := graph_orbits sparsenauty g).
  destruct (orbit_cells_spec c n) as [Hperm Hlex].
  assert (Hb : forall u, u < n -> relabel_at relabel u < n).
  { intros u Hu. destruct relabel as [nu|]; [|exact Hu].
    simpl. apply perm_of_bound; [apply Hnu; reflexivity|exact Hu]. }
  assert (Hi : forall u w, u < n -> w < n ->
                 relabel_at relabel u = relabel_at relabel w -> u = w).
  { intros u w Hu Hw E. destruct relabel as [nu|]; [|exact E]. simpl in E.
    pose proof (Hnu nu eq_refl) as Hp. unfold perm_of in Hp.
    assert (Hnd : NoDup nu) by (rewrite Hp; apply NoDup_seq).
    assert (Hl : length nu = n) by (rewrite Hp; apply length_seq).
    eapply NoDup_lookup; [exact Hnd| |].
    - apply list_lookup_lookup_total_lt. lia.
    - rewrite E. apply list_lookup_lookup_total_lt. lia. }
  destruct (orbit_min_loop_spec c n (orbit_cells_of n c) relabel Hperm Hlex Hb Hi)
    as [Hlen Hspec].
  change (orbit_min_loop n c (orbit_cells_of n c) relabel n 0 (replicate n 0))
    with (orbit_min_ind sparsenauty g relabel) in Hlen, Hspec.
  split; [exact Hlen|]. split; [exact Hspec|].
  intros u Hu. destruct (least_of_class c n u Hu) as (m & Hm & Hcm & Hmin).
  exists m. split; [exact Hm|]. split; [exact Hcm|]. split.
  - apply (proj2 (Hspec m Hm)). intros w Hw Hcw. apply Hmin; [exact Hw|congruence].
  - intros m' Hm' Hcm' Hbit.
    pose proof (proj1 (proj2 (Hspec m' Hm')) Hbit m Hm ltac:(congruence)).
    pose proof (Hmin m' Hm' Hcm'). lia.
Qed.

End OrbitMinProperties.

Definition pairs_labeler (g : graph_t) : canon_t :=
  mk_canon [0; 1; 2; 3; 4] [0; 0; 2; 2; 4] [[1; 0; 3; 2; 4]] [2%Z]
           (canonical_rows g [0; 1; 2; 3; 4]).
Definition pairs_graph : graph_t := mk_graph 5 [(0, 2); (1, 3)] [0; 0; 1; 1; 2].

Lemma orbit_min_ind_one_per_orbit_witness :
  length (orbit_min_ind pairs_labeler pairs_graph (Some [3; 2; 1; 0; 4]))
  = graph_order pairs_graph.
Proof.
  assert (H : forall nu, Some [3; 2; 1; 0; 4] = Some nu ->
                         perm_of (graph_order pairs_graph) nu).
  { intros nu [= <-]. unfold perm_of.
    apply (bool_decide_unpack _). vm_compute. exact I. }
  exact (proj1 (orbit_min_ind_one_per_orbit pairs_labeler pairs_graph
                  (Some [3; 2; 1; 0; 4]) H)).
Defined.

(** ** The search engine *)

Lemma length_wrZ l i x : length (wrZ l i x) = length l.
Proof. apply length_insert. Qed.

Lemma rdZ_wrZ_eq l i x :
  (0 <= i)%Z -> Z.to_nat i < length l -> rdZ (wrZ l i x) i = x.
Proof. intros _ H. unfold rdZ, wrZ. apply list_lookup_total_insert_eq. exact H. Qed.

Lemma rdZ_wrZ_ne l i j x :
  (0 <= i)%Z -> (0 <= j)%Z -> i <> j -> rdZ (wrZ l i x) j = rdZ l j.
Proof.
  intros Hi Hj Hne. unfold rdZ, wrZ. apply list_lookup_total_insert_ne. lia.
Qed.

Lemma write2_S X Y a b m s :
  write2 X Y a b (S m) s
  = wrZ (wrZ (write2 X Y a b m s) (a + Z.of_nat m) (X m)) (b + Z.of_nat m) (Y m).
Proof. unfold write2. rewrite seq_S, Common.fold_left_snoc. reflexivity. Qed.

Lemma write2_length X Y a b m s : length (write2 X Y a b m s) = length s.
Proof.
  induction m as [|m IH]; [reflexivity|].
  rewrite write2_S, !length_wrZ. exact IH.
Qed.

Ltac case_zb :=
  repeat match goal with
         | |- context [(?x <=? ?y)%Z] => destruct (Z.leb_spec x y)
         | |- context [(?x <? ?y)%Z] => destruct (Z.ltb_spec x y)
         end;
  cbn [andb orb negb]; try lia; try reflexivity.

Lemma write2_read X Y a b m s idx :
  (0 <= a)%Z -> (a + Z.of_nat m <= b)%Z -> (0 <= idx)%Z ->
  Z.to_nat idx < length s ->
  rdZ (write2 X Y a b m s) idx =
  if ((a <=? idx) && (idx <? a + Z.of_nat m))%Z then X (Z.to_nat (idx - a))
  else if ((b <=? idx) && (idx <? b + Z.of_nat m))%Z then Y (Z.to_nat (idx - b))
  else rdZ s idx.
Proof.
  intros Ha Hab Hi Hl. induction m as [|m IH].
  - cbn [write2 seq fold_left]. case_zb.
  - rewrite write2_S.
    destruct (Z.eq_dec idx (b + Z.of_nat m)%Z) as [->|Hb].
    + rewrite rdZ_wrZ_eq by (rewrite ?length_wrZ, ?write2_length; lia).
      case_zb; f_equal; lia.
    + rewrite rdZ_wrZ_ne by lia.
      destruct (Z.eq_dec idx (a + Z.of_nat m)%Z) as [->|Ha'].
      * rewrite rdZ_wrZ_eq by (rewrite ?write2_length; lia).
        case_zb; f_equal; lia.
      * rewrite rdZ_wrZ_ne by lia. rewrite IH by lia. case_zb.
Qed.




Lemma bindM_Ok {A B} (m : M A) (f : A -> M B) (b : B) :
  bindM m f = Some (Ok b) -> exists a, m = Some (Ok a) /\ f a = Some (Ok b).
Proof.
  destruct m as [[a| |]|]; simpl; try discriminate. eauto.
Qed.


(** The layout of the frame pushed by an expansion on top of [top]: the
    normalized assignment, then a new variable with value index 0, then
    the size word. *)
Definition is_child_frame (work : list Z) (top : Z) (size : nat)
    (nvars nvals : nat -> Z) : Prop :=
  rdZ work (top + 2 * (Z.of_nat size + 1)) = (Z.of_nat size + 1)%Z /\
  (forall i, i < size ->
     rdZ work (top + Z.of_nat i) = nvars i /\
     rdZ work (top + (Z.of_nat size + 1) + Z.of_nat i) = nvals i) /\
  rdZ work (top + (Z.of_nat size + 1) + Z.of_nat size) = 0%Z.

(** The two loops that look for the current variable of a frame. *)
Lemma fold_last_match {A B : Type} (P : B -> bool) (f : B -> A) (l : list B)
    (init : A) :
  fold_left (fun cur x => if P x then f x else cur) l init = init \/
  exists x, In x l /\ P x = true /\
    fold_left (fun cur x => if P x then f x else cur) l init = f x.
Proof.
  revert init. induction l as [|y l IH]; intros init; [left; reflexivity|].
  simpl. destruct (IH (if P y then f y else init)) as [E|(x & Hx & Px & E)].
  - rewrite E. destruct (P y) eqn:Py; [|left; reflexivity].
    right. exists y. split; [left; reflexivity|]. split; [exact Py|reflexivity].
  - right. exists x. split; [right; exact Hx|]. split; [exact Px|exact E].
Qed.

Lemma find_current_match (r : reducer_t) (lvl : nat) (vars : Z) (size : nat) :
  find_current r lvl vars size = ((-1)%Z, (-1)%Z) \/
  exists j i, j < r_trav_sizes r !!! lvl /\ i < size /\
    rdZ (r_work r) (vars + Z.of_nat i)
    = Z.of_nat (((r_traversals r !!! lvl) !!! j) !!! (r_prefix r !!! lvl)) /\
    find_current r lvl vars size = (Z.of_nat j, Z.of_nat i).
Proof.
  unfold find_current.
  assert (H : forall js init,
    (forall j, In j js -> j < r_trav_sizes r !!! lvl) ->
    let res := fold_left
      (fun cur j =>
         fold_left
           (fun cur i =>
              if (rdZ (r_work r) (vars + Z.of_nat i)
                  =? Z.of_nat (((r_traversals r !!! lvl) !!! j)
                                 !!! (r_prefix r !!! lvl)))%Z
              then (Z.of_nat j, Z.of_nat i) else cur)
           (seq 0 size) cur) js init in
    res = init \/
    exists j i, j < r_trav_sizes r !!! lvl /\ i < size /\
      rdZ (r_work r) (vars + Z.of_nat i)
      = Z.of_nat (((r_traversals r !!! lvl) !!! j) !!! (r_prefix r !!! lvl)) /\
      res = (Z.of_nat j, Z.of_nat i)).
  { induction js as [|j js IH]; intros init Hjs; [left; reflexivity|].
    cbn [fold_left]. cbv zeta.
    set (inner := fold_left _ (seq 0 size) init).
    destruct (IH inner) as [E|(j' & i' & H1 & H2 & H3 & E)].
    { intros j' Hj'. apply Hjs. right. exact Hj'. }
    - cbv zeta in E. rewrite E. unfold inner.
      destruct (fold_last_match
                  (fun i => (rdZ (r_work r) (vars + Z.of_nat i)
                             =? Z.of_nat (((r_traversals r !!! lvl) !!! j)
                                            !!! (r_prefix r !!! lvl)))%Z)
                  (fun i => (Z.of_nat j, Z.of_nat i)) (seq 0 size) init)
        as [E'|(i & Hi & Pi & E')].
      + left. exact E'.
      + right. exists j, i. split; [apply Hjs; left; reflexivity|].
        apply in_seq in Hi. split; [lia|]. apply Z.eqb_eq in Pi.
        split; [exact Pi|exact E'].
    - right. exists j', i'. cbv zeta in E. auto. }
  apply (H (seq 0 (r_trav_sizes r !!! lvl)) ((-1)%Z, (-1)%Z)).
  intros j Hj. apply in_seq in Hj. lia.
Qed.




(** The vertex that row [j] of a traversal table sends the root to. *)
Definition image (t : list (list nat)) (root j : nat) : nat := (t !!! j) !!! root.

(** [v] is the least of the vertices of [l] whose entry in [seed] is set. *)
Definition least_marked (seed l : list nat) (v : nat) : Prop :=
  In v l /\ seed !!! v <> 0 /\
  forall w, In w l -> seed !!! w <> 0 -> v <= w.

Section EngineProperties.

Variable sparsenauty : graph_t -> canon_t.
Variable residue : nat -> list nat.




Lemma outcome_bind_Ok {A B} (m : outcome A) (f : A -> outcome B) (b : B) :
  bind m f = Ok b -> exists a, m = Ok a /\ f a = Ok b.
Proof. destruct m as [a| |]; simpl; try discriminate. eauto. Qed.





Lemma grow_prefix_long_enough fuel r size :
  size < r_k r -> grow_prefix sparsenauty residue fuel r size = Some (Ok r).
Proof.
  intros H. unfold grow_prefix.
  destruct (Nat.ltb_spec (r_k r) (size + 1)); [lia|reflexivity].
Qed.








Lemma push_child_scan r g nu size :
  1 <= size -> (0 <= r_stack_top r)%Z -> size < length (r_seed_min r) ->
  Z.to_nat (r_stack_top r + 2 * (Z.of_nat size + 1) + 1) <= length (r_work r) ->
  match first_seed (r_traversals r !!! size) (r_trav_sizes r !!! size)
                   (r_prefix r !!! size)
                   (orbit_min_ind sparsenauty g (Some nu)) 0 with
  | Some s =>
      exists r',
        push_child sparsenauty r g nu size = Some (Ok (Continue r')) /\
        r_stack_top r' = (r_stack_top r + 2 * (Z.of_nat size + 1) + 1)%Z /\
        is_child_frame (r_work r') (r_stack_top r) size
          (fun i => rdZ (r_scratch r) (1 + Z.of_nat i))
          (fun i => rdZ (r_scratch r) (1 + Z.of_nat size + Z.of_nat i)) /\
        rdZ (r_work r') (r_stack_top r + Z.of_nat size)
        = Z.of_nat (image (r_traversals r !!! size) (r_prefix r !!! size) s)
  | None =>
      push_child sparsenauty r g nu size
      = Some (Abort "no minimum found in extending orbit")
  end.
Proof.
  intros Hs Htop Hsm Hlen. unfold push_child.
  replace (size - 1 + 1) with size by lia. cbv zeta.
  cbn [r_traversals r_trav_sizes r_prefix r_seed_min r_work r_stack_top
       set_seed_min set_stack_top set_work].
  rewrite list_lookup_total_insert_eq by exact Hsm.
  destruct (first_seed _ _ _ _ 0) as [s|]; [|reflexivity].
  eexists. split; [reflexivity|].
  cbn [r_traversals r_trav_sizes r_prefix r_seed_min r_work r_stack_top
       set_seed_min set_stack_top set_work].
  split; [reflexivity|].
  set (top := r_stack_top r) in *. set (zs := Z.of_nat size) in *.
  split.
  - unfold is_child_frame. fold zs. split; [|split].
    + rewrite !rdZ_wrZ_ne by lia.
      rewrite write2_read by (rewrite ?length_wrZ; lia).
      case_zb; apply rdZ_wrZ_eq; lia.
    + intros i Hi. split.
      * rewrite !rdZ_wrZ_ne by lia.
        rewrite write2_read by (rewrite ?length_wrZ; lia).
        case_zb; replace (Z.to_nat (top + Z.of_nat i - top)) with i by lia;
          reflexivity.
      * rewrite !rdZ_wrZ_ne by lia.
        rewrite write2_read by (rewrite ?length_wrZ; lia).
        case_zb;
          replace (Z.to_nat (top + (zs + 1) + Z.of_nat i - (top + (zs + 1))))
            with i by lia; reflexivity.
    + apply rdZ_wrZ_eq; [lia|]. rewrite length_wrZ, write2_length, length_wrZ. lia.
  - rewrite rdZ_wrZ_ne by lia. apply rdZ_wrZ_eq; [lia|].
    rewrite write2_length, length_wrZ. lia.
Qed.

(** *** The scans of the traversal positions *)

(** A scan from position [start] over a table whose images of the root
    are in ascending order stops at the least marked image, if there is
    one. *)
Lemma first_seed_least t len root seed start (orbit : list nat) :
  length orbit = len ->
  (forall j, j < len -> orbit !! j = Some (image t root j)) ->
  StronglySorted lt orbit ->
  match first_seed t len root seed start with
  | Some s =>
      start <= s < len /\ least_marked seed (drop start orbit) (image t root s)
  | None => forall v, In v (drop start orbit) -> seed !!! v = 0
  end.
Proof.
  intros Hlen Hrow Hsorted.
  assert (Hin : forall v, In v (drop start orbit) ->
            exists j, start <= j < len /\ v = image t root j).
  { intros v Hv. apply list_elem_of_In, list_elem_of_lookup in Hv as [i Hi].
    rewrite lookup_drop in Hi.
    pose proof (lookup_lt_Some _ _ _ Hi) as Hl. rewrite Hlen in Hl.
    exists (start + i). split; [lia|].
    rewrite (Hrow (start + i) Hl) in Hi. congruence. }
  unfold first_seed. destruct (find _ _) as [s|] eqn:E.
  - apply find_seq_first in E as (H1 & H2 & H3).
    apply negb_true_iff, Nat.eqb_neq in H2.
    split; [lia|]. split; [|split].
    + apply list_elem_of_In, list_elem_of_lookup. exists (s - start).
      rewrite lookup_drop. replace (start + (s - start)) with s by lia.
      apply Hrow. lia.
    + exact H2.
    + intros w Hw Hseed. destruct (Hin w Hw) as (j & Hj & ->).
      destruct (Nat.lt_ge_cases j s) as [Hlt|Hge].
      * specialize (H3 j ltac:(lia)). apply negb_false_iff, Nat.eqb_eq in H3.
        contradiction.
      * destruct (Nat.eq_dec j s) as [->|Hne]; [lia|].
        pose proof (strongly_sorted_lookup _ s j _ _ Hsorted ltac:(lia)
                      (Hrow s ltac:(lia)) (Hrow j ltac:(lia))). lia.
  - intros v Hv. destruct (Hin v Hv) as (j & Hj & ->).
    pose proof (find_seq_none _ _ _ E j ltac:(lia)) as H.
    apply negb_false_iff, Nat.eqb_eq in H. exact H.
Qed.

(** What a scan does, told by the marked vertices. *)
Lemma scan_cases t len root seed start (orbit : list nat)
    (P : nat -> Prop) (Q : Prop) :
  length orbit = len ->
  (forall j, j < len -> orbit !! j = Some (image t root j)) ->
  StronglySorted lt orbit ->
  match first_seed t len root seed start with
  | Some s => P (image t root s)
  | None => Q
  end ->
  (forall v, least_marked seed (drop start orbit) v -> P v) /\
  ((forall w, In w (drop start orbit) -> seed !!! w = 0) -> Q).
Proof.
  intros Hlen Hrow Hsorted H.
  pose proof (first_seed_least t len root seed start orbit Hlen Hrow Hsorted) as L.
  destruct (first_seed t len root seed start) as [s|].
  - destruct L as (_ & Ls1 & Ls2 & Ls3). split.
    + intros v (Hv1 & Hv2 & Hv3).
      replace v with (image t root s); [exact H|].
      pose proof (Ls3 v Hv1 Hv2). pose proof (Hv3 _ Ls1 Ls2). lia.
    + intros Hall. exfalso. apply Ls2. apply Hall. exact Ls1.
  - split; [|intros _; exact H].
    intros v (Hv1 & Hv2 & _). exfalso. apply Hv2. apply L. exact Hv1.
Qed.

Lemma start_stack_scan fuel r c :
  r_k r <> 0 -> graph_getcan sparsenauty (r_base r) = Ok c ->
  0 < length (r_seed_min r) -> 3 <= length (r_work r) ->
  match first_seed (r_traversals r !!! 0) (r_trav_sizes r !!! 0)
                   (r_prefix r !!! 0)
                   (orbit_min_ind sparsenauty (r_base r) None) 0 with
  | Some p =>
      exists r',
        start_stack sparsenauty residue fuel r = Some (Ok r') /\
        rdZ (r_work r') 0
        = Z.of_nat (image (r_traversals r !!! 0) (r_prefix r !!! 0) p) /\
        rdZ (r_work r') 1 = 0%Z /\ rdZ (r_work r') 2 = 1%Z /\
        r_stack_top r' = 3%Z
  | None =>
      start_stack sparsenauty residue fuel r
      = Some (Abort "no minimum found for base orbit")
  end.
Proof.
  intros Hk Hc Hsm Hw. unfold start_stack.
  destruct (Nat.eqb_spec (r_k r) 0) as [E|_]; [contradiction|].
  cbn [bindM ret]. rewrite Hc. cbn [bindM lift].
  cbn [r_traversals r_trav_sizes r_prefix r_seed_min r_work set_seed_min].
  rewrite list_lookup_total_insert_eq by exact Hsm.
  destruct (first_seed _ _ _ _ 0) as [p|]; [|reflexivity].
  eexists. split; [reflexivity|].
  cbn [r_work r_stack_top set_stat_can set_stat_gen set_stat_out set_stack_top
       set_work set_seed_min].
  split; [|split; [|split; [|reflexivity]]].
  - rewrite !rdZ_wrZ_ne by lia. apply rdZ_wrZ_eq; lia.
  - rewrite rdZ_wrZ_ne by lia. apply rdZ_wrZ_eq; [lia|]. rewrite length_wrZ. lia.
  - apply rdZ_wrZ_eq; [lia|]. rewrite !length_wrZ. lia.
Qed.

Lemma next_variable_scan r vars vals current cidx size :
  (0 <= vars + cidx < vals + cidx)%Z ->
  Z.to_nat (vals + cidx) < length (r_work r) ->
  match first_seed (r_traversals r !!! (size - 1)) (r_trav_sizes r !!! (size - 1))
                   (r_prefix r !!! (size - 1)) (r_seed_min r !!! (size - 1))
                   (Z.to_nat (current + 1)) with
  | Some s =>
      exists r',
        next_variable r vars vals current cidx size = Continue r' /\
        rdZ (r_work r') (vars + cidx)
        = Z.of_nat (image (r_traversals r !!! (size - 1))
                          (r_prefix r !!! (size - 1)) s) /\
        rdZ (r_work r') (vals + cidx) = 0%Z /\
        r_stack_top r' = (r_stack_top r + 2 * Z.of_nat size + 1)%Z
  | None => next_variable r vars vals current cidx size = Continue r
  end.
Proof.
  intros Hidx Hlen. unfold next_variable. cbv zeta.
  destruct (first_seed _ _ _ _ _) as [s|]; [|reflexivity].
  eexists. split; [reflexivity|].
  cbn [r_work r_stack_top set_stack_top set_work].
  split; [|split; [|reflexivity]].
  - rewrite rdZ_wrZ_ne by lia. apply rdZ_wrZ_eq; lia.
  - apply rdZ_wrZ_eq; [lia|]. rewrite length_wrZ. exact Hlen.
Qed.

Lemma expand_scan fuel r g nu size :
  1 <= size -> size < r_k r -> (0 <= r_stack_top r)%Z ->
  size < length (r_seed_min r) ->
  Z.to_nat (r_stack_top r + 2 * (Z.of_nat size + 1) + 1) <= length (r_work r) ->
  match first_seed (r_traversals r !!! size) (r_trav_sizes r !!! size)
                   (r_prefix r !!! size)
                   (orbit_min_ind sparsenauty g (Some nu)) 0 with
  | Some s =>
      exists r',
        expand sparsenauty residue fuel r g nu size = Some (Ok (Continue r')) /\
        rdZ (r_work r') (r_stack_top r + Z.of_nat size)
        = Z.of_nat (image (r_traversals r !!! size) (r_prefix r !!! size) s) /\
        rdZ (r_work r') (r_stack_top r + (Z.of_nat size + 1) + Z.of_nat size)
        = 0%Z /\
        r_stack_top r' = (r_stack_top r + 2 * (Z.of_nat size + 1) + 1)%Z
  | None =>
      expand sparsenauty residue fuel r g nu size
      = Some (Abort "no minimum found in extending orbit")
  end.
Proof.
  intros Hs Hk Htop Hsm Hroom. unfold expand.
  rewrite (grow_prefix_long_enough fuel r size) by exact Hk. cbn [bindM].
  pose proof (push_child_scan r g nu size Hs Htop Hsm Hroom) as H.
  destruct (first_seed _ _ _ _ 0) as [s|]; [|exact H].
  destruct H as (r' & H1 & H2 & (_ & _ & H3) & H4).
  exists r'. split; [exact H1|]. split; [exact H4|]. split; [exact H3|exact H2].
Qed.

(** C10: under the contract of the labeler [traversal_prepare] returns,
    and row j of the table it returns sends the root to the j-th smallest
    vertex of the orbit of the root.  So a scan of the positions from
    [start] upwards stops at the least marked vertex among the orbit
    vertices from the [start]-th on, and finds none only when none of
    them is marked.  On a reducer that holds the table at a level, the
    three scans of the engine do this: the seeding of the first frame
    writes the least orbit vertex that is a seed minimum of the base graph
    as the first variable, or aborts when there is none; the seeding of a
    child frame writes the least orbit vertex that is a seed minimum of
    the normalized candidate as the new variable, or aborts when there is
    none; the advance to the next variable writes the least marked orbit
    vertex after the current one with value index 0, or leaves the frame
    popped when there is none. *)
Theorem traversal_order_ascending (g : graph_t) (root : nat) :
  root < graph_order g ->
  Forall (perm_of (graph_order g)) (graph_aut_gens sparsenauty g) ->
  (forall p u, In p (graph_aut_gens sparsenauty g) -> u < graph_order g ->
               graph_orbits sparsenauty g !!! (p !!! u)
               = graph_orbits sparsenauty g !!! u) ->
  (forall v, v < graph_order g -> same_orbit sparsenauty g v root = true ->
             reach (graph_aut_gens sparsenauty g) root v) ->
  let orbit := orbit_elems sparsenauty g root in
  (exists fuel r, traversal_prepare sparsenauty fuel root g = Some (Ok r)) /\
  forall fuel len t,
    traversal_prepare sparsenauty fuel root g = Some (Ok (len, t)) ->
    (map (image t root) (seq 0 len) = orbit /\ StronglySorted lt orbit /\
     forall v, In v orbit <->
               v < graph_order g /\ same_orbit sparsenauty g v root = true) /\
    (forall seed start,
       match first_seed t len root seed start with
       | Some s =>
           start <= s < len /\
           least_marked seed (drop start orbit) (image t root s)
       | None => forall v, In v (drop start orbit) -> seed !!! v = 0
       end) /\
    forall r lvl,
      r_traversals r !!! lvl = t -> r_trav_sizes r !!! lvl = len ->
      r_prefix r !!! lvl = root ->
      (forall fuel' c,
         lvl = 0 -> r_k r <> 0 -> graph_getcan sparsenauty (r_base r) = Ok c ->
         0 < length (r_seed_min r) -> 3 <= length (r_work r) ->
         let seed := orbit_min_ind sparsenauty (r_base r) None in
         (forall v, least_marked seed orbit v ->
            exists r',
              start_stack sparsenauty residue fuel' r = Some (Ok r') /\
              rdZ (r_work r') 0 = Z.of_nat v /\
              rdZ (r_work r') 1 = 0%Z /\ rdZ (r_work r') 2 = 1%Z /\
              r_stack_top r' = 3%Z) /\
         ((forall w, In w orbit -> seed !!! w = 0) ->
          start_stack sparsenauty residue fuel' r
          = Some (Abort "no minimum found for base orbit"))) /\
      (forall fuel' gc nu size,
         lvl = size -> 1 <= size -> size < r_k r -> (0 <= r_stack_top r)%Z ->
         size < length (r_seed_min r) ->
         Z.to_nat (r_stack_top r + 2 * (Z.of_nat size + 1) + 1)
         <= length (r_work r) ->
         let seed := orbit_min_ind sparsenauty gc (Some nu) in
         (forall v, least_marked seed orbit v ->
            exists r',
              expand sparsenauty residue fuel' r gc nu size
              = Some (Ok (Continue r')) /\
              rdZ (r_work r') (r_stack_top r + Z.of_nat size) = Z.of_nat v /\
              rdZ (r_work r') (r_stack_top r + (Z.of_nat size + 1) + Z.of_nat size)
              = 0%Z /\
              r_stack_top r' = (r_stack_top r + 2 * (Z.of_nat size + 1) + 1)%Z) /\
         ((forall w, In w orbit -> seed !!! w = 0) ->
          expand sparsenauty residue fuel' r gc nu size
          = Some (Abort "no minimum found in extending orbit"))) /\
      (forall vars vals current cidx size,
         lvl = size - 1 -> (0 <= vars + cidx < vals + cidx)%Z ->
         Z.to_nat (vals + cidx) < length (r_work r) ->
         let seed := r_seed_min r !!! lvl in
         let later := drop (Z.to_nat (current + 1)) orbit in
         (forall v, least_marked seed later v ->
            exists r',
              next_variable r vars vals current cidx size = Continue r' /\
              rdZ (r_work r') (vars + cidx) = Z.of_nat v /\
              rdZ (r_work r') (vals + cidx) = 0%Z /\
              r_stack_top r' = (r_stack_top r + 2 * Z.of_nat size + 1)%Z) /\
         ((forall w, In w later -> seed !!! w = 0) ->
          next_variable r vars vals current cidx size = Continue r)).
Proof.
  intros Hroot Hg Hclosed Hcover orbit. split.
  { destruct (traversal_prepare_returns sparsenauty root g Hroot Hg) as [t Ht].
    - intros p u Hp Hu Ho. unfold same_orbit in *.
      rewrite (Hclosed p u Hp Hu).
      apply orb_true_iff in Ho as [Ho|Ho].
      + apply Nat.eqb_eq in Ho. subst u. rewrite Nat.eqb_refl. apply orb_true_r.
      + rewrite Ho. apply orb_true_r.
    - exact Hcover.
    - eauto. }
  intros fuel len t Ht.
  destruct (traversal_prepare_images sparsenauty fuel root g len t Ht) as [Hlen Himg].
  assert (Hrow : forall j, j < len -> orbit !! j = Some (image t root j)).
  { intros j Hj.
    destruct (lookup_lt_is_Some_2 orbit j ltac:(unfold orbit; lia)) as [v Hv].
    unfold image. rewrite (Himg j v Hv). exact Hv. }
  assert (Hsorted : StronglySorted lt orbit) by apply orbit_elems_sorted.
  assert (Hlen' : length orbit = len) by (unfold orbit; lia).
  split; [split; [|split; [exact Hsorted|apply orbit_elems_In]]|split].
  - apply list_eq_same_length with len.
    + exact Hlen'.
    + rewrite length_map, length_seq. reflexivity.
    + intros i x y Hi Hx Hy. rewrite list_lookup_fmap, lookup_seq_lt in Hx by lia.
      simpl in Hx. rewrite Hrow in Hy by lia. congruence.
  - intros seed start. apply first_seed_least; assumption.
  - intros r lvl Ht' Hlen'' Hroot'. split; [|split].
    + intros fuel' c -> Hk Hc Hsm Hw seed.
      pose proof (start_stack_scan fuel' r c Hk Hc Hsm Hw) as H.
      rewrite Ht', Hlen'', Hroot' in H. fold seed in H.
      apply (scan_cases t len root seed 0 orbit _ _ Hlen' Hrow Hsorted H).
    + intros fuel' gc nu size -> Hs Hk Htop Hsm Hroom seed.
      pose proof (expand_scan fuel' r gc nu size Hs Hk Htop Hsm Hroom) as H.
      rewrite Ht', Hlen'', Hroot' in H. fold seed in H.
      apply (scan_cases t len root seed 0 orbit _ _ Hlen' Hrow Hsorted H).
    + intros vars vals current cidx size -> Hidx Hw seed later.
      pose proof (next_variable_scan r vars vals current cidx size Hidx Hw) as H.
      rewrite Ht', Hlen'', Hroot' in H. fold seed in H.
      apply (scan_cases t len root seed (Z.to_nat (current + 1)) orbit _ _
               Hlen' Hrow Hsorted H).
Qed.


End EngineProperties.

(** ** A run on a graph without symmetry *)

(** The graph of four vertices with four colours and no edge; vertex 1 is
    the only variable vertex, vertices 2 and 3 are the values.  Every
    graph met in the run has the discrete colour partition, for which the
    labeler returns the identity labeling, the trivial orbits and no
    generator. *)
Definition discrete_labeler (g : graph_t) : canon_t :=
  mk_canon [0; 1; 2; 3] [0; 1; 2; 3] [] [] (canonical_rows g [0; 1; 2; 3]).
Definition discrete_base : graph_t := mk_graph 4 [] [0; 1; 2; 3].

(** The reducer as [reducer_parse] leaves it for the input
    "p prefix 1 0 0 / f 1" without CNF: prefix (0), target length 1. *)
Definition parsed_reducer : reducer_t :=
  mk_reducer 4 discrete_base 1 [1] 2 [2; 3] 0%Z 1 1%Z 1 [0] false
             [] [] [] [] None [] [] [] 0%Z [] [] [] false.

(** The state after the first frame has been pushed. *)
Definition seeded_reducer : reducer_t :=
  mk_reducer 4 discrete_base 1 [1] 2 [2; 3] 0%Z 3 1%Z 1 [0; 0; 0] true
             [[1; 0; 0; 0]; []; []] [1; 0; 0] [[1; 0; 0; 0]; []; []]
             [[[0; 1; 2; 3]]; []; []]
             (Some (mk_graph 4 [(0, 2)] [0; 1; 2; 3]))
             (wrZ (wrZ (replicate 28 0%Z) 1 1%Z) 2 1%Z)
             [[1; 1; 1; 1]; []; []] (replicate 8 0%Z) 3%Z
             [1%Z; 0%Z; 0%Z] [0%Z; 0%Z; 0%Z] [0%Z; 0%Z; 0%Z] false.

(** What the blocks hold that the engine allocates and does not write,
    in the runs below. *)
Definition stale_rows : nat -> list nat := fun _ => [7; 7; 7; 7].

(** The state after [reducer_initialize] and the push of the first frame,
    for [parsed_reducer]: target length 1. *)
Definition first_frame : reducer_t :=
  mk_reducer 4 discrete_base 1 [1] 2 [2; 3] 0%Z 3 1%Z 1 [0; 0; 0] true
             [[1; 0; 0; 0]; []; []] [1; 0; 0] [[1; 0; 0; 0]; []; []]
             [[[0; 1; 2; 3]]; []; []]
             (Some (mk_graph 4 [(0, 2)] [0; 1; 2; 3]))
             (wrZ (replicate 28 0%Z) 2 1%Z)
             [[1; 1; 1; 1]; []; []] (replicate 8 0%Z) 3%Z
             [0%Z; 0%Z; 0%Z] [0%Z; 0%Z; 0%Z] [0%Z; 0%Z; 0%Z] false.

(** The same for the variable vertices 0 and 1, the prefix (0, 1) and the
    target length 2. *)
Definition parsed_pair : reducer_t :=
  mk_reducer 4 discrete_base 2 [0; 1] 2 [2; 3] 0%Z 2 2%Z 2 [0; 1] false
             [] [] [] [] None [] [] [] 0%Z [] [] [] false.

Definition first_frame_pair : reducer_t :=
  mk_reducer 4 discrete_base 2 [0; 1] 2 [2; 3] 0%Z 5 2%Z 2 [0; 1; 0; 0; 0] true
             [[1; 0; 0; 0]; [0; 1; 0; 0]; []; []; []] [1; 1; 0; 0; 0]
             [[1; 0; 0; 0]; [0; 1; 0; 0]; []; []; []]
             [[[0; 1; 2; 3]]; [[0; 1; 2; 3]]; []; []; []]
             (Some (mk_graph 4 [(0, 2); (1, 2)] [0; 1; 2; 3]))
             (wrZ (replicate 66 0%Z) 2 1%Z)
             [[1; 1; 1; 1]; [7; 7; 7; 7]; []; []; []] (replicate 12 0%Z) 3%Z
             (replicate 5 0%Z) (replicate 5 0%Z) (replicate 5 0%Z) false.

(** The same for the variable vertices 0 and 1, the prefix (0) and the
    target length 2: the prefix has to grow. *)
Definition parsed_grow : reducer_t :=
  mk_reducer 4 discrete_base 2 [0; 1] 2 [2; 3] 0%Z 1 2%Z 1 [0] false
             [] [] [] [] None [] [] [] 0%Z [] [] [] false.

Definition first_frame_grow : reducer_t :=
  mk_reducer 4 discrete_base 2 [0; 1] 2 [2; 3] 0%Z 3 2%Z 1 [0; 0; 0] true
             [[1; 0; 0; 0]; []; []] [1; 0; 0] [[1; 0; 0; 0]; []; []]
             [[[0; 1; 2; 3]]; []; []]
             (Some (mk_graph 4 [(0, 2)] [0; 1; 2; 3]))
             (wrZ (replicate 28 0%Z) 2 1%Z)
             [[1; 1; 1; 1]; []; []] (replicate 8 0%Z) 3%Z
             [0%Z; 0%Z; 0%Z] [0%Z; 0%Z; 0%Z] [0%Z; 0%Z; 0%Z] false.

Lemma first_frames_reached :
  (exists r, reducer_initialize discrete_labeler stale_rows 10 parsed_reducer
             = Some (Ok r) /\
             start_stack discrete_labeler stale_rows 10 r = Some (Ok first_frame)) /\
  (exists r, reducer_initialize discrete_labeler stale_rows 10 parsed_pair
             = Some (Ok r) /\
             start_stack discrete_labeler stale_rows 10 r
             = Some (Ok first_frame_pair)) /\
  (exists r, reducer_initialize discrete_labeler stale_rows 10 parsed_grow
             = Some (Ok r) /\
             start_stack discrete_labeler stale_rows 10 r
             = Some (Ok first_frame_grow)).
Proof.
  repeat split; eexists;
    (split; [vm_compute; reflexivity|vm_compute; reflexivity]).
Qed.



(** The reducer that [reducer_initialize] leaves for the graph
    [cycle3_graph] with the variable vertices 0, 1, 2, the value vertex 3
    and the prefix (1). *)
Definition cycle3_initialized : reducer_t :=
  mk_reducer 4 cycle3_graph 3 [0; 1; 2] 1 [3] 0%Z 3 1%Z 1 [1; 0; 0] true
             [[1; 1; 1; 0]; []; []] [3; 0; 0] [[1; 1; 1; 0]; []; []]
             [[[2; 0; 1; 3]; [0; 1; 2; 3]; [1; 2; 0; 3]]; []; []]
             (Some (mk_graph 4 [(0, 1); (1, 2); (0, 2); (1, 3)] [0; 0; 0; 1]))
             (replicate 28 0%Z) [[7; 7; 7; 7]; []; []] (replicate 8 0%Z) 0%Z
             [0%Z; 0%Z; 0%Z] [0%Z; 0%Z; 0%Z] [0%Z; 0%Z; 0%Z] false.

Lemma cycle3_initialized_reached :
  reducer_initialize cycle3_labeler stale_rows 10
    (mk_reducer 4 cycle3_graph 3 [0; 1; 2] 1 [3] 0%Z 1 1%Z 1 [1] false
                [] [] [] [] None [] [] [] 0%Z [] [] [] false)
  = Some (Ok cycle3_initialized).
Proof. vm_compute. reflexivity. Qed.

Lemma traversal_order_ascending_witness :
  map (image [[2; 0; 1; 3]; [0; 1; 2; 3]; [1; 2; 0; 3]] 1) (seq 0 3)
  = orbit_elems cycle3_labeler cycle3_graph 1 /\
  exists r',
    start_stack cycle3_labeler stale_rows 10 cycle3_initialized = Some (Ok r') /\
    rdZ (r_work r') 0 = 0%Z.
Proof.
  destruct cycle3_contract as (H1 & H2 & H3 & H4).
  destruct (traversal_order_ascending cycle3_labeler stale_rows cycle3_graph 1
              H1 H2 H3 H4) as [_ H].
  assert (Ht : traversal_prepare cycle3_labeler 5 1 cycle3_graph
               = Some (Ok (3, [[2; 0; 1; 3]; [0; 1; 2; 3]; [1; 2; 0; 3]])))
    by (vm_compute; reflexivity).
  destruct (H 5 3 _ Ht) as ((A & _) & _ & E).
  split; [exact A|].
  destruct (E cycle3_initialized 0 eq_refl eq_refl eq_refl) as (S0 & _).
  destruct (S0 10 (cycle3_labeler cycle3_graph) eq_refl) as [S1 _].
  - simpl. lia.
  - vm_compute. reflexivity.
  - simpl. lia.
  - simpl. lia.
  - destruct (S1 0) as (r' & R1 & R2 & _).
    + split; [simpl; tauto|]. split; [vm_compute; lia|]. intros w _ _. lia.
    + exists r'. split; [exact R1|exact R2].
Defined.

(** C8 fails on the code: without a CNF, the test of [reducer_parse] that
    every prefix element is a declared variable vertex passes for the
    prefix (0) although the only variable vertex is 1, whatever the
    initial contents of the translation array; the first record returned
    by [reducer_get_prefix_assignment] then has size 1 and the variable
    vertex 0, which is not in the variable list, whatever the blocks
    that the engine allocates and does not write hold. *)
Theorem emitted_variable_not_declared (residue : nat -> list nat) :
  (forall junk, length junk = 4 ->
     exists vt, reducer_parse_checks false 0 4 1 [1] (fun _ => None) 2 [2; 3]
                  1 [0] 1 junk = Ok vt) /\
  exists r1 r2 a,
    reducer_initialize discrete_labeler residue 10 parsed_reducer = Some (Ok r1) /\
    reducer_get_prefix_assignment discrete_labeler residue 10 r1
    = Some (Ok (r2, Some a)) /\
    rdZ a 0 = 1%Z /\ rdZ a 1 = 0%Z /\ rdZ a 2 = 2%Z /\ rdZ a 3 = 1%Z /\
    ~ In 0 (r_var parsed_reducer).
Proof.
  split.
  - intros junk Hj.
    destruct junk as [|j0 [|j1 [|j2 [|j3 [|j4 junk]]]]]; try discriminate.
    eexists. reflexivity.
  - eexists _, _, _. split; [vm_compute; reflexivity|].
    split; [vm_compute; reflexivity|].
    repeat split; try reflexivity. simpl. intros [H|[]]. discriminate.
Qed.

(** ** The orbit selector *)

(** *** Cycles of a permutation given as an array *)

Section Cycles.

Variable n : nat.
Variable a : list nat.
Hypothesis Ha : perm_of n a.

Definition iter_perm (k z : nat) : nat := Nat.iter k (fun x => a !!! x) z.

Lemma iter_perm_S k z : iter_perm (S k) z = a !!! (iter_perm k z).
Proof. reflexivity. Qed.

Lemma iter_perm_shift k z : iter_perm (S k) z = iter_perm k (a !!! z).
Proof.
  induction k as [|k IH]; [reflexivity|].
  rewrite iter_perm_S, IH. reflexivity.
Qed.

Lemma iter_perm_add i k z : iter_perm (i + k) z = iter_perm i (iter_perm k z).
Proof. unfold iter_perm. apply Nat.iter_add. Qed.

Lemma iter_perm_bound k z : z < n -> iter_perm k z < n.
Proof.
  intros Hz. induction k as [|k IH]; [exact Hz|].
  rewrite iter_perm_S. apply (perm_of_bound n a); assumption.
Qed.

Lemma perm_inj x y : x < n -> y < n -> a !!! x = a !!! y -> x = y.
Proof.
  intros Hx Hy E. unfold perm_of in Ha.
  assert (Hnd : NoDup a) by (rewrite Ha; apply NoDup_seq).
  assert (Hl : length a = n) by (rewrite Ha; apply length_seq).
  eapply NoDup_lookup; [exact Hnd| |].
  - apply list_lookup_lookup_total_lt. lia.
  - rewrite E. apply list_lookup_lookup_total_lt. lia.
Qed.

Lemma iter_perm_cancel i k z :
  z < n -> iter_perm (i + k) z = iter_perm i z -> iter_perm k z = z.
Proof.
  intros Hz. induction i as [|i IH]; intros E; [exact E|].
  apply IH. change (S i + k) with (S (i + k)) in E. rewrite !iter_perm_S in E.
  apply perm_inj in E; [exact E|apply iter_perm_bound; exact Hz..].
Qed.

(** Among more than [length l'] elements of [l'] two are equal. *)
Lemma collision (f : nat -> nat) (m : nat) (l' : list nat) :
  (forall i, i < m -> In (f i) l') -> length l' < m ->
  exists i j, i < j /\ j < m /\ f i = f j.
Proof.
  revert l'. induction m as [|m IH]; intros l' Hin Hlen; [lia|].
  destruct (in_dec Nat.eq_dec (f m) (map f (seq 0 m))) as [Hc|Hc].
  - apply in_map_iff in Hc as (i & E & Hi). apply in_seq in Hi.
    exists i, m. split; [lia|]. split; [lia|]. exact E.
  - destruct (in_split (f m) l') as (l1 & l2 & ->); [apply Hin; lia|].
    destruct (IH (l1 ++ l2)) as (i & j & Hij & Hj & E).
    + intros i Hi. specialize (Hin i ltac:(lia)).
      apply in_app_or in Hin. apply in_or_app.
      destruct Hin as [Hin|[Hin|Hin]]; [left; exact Hin| |right; exact Hin].
      exfalso. apply Hc. apply in_map_iff. exists i. split; [congruence|].
      apply in_seq. lia.
    + rewrite length_app in *. simpl in Hlen. lia.
    + exists i, j. split; [lia|]. split; [lia|]. exact E.
Qed.

(** Every vertex returns to itself after at most [n] steps. *)
Lemma period_exists z :
  z < n -> exists P, 1 <= P /\ P <= n /\ iter_perm P z = z.
Proof.
  intros Hz.
  destruct (collision (fun k => iter_perm k z) (S n) (seq 0 n))
    as (i & j & Hij & Hj & E).
  - intros i _. apply in_seq. pose proof (iter_perm_bound i z Hz). lia.
  - rewrite length_seq. lia.
  - exists (j - i). split; [lia|]. split; [lia|].
    apply (iter_perm_cancel i); [exact Hz|].
    replace (i + (j - i)) with j by lia. symmetry. exact E.
Qed.

(** The entries set to 1 by a walk that starts at step [len] and stops
    at step [L]. *)
Definition mark_iter (z len L : nat) (q : list nat) : list nat :=
  fold_left (fun q i => <[iter_perm i z := 1]> q) (seq len (L - len)) q.

Lemma cycle_walk_spec z fuel len q :
  (exists P, len < P /\ P <= len + fuel /\ iter_perm P z = z) ->
  exists L, len < L /\ L <= len + fuel /\ iter_perm L z = z /\
    (forall i, len < i -> i < L -> iter_perm i z <> z) /\
    cycle_walk fuel a z (iter_perm len z) q len = Some (mark_iter z len L q, L).
Proof.
  revert len q. induction fuel as [|fuel IH]; intros len q (P & HP1 & HP2 & HP3);
    [lia|].
  simpl. destruct (Nat.eqb_spec z (a !!! iter_perm len z)) as [E|E].
  - exists (S len). split; [lia|]. split; [lia|].
    split; [rewrite iter_perm_S; congruence|]. split; [intros; lia|].
    unfold mark_iter. replace (S len - len) with 1 by lia. reflexivity.
  - destruct (IH (S len) (<[iter_perm len z := 1]> q)) as (L & H1 & H2 & H3 & H4 & H5).
    + exists P. split; [|split; [lia|exact HP3]].
      assert (P <> S len); [|lia]. intros ->. rewrite iter_perm_S in HP3. congruence.
    + exists L. split; [lia|]. split; [lia|]. split; [exact H3|]. split.
      * intros i Hi1 Hi2. destruct (Nat.eq_dec i (S len)) as [->|Hne].
        -- rewrite iter_perm_S. congruence.
        -- apply H4; lia.
      * rewrite iter_perm_S in H5. rewrite H5. f_equal. f_equal.
        unfold mark_iter. replace (L - len) with (S (L - S len)) by lia.
        reflexivity.
Qed.

Lemma mark_iter_length z len L q : length (mark_iter z len L q) = length q.
Proof.
  unfold mark_iter. generalize (L - len) as m. intros m. revert len q.
  induction m as [|m IH]; intros len q; simpl; [reflexivity|].
  rewrite IH, length_insert. reflexivity.
Qed.

Lemma mark_iter_read z len L q x :
  z < n -> length q = n ->
  (mark_iter z len L q !!! x = 1 /\ exists i, len <= i /\ i < L /\ iter_perm i z = x) \/
  (mark_iter z len L q !!! x = q !!! x /\
   forall i, len <= i -> i < L -> iter_perm i z <> x).
Proof.
  intros Hz. unfold mark_iter.
  assert (H : forall m len q, length q = n ->
    (fold_left (fun q i => <[iter_perm i z := 1]> q) (seq len m) q !!! x = 1 /\
     exists i, len <= i /\ i < len + m /\ iter_perm i z = x) \/
    (fold_left (fun q i => <[iter_perm i z := 1]> q) (seq len m) q !!! x = q !!! x /\
     forall i, len <= i -> i < len + m -> iter_perm i z <> x)).
  { clear len L q. induction m as [|m IH]; intros len q Hl.
    - right. split; [reflexivity|]. intros; lia.
    - rewrite seq_S, Common.fold_left_snoc.
      destruct (Nat.eq_dec (iter_perm (len + m) z) x) as [E|E].
      + left. split.
        * rewrite E. apply list_lookup_total_insert_eq.
          assert (Hlen : forall m q, length
            (fold_left (fun q i => <[iter_perm i z := 1]> q) (seq len m) q) = length q).
          { clear. intros m. generalize len. induction m as [|m IH]; intros l q;
              simpl; [reflexivity|]. rewrite IH, length_insert. reflexivity. }
          rewrite Hlen, Hl. rewrite <- E. apply iter_perm_bound. exact Hz.
        * exists (len + m). split; [lia|]. split; [lia|exact E].
      + rewrite list_lookup_total_insert_ne by exact E.
        destruct (IH len q Hl) as [[H1 (i & Hi1 & Hi2 & Hi3)]|[H1 H2]].
        * left. split; [exact H1|]. exists i. split; [lia|]. split; [lia|exact Hi3].
        * right. split; [exact H1|]. intros i Hi1 Hi2.
          destruct (Nat.eq_dec i (len + m)) as [->|Hne]; [exact E|].
          apply H2; lia. }
  intros Hl. destruct (Nat.le_gt_cases L len) as [Hle|Hgt].
  - replace (L - len) with 0 by lia. right. split; [reflexivity|]. intros; lia.
  - destruct (H (L - len) len q Hl) as [[H1 (i & Hi1 & Hi2 & Hi3)]|[H1 H2]].
    + left. split; [exact H1|]. exists i. split; [lia|]. split; [lia|exact Hi3].
    + right. split; [exact H1|]. intros i Hi1 Hi2. apply H2; lia.
Qed.

(** A walk from [z] with fuel [n] ends; its length is 1 exactly when [z]
    is a fixed point, and a vertex of the cycle is fixed exactly when [z]
    is. *)
Lemma cycle_walk_from z q :
  z < n -> length q = n ->
  exists L q',
    cycle_walk n a z z q 0 = Some (q', L) /\ 1 <= L /\ length q' = n /\
    (L = 1 <-> a !!! z = z) /\
    (forall x, (q' !!! x = 1 /\ exists i, iter_perm i z = x) \/
               (q' !!! x = q !!! x /\ forall i, iter_perm i z <> x)) /\
    q' !!! z = 1.
Proof.
  intros Hz Hl. destruct (period_exists z Hz) as (P & HP1 & HP2 & HP3).
  destruct (cycle_walk_spec z n 0 q) as (L & H1 & H2 & H3 & H4 & H5).
  { exists P. split; [lia|]. split; [lia|exact HP3]. }
  simpl in H5. exists L, (mark_iter z 0 L q).
  split; [exact H5|]. split; [lia|]. split; [rewrite mark_iter_length; exact Hl|].
  split; [|split].
  - split.
    + intros ->. exact H3.
    + intros E. destruct (Nat.eq_dec L 1) as [|Hne]; [assumption|].
      exfalso. apply (H4 1); [lia|lia|exact E].
  - intros x. destruct (mark_iter_read z 0 L q x Hz Hl)
      as [[E (i & _ & _ & Hi)]|[E Hnone]].
    + left. split; [exact E|]. exists i. exact Hi.
    + right. split; [exact E|]. intros i Hi.
      (* reduce the exponent modulo the period *)
      assert (Hmod : forall k, iter_perm k z = iter_perm (k mod L) z).
      { intros k. rewrite (Nat.div_mod_eq k L) at 1.
        generalize (k / L) as d. intros d. induction d as [|d IHd].
        - f_equal. lia.
        - replace (L * S d + k mod L) with ((L * d + k mod L) + L) by lia.
          rewrite iter_perm_add, H3. exact IHd. }
      rewrite Hmod in Hi. apply (Hnone (i mod L)); [lia| |exact Hi].
      apply Nat.mod_upper_bound. lia.
  - destruct (mark_iter_read z 0 L q z Hz Hl) as [[E _]|[_ Hnone]]; [exact E|].
    exfalso. apply (Hnone 0); [lia|lia|reflexivity].
Qed.

Lemma cycle_fixed_iff z i :
  z < n -> (a !!! (iter_perm i z) = iter_perm i z <-> a !!! z = z).
Proof.
  intros Hz. split.
  - intros E. rewrite <- iter_perm_S in E.
    replace (S i) with (i + 1) in E by lia.
    apply (iter_perm_cancel i 1 z Hz) in E. exact E.
  - intros E. induction i as [|i IH]; [exact E|].
    rewrite iter_perm_S, IH. exact IH.
Qed.

End Cycles.

(** *** The cells scanned by the selector *)

(** The pairs [(i, j)] taken by the loop variables of [orbit_select] at
    the head of the loop body, in the order of the scan. *)
Fixpoint scan_cells (fuel : nat) (c p : list nat) (n i : nat)
  : list (nat * nat) :=
  match fuel with
  | 0 => []
  | S fuel' =>
      if i <? n then
        let j := cell_stop n c p n i (i + 1) in
        (i, j) :: scan_cells fuel' c p n j
      else []
  end.

(** [q[p[i]] > 0] on the initial marking. *)
Definition eligible (q0 p : list nat) (cell : nat * nat) : bool :=
  0 <? q0 !!! (p !!! fst cell).

Definition cell_len (cell : nat * nat) : Z := Z.of_nat (snd cell - fst cell).
Definition cell_first (p : list nat) (cell : nat * nat) : nat := p !!! fst cell.

(** A generator fixes, respectively moves, a listed vertex of the orbit
    of [p[i]]. *)
Definition fixes_varb (c p ms a : list nat) (i : nat) : bool :=
  existsb (fun z => (c !!! z =? c !!! (p !!! i)) && (a !!! z =? z)) ms.
Definition moves_varb (c p ms a : list nat) (i : nat) : bool :=
  existsb (fun z => (c !!! z =? c !!! (p !!! i)) && negb (a !!! z =? z)) ms.

(** A good orbit: one generator does both. *)
Definition goodb (c p ms a : list nat) (i : nat) : bool :=
  fixes_varb c p ms a i && moves_varb c p ms a i.
Definition good_cell (gens : list (list nat)) (c p ms : list nat)
    (cell : nat * nat) : bool :=
  existsb (fun a => goodb c p ms a (fst cell)) gens.

Section SelectorCells.

Variable c : list nat.
Variable n : nat.
Variable p : list nat.

Hypothesis Hperm : p ≡ₚ seq 0 n.
Hypothesis Hlex : lex_sorted c p n.

Definition is_cell (i j : nat) : Prop :=
  i < j /\ j <= n /\ cell_start c p i /\
  (forall k, i <= k -> k < j -> c !!! (p !!! k) = c !!! (p !!! i)) /\
  (j = n \/ c !!! (p !!! i) <> c !!! (p !!! j)).

Lemma cell_stop_is_cell i :
  i < n -> cell_start c p i -> is_cell i (cell_stop n c p n i (i + 1)).
Proof.
  intros Hi Hcs.
  destruct (cell_stop_spec c n p n i (i + 1)) as (E1 & E2 & E3 & E4); [lia..| |].
  { intros k Hk1 Hk2. replace k with i by lia. reflexivity. }
  split; [lia|]. split; [exact E2|]. split; [exact Hcs|]. split; assumption.
Qed.

Lemma next_cell_start i j : is_cell i j -> j < n -> cell_start c p j.
Proof.
  intros (H1 & H2 & H3 & H4 & H5) Hj. right.
  rewrite (H4 (j - 1)) by lia. destruct H5; [lia|assumption].
Qed.

(** The positions of a cell hold exactly the vertices of one orbit. *)
Lemma cell_members i j x :
  is_cell i j -> x < n ->
  (c !!! x = c !!! (p !!! i) <-> exists k, i <= k /\ k < j /\ p !!! k = x).
Proof.
  intros (H1 & H2 & H3 & H4 & H5) Hx. split.
  - intros E. destruct (p_surj n p Hperm x Hx) as (k & Hk & <-).
    exists k. split; [|split; [|reflexivity]].
    + destruct (Nat.le_gt_cases i k) as [|Hlt]; [assumption|]. exfalso.
      destruct H3 as [H0|Hne]; [lia|]. apply Hne.
      pose proof (p_key_sorted c n p Hlex k (i - 1) ltac:(lia) ltac:(lia)).
      pose proof (p_key_sorted c n p Hlex (i - 1) i ltac:(lia) ltac:(lia)). lia.
    + destruct (Nat.lt_ge_cases k j) as [|Hge]; [assumption|]. exfalso.
      destruct H5 as [->|Hne]; [lia|]. apply Hne.
      pose proof (p_key_sorted c n p Hlex i j ltac:(lia) ltac:(lia)).
      pose proof (p_key_sorted c n p Hlex j k ltac:(lia) ltac:(lia)). lia.
  - intros (k & Hk1 & Hk2 & <-). apply H4; assumption.
Qed.

Lemma mark_cell_length i j q : length (mark_cell p i j q) = length q.
Proof.
  unfold mark_cell. generalize (j - i) as m. intros m. revert q.
  induction m as [|m IH]; intros q; [reflexivity|].
  rewrite seq_S, Common.fold_left_snoc, length_insert. apply IH.
Qed.

Lemma mark_cell_read i j q x :
  i <= j -> j <= n -> length q = n ->
  ((exists k, i <= k /\ k < j /\ p !!! k = x) -> mark_cell p i j q !!! x = 2) /\
  ((forall k, i <= k -> k < j -> p !!! k <> x) -> mark_cell p i j q !!! x = q !!! x).
Proof.
  intros Hij Hjn Hl. unfold mark_cell.
  assert (H : forall m, i + m <= n ->
    ((exists k, i <= k /\ k < i + m /\ p !!! k = x) ->
       fold_left (fun q u => <[p !!! (u + i) := 2]> q) (seq 0 m) q !!! x = 2) /\
    ((forall k, i <= k -> k < i + m -> p !!! k <> x) ->
       fold_left (fun q u => <[p !!! (u + i) := 2]> q) (seq 0 m) q !!! x = q !!! x)).
  { induction m as [|m IH]; intros Hm.
    - split; [intros (k & ? & ? & _); lia|reflexivity].
    - destruct (IH ltac:(lia)) as [IH1 IH2].
      rewrite seq_S, Common.fold_left_snoc. simpl.
      destruct (Nat.eq_dec (p !!! (m + i)) x) as [E|E].
      + split; intros H.
        * rewrite E. apply list_lookup_total_insert_eq.
          fold (mark_cell p i (i + m) q).
          replace (seq 0 m) with (seq 0 (i + m - i)) by (f_equal; lia).
          fold (mark_cell p i (i + m) q).
          rewrite mark_cell_length, Hl, <- E.
          apply (p_bound n p Hperm). lia.
        * exfalso. apply (H (m + i)); [lia|lia|exact E].
      + rewrite list_lookup_total_insert_ne by exact E. split; intros H.
        * apply IH1. destruct H as (k & Hk1 & Hk2 & Hk3). exists k.
          split; [lia|]. split; [|exact Hk3].
          destruct (Nat.eq_dec k (m + i)) as [->|]; [contradiction|lia].
        * apply IH2. intros k Hk1 Hk2. apply H; lia. }
  destruct (H (j - i) ltac:(lia)) as [H1 H2]. split.
  - intros (k & Hk1 & Hk2 & Hk3). apply H1. exists k.
    split; [lia|]. split; [lia|exact Hk3].
  - intros Hk. apply H2. intros k Hk1 Hk2. apply Hk; lia.
Qed.

Lemma scan_cells_are_cells fuel i cell :
  (i < n -> cell_start c p i) -> In cell (scan_cells fuel c p n i) ->
  is_cell (fst cell) (snd cell) /\ i <= fst cell.
Proof.
  revert i. induction fuel as [|fuel IH]; intros i Hcs Hin; [destruct Hin|].
  simpl in Hin. destruct (Nat.ltb_spec i n) as [Hlt|]; [|destruct Hin].
  pose proof (cell_stop_is_cell i Hlt (Hcs Hlt)) as Hc.
  destruct Hin as [<-|Hin]; [split; [exact Hc|simpl; lia]|].
  destruct (IH _ (next_cell_start _ _ Hc) Hin) as [H1 H2].
  split; [exact H1|]. destruct Hc as (? & _). lia.
Qed.

(** Every position lies in a scanned cell: the scan visits every orbit. *)
Lemma scan_cells_cover fuel i k :
  n <= i + fuel -> (i < n -> cell_start c p i) -> i <= k -> k < n ->
  exists cell, In cell (scan_cells fuel c p n i) /\ fst cell <= k /\ k < snd cell.
Proof.
  revert i. induction fuel as [|fuel IH]; intros i Hf Hcs Hik Hk; [lia|].
  simpl. destruct (Nat.ltb_spec i n) as [Hlt|]; [|lia].
  pose proof (cell_stop_is_cell i Hlt (Hcs Hlt)) as Hc.
  set (j := cell_stop n c p n i (i + 1)) in *.
  destruct (Nat.lt_ge_cases k j) as [Hkj|Hkj].
  - exists (i, j). split; [left; reflexivity|]. simpl. lia.
  - destruct (IH j) as (cell & Hin & H1 & H2);
      [destruct Hc; lia|apply (next_cell_start _ _ Hc)|lia|lia|].
    exists cell. split; [right; exact Hin|]. lia.
Qed.

End SelectorCells.

(** *** What the counters count *)

Section Counting.

Variable c : list nat.
Variable n : nat.
Variable a : list nat.
Variable ms : list nat.
Variable key : nat.
Variable qb : list nat.

Hypothesis Ha : perm_of n a.
Hypothesis Hclosed : forall x, x < n -> c !!! (a !!! x) = c !!! x.
Hypothesis Hms : forall z, In z ms -> z < n.
Hypothesis Hbase : forall z, In z ms -> c !!! z <> key -> qb !!! z <> 2.

Lemma iter_perm_key k z : z < n -> c !!! (iter_perm a k z) = c !!! z.
Proof.
  intros Hz. induction k as [|k IH]; [reflexivity|].
  rewrite iter_perm_S, Hclosed; [exact IH|].
  apply (iter_perm_bound n a Ha). exact Hz.
Qed.

(** The state of the counting loop: outside the orbit nothing has
    changed; inside, a vertex is either unvisited (2) or visited (1), and
    a visited vertex has been counted. *)
Definition count_inv (q : list nat) (nf nm : nat) : Prop :=
  length q = n /\
  (forall x, x < n -> c !!! x <> key -> q !!! x = qb !!! x) /\
  (forall x, x < n -> c !!! x = key ->
     q !!! x = 2 \/
     (q !!! x = 1 /\ (a !!! x = x -> 0 < nf) /\ (a !!! x <> x -> 0 < nm))) /\
  (0 < nf -> exists z, In z ms /\ c !!! z = key /\ a !!! z = z) /\
  (0 < nm -> exists z, In z ms /\ c !!! z = key /\ a !!! z <> z).

Lemma count_cycles_inv ms' :
  forall q nf nm,
  incl ms' ms -> count_inv q nf nm ->
  exists q' nf' nm',
    count_cycles n a ms' q nf nm = Some (q', nf', nm') /\
    count_inv q' nf' nm' /\
    (forall x, x < n -> c !!! x = key -> q !!! x = 1 -> q' !!! x = 1) /\
    (forall z, In z ms' -> c !!! z = key -> q' !!! z = 1).
Proof.
  induction ms' as [|z rest IH]; intros q nf nm Hincl Hinv.
  - exists q, nf, nm. split; [reflexivity|]. split; [exact Hinv|].
    split; [auto|]. intros z [].
  - assert (Hzin : In z ms) by (apply Hincl; left; reflexivity).
    assert (Hrest : incl rest ms) by (intros y Hy; apply Hincl; right; exact Hy).
    pose proof (Hms z Hzin) as Hz.
    destruct Hinv as (I1 & I2 & I3 & I4 & I5).
    simpl. destruct (Nat.eqb_spec (q !!! z) 2) as [E2|E2].
    + assert (Hkey : c !!! z = key).
      { destruct (Nat.eq_dec (c !!! z) key) as [|Hne]; [assumption|].
        exfalso. apply (Hbase z Hzin Hne). rewrite <- (I2 z Hz Hne). exact E2. }
      destruct (cycle_walk_from n a Ha z q Hz I1)
        as (L & q1 & W1 & W2 & W3 & W4 & W5 & W6).
      rewrite W1.
      set (nf1 := if L =? 1 then nf + L else nf).
      set (nm1 := if 2 <=? L then nm + L else nm).
      assert (Hnf : nf <= nf1) by (unfold nf1; destruct (L =? 1); lia).
      assert (Hnm : nm <= nm1) by (unfold nm1; destruct (2 <=? L); lia).
      assert (Hinv1 : count_inv q1 nf1 nm1).
      { split; [exact W3|]. split; [|split; [|split]].
        - intros x Hx Hne. destruct (W5 x) as [[_ (i & Hi)]|[E _]].
          + exfalso. apply Hne. rewrite <- Hi, iter_perm_key; assumption.
          + rewrite E. apply I2; assumption.
        - intros x Hx Hk. destruct (W5 x) as [[E (i & Hi)]|[E _]].
          + right. split; [exact E|]. subst x. split; intros Hfix.
            * apply (cycle_fixed_iff n a Ha z i Hz) in Hfix.
              apply W4 in Hfix. unfold nf1. rewrite Hfix. simpl. lia.
            * assert (L <> 1).
              { intros HL. apply Hfix. apply (cycle_fixed_iff n a Ha z i Hz).
                apply W4. exact HL. }
              unfold nm1. destruct (Nat.leb_spec 2 L); lia.
          + rewrite E. destruct (I3 x Hx Hk) as [H2|(H1 & Hf & Hm)];
              [left; exact H2|right].
            split; [exact H1|]. split; intros H.
            * specialize (Hf H). lia.
            * specialize (Hm H). lia.
        - intros Hpos. unfold nf1 in Hpos.
          destruct (Nat.eqb_spec L 1) as [HL|HL]; [|apply I4; exact Hpos].
          exists z. split; [exact Hzin|]. split; [exact Hkey|]. apply W4. exact HL.
        - intros Hpos. unfold nm1 in Hpos.
          destruct (Nat.leb_spec 2 L) as [HL|HL]; [|apply I5; exact Hpos].
          exists z. split; [exact Hzin|]. split; [exact Hkey|].
          intros Hfix. apply W4 in Hfix. lia. }
      destruct (IH q1 nf1 nm1 Hrest Hinv1) as (q' & nf' & nm' & C1 & C2 & C3 & C4).
      exists q', nf', nm'. split; [exact C1|]. split; [exact C2|]. split.
      * intros x Hx Hk H1. apply C3; [assumption..|].
        destruct (W5 x) as [[E _]|[E _]]; [exact E|congruence].
      * intros z' [<-|Hin] Hk; [|apply C4; assumption].
        apply C3; assumption.
    + destruct (IH q nf nm Hrest) as (q' & nf' & nm' & C1 & C2 & C3 & C4).
      { split; [exact I1|]. split; [exact I2|]. split; [exact I3|].
        split; assumption. }
      exists q', nf', nm'. split; [exact C1|]. split; [exact C2|].
      split; [exact C3|].
      intros z' [<-|Hin] Hk; [|apply C4; assumption].
      apply C3; [assumption..|].
      destruct (I3 z Hz Hk) as [H2|(H1 & _)]; [contradiction|exact H1].
Qed.

End Counting.

(** *** The selection as a fold over the eligible cells *)

(** The three variables [have_good], [max_length] and [max_p]. *)
Definition sel : Type := (bool * Z * nat)%type.

Definition sel_of (st : select_state) : sel :=
  (have_good st, max_length st, max_p st).

(** The effect on them of one generator at a cell of length [len] that
    starts with the vertex [s]; [ga] tells whether both counters came out
    positive. *)
Definition gen_sel (len : Z) (s : nat) (sl : sel) (ga : bool) : sel :=
  let '(hg, ml, mp) := sl in
  let '(ml1, mp1) :=
    if negb hg && (ml <=? len)%Z then (len, s) else (ml, mp) in
  if ga then
    if negb hg || (ml1 <? len)%Z then (true, len, s) else (hg, ml1, mp1)
  else (hg, ml1, mp1).

Lemma update_max_sel st p i j nf nm q' :
  let st' := update_max st p i j nf nm q' in
  sel_of st' = gen_sel (Z.of_nat (j - i)) (p !!! i) (sel_of st)
                 ((0 <? nf) && (0 <? nm)) /\
  q st' = q' /\ have_first_eligible st' = have_first_eligible st /\
  first_eligible st' = first_eligible st.
Proof.
  destruct st as [q1 ml mp hg hfe fe]. unfold update_max, sel_of, gen_sel. simpl.
  destruct hg, (ml <=? Z.of_nat (j - i))%Z eqn:E1, ((0 <? nf) && (0 <? nm)) eqn:E2;
    simpl; try rewrite Z.ltb_irrefl; simpl;
    try (destruct (ml <? Z.of_nat (j - i))%Z; simpl); auto.
Qed.

Section SelectorRun.

Variable c : list nat.
Variable n : nat.
Variable p : list nat.
Variable gens : list (list nat).
Variable ms : list nat.
Variable q0 : list nat.

Hypothesis Hperm : p ≡ₚ seq 0 n.
Hypothesis Hlex : lex_sorted c p n.
Hypothesis Hgens : forall a, In a gens -> perm_of n a.
Hypothesis Hclosed :
  forall a, In a gens -> forall x, x < n -> c !!! (a !!! x) = c !!! x.
Hypothesis Hms : forall z, In z ms -> z < n.

Lemma existsb_key_iff (P : nat -> bool) key :
  existsb (fun z => (c !!! z =? key) && P z) ms = true <->
  exists z, In z ms /\ c !!! z = key /\ P z = true.
Proof.
  rewrite existsb_exists. split.
  - intros (z & Hz & Hb). apply andb_prop in Hb as [H1 H2].
    apply Nat.eqb_eq in H1. exists z. auto.
  - intros (z & Hz & H1 & H2). exists z. split; [exact Hz|].
    apply andb_true_intro. split; [apply Nat.eqb_eq; exact H1|exact H2].
Qed.

(** One pass of the counting loop over a freshly marked cell. *)
Lemma gen_count a i j qs :
  In a gens -> is_cell c n p i j -> length qs = n ->
  (forall z, In z ms -> qs !!! z <> 2) ->
  exists q' nf nm,
    count_cycles n a ms (mark_cell p i j qs) 0 0 = Some (q', nf, nm) /\
    length q' = n /\
    (forall x, x < n -> c !!! x <> c !!! (p !!! i) -> q' !!! x = qs !!! x) /\
    (forall z, In z ms -> q' !!! z <> 2) /\
    (0 <? nf) = fixes_varb c p ms a i /\
    (0 <? nm) = moves_varb c p ms a i.
Proof.
  intros Ha Hcell Hl Hq2. set (key := c !!! (p !!! i)).
  pose proof Hcell as (Hij & Hjn & _).
  assert (Hinv : count_inv c n a ms key qs (mark_cell p i j qs) 0 0).
  { split; [rewrite mark_cell_length; exact Hl|]. split; [|split; [|split; lia]].
    - intros x Hx Hne.
      apply (proj2 (mark_cell_read n p Hperm i j qs x ltac:(lia) Hjn Hl)).
      intros k' Hk1 Hk2 E. apply Hne.
      apply (cell_members c n p Hperm Hlex i j x Hcell Hx). exists k'. auto.
    - intros x Hx Hk. left.
      apply (proj1 (mark_cell_read n p Hperm i j qs x ltac:(lia) Hjn Hl)).
      apply (cell_members c n p Hperm Hlex i j x Hcell Hx). exact Hk. }
  destruct (count_cycles_inv c n a ms key qs (Hgens a Ha) (Hclosed a Ha) Hms
              ltac:(intros z Hz _; apply Hq2; exact Hz)
              ms (mark_cell p i j qs) 0 0 (incl_refl ms) Hinv)
    as (q' & nf & nm & C1 & (I1 & I2 & I3 & I4 & I5) & C3 & C4).
  exists q', nf, nm. split; [exact C1|]. split; [exact I1|]. split; [exact I2|].
  split; [|split].
  - intros z Hz. destruct (Nat.eq_dec (c !!! z) key) as [E|E].
    + rewrite (C4 z Hz E). discriminate.
    + rewrite (I2 z (Hms z Hz) E). apply Hq2. exact Hz.
  - apply eq_true_iff_eq. rewrite Nat.ltb_lt. unfold fixes_varb.
    rewrite existsb_key_iff. split.
    + intros Hpos. destruct (I4 Hpos) as (z & Hz & Hk & Hf).
      exists z. split; [exact Hz|]. split; [exact Hk|]. apply Nat.eqb_eq. exact Hf.
    + intros (z & Hz & Hk & Hf). apply Nat.eqb_eq in Hf.
      destruct (I3 z (Hms z Hz) Hk) as [H2|(_ & H & _)]; [|apply H; exact Hf].
      rewrite (C4 z Hz Hk) in H2. discriminate.
  - apply eq_true_iff_eq. rewrite Nat.ltb_lt. unfold moves_varb.
    rewrite existsb_key_iff. split.
    + intros Hpos. destruct (I5 Hpos) as (z & Hz & Hk & Hf).
      exists z. split; [exact Hz|]. split; [exact Hk|].
      apply negb_true_iff. apply Nat.eqb_neq. exact Hf.
    + intros (z & Hz & Hk & Hf). apply negb_true_iff in Hf. apply Nat.eqb_neq in Hf.
      destruct (I3 z (Hms z Hz) Hk) as [H2|(_ & _ & H)]; [|apply H; exact Hf].
      rewrite (C4 z Hz Hk) in H2. discriminate.
Qed.

(** Between two generators: nothing listed is marked 2, and the cells
    from position [i] on still carry the initial marking. *)
Definition q_inv (i : nat) (qs : list nat) : Prop :=
  length qs = n /\
  (forall z, In z ms -> qs !!! z <> 2) /\
  (forall k, i <= k -> k < n -> qs !!! (p !!! k) = q0 !!! (p !!! k)).

Lemma gens_fold i j gs :
  forall st,
  incl gs gens -> is_cell c n p i j -> q_inv j (q st) ->
  exists st',
    fold_left (gen_update n p ms i j) gs (Some st) = Some st' /\
    q_inv j (q st') /\
    have_first_eligible st' = have_first_eligible st /\
    first_eligible st' = first_eligible st /\
    sel_of st' =
      fold_left (gen_sel (Z.of_nat (j - i)) (p !!! i))
        (map (fun a => goodb c p ms a i) gs) (sel_of st).
Proof.
  induction gs as [|a gs IH]; intros st Hincl Hcell Hq.
  - exists st. simpl. auto.
  - assert (Ha : In a gens) by (apply Hincl; left; reflexivity).
    assert (Hgs : incl gs gens) by (intros y Hy; apply Hincl; right; exact Hy).
    destruct Hq as (Q1 & Q2 & Q3).
    destruct (gen_count a i j (q st) Ha Hcell Q1 Q2)
      as (q' & nf & nm & G1 & G2 & G3 & G4 & G5 & G6).
    destruct (update_max_sel st p i j nf nm q') as (U1 & U2 & U3 & U4).
    destruct (IH (update_max st p i j nf nm q') Hgs Hcell)
      as (st' & F1 & F2 & F3 & F4 & F5).
    { rewrite U2. split; [exact G2|]. split; [exact G4|].
      intros k' Hk1 Hk2. rewrite <- Q3 by assumption.
      apply G3; [apply (p_bound n p Hperm); exact Hk2|].
      destruct Hcell as (C1 & C2 & C3 & C4 & C5).
      destruct C5 as [->|Hne]; [lia|].
      pose proof (p_key_sorted c n p Hlex i j ltac:(lia) ltac:(lia)).
      pose proof (p_key_sorted c n p Hlex j k' ltac:(lia) ltac:(lia)). lia. }
    exists st'. simpl. rewrite G1. split; [exact F1|]. split; [exact F2|].
    split; [congruence|]. split; [congruence|].
    rewrite F5, U1. unfold goodb. rewrite G5, G6. reflexivity.
Qed.

(** The body of the loop over the cells. *)
Definition cell_sel (cell : nat * nat) (sl : sel) : sel :=
  fold_left (gen_sel (cell_len cell) (cell_first p cell))
    (map (fun a => goodb c p ms a (fst cell)) gens) sl.

Lemma cell_update_spec i j st :
  is_cell c n p i j -> q_inv i (q st) ->
  exists st',
    cell_update n gens p ms i j st = Some st' /\
    q_inv j (q st') /\
    if eligible q0 p (i, j) then
      have_first_eligible st' = true /\
      first_eligible st' =
        (if have_first_eligible st then first_eligible st else p !!! i) /\
      sel_of st' = cell_sel (i, j) (sel_of st)
    else st' = st.
Proof.
  intros Hcell Hq. pose proof Hcell as (Hij & Hjn & _).
  assert (Hqj : forall qs, q_inv i qs -> q_inv j qs).
  { intros qs (Q1 & Q2 & Q3). split; [exact Q1|]. split; [exact Q2|].
    intros k' Hk1 Hk2. apply Q3; lia. }
  unfold cell_update, eligible. simpl.
  destruct Hq as (Q1 & Q2 & Q3). rewrite (Q3 i) by lia.
  destruct (0 <? q0 !!! (p !!! i)).
  - set (st1 := if have_first_eligible st then st else _).
    assert (E1 : q st1 = q st) by (unfold st1; destruct (have_first_eligible st); reflexivity).
    assert (E2 : sel_of st1 = sel_of st)
      by (unfold st1; destruct (have_first_eligible st); reflexivity).
    assert (E3 : have_first_eligible st1 = true)
      by (unfold st1; destruct (have_first_eligible st) eqn:E; [exact E|reflexivity]).
    assert (E4 : first_eligible st1 =
                 if have_first_eligible st then first_eligible st else p !!! i)
      by (unfold st1; destruct (have_first_eligible st); reflexivity).
    destruct (gens_fold i j gens st1 (incl_refl gens) Hcell)
      as (st' & F1 & F2 & F3 & F4 & F5).
    { rewrite E1. apply Hqj. split; [exact Q1|]. split; assumption. }
    exists st'. split; [exact F1|]. split; [exact F2|].
    split; [congruence|]. split; [congruence|].
    rewrite F5, E2. reflexivity.
  - exists st. split; [reflexivity|]. split; [|reflexivity].
    apply Hqj. split; [exact Q1|]. split; assumption.
Qed.

(** The whole scan: the selection variables are a fold over the eligible
    cells, and [first_eligible] is the first vertex of the first of them. *)
Lemma select_loop_spec fuel :
  forall i st,
  (i < n -> cell_start c p i) -> q_inv i (q st) ->
  exists st',
    select_loop fuel n gens c p ms i st = Some st' /\
    let E := List.filter (eligible q0 p) (scan_cells fuel c p n i) in
    sel_of st' = fold_left (fun sl cell => cell_sel cell sl) E (sel_of st) /\
    have_first_eligible st' =
      (have_first_eligible st || negb (forallb (fun _ => false) E)) /\
    first_eligible st' =
      (if have_first_eligible st then first_eligible st
       else match E with
            | e :: _ => cell_first p e
            | [] => first_eligible st
            end).
Proof.
  induction fuel as [|fuel IH]; intros i st Hcs Hq.
  - exists st. simpl. split; [reflexivity|]. split; [reflexivity|].
    split; [rewrite orb_false_r; reflexivity|].
    destruct (have_first_eligible st); reflexivity.
  - simpl. destruct (Nat.ltb_spec i n) as [Hlt|Hge].
    + pose proof (cell_stop_is_cell c n p i Hlt (Hcs Hlt)) as Hcell.
      set (j := cell_stop n c p n i (i + 1)) in *.
      destruct (cell_update_spec i j st Hcell Hq) as (st1 & U1 & U2 & U3).
      rewrite U1.
      destruct (IH j st1 (next_cell_start c n p i j Hcell) U2)
        as (st' & L1 & L2 & L3 & L4).
      exists st'. split; [exact L1|]. simpl.
      destruct (eligible q0 p (i, j)).
      * destruct U3 as (V1 & V2 & V3). simpl.
        rewrite L2, V3. split; [reflexivity|].
        rewrite L3, L4, V1, V2. simpl. rewrite orb_true_r.
        split; [reflexivity|]. reflexivity.
      * subst st1. split; [exact L2|]. split; [exact L3|exact L4].
    + exists st. simpl. split; [reflexivity|]. split; [reflexivity|].
      split; [rewrite orb_false_r; reflexivity|].
      destruct (have_first_eligible st); reflexivity.
Qed.

End SelectorRun.

(** *** The selection in closed form *)

(** All generators of one cell taken together; [g] tells whether one of
    them was good. *)
Definition cell_closed (len : Z) (s : nat) (g : bool) (sl : sel) : sel :=
  let '(hg, ml, mp) := sl in
  if g then
    if negb hg || (ml <? len)%Z then (true, len, s) else sl
  else if negb hg && (ml <=? len)%Z then (false, len, s) else sl.

Ltac sel_cases :=
  repeat (simpl; match goal with
  | |- context [(?x <=? ?y)%Z] => destruct (Z.leb_spec x y)
  | |- context [(?x <? ?y)%Z] => destruct (Z.ltb_spec x y)
  end); simpl; try reflexivity; try lia.

Lemma gen_sel_closed len s b sl : gen_sel len s sl b = cell_closed len s b sl.
Proof.
  destruct sl as [[hg ml] mp]. unfold gen_sel, cell_closed.
  destruct hg, b; simpl; sel_cases.
Qed.

Lemma cell_closed_comp len s g1 g2 sl :
  cell_closed len s g2 (cell_closed len s g1 sl) = cell_closed len s (g1 || g2) sl.
Proof.
  destruct sl as [[hg ml] mp]. unfold cell_closed.
  destruct hg, g1, g2; simpl; sel_cases.
Qed.

Lemma fold_gen_sel len s bs :
  forall b sl,
  fold_left (gen_sel len s) (b :: bs) sl =
  cell_closed len s (existsb (fun x => x) (b :: bs)) sl.
Proof.
  induction bs as [|b' bs IH]; intros b sl.
  - simpl. rewrite orb_false_r. apply gen_sel_closed.
  - change (fold_left (gen_sel len s) (b :: b' :: bs) sl)
      with (fold_left (gen_sel len s) (b' :: bs) (gen_sel len s sl b)).
    rewrite IH, gen_sel_closed, cell_closed_comp. reflexivity.
Qed.

Lemma existsb_id_map {A} (f : A -> bool) (l : list A) :
  existsb (fun x => x) (map f l) = existsb f l.
Proof.
  induction l as [|x l IH]; [reflexivity|]. simpl. rewrite IH. reflexivity.
Qed.

Section SelectionOrder.

Context {A : Type}.
Variable len : A -> Z.
Variable s : A -> nat.
Variable good : A -> bool.

Definition cell_step (sl : sel) (x : A) : sel :=
  cell_closed (len x) (s x) (good x) sl.

(** A bound above the lengths of the good cells stays above
    [max_length] once [have_good] is set. *)
Lemma fold_good_bound L :
  forall sl B,
  (fst (fst sl) = true -> (snd (fst sl) < B)%Z) ->
  (forall x, In x L -> good x = true -> (len x < B)%Z) ->
  fst (fst (fold_left cell_step L sl)) = true ->
  (snd (fst (fold_left cell_step L sl)) < B)%Z.
Proof.
  induction L as [|x L IH]; intros sl B H0 HL; [exact H0|].
  cbn [fold_left]. apply IH.
  - destruct sl as [[hg ml] mp]. unfold cell_step, cell_closed. simpl in H0.
    pose proof (HL x (or_introl eq_refl)) as Hx.
    destruct (good x), hg; simpl; sel_cases; intros; try discriminate; auto.
  - intros y Hy. apply HL. right. exact Hy.
Qed.

(** After a good cell, only a strictly longer good cell changes anything. *)
Lemma fold_good_keeps L :
  forall ml mp,
  (forall x, In x L -> good x = true -> (len x <= ml)%Z) ->
  fold_left cell_step L (true, ml, mp) = (true, ml, mp).
Proof.
  induction L as [|x L IH]; intros ml mp HL; [reflexivity|].
  cbn [fold_left]. assert (E : cell_step (true, ml, mp) x = (true, ml, mp)).
  { unfold cell_step, cell_closed. pose proof (HL x (or_introl eq_refl)) as Hx.
    destruct (good x); simpl; [|reflexivity].
    specialize (Hx eq_refl). sel_cases. }
  rewrite E. apply IH. intros y Hy. apply HL. right. exact Hy.
Qed.

(** Without a good cell, [max_length] follows the lengths. *)
Lemma fold_plain_bound L :
  forall ml mp B,
  (forall x, In x L -> good x = false) ->
  (ml <= B)%Z -> (forall x, In x L -> (len x <= B)%Z) ->
  exists ml' mp',
    fold_left cell_step L (false, ml, mp) = (false, ml', mp') /\ (ml' <= B)%Z.
Proof.
  induction L as [|x L IH]; intros ml mp B Hg Hml HL.
  - exists ml, mp. split; [reflexivity|exact Hml].
  - cbn [fold_left]. unfold cell_step at 2, cell_closed.
    rewrite (Hg x (or_introl eq_refl)). simpl.
    pose proof (HL x (or_introl eq_refl)).
    destruct (Z.leb_spec ml (len x)); apply IH;
      try (intros y Hy; first [apply Hg|apply HL]; right; exact Hy); lia.
Qed.

(** ... and a cell that is not shorter than every later one stays. *)
Lemma fold_plain_keeps L :
  forall ml mp,
  (forall x, In x L -> good x = false) ->
  (forall x, In x L -> (len x < ml)%Z) ->
  fold_left cell_step L (false, ml, mp) = (false, ml, mp).
Proof.
  induction L as [|x L IH]; intros ml mp Hg HL; [reflexivity|].
  cbn [fold_left]. assert (E : cell_step (false, ml, mp) x = (false, ml, mp)).
  { unfold cell_step, cell_closed. rewrite (Hg x (or_introl eq_refl)). simpl.
    pose proof (HL x (or_introl eq_refl)). sel_cases. }
  rewrite E. apply IH; intros y Hy; [apply Hg|apply HL]; right; exact Hy.
Qed.

(** The first good cell of maximal length among the good ones wins. *)
Lemma fold_first_good L1 e L2 sl :
  fst (fst sl) = false ->
  good e = true ->
  (forall x, In x L1 -> good x = true -> (len x < len e)%Z) ->
  (forall x, In x L2 -> good x = true -> (len x <= len e)%Z) ->
  fold_left cell_step (L1 ++ e :: L2) sl = (true, len e, s e).
Proof.
  intros H0 Hge H1 H2. rewrite fold_left_app. cbn [fold_left].
  pose proof (fold_good_bound L1 sl (len e)
                ltac:(rewrite H0; discriminate) H1) as Hb.
  destruct (fold_left cell_step L1 sl) as [[hg ml] mp]. simpl in Hb.
  assert (E : cell_step (hg, ml, mp) e = (true, len e, s e)).
  { unfold cell_step, cell_closed. rewrite Hge.
    destruct hg; simpl; [|reflexivity].
    specialize (Hb eq_refl). sel_cases. }
  rewrite E. apply fold_good_keeps. exact H2.
Qed.

(** Without a good cell the last cell of maximal length wins. *)
Lemma fold_last_longest L1 e L2 ml mp :
  (forall x, In x (L1 ++ e :: L2) -> good x = false) ->
  (ml <= len e)%Z ->
  (forall x, In x L1 -> (len x <= len e)%Z) ->
  (forall x, In x L2 -> (len x < len e)%Z) ->
  fold_left cell_step (L1 ++ e :: L2) (false, ml, mp) = (false, len e, s e).
Proof.
  intros Hg Hml H1 H2. rewrite fold_left_app. cbn [fold_left].
  destruct (fold_plain_bound L1 ml mp (len e)) as (ml' & mp' & E & Hle);
    [intros x Hx; apply Hg; apply in_or_app; left; exact Hx|exact Hml|exact H1|].
  rewrite E.
  assert (E' : cell_step (false, ml', mp') e = (false, len e, s e)).
  { unfold cell_step, cell_closed.
    rewrite (Hg e) by (apply in_or_app; right; left; reflexivity). simpl. sel_cases. }
  rewrite E'. apply fold_plain_keeps; [|exact H2].
  intros x Hx. apply Hg. apply in_or_app. right. right. exact Hx.
Qed.

End SelectionOrder.

(** *** The rule of the selector *)

Lemma eligible_init_spec n l m k f :
  length (eligible_init n l m k f) = n /\
  forall z, eligible_init n l m k f !!! z <= 1.
Proof.
  unfold eligible_init.
  assert (H : forall (g : nat -> nat) v us qs,
            v <= 1 -> length qs = n /\ (forall z, qs !!! z <= 1) ->
            length (fold_left (fun q u => <[g u := v]> q) us qs) = n /\
            forall z, fold_left (fun q u => <[g u := v]> q) us qs !!! z <= 1).
  { intros g v us. induction us as [|u us IH]; intros qs Hv [H1 H2];
      [split; assumption|].
    simpl. apply IH; [exact Hv|]. split; [rewrite length_insert; exact H1|].
    intros z. destruct (Nat.eq_dec (g u) z) as [E|E].
    - destruct (Nat.lt_ge_cases (g u) (length qs)) as [Hlt|Hge].
      + rewrite <- E, list_lookup_total_insert_eq by exact Hlt. exact Hv.
      + rewrite list_insert_ge by exact Hge. apply H2.
    - rewrite list_lookup_total_insert_ne by exact E. apply H2. }
  apply (H (fun u => f !!! u) 0); [lia|].
  apply (H (fun u => m !!! u) 1); [lia|].
  split; [apply length_replicate|]. intros z.
  destruct (Nat.lt_ge_cases z n) as [Hlt|Hge].
  - rewrite lookup_total_replicate_2 by exact Hlt. lia.
  - rewrite list_lookup_total_alt, lookup_ge_None_2; [simpl; lia|].
    rewrite length_replicate. exact Hge.
Qed.

Lemma fold_left_pointwise {A B} (f g : A -> B -> A) (l : list B) :
  (forall a x, In x l -> f a x = g a x) ->
  forall a, fold_left f l a = fold_left g l a.
Proof.
  induction l as [|x l IH]; intros H a; [reflexivity|].
  simpl. rewrite (H a x (or_introl eq_refl)). apply IH.
  intros a' y Hy. apply H. right. exact Hy.
Qed.

Lemma cell_sel_closed c p gens ms cell sl :
  gens <> [] ->
  cell_sel c p gens ms cell sl =
  cell_step cell_len (cell_first p) (good_cell gens c p ms) sl cell.
Proof.
  intros Hne. unfold cell_sel, cell_step, good_cell.
  destruct gens as [|a gs]; [contradiction|].
  cbn [map]. rewrite fold_gen_sel. rewrite <- (existsb_id_map _ (a :: gs)).
  reflexivity.
Qed.

(** A good cell has at least two vertices. *)
Lemma good_cell_long c n p gens ms i j :
  p ≡ₚ seq 0 n -> lex_sorted c p n -> (forall z, In z ms -> z < n) ->
  is_cell c n p i j -> good_cell gens c p ms (i, j) = true ->
  (2 <= cell_len (i, j))%Z.
Proof.
  intros Hperm Hlex Hms Hcell Hg. unfold good_cell in Hg.
  apply existsb_exists in Hg as (a & _ & Hg). unfold goodb in Hg.
  apply andb_prop in Hg as [Hf Hm]. simpl in Hf, Hm.
  apply existsb_exists in Hf as (z1 & Hz1 & Hf).
  apply existsb_exists in Hm as (z2 & Hz2 & Hm).
  apply andb_prop in Hf as [Hk1 Hf]. apply andb_prop in Hm as [Hk2 Hm].
  apply Nat.eqb_eq in Hk1, Hk2, Hf. apply negb_true_iff in Hm.
  apply Nat.eqb_neq in Hm.
  apply (cell_members c n p Hperm Hlex i j z1 Hcell (Hms z1 Hz1)) in Hk1
    as (k1 & A1 & A2 & A3).
  apply (cell_members c n p Hperm Hlex i j z2 Hcell (Hms z2 Hz2)) in Hk2
    as (k2 & B1 & B2 & B3).
  assert (k1 <> k2) by (intros ->; congruence).
  unfold cell_len. simpl. lia.
Qed.

Section SelectorProperties.

Variable sparsenauty : graph_t -> canon_t.

(** C3 (amended): let the generators of Aut(G_k) be permutations of the
    vertices that keep every vertex in its orbit, let the listed variable
    vertices be vertices of G_k, and let no vertex of the previous
    traversal be both unused and a variable.  Scan the orbits in the order
    of [graph_orbit_cells] and call an orbit eligible when its first vertex
    is an unused variable vertex, and good when one generator both fixes
    and moves a listed variable vertex of it.  Then [orbit_select] returns
    the first vertex of
    - the first scanned good eligible orbit of maximum length among the
      good ones, when there is a good one;
    - the last scanned eligible orbit of maximum length, when no eligible
      orbit is good, there is a generator and that length is at least 2;
    - the first scanned eligible orbit, when no eligible orbit is good and
      there is no generator or every eligible orbit is a single vertex. *)
Theorem orbit_select_rule (g : graph_t) (l : nat) (m : list nat)
    (k : nat) (f : list nat) (t : option (list nat)) :
  let n := graph_order g in
  let c := graph_orbits sparsenauty g in
  let p := graph_orbit_cells sparsenauty g in
  let gens := graph_aut_gens sparsenauty g in
  let ms := take l m in
  let q0 := eligible_init n l m k f in
  let E := List.filter (eligible q0 p) (scan_cells n c p n 0) in
  let good := good_cell gens c p ms in
  let result := orbit_select sparsenauty g l m k f t in
  (forall a, In a gens -> perm_of n a) ->
  (forall a, In a gens -> forall x, x < n -> c !!! (a !!! x) = c !!! x) ->
  (forall z, In z ms -> z < n) ->
  (forall t', t = Some t' -> previous_orbit_hit n q0 t' = None) ->
  forall E1 e E2, E = E1 ++ e :: E2 ->
    (good e = true ->
     (forall x, In x E1 -> good x = true -> (cell_len x < cell_len e)%Z) ->
     (forall x, In x E2 -> good x = true -> (cell_len x <= cell_len e)%Z) ->
     result = ret (cell_first p e)) /\
    ((forall x, In x E -> good x = false) ->
     gens <> [] -> (2 <= cell_len e)%Z ->
     (forall x, In x E1 -> (cell_len x <= cell_len e)%Z) ->
     (forall x, In x E2 -> (cell_len x < cell_len e)%Z) ->
     result = ret (cell_first p e)) /\
    ((forall x, In x E -> good x = false) ->
     (gens = [] \/ forall x, In x E -> (cell_len x < 2)%Z) ->
     E1 = [] ->
     result = ret (cell_first p e)).
Proof.
  intros n c p gens ms q0 E good result Hg Hc Hms Ht E1 e E2 HE.
  destruct (orbit_cells_spec c n) as [Hperm Hlex].
  change (orbit_cells_of n c) with p in Hperm, Hlex.
  destruct (eligible_init_spec n l m k f) as [Hl0 Hq0]. fold q0 in Hl0, Hq0.
  destruct (select_loop_spec c n p gens ms q0 Hperm Hlex Hg Hc Hms n 0
              (mk_select q0 (-1)%Z 0 false false 0))
    as (st' & S1 & S2 & S3 & S4).
  { intros _. left. reflexivity. }
  { split; [exact Hl0|]. split; [|reflexivity].
    intros z _. specialize (Hq0 z). simpl. lia. }
  fold E in S2, S3, S4. cbn [sel_of have_good max_length max_p
    have_first_eligible first_eligible orb] in S2, S3, S4.
  assert (Hres : result = if (2 <=? max_length st')%Z then ret (max_p st')
                          else ret (first_eligible st')).
  { unfold result, orbit_select. fold n c p gens ms q0.
    assert (Hhit : match t with
                   | Some t' => previous_orbit_hit n q0 t'
                   | None => None
                   end = None).
    { destruct t as [t'|]; [apply Ht|]; reflexivity. }
    rewrite Hhit, S1, S3, HE.
    assert (Hnn : forallb (fun _ : nat * nat => false) (E1 ++ e :: E2) = false).
    { rewrite forallb_app. simpl. apply andb_false_r. }
    rewrite Hnn. reflexivity. }
  assert (Hfe : E1 = [] -> first_eligible st' = cell_first p e).
  { intros ->. rewrite S4, HE. reflexivity. }
  assert (Hcells : forall x, In x E -> is_cell c n p (fst x) (snd x)).
  { intros x Hx. apply List.filter_In in Hx as [Hx _].
    apply (scan_cells_are_cells c n p n 0 x); [|exact Hx].
    intros _. left. reflexivity. }
  assert (Hstep : gens <> [] ->
            sel_of st' =
            fold_left (cell_step cell_len (cell_first p) good) E (false, (-1)%Z, 0)).
  { intros Hne. rewrite S2. apply fold_left_pointwise.
    intros sl x _. apply cell_sel_closed. exact Hne. }
  split; [|split].
  - intros Hge H1 H2.
    assert (Hne : gens <> []).
    { intros Hnil. unfold good, good_cell in Hge. rewrite Hnil in Hge. discriminate. }
    specialize (Hstep Hne). rewrite HE in Hstep.
    rewrite fold_first_good in Hstep; [|reflexivity|assumption..].
    injection Hstep as _ Hml Hmp.
    assert (Hlong : (2 <= cell_len e)%Z).
    { destruct e as [i j].
      apply (good_cell_long c n p gens ms i j Hperm Hlex Hms); [|exact Hge].
      apply (Hcells (i, j)). rewrite HE. apply in_or_app. right. left. reflexivity. }
    rewrite Hres, Hml, Hmp.
    destruct (Z.leb_spec 2 (cell_len e)); [reflexivity|lia].
  - intros Hng Hne Hlong H1 H2. specialize (Hstep Hne). rewrite HE in Hstep.
    rewrite fold_last_longest in Hstep;
      [|rewrite <- HE; exact Hng|lia|assumption..].
    injection Hstep as _ Hml Hmp.
    rewrite Hres, Hml, Hmp.
    destruct (Z.leb_spec 2 (cell_len e)); [reflexivity|lia].
  - intros Hng Hsmall HE1. rewrite Hres, (Hfe HE1).
    assert (Hml : (max_length st' < 2)%Z).
    { destruct (decide (gens = [])) as [Hnil|Hne].
      - assert (Hid : forall (L : list (nat * nat)) sl,
                  fold_left (fun sl cell => cell_sel c p gens ms cell sl) L sl = sl).
        { intros L. induction L as [|x L IH]; intros sl; [reflexivity|].
          cbn [fold_left]. rewrite IH. unfold cell_sel. rewrite Hnil. reflexivity. }
        rewrite Hid in S2. injection S2 as _ Hml _. lia.
      - destruct Hsmall as [Hnil|Hsmall]; [contradiction|].
        specialize (Hstep Hne).
        destruct (fold_plain_bound cell_len (cell_first p) good E (-1)%Z 0 1%Z)
          as (ml' & mp' & Efold & Hle); [exact Hng|lia| |].
        { intros x Hx. specialize (Hsmall x Hx). lia. }
        rewrite Efold in Hstep. injection Hstep as _ Hml _. lia. }
    destruct (Z.leb_spec 2 (max_length st')); [lia|reflexivity].
Qed.

End SelectorProperties.

(** The selector on the graph with the two swapped pairs: no orbit is
    good, and the later of the two orbits of length 2 is returned. *)
Lemma orbit_select_rule_witness :
  orbit_select pairs_labeler pairs_graph 4 [0; 1; 2; 3] 0 [] None = ret 2.
Proof.
  assert (H1 : forall a, In a (graph_aut_gens pairs_labeler pairs_graph) ->
                         perm_of (graph_order pairs_graph) a).
  { intros a [<-|[]]. unfold perm_of.
    apply (bool_decide_unpack _). vm_compute. exact I. }
  assert (H2 : forall a, In a (graph_aut_gens pairs_labeler pairs_graph) ->
             forall x, x < graph_order pairs_graph ->
               graph_orbits pairs_labeler pairs_graph !!! (a !!! x)
               = graph_orbits pairs_labeler pairs_graph !!! x).
  { intros a [<-|[]] x Hx. simpl in Hx.
    do 5 (destruct x as [|x]; [reflexivity|]). lia. }
  assert (H3 : forall z, In z (take 4 [0; 1; 2; 3]) -> z < graph_order pairs_graph).
  { simpl. intros z Hz. repeat (destruct Hz as [<-|Hz]; [lia|]). destruct Hz. }
  assert (H4 : forall t', @None (list nat) = Some t' ->
             previous_orbit_hit (graph_order pairs_graph)
               (eligible_init (graph_order pairs_graph) 4 [0; 1; 2; 3] 0 []) t'
             = None) by discriminate.
  assert (HE : List.filter
                 (eligible (eligible_init (graph_order pairs_graph) 4 [0; 1; 2; 3] 0 [])
                    (graph_orbit_cells pairs_labeler pairs_graph))
                 (scan_cells (graph_order pairs_graph)
                    (graph_orbits pairs_labeler pairs_graph)
                    (graph_orbit_cells pairs_labeler pairs_graph)
                    (graph_order pairs_graph) 0)
               = [(0, 2)] ++ (2, 4) :: []) by (vm_compute; reflexivity).
  refine (proj1 (proj2 (orbit_select_rule pairs_labeler pairs_graph 4 [0; 1; 2; 3]
                          0 [] None H1 H2 H3 H4 [(0, 2)] (2, 4) [] HE)) _ _ _ _ _).
  - rewrite HE. intros x Hx. simpl in Hx.
    destruct Hx as [<-|[<-|[]]]; vm_compute; reflexivity.
  - discriminate.
  - vm_compute. discriminate.
  - intros x [<-|[]]. vm_compute. discriminate.
  - intros x [].
Defined.

(** On the same input the lowest-indexed variable vertex outside the
    prefix is 0, no scanned orbit is good, and the selector returns 2. *)
Lemma orbit_select_not_lowest :
  let g := pairs_graph in
  let c := graph_orbits pairs_labeler g in
  let p := graph_orbit_cells pairs_labeler g in
  forallb (fun cell => negb (good_cell (graph_aut_gens pairs_labeler g) c p
                               (take 4 [0; 1; 2; 3]) cell))
          (scan_cells (graph_order g) c p (graph_order g) 0) = true /\
  In 0 (take 4 [0; 1; 2; 3]) /\ ~ In 0 (take 0 (@nil nat)) /\
  orbit_select pairs_labeler g 4 [0; 1; 2; 3] 0 [] None = ret 2 /\
  orbit_select pairs_labeler g 4 [0; 1; 2; 3] 0 [] None <> ret 0.
Proof.
  cbv zeta. split; [vm_compute; reflexivity|]. split; [left; reflexivity|].
  split; [intros []|]. split; [vm_compute; reflexivity|].
  vm_compute. discriminate.
Qed.

(** ** A reference labeler *)

(** The labeler is outside the repository.  [Exhaustive.labeler] meets its
    contract by exhaustive search: the automorphisms of a coloured graph
    are the colour-preserving vertex permutations that keep the edge list
    (as a sorted list), the generators are all of them but the identity,
    the orbit array gives the least vertex of each orbit, the only index is
    the order of the group, the canonical labeling lists the vertices,
    colour class after colour class, in the order that makes the
    relabelled sorted edge list least, and the canonical graph is the
    graph relabelled in this way. *)
Module Exhaustive.

Fixpoint insert_everywhere (x : nat) (l : list nat) : list (list nat) :=
  match l with
  | [] => [[x]]
  | y :: l' => (x :: l) :: map (cons y) (insert_everywhere x l')
  end.

Fixpoint permutations (l : list nat) : list (list nat) :=
  match l with
  | [] => [[]]
  | x :: l' => flat_map (insert_everywhere x) (permutations l')
  end.

Definition edge_leb (e f : nat * nat) : bool :=
  (fst e <? fst f) || ((fst e =? fst f) && (snd e <=? snd f)).

Fixpoint insert_edge (e : nat * nat) (l : list (nat * nat))
  : list (nat * nat) :=
  match l with
  | [] => [e]
  | f :: l' => if edge_leb e f then e :: l else f :: insert_edge e l'
  end.

Definition sort_edges (l : list (nat * nat)) : list (nat * nat) :=
  fold_right insert_edge [] l.

(** The sorted edge list of the image of a graph under a vertex map. *)
Definition image_edges (s : list nat) (es : list (nat * nat))
  : list (nat * nat) :=
  sort_edges (map (fun e => edge_make (s !!! fst e) (s !!! snd e)) es).

Fixpoint edges_cmp (l1 l2 : list (nat * nat)) : comparison :=
  match l1, l2 with
  | [], [] => Eq
  | [], _ => Lt
  | _, [] => Gt
  | e :: l1', f :: l2' =>
      match Nat.compare (fst e) (fst f) with
      | Eq => match Nat.compare (snd e) (snd f) with
              | Eq => edges_cmp l1' l2'
              | c => c
              end
      | c => c
      end
  end.

Definition keeps_colors (g : graph_t) (s : list nat) : bool :=
  forallb (fun v => colors g !!! (s !!! v) =? colors g !!! v)
          (seq 0 (order g)).

Definition is_automorphism (g : graph_t) (s : list nat) : bool :=
  keeps_colors g s &&
  match edges_cmp (image_edges s (edgebuf g))
                  (image_edges (seq 0 (order g)) (edgebuf g)) with
  | Eq => true
  | _ => false
  end.

Definition automorphisms (g : graph_t) : list (list nat) :=
  List.filter (is_automorphism g) (permutations (seq 0 (order g))).

(** The vertices in the order of their colours. *)
Fixpoint insert_by_color (cs : list nat) (v : nat) (l : list nat) : list nat :=
  match l with
  | [] => [v]
  | w :: l' =>
      if cs !!! v <? cs !!! w then v :: l else w :: insert_by_color cs v l'
  end.

Definition color_order (g : graph_t) : list nat :=
  fold_left (fun l v => insert_by_color (colors g) v l) (seq 0 (order g)) [].

(** The position of every vertex in a labeling. *)
Definition positions (n : nat) (l : list nat) : list nat :=
  fold_left (fun q i => <[l !!! i := i]> q) (seq 0 n) (replicate n 0).

Definition canonical_form (g : graph_t) (l : list nat) : list (nat * nat) :=
  image_edges (positions (order g) l) (edgebuf g).

(** All listings of the vertices that keep the colour classes in order. *)
Definition labelings (g : graph_t) : list (list nat) :=
  map (fun s => map (fun v => s !!! v) (color_order g))
      (List.filter (keeps_colors g) (permutations (seq 0 (order g)))).

Definition best_labeling (g : graph_t) : list nat :=
  fold_left (fun best l =>
               match edges_cmp (canonical_form g l) (canonical_form g best) with
               | Lt => l
               | _ => best
               end) (labelings g) (color_order g).

Definition orbit_least (auts : list (list nat)) (v : nat) : nat :=
  fold_left (fun m s => Nat.min m (s !!! v)) auts v.

Definition is_identity (s : list nat) : bool :=
  forallb (fun i => s !!! i =? i) (seq 0 (length s)).

Definition labeler (g : graph_t) : canon_t :=
  let auts := automorphisms g in
  mk_canon (best_labeling g)
           (map (orbit_least auts) (seq 0 (order g)))
           (List.filter (fun s => negb (is_identity s)) auts)
           [Z.of_nat (length auts)]
           (canonical_rows g (best_labeling g)).

Lemma insert_everywhere_In x l1 l2 :
  In (l1 ++ x :: l2) (insert_everywhere x (l1 ++ l2)).
Proof.
  induction l1 as [|y l1 IH]; simpl.
  - destruct l2; left; reflexivity.
  - right. apply in_map. exact IH.
Qed.

Lemma insert_everywhere_perm x l l' :
  In l' (insert_everywhere x l) -> Permutation (x :: l) l'.
Proof.
  revert l'. induction l as [|y l IH]; intros l' Hin; simpl in Hin.
  - destruct Hin as [<-|[]]. reflexivity.
  - destruct Hin as [<-|Hin]; [reflexivity|].
    apply in_map_iff in Hin as (l0 & <- & Hin).
    rewrite perm_swap. apply perm_skip. apply IH. exact Hin.
Qed.

(** [permutations l] lists the rearrangements of [l], all of them. *)
Lemma permutations_sound l l' : In l' (permutations l) -> Permutation l l'.
Proof.
  revert l'. induction l as [|x l IH]; intros l' Hin; simpl in Hin.
  - destruct Hin as [<-|[]]. reflexivity.
  - apply in_flat_map in Hin as (l0 & H0 & Hin).
    rewrite (IH l0 H0). apply insert_everywhere_perm. exact Hin.
Qed.

Lemma permutations_complete l l' : Permutation l l' -> In l' (permutations l).
Proof.
  revert l'. induction l as [|x l IH]; intros l' Hp.
  - apply Permutation_nil in Hp. subst. left. reflexivity.
  - assert (Hin : In x l').
    { eapply Permutation_in; [exact Hp|left; reflexivity]. }
    apply in_split in Hin as (l1 & l2 & ->).
    apply Permutation_cons_app_inv in Hp.
    simpl. apply in_flat_map. exists (l1 ++ l2). split; [apply IH; exact Hp|].
    apply insert_everywhere_In.
Qed.

(** Every generator is an automorphism and a permutation of the
    vertices. *)
Lemma generators_sound g s :
  In s (aut_gen (labeler g)) ->
  perm_of (order g) s /\ is_automorphism g s = true.
Proof.
  simpl. intros Hin. apply List.filter_In in Hin as [Hin _].
  unfold automorphisms in Hin. apply List.filter_In in Hin as [Hin Ha].
  split; [|exact Ha]. unfold perm_of. symmetry.
  apply permutations_sound. exact Hin.
Qed.

(** Every automorphism is the identity or a generator: the generators
    generate the whole group. *)
Lemma generators_complete g s :
  perm_of (order g) s -> is_automorphism g s = true ->
  is_identity s = true \/ In s (aut_gen (labeler g)).
Proof.
  intros Hp Ha. destruct (is_identity s) eqn:E; [left; reflexivity|right].
  simpl. apply List.filter_In. split; [|rewrite E; reflexivity].
  apply List.filter_In. split; [|exact Ha].
  apply permutations_complete. symmetry. exact Hp.
Qed.

End Exhaustive.

(** ** A run whose value vertices are exchanged by an extended graph *)

(** Vertices 1, 2, 3, 4 are the variable vertices, 5 and 0 the value
    vertices; the only edge joins the variable vertex 3 and the value
    vertex 0.  The group of the base graph is generated by the exchange of
    2 and 4, so that the variable vertices are a union of orbits and both
    value vertices are fixed. *)
Definition mirror_base : graph_t := mk_graph 6 [(0, 3)] [2; 1; 0; 1; 0; 2].

(** The reducer as [reducer_parse] leaves it for this graph, the prefix
    (1) and the target length 3. *)
Definition mirror_parsed : reducer_t :=
  mk_reducer 6 mirror_base 4 [1; 2; 3; 4] 2 [5; 0] 0%Z 1 3%Z 1 [1] false
             [] [] [] [] None [] [] [] 0%Z [] [] [] false.

(** The assignment carried by a record: the pairs of a variable vertex
    and its value vertex. *)
Definition record_assignment (a : list Z) : list (nat * nat) :=
  let size := Z.to_nat (rdZ a 0) in
  map (fun i => (Z.to_nat (rdZ a (1 + Z.of_nat i)),
                 Z.to_nat (rdZ a (1 + Z.of_nat size + Z.of_nat i))))
      (seq 0 size).

(** The action of a vertex permutation on an assignment. *)
Definition map_assignment (s : list nat) (x : list (nat * nat))
  : list (nat * nat) :=
  map (fun uw => (s !!! fst uw, s !!! snd uw)) x.

(** The two extended graphs behind the records below: in both, the vertex
    map (0 5)(1 3)(2 4), which exchanges the two value vertices, is an
    automorphism, and the labeler puts 2 and 4 in one orbit; in the base
    graph that map is no automorphism. *)
Lemma mirror_extended_orbits :
  let hx := mk_graph 6 [(0, 3); (1, 5); (2, 5); (0, 4)] [2; 1; 0; 1; 0; 2] in
  let hy := mk_graph 6 [(0, 3); (1, 5); (0, 2); (4, 5)] [2; 1; 0; 1; 0; 2] in
  Exhaustive.is_automorphism hx [5; 3; 4; 1; 2; 0] = true /\
  Exhaustive.is_automorphism hy [5; 3; 4; 1; 2; 0] = true /\
  Exhaustive.is_automorphism mirror_base [5; 3; 4; 1; 2; 0] = false /\
  graph_orbits Exhaustive.labeler hx = [0; 1; 2; 1; 2; 0] /\
  graph_orbits Exhaustive.labeler hy = [0; 1; 2; 1; 2; 0] /\
  graph_orbits Exhaustive.labeler mirror_base = [0; 1; 2; 3; 2; 5].
Proof. cbv zeta. repeat split; vm_compute; reflexivity. Qed.

(** C1 fails on the code: the input passes the tests of [reducer_parse]
    and of the engine, and the second and the third record returned by
    [reducer_get_prefix_assignment] have the same size 3 and carry the
    assignments 1->5, 2->5, 4->0 and 1->5, 2->0, 4->5, which the
    automorphism of the base graph that exchanges 2 and 4 maps onto each
    other. *)
Theorem symmetric_assignments_emitted (residue : nat -> list nat) :
  (forall junk, length junk = 6 ->
     exists vt, reducer_parse_checks false 0 6 4 [1; 2; 3; 4] (fun _ => None)
                  2 [5; 0] 1 [1] 3 junk = Ok vt) /\
  exists r0 r1 r2 r3 a1 a2 a3,
    reducer_initialize Exhaustive.labeler residue 100 mirror_parsed
      = Some (Ok r0) /\
    reducer_get_prefix_assignment Exhaustive.labeler residue 100 r0
      = Some (Ok (r1, Some a1)) /\
    reducer_get_prefix_assignment Exhaustive.labeler residue 100 r1
      = Some (Ok (r2, Some a2)) /\
    reducer_get_prefix_assignment Exhaustive.labeler residue 100 r2
      = Some (Ok (r3, Some a3)) /\
    record_assignment a2 = [(1, 5); (2, 5); (4, 0)] /\
    record_assignment a3 = [(1, 5); (2, 0); (4, 5)] /\
    Exhaustive.is_automorphism mirror_base [0; 1; 4; 3; 2; 5] = true /\
    map_assignment [0; 1; 4; 3; 2; 5] (record_assignment a2)
      ≡ₚ record_assignment a3 /\
    ~ record_assignment a2 ≡ₚ record_assignment a3.
Proof.
  split.
  - intros junk Hj.
    destruct junk as [|j0 [|j1 [|j2 [|j3 [|j4 [|j5 [|j6 junk]]]]]]];
      try discriminate.
    eexists. reflexivity.
  - eexists _, _, _, _, _, _, _.
    split; [vm_compute; reflexivity|].
    split; [vm_compute; reflexivity|].
    split; [vm_compute; reflexivity|].
    split; [vm_compute; reflexivity|].
    split; [vm_compute; reflexivity|].
    split; [vm_compute; reflexivity|].
    split; [vm_compute; reflexivity|].
    split.
    + apply (bool_decide_unpack _). vm_compute. exact I.
    + intros Hp. apply (Permutation_in (2, 5)) in Hp.
      * vm_compute in Hp. intuition discriminate.
      * vm_compute. auto.
Qed.

(** * Further properties of the code *)

(** ** The sorting subroutines on a part of an array *)

Section HeapsortLocal.

Variable key : nat -> nat.

(** The heapsort loops touch the positions 1..n only. *)
Lemma get1_app (a1 a2 : list nat) x :
  1 <= x <= length a1 -> Common.get1 (a1 ++ a2) x = Common.get1 a1 x.
Proof. intros H. unfold Common.get1. apply lookup_total_app_l. lia. Qed.

Lemma set1_app (a1 a2 : list nat) x v :
  1 <= x <= length a1 -> Common.set1 (a1 ++ a2) x v = Common.set1 a1 x v ++ a2.
Proof. intros H. unfold Common.set1. apply insert_app_l. lia. Qed.

Lemma sift_up_app fuel (a1 a2 : list nat) x :
  x <= length a1 ->
  Common.sift_up key fuel (a1 ++ a2) x = Common.sift_up key fuel a1 x ++ a2.
Proof.
  revert a1 x. induction fuel as [|fuel IH]; intros a1 x Hx; [reflexivity|].
  simpl. destruct (Nat.ltb_spec 1 x) as [H1|H1]; [|reflexivity].
  pose proof (Common.PARENT_spec x) as HP.
  assert (Hy : 1 <= Common.PARENT x <= length a1) by lia.
  rewrite !get1_app by lia.
  destruct (key (Common.get1 a1 x) <=? key (Common.get1 a1 (Common.PARENT x)));
    [reflexivity|].
  rewrite set1_app by lia.
  rewrite set1_app by (rewrite Common.length_set1; lia).
  apply IH. rewrite !Common.length_set1. lia.
Qed.

Lemma build_heap_app n (a1 a2 : list nat) :
  n <= length a1 ->
  Common.build_heap key n (a1 ++ a2) = Common.build_heap key n a1 ++ a2.
Proof.
  unfold Common.build_heap. intros Hn.
  assert (H : forall m a1, 1 + m <= length a1 ->
            fold_left (fun a i => Common.sift_up key i a i) (seq 2 m) (a1 ++ a2)
            = fold_left (fun a i => Common.sift_up key i a i) (seq 2 m) a1 ++ a2).
  { induction m as [|m IH]; intros b Hb; [reflexivity|].
    rewrite seq_S, !Common.fold_left_snoc. rewrite IH by lia.
    apply sift_up_app.
    assert (Hl : forall m b, length (fold_left (fun a i => Common.sift_up key i a i)
                                       (seq 2 m) b) = length b).
    { clear. induction m as [|m IH]; intros b; [reflexivity|].
      rewrite seq_S, Common.fold_left_snoc, Common.sift_up_length. apply IH. }
    rewrite Hl. lia. }
  destruct n as [|n]; [reflexivity|].
  replace (S n - 1) with n by lia. apply H. lia.
Qed.

Lemma sift_down_app fuel (a1 a2 : list nat) i t x :
  1 <= x -> x < i \/ x = 1 -> i <= length a1 -> 1 <= length a1 ->
  Common.sift_down key fuel (a1 ++ a2) i t x
  = Common.sift_down key fuel a1 i t x ++ a2.
Proof.
  revert a1 x. induction fuel as [|fuel IH]; intros a1 x Hx1 Hx Hi Hl.
  - simpl. apply set1_app. lia.
  - simpl. unfold Common.LEFT, Common.RIGHT.
    destruct (Nat.ltb_spec (2 * x) i) as [Hy|Hy]; [|apply set1_app; lia].
    rewrite (get1_app a1 a2 (2 * x)) by lia.
    assert (Htail : forall y', 1 <= y' -> y' < i ->
              (if key (Common.get1 (a1 ++ a2) y') <=? key t
               then Common.set1 (a1 ++ a2) x t
               else Common.sift_down key fuel
                      (Common.set1 (a1 ++ a2) x (Common.get1 (a1 ++ a2) y')) i t y')
              = (if key (Common.get1 a1 y') <=? key t
                 then Common.set1 a1 x t
                 else Common.sift_down key fuel
                        (Common.set1 a1 x (Common.get1 a1 y')) i t y') ++ a2).
    { intros y' H1 H2. rewrite (get1_app a1 a2 y') by lia.
      destruct (key (Common.get1 a1 y') <=? key t); [apply set1_app; lia|].
      rewrite set1_app by lia.
      apply IH; [lia|lia|rewrite Common.length_set1; lia
                |rewrite Common.length_set1; lia]. }
    destruct (Nat.ltb_spec (2 * x + 1) i) as [Hz|Hz]; cbn [andb].
    + rewrite (get1_app a1 a2 (2 * x + 1)) by lia.
      destruct (key (Common.get1 a1 (2 * x)) <? key (Common.get1 a1 (2 * x + 1)));
        apply Htail; lia.
    + apply Htail; lia.
Qed.

Lemma sift_down_length fuel (a : list nat) i t x :
  length (Common.sift_down key fuel a i t x) = length a.
Proof.
  revert a x. induction fuel as [|fuel IH]; intros a x; simpl.
  - apply Common.length_set1.
  - destruct (_ <? _); [|apply Common.length_set1].
    destruct (_ <=? _); [apply Common.length_set1|].
    rewrite IH. apply Common.length_set1.
Qed.

Lemma delete_max_app (a1 a2 : list nat) i :
  2 <= i -> i <= length a1 ->
  Common.delete_max key (a1 ++ a2) i = Common.delete_max key a1 i ++ a2.
Proof.
  intros H2 Hi. unfold Common.delete_max.
  rewrite !get1_app by lia. rewrite set1_app by lia.
  apply sift_down_app; rewrite ?Common.length_set1; lia.
Qed.

Lemma heapsort_by_app n (a1 a2 : list nat) :
  n <= length a1 ->
  Common.heapsort_by key n (a1 ++ a2) = Common.heapsort_by key n a1 ++ a2.
Proof.
  intros Hn. unfold Common.heapsort_by. rewrite build_heap_app by exact Hn.
  assert (Hb : n <= length (Common.build_heap key n a1)).
  { destruct (Common.build_heap_spec key n a1 Hn) as (_ & _ & E). lia. }
  revert Hb. generalize (Common.build_heap key n a1) as b.
  destruct n as [|n]; [reflexivity|]. replace (S n - 1) with n by lia.
  assert (H : forall m b, 1 + m <= length b ->
            fold_left (Common.delete_max key) (rev (seq 2 m)) (b ++ a2)
            = fold_left (Common.delete_max key) (rev (seq 2 m)) b ++ a2).
  { induction m as [|m IH]; intros b Hb; [reflexivity|].
    rewrite seq_S, !Common.fold_left_rev_snoc.
    rewrite delete_max_app by lia. apply IH.
    unfold Common.delete_max. rewrite sift_down_length, Common.length_set1. lia. }
  intros b Hb. apply H. lia.
Qed.

(** Nondecreasing keys along the positions, as a sorted list. *)
Lemma sorted_by_strongly (s : list nat) :
  Common.sorted_by key s (length s) ->
  StronglySorted (fun x y => key x <= key y) s.
Proof.
  assert (Hc : forall x (s : list nat) j,
            1 <= j -> Common.get1 (x :: s) (S j) = Common.get1 s j).
  { intros x s0 j Hj. unfold Common.get1.
    replace (S j - 1) with (S (j - 1)) by lia. reflexivity. }
  induction s as [|x s IH]; intros H; unfold Common.sorted_by in H; constructor.
  - apply IH. intros j k Hj Hjk Hk.
    specialize (H (S j) (S k) ltac:(lia) ltac:(lia) ltac:(simpl; lia)).
    rewrite !Hc in H by lia. exact H.
  - apply List.Forall_forall. intros y Hy.
    apply list_elem_of_In, list_elem_of_lookup in Hy as [k Hk].
    pose proof (lookup_lt_Some _ _ _ Hk) as Hlt.
    specialize (H 1 (S (S k)) ltac:(lia) ltac:(lia) ltac:(simpl; lia)).
    rewrite (Hc x s (S k)) in H by lia. unfold Common.get1 in H. simpl in H.
    rewrite Nat.sub_0_r in H.
    rewrite (list_lookup_total_correct _ _ _ Hk) in H. exact H.
Qed.

Lemma heapsort_by_part n (a : list nat) :
  n <= length a ->
  exists s, Common.heapsort_by key n a = s ++ drop n a /\
            s ≡ₚ take n a /\
            StronglySorted (fun x y => key x <= key y) s.
Proof.
  intros Hn.
  replace (Common.heapsort_by key n a)
    with (Common.heapsort_by key n (take n a ++ drop n a))
    by (rewrite take_drop; reflexivity).
  assert (Hl : length (take n a) = n) by (rewrite length_take; lia).
  rewrite heapsort_by_app by lia.
  destruct (Common.heapsort_by_spec key n (take n a) ltac:(lia)) as (S1 & S2 & S3).
  exists (Common.heapsort_by key n (take n a)).
  split; [reflexivity|]. split; [exact S2|].
  apply sorted_by_strongly. rewrite S3, Hl. exact S1.
Qed.

End HeapsortLocal.

(** X1: [heapsort_int(n, a)] for n within the array leaves the entries
    from position n on as they are and replaces the first n entries by a
    rearrangement of them in nondecreasing order. *)
Theorem heapsort_int_sorts (n : nat) (a : list nat) :
  n <= length a ->
  exists s, Common.heapsort_int n a = s ++ drop n a /\
            s ≡ₚ take n a /\ StronglySorted le s.
Proof.
  intros Hn. destruct (heapsort_by_part (fun v => v) n a Hn) as (s & H1 & H2 & H3).
  exists s. split; [exact H1|]. split; [exact H2|exact H3].
Qed.

Lemma heapsort_int_sorts_witness :
  exists s, Common.heapsort_int 4 [7; 3; 9; 3; 1; 0] = s ++ [1; 0] /\
            StronglySorted le s.
Proof.
  assert (H : 4 <= length [7; 3; 9; 3; 1; 0]) by (simpl; lia).
  destruct (heapsort_int_sorts 4 [7; 3; 9; 3; 1; 0] H) as (s & H1 & _ & H3).
  exists s. split; [exact H1|exact H3].
Defined.

(** X2: [heapsort_int_indirect(n, a, p)] rearranges the first n entries
    of the index array p so that the keys a[p[0]], a[p[1]], ... are in
    nondecreasing order; it changes neither the rest of p nor a. *)
Theorem heapsort_int_indirect_sorts (n : nat) (a p : list nat) :
  n <= length p ->
  exists s, Common.heapsort_int_indirect n a p = s ++ drop n p /\
            s ≡ₚ take n p /\
            StronglySorted (fun x y => a !!! x <= a !!! y) s.
Proof.
  intros Hn. exact (heapsort_by_part (fun v => a !!! v) n p Hn).
Qed.

Lemma heapsort_int_indirect_sorts_witness :
  exists s, Common.heapsort_int_indirect 3 [5; 1; 4] [0; 1; 2] = s ++ [] /\
            StronglySorted (fun x y => [5; 1; 4] !!! x <= [5; 1; 4] !!! y) s.
Proof.
  assert (H : 3 <= length [0; 1; 2]) by (simpl; lia).
  destruct (heapsort_int_indirect_sorts 3 [5; 1; 4] [0; 1; 2] H)
    as (s & H1 & _ & H3).
  exists s. split; [exact H1|exact H3].
Defined.

(** ** The orbit cells *)

(** X3: whatever the labeler returns as orbit array, [graph_orbit_cells]
    lists every vertex exactly once, orbit number after orbit number and
    by ascending vertex inside an orbit number; so the vertices of one
    orbit number occupy consecutive positions. *)
Theorem graph_orbit_cells_sorted (sparsenauty : graph_t -> canon_t) (g : graph_t) :
  let n := graph_order g in
  let p := graph_orbit_cells sparsenauty g in
  let c := graph_orbits sparsenauty g in
  p ≡ₚ seq 0 n /\
  (forall i j, i < j -> j < n ->
     c !!! (p !!! i) < c !!! (p !!! j) \/
     (c !!! (p !!! i) = c !!! (p !!! j) /\ p !!! i < p !!! j)) /\
  (forall i k j, i <= k -> k <= j -> j < n ->
     c !!! (p !!! i) = c !!! (p !!! j) -> c !!! (p !!! k) = c !!! (p !!! i)).
Proof.
  intros n p c. destruct (orbit_cells_spec c n) as [Hperm Hlex].
  change (orbit_cells_of n c) with p in Hperm, Hlex.
  split; [exact Hperm|]. split; [exact Hlex|].
  intros i k j Hik Hkj Hj E.
  pose proof (p_key_sorted c n p Hlex i k Hik ltac:(lia)).
  pose proof (p_key_sorted c n p Hlex k j Hkj Hj). lia.
Qed.

(** ** The tests of [reducer_parse] for repeated elements *)

Lemma sorted_adjacent_NoDup (s : list nat) :
  StronglySorted le s ->
  (forall i, i + 1 < length s -> s !!! i <> s !!! (i + 1)) ->
  NoDup s.
Proof.
  induction 1 as [|x s Hs IH Hall]; intros Hadj; [constructor|].
  constructor.
  - intros Hin. destruct s as [|y s]; [inversion Hin|].
    specialize (Hadj 0 ltac:(simpl; lia)). simpl in Hadj.
    assert (Hxy : x < y).
    { inversion Hall; subst. change ((x :: y :: s) !!! 0) with x in Hadj.
      change ((x :: y :: s) !!! 1) with y in Hadj. lia. }
    apply list_elem_of_In in Hin. inversion Hs as [|? ? ? Hall']; subst.
    destruct Hin as [E|Hin]; [lia|].
    rewrite List.Forall_forall in Hall'. specialize (Hall' _ Hin). lia.
  - apply IH. intros i Hi. specialize (Hadj (S i) ltac:(simpl; lia)).
    exact Hadj.
Qed.

Lemma adjacent_equal_not_NoDup (s : list nat) i :
  i + 1 < length s -> s !!! i = s !!! (i + 1) -> ~ NoDup s.
Proof.
  intros Hi E Hnd.
  assert (H1 : s !! i = Some (s !!! i))
    by (apply list_lookup_lookup_total_lt; lia).
  assert (H2 : s !! (i + 1) = Some (s !!! i))
    by (rewrite E; apply list_lookup_lookup_total_lt; lia).
  pose proof (NoDup_lookup s i (i + 1) _ Hnd H1 H2). lia.
Qed.

(** X4: the test that [reducer_parse] applies to the variable list, the
    value list and the prefix (sort a copy, compare neighbours) finds a
    repetition exactly when the first l entries are not pairwise
    distinct. *)
Theorem repeats_element_spec (l : nat) (a : list nat) :
  l <= length a ->
  (repeats_element l a = true <-> ~ NoDup (take l a)).
Proof.
  intros Hl. unfold repeats_element.
  assert (Hlen : length (take l a) = l) by (rewrite length_take; lia).
  destruct (heapsort_by_part (fun v => v) l (take l a) ltac:(lia))
    as (s & E & Hp & Hs).
  change (Common.heapsort_by (fun v => v) l (take l a))
    with (Common.heapsort_int l (take l a)) in E.
  rewrite drop_ge, app_nil_r in E by lia. rewrite E.
  rewrite take_ge in Hp by lia.
  assert (Hsl : length s = l) by (rewrite Hp; exact Hlen).
  split.
  - intros Hex. apply existsb_exists in Hex as (i & Hi & Heq).
    apply in_seq in Hi. apply Nat.eqb_eq in Heq.
    rewrite <- Hp. apply (adjacent_equal_not_NoDup s (i - 1)); [lia|].
    replace (i - 1 + 1) with i by lia. exact Heq.
  - intros Hnd.
    destruct (existsb (fun i => s !!! (i - 1) =? s !!! i) (seq 1 (l - 1))) eqn:Ex;
      [reflexivity|].
    exfalso. apply Hnd. rewrite <- Hp. apply sorted_adjacent_NoDup; [exact Hs|].
    intros i Hi Heq.
    assert (Hin : In (i + 1) (seq 1 (l - 1))) by (apply in_seq; lia).
    assert (Hf : (s !!! (i + 1 - 1) =? s !!! (i + 1)) = true).
    { apply Nat.eqb_eq. replace (i + 1 - 1) with i by lia. exact Heq. }
    assert (Ht : existsb (fun i => s !!! (i - 1) =? s !!! i) (seq 1 (l - 1)) = true).
    { apply existsb_exists. exists (i + 1). split; assumption. }
    congruence.
Qed.

Lemma repeats_element_spec_witness :
  (repeats_element 3 [4; 2; 4; 9] = true <-> ~ NoDup (take 3 [4; 2; 4; 9])).
Proof. apply (repeats_element_spec 3 [4; 2; 4; 9]). simpl. lia. Defined.

(** ** What an accepted input of [reducer_parse] satisfies *)

(** The CNF variable that the legend of variable [j] names. *)
Definition legend_var (legend : nat -> option Z) (j : nat) : Z :=
  match legend j with Some u1 => (u1 - 1)%Z | None => 0%Z end.

Lemma fold_insert_length (var : list nat) (U : nat -> Z) js (vt : list Z) :
  length (fold_left (fun vt j => <[var !!! j := U j]> vt) js vt) = length vt.
Proof.
  revert vt. induction js as [|j js IH]; intros vt; simpl; [reflexivity|].
  rewrite IH. apply length_insert.
Qed.

Lemma fold_insert_other (var : list nat) (U : nat -> Z) js (vt : list Z) x :
  (forall j, In j js -> var !!! j <> x) ->
  fold_left (fun vt j => <[var !!! j := U j]> vt) js vt !!! x = vt !!! x.
Proof.
  revert vt. induction js as [|j js IH]; intros vt H; simpl; [reflexivity|].
  rewrite IH by (intros; apply H; right; assumption).
  apply list_lookup_total_insert_ne. apply H. left. reflexivity.
Qed.

Lemma fold_insert_at (var : list nat) (U : nat -> Z) js (vt : list Z) j :
  In j js -> var !!! j < length vt ->
  (forall j1 j2, In j1 js -> In j2 js -> var !!! j1 = var !!! j2 -> j1 = j2) ->
  fold_left (fun vt j => <[var !!! j := U j]> vt) js vt !!! (var !!! j) = U j.
Proof.
  revert vt. induction js as [|j0 js IH]; intros vt Hin Hlen Hinj; [inversion Hin|].
  simpl. destruct (Nat.eq_dec j0 j) as [->|Hne].
  - destruct (in_dec Nat.eq_dec j js) as [Hj|Hj].
    + apply IH; [exact Hj|rewrite length_insert; exact Hlen|].
      intros; apply Hinj; try right; assumption.
    + rewrite fold_insert_other.
      * apply list_lookup_total_insert_eq. exact Hlen.
      * intros j' Hj' E. apply Hinj in E; [subst; contradiction|right; exact Hj'|left; reflexivity].
  - destruct Hin as [E|Hin]; [contradiction|].
    apply IH; [exact Hin|rewrite length_insert; exact Hlen|].
    intros; apply Hinj; try right; assumption.
Qed.

Lemma NoDup_take_lookup (a : list nat) l i j :
  l <= length a -> NoDup (take l a) -> i < l -> j < l ->
  a !!! i = a !!! j -> i = j.
Proof.
  intros Hl Hnd Hi Hj E.
  assert (H1 : take l a !! i = Some (a !!! i)).
  { rewrite lookup_take_lt by lia. apply list_lookup_lookup_total_lt. lia. }
  assert (H2 : take l a !! j = Some (a !!! i)).
  { rewrite lookup_take_lt by lia. rewrite E. apply list_lookup_lookup_total_lt. lia. }
  exact (NoDup_lookup _ _ _ _ Hnd H1 H2).
Qed.

Lemma elem_of_take_lookup (a : list nat) l x :
  l <= length a -> (x ∈ take l a <-> exists i, i < l /\ a !!! i = x).
Proof.
  intros Hl. rewrite list_elem_of_lookup. split.
  - intros [i Hi]. assert (i < l).
    { apply lookup_lt_Some in Hi. rewrite length_take in Hi. lia. }
    exists i. split; [assumption|]. rewrite lookup_take_lt in Hi by lia.
    apply list_lookup_total_correct. exact Hi.
  - intros (i & Hi & E). exists i. rewrite lookup_take_lt by lia.
    rewrite <- E. apply list_lookup_lookup_total_lt. lia.
Qed.

Lemma repeats_element_false (l : nat) (a : list nat) :
  l <= length a -> repeats_element l a = false -> NoDup (take l a).
Proof.
  intros Hl Hr. destruct (NoDup_dec (take l a)) as [H|H]; [exact H|].
  exfalso. unfold repeats_element in Hr.
  assert (Hlen : length (take l a) = l) by (rewrite length_take; lia).
  destruct (heapsort_by_part (fun v => v) l (take l a) ltac:(lia))
    as (s & E & Hp & Hs).
  change (Common.heapsort_by (fun v => v) l (take l a))
    with (Common.heapsort_int l (take l a)) in E.
  rewrite drop_ge, app_nil_r in E by lia. rewrite E in Hr.
  rewrite take_ge in Hp by lia.
  assert (Hsl : length s = l) by (rewrite Hp; exact Hlen).
  apply H. rewrite <- Hp. apply sorted_adjacent_NoDup; [exact Hs|].
  intros i Hi Heq.
  assert (Ht : existsb (fun i => s !!! (i - 1) =? s !!! i) (seq 1 (l - 1)) = true).
  { apply existsb_exists. exists (i + 1). split; [apply in_seq; lia|].
    apply Nat.eqb_eq. replace (i + 1 - 1) with i by lia. exact Heq. }
  congruence.
Qed.

(** X5: an input that passes the consistency tests at the end of
    [reducer_parse] has a positive target length that is at least the
    prefix length, and no repetition among the variable vertices, among
    the value vertices, or in the prefix.  With a CNF, moreover, the
    translation array sends the variable vertices to pairwise distinct CNF
    variables below nv and every other vertex to -1, and every prefix
    element is a declared variable vertex. *)
Theorem parse_checks_sound (have_cnf : bool) (nv n v : nat) (var : list nat)
    (legend : nat -> option Z) (r : nat) (val : list nat) (k : nat)
    (prefix : list nat) (target_length : Z) (junk vt : list Z) :
  v <= length var -> (forall i, i < v -> var !!! i < n) ->
  r <= length val ->
  k <= length prefix -> (forall i, i < k -> prefix !!! i < n) ->
  reducer_parse_checks have_cnf nv n v var legend r val k prefix
    target_length junk = Ok vt ->
  (1 <= target_length /\ Z.of_nat k <= target_length)%Z /\
  NoDup (take v var) /\ NoDup (take r val) /\ NoDup (take k prefix) /\
  (have_cnf = true ->
   length vt = n /\
   (forall i, i < v -> (0 <= vt !!! (var !!! i) < Z.of_nat nv)%Z) /\
   (forall i j, i < v -> j < v ->
      vt !!! (var !!! i) = vt !!! (var !!! j) -> i = j) /\
   (forall x, x < n -> x ∉ take v var -> vt !!! x = (-1)%Z) /\
   (forall i, i < k -> prefix !!! i ∈ take v var)).
Proof.
  intros Hv Hvar Hr Hk Hpre. unfold reducer_parse_checks.
  destruct ((target_length <=? 0)%Z && (k =? 0)) eqn:E1; [discriminate|].
  destruct (target_length <? Z.of_nat k)%Z eqn:E2; [discriminate|].
  destruct (repeats_element v var) eqn:E3; [discriminate|].
  destruct (repeats_element r val) eqn:E4; [discriminate|].
  destruct (repeats_element k prefix) eqn:E5; [discriminate|].
  apply repeats_element_false in E3; [|exact Hv].
  apply repeats_element_false in E4; [|exact Hr].
  apply repeats_element_false in E5; [|exact Hk].
  intros Hok.
  split.
  { apply Z.ltb_ge in E2. apply andb_false_iff in E1 as [E1|E1].
    - apply Z.leb_gt in E1. lia.
    - apply Nat.eqb_neq in E1. lia. }
  do 3 (split; [assumption|]).
  intros ->. unfold build_var_trans in Hok.
  set (U := legend_var legend).
  match type of Hok with
  | context [bind (?f 0 v ?vt0 [])] => set (fill := f) in Hok
  end.
  assert (Hfill : forall cnt i vt0 q vt' q',
    fill i cnt vt0 q = Ok (vt', q') ->
    (forall j, i <= j < i + cnt -> (0 <= U j < Z.of_nat nv)%Z) /\
    q' = q ++ map (fun j => Z.to_nat (U j)) (seq i cnt) /\
    vt' = fold_left (fun vt j => <[var !!! j := U j]> vt) (seq i cnt) vt0).
  { induction cnt as [|cnt IH]; intros i vt0 q vt' q' Hf.
    - simpl in Hf. injection Hf as <- <-. split; [intros; lia|].
      split; [simpl; rewrite app_nil_r; reflexivity|reflexivity].
    - simpl in Hf. destruct (legend i) as [u1|] eqn:Hl; [|discriminate].
      destruct ((u1 - 1 <? 0)%Z || (Z.of_nat nv <=? u1 - 1)%Z) eqn:Hb;
        [discriminate|].
      apply orb_false_iff in Hb as [Hb1 Hb2].
      apply Z.ltb_ge in Hb1. apply Z.leb_gt in Hb2.
      assert (HU : U i = (u1 - 1)%Z) by (unfold U, legend_var; rewrite Hl; reflexivity).
      apply IH in Hf as (H1 & H2 & H3).
      split; [|split].
      + intros j Hj. destruct (Nat.eq_dec j i) as [->|Hne]; [lia|].
        apply H1. lia.
      + rewrite H2, <- app_assoc. simpl. rewrite HU. reflexivity.
      + rewrite H3. simpl. rewrite HU. reflexivity. }
  destruct (fill 0 v (replicate n (-1)%Z) []) as [[vt' q']|m|m] eqn:Hf;
    simpl in Hok; try discriminate.
  destruct (repeats_element v q') eqn:E6; [discriminate|].
  simpl in Hok.
  destruct (existsb (fun i => (vt' !!! (prefix !!! i) =? -1)%Z) (seq 0 k)) eqn:E7;
    [discriminate|].
  injection Hok as <-.
  apply Hfill in Hf as (HU & Hq & Hvt). simpl in Hq.
  assert (Hql : length q' = v) by (rewrite Hq, length_map, length_seq; reflexivity).
  apply repeats_element_false in E6; [|lia].
  rewrite take_ge in E6 by lia.
  assert (Hinj : forall j1 j2, In j1 (seq 0 v) -> In j2 (seq 0 v) ->
            var !!! j1 = var !!! j2 -> j1 = j2).
  { intros j1 j2 H1 H2. apply in_seq in H1, H2.
    apply (NoDup_take_lookup var v); [exact Hv|exact E3|lia|lia]. }
  assert (Hat : forall i, i < v -> vt' !!! (var !!! i) = U i).
  { intros i Hi. rewrite Hvt. apply fold_insert_at.
    - apply in_seq. lia.
    - rewrite length_replicate. apply Hvar. exact Hi.
    - exact Hinj. }
  assert (Hout : forall x, x < n -> x ∉ take v var -> vt' !!! x = (-1)%Z).
  { intros x Hx Hnot. rewrite Hvt, fold_insert_other.
    - apply lookup_total_replicate_2. exact Hx.
    - intros j Hj E. apply in_seq in Hj. apply Hnot.
      apply elem_of_take_lookup; [exact Hv|]. exists j. split; [lia|exact E]. }
  split; [rewrite Hvt, fold_insert_length; apply length_replicate|].
  split; [intros i Hi; rewrite Hat by exact Hi; apply HU; lia|].
  split.
  { intros i j Hi Hj E. rewrite !Hat in E by assumption.
    assert (Hqi : forall t, t < v -> q' !! t = Some (Z.to_nat (U t))).
    { intros t Ht. rewrite Hq, list_lookup_fmap, lookup_seq_lt by exact Ht.
      reflexivity. }
    pose proof (Hqi i Hi) as Q1. pose proof (Hqi j Hj) as Q2.
    rewrite <- E in Q2. exact (NoDup_lookup _ _ _ _ E6 Q1 Q2). }
  split; [exact Hout|].
  intros i Hi. destruct (decide (prefix !!! i ∈ take v var)) as [H|H]; [exact H|].
  exfalso. apply Hout in H; [|apply Hpre; exact Hi].
  assert (Ht : existsb (fun i => (vt' !!! (prefix !!! i) =? -1)%Z) (seq 0 k) = true).
  { apply existsb_exists. exists i. split; [apply in_seq; lia|].
    apply Z.eqb_eq. exact H. }
  congruence.
Qed.

Lemma parse_checks_sound_witness :
  NoDup (take 2 [0; 1]) /\ (forall i, i < 1 -> [1] !!! i ∈ take 2 [0; 1]).
Proof.
  destruct (parse_checks_sound true 2 9 2 [0; 1]
              (fun i => Some (Z.of_nat i + 1)%Z) 2 [6; 7] 1 [1] 1%Z []
              [0; 1; -1; -1; -1; -1; -1; -1; -1]%Z)
    as (_ & H1 & _ & _ & H2).
  - simpl; lia.
  - intros [|[|i]] H; simpl; lia.
  - simpl; lia.
  - simpl; lia.
  - intros [|i] H; simpl; lia.
  - vm_compute. reflexivity.
  - split; [exact H1|]. apply (H2 eq_refl).
Defined.

(** ** The tests for unions of orbits and for fixed value vertices *)

(** The marking loop [for(i < l) q[m[i]] = 1] over a zeroed array. *)
Lemma indicator_read (n l : nat) (m : list nat) (x : nat) :
  l <= length m -> (forall i, i < l -> m !!! i < n) -> x < n ->
  fold_left (fun q i => <[m !!! i := 1]> q) (seq 0 l) (replicate n 0) !!! x =
  if decide (x ∈ take l m) then 1 else 0.
Proof.
  intros Hl Hm Hx. induction l as [|l IH].
  - simpl. destruct (decide (x ∈ [])) as [H|_];
      [inversion H|apply lookup_total_replicate_2; exact Hx].
  - rewrite seq_S, Common.fold_left_snoc. simpl.
    specialize (IH ltac:(lia) ltac:(intros; apply Hm; lia)).
    assert (Hlen : forall k, length (fold_left (fun q i => <[m !!! i := 1]> q)
                               (seq 0 k) (replicate n 0)) = n).
    { intros k. induction k as [|k IHk]; [apply length_replicate|].
      rewrite seq_S, Common.fold_left_snoc, length_insert. exact IHk. }
    destruct (Nat.eq_dec (m !!! l) x) as [E|E].
    + rewrite E, list_lookup_total_insert_eq by (rewrite Hlen; exact Hx).
      destruct (decide (x ∈ take (S l) m)) as [_|H]; [reflexivity|].
      exfalso. apply H. apply elem_of_take_lookup; [exact Hl|].
      exists l. split; [lia|exact E].
    + rewrite list_lookup_total_insert_ne by exact E. rewrite IH.
      destruct (decide (x ∈ take l m)) as [H|H];
        destruct (decide (x ∈ take (S l) m)) as [H'|H']; try reflexivity; exfalso.
      * apply H'. apply elem_of_take_lookup in H as (i & Hi & Ei); [|lia].
        apply elem_of_take_lookup; [exact Hl|]. exists i. split; [lia|exact Ei].
      * apply H. apply elem_of_take_lookup in H' as (i & Hi & Ei); [|exact Hl].
        apply elem_of_take_lookup; [lia|]. exists i. split; [|exact Ei].
        destruct (Nat.eq_dec i l) as [->|]; [contradiction|lia].
Qed.

Section BaseChecks.

Variable c : list nat.
Variable n : nat.
Variable p : list nat.

Hypothesis Hperm : p ≡ₚ seq 0 n.
Hypothesis Hlex : lex_sorted c p n.

Lemma check_union_from (q : list nat) fuel s :
  n <= s + fuel -> (s < n -> cell_start c p s) ->
  (check_union fuel n c p q s = true <->
   forall j1 j2, s <= j1 -> j1 < n -> s <= j2 -> j2 < n ->
     c !!! (p !!! j1) = c !!! (p !!! j2) -> q !!! (p !!! j1) = q !!! (p !!! j2)).
Proof.
  revert s. induction fuel as [|fuel IH]; intros s Hf Hcs.
  - simpl. split; [intros _ j1 j2 ? ? ? ? _; lia|reflexivity].
  - simpl. destruct (Nat.ltb_spec s n) as [Hs|Hs];
      [|split; [intros _ j1 j2 ? ? ? ? _; lia|reflexivity]].
    pose proof (cell_stop_is_cell c n p s Hs (Hcs Hs)) as Hc.
    set (u := cell_stop n c p n s (s + 1)) in *.
    pose proof Hc as (C1 & C2 & C3 & C4 & C5).
    specialize (IH u ltac:(lia) (next_cell_start c n p s u Hc)).
    rewrite andb_true_iff, IH, forallb_forall. clear IH.
    assert (Hsep : forall j1 j2, s <= j1 -> j1 < u -> u <= j2 -> j2 < n ->
              c !!! (p !!! j1) <> c !!! (p !!! j2)).
    { intros j1 j2 H1 H2 H3 H4 E. rewrite (C4 j1 H1 H2) in E.
      destruct C5 as [->|C5]; [lia|]. apply C5.
      pose proof (p_key_sorted c n p Hlex s u ltac:(lia) ltac:(lia)).
      pose proof (p_key_sorted c n p Hlex u j2 H3 H4). lia. }
    split.
    + intros [Hin Hrest].
      assert (Hq : forall j, s <= j -> j < u -> q !!! (p !!! j) = q !!! (p !!! s)).
      { intros j Hj1 Hj2. destruct (Nat.eq_dec j s) as [->|Hne]; [reflexivity|].
        apply Nat.eqb_eq. apply Hin. apply in_seq. lia. }
      intros j1 j2 H1 H2 H3 H4 E.
      destruct (Nat.lt_ge_cases j1 u) as [L1|L1];
        destruct (Nat.lt_ge_cases j2 u) as [L2|L2].
      * rewrite (Hq j1), (Hq j2) by lia. reflexivity.
      * exfalso. apply (Hsep j1 j2); assumption.
      * exfalso. apply (Hsep j2 j1); try assumption. symmetry. exact E.
      * apply Hrest; assumption.
    + intros H. split.
      * intros j Hj. apply in_seq in Hj. apply Nat.eqb_eq.
        apply H; try lia. apply C4; lia.
      * intros j1 j2 H1 H2 H3 H4. apply H; lia.
Qed.

(** The scan accepts exactly the markings that are constant on every
    orbit number. *)
Lemma check_union_spec (q : list nat) :
  check_union n n c p q 0 = true <->
  forall x y, x < n -> y < n -> c !!! x = c !!! y -> q !!! x = q !!! y.
Proof.
  rewrite check_union_from by (try lia; intros; left; reflexivity).
  split.
  - intros H x y Hx Hy E.
    destruct (p_surj n p Hperm x Hx) as (j1 & H1 & <-).
    destruct (p_surj n p Hperm y Hy) as (j2 & H2 & <-).
    apply H; first [lia|exact E].
  - intros H j1 j2 _ H1 _ H2 E.
    apply H; [apply (p_bound n p Hperm); exact H1
             |apply (p_bound n p Hperm); exact H2|exact E].
Qed.

Lemma check_union_list (l : nat) (m : list nat) :
  l <= length m -> (forall i, i < l -> m !!! i < n) ->
  (check_union n n c p
     (fold_left (fun q i => <[m !!! i := 1]> q) (seq 0 l) (replicate n 0)) 0
   = true <->
   forall x y, x < n -> y < n -> c !!! x = c !!! y ->
     x ∈ take l m -> y ∈ take l m).
Proof.
  intros Hl Hm. rewrite check_union_spec. split.
  - intros H x y Hx Hy E Hin. specialize (H x y Hx Hy E).
    rewrite !indicator_read in H by assumption.
    destruct (decide (x ∈ take l m)); [|contradiction].
    destruct (decide (y ∈ take l m)); [assumption|discriminate].
  - intros H x y Hx Hy E. rewrite !indicator_read by assumption.
    destruct (decide (x ∈ take l m)) as [H1|H1];
      destruct (decide (y ∈ take l m)) as [H2|H2]; try reflexivity; exfalso.
    + apply H2. apply (H x y); assumption.
    + apply H1. apply (H y x); try assumption. symmetry. exact E.
Qed.

(** The second test accepts exactly when every listed value vertex is
    the only vertex with its orbit number. *)
Lemma check_fixed_spec (val : list nat) (nvals : nat) :
  (forall s, s < nvals -> val !!! s < n) ->
  (check_fixed n c p val nvals = true <->
   forall s x, s < nvals -> x < n -> c !!! x = c !!! (val !!! s) -> x = val !!! s).
Proof.
  intros Hval. unfold check_fixed. rewrite forallb_forall. split.
  - intros H s x Hs Hx E.
    destruct (p_surj n p Hperm (val !!! s) (Hval s Hs)) as (j & Hj & Ej).
    destruct (p_surj n p Hperm x Hx) as (j' & Hj' & Ej').
    specialize (H j ltac:(apply in_seq; lia)).
    rewrite forallb_forall in H. specialize (H s ltac:(apply in_seq; lia)).
    apply negb_true_iff in H.
    replace (p !!! j =? val !!! s) with true in H
      by (symmetry; apply Nat.eqb_eq; exact Ej).
    cbn [andb] in H.
    apply orb_false_iff in H as [Ha Hb].
    rewrite <- Ej, <- Ej' in E.
    destruct (Nat.lt_trichotomy j' j) as [Hlt|[->|Hgt]].
    + exfalso. destruct (Nat.ltb_spec 0 j) as [_|]; [|lia]. cbn [andb] in Ha.
      apply Nat.eqb_neq in Ha. apply Ha.
      pose proof (p_key_sorted c n p Hlex j' (j - 1) ltac:(lia) ltac:(lia)).
      pose proof (p_key_sorted c n p Hlex (j - 1) j ltac:(lia) ltac:(lia)).
      lia.
    + congruence.
    + exfalso. destruct (Nat.ltb_spec j (n - 1)) as [_|]; [|lia]. cbn [andb] in Hb.
      apply Nat.eqb_neq in Hb. apply Hb.
      pose proof (p_key_sorted c n p Hlex j (j + 1) ltac:(lia) ltac:(lia)).
      pose proof (p_key_sorted c n p Hlex (j + 1) j' ltac:(lia) ltac:(lia)).
      lia.
  - intros H j Hj. apply in_seq in Hj. rewrite forallb_forall. intros s Hs.
    apply in_seq in Hs. apply negb_true_iff.
    destruct (Nat.eqb_spec (p !!! j) (val !!! s)) as [E|E]; [|reflexivity].
    cbn [andb]. apply orb_false_iff. split.
    + destruct (Nat.ltb_spec 0 j) as [H0|]; [|reflexivity]. cbn [andb].
      apply Nat.eqb_neq. intros Ec. rewrite E in Ec.
      apply (H s (p !!! (j - 1))) in Ec;
        [|lia|apply (p_bound n p Hperm); lia].
      rewrite <- E in Ec.
      apply (perm_lookup_distinct n p (j - 1) j Hperm); [lia|lia|exact Ec].
    + destruct (Nat.ltb_spec j (n - 1)) as [H0|]; [|reflexivity]. cbn [andb].
      apply Nat.eqb_neq. intros Ec. rewrite E in Ec. symmetry in Ec.
      apply (H s (p !!! (j + 1))) in Ec;
        [|lia|apply (p_bound n p Hperm); lia].
      rewrite <- E in Ec.
      apply (perm_lookup_distinct n p j (j + 1) Hperm); [lia|lia|].
      symmetry. exact Ec.
Qed.

End BaseChecks.

(** X6: [graph_print_orbits(out, g, l, m)] returns exactly when the l
    entries of m are vertices of g and the set they list is a union of
    orbits (closed under "same orbit number"); an entry out of range
    aborts with "bad m array", and a set that splits an orbit with
    "bad m array -- not a union of orbits". *)
Theorem graph_print_orbits_spec (sparsenauty : graph_t -> canon_t)
    (g : graph_t) (l : nat) (m : list nat) :
  l <= length m ->
  let n := graph_order g in
  let c := graph_orbits sparsenauty g in
  let in_range := forall i, i < l -> m !!! i < n in
  let union := forall x y, x < n -> y < n -> c !!! x = c !!! y ->
                 x ∈ take l m -> y ∈ take l m in
  (graph_print_orbits sparsenauty g l m = Ok tt <-> in_range /\ union) /\
  (~ in_range -> graph_print_orbits sparsenauty g l m = Abort "bad m array") /\
  (in_range -> ~ union ->
   graph_print_orbits sparsenauty g l m
   = Abort "bad m array -- not a union of orbits").
Proof.
  intros Hl n c in_range union.
  destruct (orbit_cells_spec c n) as [Hperm Hlex].
  unfold graph_print_orbits. fold n. fold c.
  change (graph_orbit_cells sparsenauty g) with (orbit_cells_of n c).
  set (p := orbit_cells_of n c) in *.
  destruct (forallb (fun i => m !!! i <? n) (seq 0 l)) eqn:Er; cbn [negb].
  - assert (Hr : in_range).
    { intros i Hi. rewrite forallb_forall in Er.
      apply Nat.ltb_lt. apply Er. apply in_seq. lia. }
    pose proof (check_union_list c n p Hperm Hlex l m Hl Hr) as Hu.
    fold union in Hu.
    destruct (check_union n n c p _ 0) eqn:Ec; cbn [negb].
    + split; [split; [intros _; split; [exact Hr|apply Hu; reflexivity]
                     |reflexivity]|].
      split; [intros H; contradiction|].
      intros _ H. exfalso. apply H. apply Hu. reflexivity.
    + split; [split; [discriminate|]|].
      * intros [_ H]. apply Hu in H. discriminate.
      * split; [intros H; contradiction|reflexivity].
  - assert (Hr : ~ in_range).
    { intros H. assert (forallb (fun i => m !!! i <? n) (seq 0 l) = true).
      { apply forallb_forall. intros i Hi. apply in_seq in Hi.
        apply Nat.ltb_lt. apply H. lia. }
      congruence. }
    split; [split; [discriminate|intros [H _]; contradiction]|].
    split; [reflexivity|intros H; contradiction].
Qed.

Lemma graph_print_orbits_spec_witness :
  graph_print_orbits pairs_labeler pairs_graph 2 [0; 1; 4] = Ok tt <->
  (forall i, i < 2 -> [0; 1; 4] !!! i < 5) /\
  (forall x y, x < 5 -> y < 5 ->
     graph_orbits pairs_labeler pairs_graph !!! x
     = graph_orbits pairs_labeler pairs_graph !!! y ->
     x ∈ take 2 [0; 1; 4] -> y ∈ take 2 [0; 1; 4]).
Proof.
  refine (proj1 (graph_print_orbits_spec pairs_labeler pairs_graph 2 [0; 1; 4] _)).
  simpl. lia.
Defined.

(** X7: the test that [reducer_expand_prefix] makes of the base graph at
    level 0 passes exactly when the variable list is a union of orbits of
    the base graph and every value vertex is alone in its orbit; the
    test of the variables comes first. *)
Theorem check_base_spec (sparsenauty : graph_t -> canon_t)
    (r : reducer_t) (g : graph_t) :
  graph_order g = r_n r ->
  r_v r <= length (r_var r) -> (forall i, i < r_v r -> r_var r !!! i < r_n r) ->
  (forall s, s < r_r r -> r_val r !!! s < r_n r) ->
  let n := r_n r in
  let c := graph_orbits sparsenauty g in
  let union := forall x y, x < n -> y < n -> c !!! x = c !!! y ->
                 x ∈ take (r_v r) (r_var r) -> y ∈ take (r_v r) (r_var r) in
  let fixed := forall s x, s < r_r r -> x < n ->
                 c !!! x = c !!! (r_val r !!! s) -> x = r_val r !!! s in
  (check_base sparsenauty r g = Ok tt <-> union /\ fixed) /\
  (~ union -> check_base sparsenauty r g
     = Error "variable list is not a union of orbits of base graph").
Proof.
  intros Hn Hv Hvar Hval n c union fixed.
  destruct (orbit_cells_spec c n) as [Hperm Hlex].
  unfold check_base.
  replace (graph_orbit_cells sparsenauty g) with (orbit_cells_of n c)
    by (unfold graph_orbit_cells, n; rewrite <- Hn; reflexivity).
  fold n. fold c. set (p := orbit_cells_of n c) in *.
  pose proof (check_union_list c n p Hperm Hlex (r_v r) (r_var r) Hv Hvar) as Hu.
  fold union in Hu.
  pose proof (check_fixed_spec c n p Hperm Hlex (r_val r) (r_r r) Hval) as Hf.
  fold fixed in Hf.
  destruct (check_union n n c p _ 0) eqn:Ec; cbn [negb].
  - destruct (check_fixed n c p (r_val r) (r_r r)) eqn:Ef; cbn [negb].
    + split; [|intros H; exfalso; apply H, Hu; reflexivity].
      split; [intros _|reflexivity].
      split; [apply Hu|apply Hf]; reflexivity.
    + split; [|intros H; exfalso; apply H, Hu; reflexivity].
      split; [discriminate|]. intros [_ H]. apply Hf in H. discriminate.
  - split; [|reflexivity].
    split; [discriminate|]. intros [H _]. apply Hu in H. discriminate.
Qed.

Lemma check_base_spec_witness :
  check_base discrete_labeler parsed_reducer discrete_base = Ok tt <->
  (forall x y, x < 4 -> y < 4 ->
     graph_orbits discrete_labeler discrete_base !!! x
     = graph_orbits discrete_labeler discrete_base !!! y ->
     x ∈ take 1 [1] -> y ∈ take 1 [1]) /\
  (forall s x, s < 2 -> x < 4 ->
     graph_orbits discrete_labeler discrete_base !!! x
     = graph_orbits discrete_labeler discrete_base !!! ([2; 3] !!! s) ->
     x = [2; 3] !!! s).
Proof.
  refine (proj1 (check_base_spec discrete_labeler parsed_reducer discrete_base
                   _ _ _ _)).
  - reflexivity.
  - simpl. lia.
  - intros [|i] H; simpl in *; lia.
  - intros [|[|s]] H; simpl in *; lia.
Defined.

(** ** The orbit selector: which vertices it can return *)

(** The initial marking of [orbit_select]: 1 on the listed vertices that
    are not in the prefix, 0 elsewhere. *)
Lemma eligible_init_read (n l : nat) (m : list nat) (k : nat) (f : list nat) x :
  l <= length m -> (forall i, i < l -> m !!! i < n) -> k <= length f -> x < n ->
  eligible_init n l m k f !!! x =
  if decide (x ∈ take l m /\ x ∉ take k f) then 1 else 0.
Proof.
  intros Hl Hm Hk Hx. unfold eligible_init.
  set (q1 := fold_left (fun q u => <[m !!! u := 1]> q) (seq 0 l) (replicate n 0)).
  assert (Hq1 : q1 !!! x = if decide (x ∈ take l m) then 1 else 0)
    by (apply indicator_read; assumption).
  assert (Hlen1 : length q1 = n).
  { unfold q1. generalize l. intros l'. induction l' as [|l' IH];
      [apply length_replicate|].
    rewrite seq_S, Common.fold_left_snoc, length_insert. exact IH. }
  clearbody q1.
  assert (H : forall k', k' <= length f ->
    length (fold_left (fun q u => <[f !!! u := 0]> q) (seq 0 k') q1) = n /\
    fold_left (fun q u => <[f !!! u := 0]> q) (seq 0 k') q1 !!! x =
    if decide (x ∈ take k' f) then 0 else q1 !!! x).
  { induction k' as [|k' IH]; intros Hk'.
    - simpl. split; [exact Hlen1|].
      destruct (decide (x ∈ [])) as [H|_]; [inversion H|reflexivity].
    - destruct (IH ltac:(lia)) as [IH1 IH2].
      rewrite seq_S, Common.fold_left_snoc. simpl.
      split; [rewrite length_insert; exact IH1|].
      destruct (Nat.eq_dec (f !!! k') x) as [E|E].
      + rewrite E, list_lookup_total_insert_eq by (rewrite IH1; exact Hx).
        destruct (decide (x ∈ take (S k') f)) as [_|H]; [reflexivity|].
        exfalso. apply H. apply elem_of_take_lookup; [exact Hk'|].
        exists k'. split; [lia|exact E].
      + rewrite list_lookup_total_insert_ne by exact E. rewrite IH2.
        destruct (decide (x ∈ take k' f)) as [H|H];
          destruct (decide (x ∈ take (S k') f)) as [H'|H']; try reflexivity; exfalso.
        * apply H'. apply elem_of_take_lookup in H as (i & Hi & Ei); [|lia].
          apply elem_of_take_lookup; [exact Hk'|]. exists i. split; [lia|exact Ei].
        * apply H. apply elem_of_take_lookup in H' as (i & Hi & Ei); [|exact Hk'].
          apply elem_of_take_lookup; [lia|]. exists i. split; [|exact Ei].
          destruct (Nat.eq_dec i k') as [->|]; [contradiction|lia]. }
  destruct (H k Hk) as [_ ->]. rewrite Hq1.
  destruct (decide (x ∈ take k f)) as [H1|H1];
    destruct (decide (x ∈ take l m)) as [H2|H2];
    destruct (decide (x ∈ take l m /\ x ∉ take k f)) as [H3|H3];
    try reflexivity; exfalso; tauto.
Qed.

Lemma find_seq_least (f : nat -> bool) (n x : nat) :
  x < n -> f x = true -> (forall y, y < x -> f y = false) ->
  find f (seq 0 n) = Some x.
Proof.
  intros Hx Hf Hmin. destruct (find f (seq 0 n)) as [s|] eqn:E.
  - apply find_seq_first in E as (H1 & H2 & H3). f_equal.
    destruct (Nat.lt_trichotomy s x) as [Hlt|[->|Hgt]]; [|reflexivity|].
    + rewrite (Hmin s Hlt) in H2. discriminate.
    + rewrite (H3 x ltac:(lia)) in Hf. discriminate.
  - rewrite (find_none _ _ E x) in Hf; [discriminate|apply in_seq; lia].
Qed.

(** X8: when the indicator t of the previous traversal is given,
    [orbit_select] returns the least vertex that is marked in t, is a
    listed variable vertex and is not in the prefix, whatever the orbits
    and generators are; when there is no such vertex the call does what
    it does without t. *)
Theorem orbit_select_previous_orbit (sparsenauty : graph_t -> canon_t)
    (g : graph_t) (l : nat) (m : list nat) (k : nat) (f t : list nat) :
  let n := graph_order g in
  let unused x := x ∈ take l m /\ x ∉ take k f in
  l <= length m -> (forall i, i < l -> m !!! i < n) ->
  k <= length f -> (forall i, i < k -> f !!! i < n) ->
  (forall x, x < n -> unused x -> 0 < t !!! x ->
     (forall y, y < x -> unused y -> t !!! y = 0) ->
     orbit_select sparsenauty g l m k f (Some t) = ret x) /\
  ((forall y, y < n -> unused y -> t !!! y = 0) ->
   orbit_select sparsenauty g l m k f (Some t)
   = orbit_select sparsenauty g l m k f None).
Proof.
  intros n unused Hl Hm Hk Hf.
  assert (Hread : forall y, y < n ->
            (0 <? eligible_init n l m k f !!! y) = true <-> unused y).
  { intros y Hy. rewrite eligible_init_read by assumption.
    unfold unused. destruct (decide (y ∈ take l m /\ y ∉ take k f)) as [H|H].
    - split; [intros _; exact H|reflexivity].
    - split; [discriminate|intros H'; contradiction]. }
  split.
  - intros x Hx Hu Ht Hmin. unfold orbit_select. fold n.
    unfold previous_orbit_hit. rewrite (find_seq_least _ n x); [reflexivity|exact Hx| |].
    + apply andb_true_iff. split; [apply Hread; assumption|].
      apply Nat.ltb_lt. exact Ht.
    + intros y Hy. apply andb_false_iff.
      destruct (0 <? eligible_init n l m k f !!! y) eqn:E; [|left; reflexivity].
      right. apply Hread in E; [|lia]. rewrite (Hmin y Hy E). reflexivity.
  - intros Hno. unfold orbit_select. fold n. unfold previous_orbit_hit.
    destruct (find _ (seq 0 n)) as [s|] eqn:E; [|reflexivity].
    exfalso. apply find_seq_first in E as (H1 & H2 & _).
    apply andb_true_iff in H2 as [H2 H3]. apply Hread in H2; [|lia].
    rewrite (Hno s ltac:(lia) H2) in H3. discriminate.
Qed.

Lemma orbit_select_previous_orbit_witness :
  orbit_select pairs_labeler pairs_graph 4 [0; 1; 2; 3] 1 [0] (Some [1; 1; 0; 0; 0])
  = ret 1.
Proof.
  refine (proj1 (orbit_select_previous_orbit pairs_labeler pairs_graph
                   4 [0; 1; 2; 3] 1 [0] [1; 1; 0; 0; 0] _ _ _ _) 1 _ _ _ _).
  - simpl. lia.
  - intros i H. simpl. do 4 (destruct i as [|i]; [simpl; lia|]). lia.
  - simpl. lia.
  - intros [|i] H; simpl; lia.
  - simpl. lia.
  - simpl. split; [apply list_elem_of_In; simpl; auto|].
    intros H. apply list_elem_of_In in H. simpl in H. intuition lia.
  - simpl. lia.
  - intros [|y] Hy [_ H]; [|lia]. exfalso. apply H. simpl.
    apply list_elem_of_In. simpl. auto.
Defined.

(** The selection variables after a run of cells: either untouched, or
    the length and first vertex of one of the cells. *)
Lemma fold_cell_sel_source c p gens ms (E : list (nat * nat)) (sl : sel) :
  let r := fold_left (fun sl cell => cell_sel c p gens ms cell sl) E sl in
  (snd (fst r) = snd (fst sl) /\ snd r = snd sl) \/
  exists e, In e E /\ snd (fst r) = cell_len e /\ snd r = cell_first p e.
Proof.
  revert sl. induction E as [|x E IH]; intros sl; [left; split; reflexivity|].
  cbn [fold_left].
  assert (Hone : (snd (fst (cell_sel c p gens ms x sl)) = snd (fst sl) /\
                  snd (cell_sel c p gens ms x sl) = snd sl) \/
                 (snd (fst (cell_sel c p gens ms x sl)) = cell_len x /\
                  snd (cell_sel c p gens ms x sl) = cell_first p x)).
  { unfold cell_sel.
    generalize (map (fun a => goodb c p ms a (fst x)) gens). intros bs.
    revert sl. induction bs as [|b bs IHb]; intros sl; [left; split; reflexivity|].
    cbn [fold_left].
    assert (Hg : (snd (fst (gen_sel (cell_len x) (cell_first p x) sl b)) = snd (fst sl) /\
                  snd (gen_sel (cell_len x) (cell_first p x) sl b) = snd sl) \/
                 (snd (fst (gen_sel (cell_len x) (cell_first p x) sl b)) = cell_len x /\
                  snd (gen_sel (cell_len x) (cell_first p x) sl b) = cell_first p x)).
    { destruct sl as [[hg ml] mp]. unfold gen_sel.
      destruct (negb hg && (ml <=? cell_len x)%Z), b; simpl;
        repeat match goal with
               | |- context [if ?b then _ else _] => destruct b; simpl
               end; auto. }
    destruct (IHb (gen_sel (cell_len x) (cell_first p x) sl b)) as [[H1 H2]|[H1 H2]].
    - destruct Hg as [[G1 G2]|[G1 G2]]; [left|right]; split; congruence.
    - right. split; assumption. }
  cbv zeta in IH.
  destruct (IH (cell_sel c p gens ms x sl)) as [[H1 H2]|(e & He & H1 & H2)].
  - destruct Hone as [[G1 G2]|[G1 G2]].
    + left. split; congruence.
    + right. exists x. split; [left; reflexivity|]. split; congruence.
  - right. exists e. split; [right; exact He|]. split; assumption.
Qed.

(** X9: let the generators be permutations of the vertices that keep
    every vertex in its orbit.  Then [orbit_select] always comes to an
    end; what it returns is a vertex of the graph that is a listed
    variable vertex outside the prefix; and it aborts with
    "no eligible orbit" only if no orbit has such a vertex as its least
    vertex. *)
Theorem orbit_select_returns_unused (sparsenauty : graph_t -> canon_t)
    (g : graph_t) (l : nat) (m : list nat) (k : nat) (f : list nat)
    (t : option (list nat)) :
  let n := graph_order g in
  let c := graph_orbits sparsenauty g in
  let gens := graph_aut_gens sparsenauty g in
  let unused x := x ∈ take l m /\ x ∉ take k f in
  (forall a, In a gens -> perm_of n a) ->
  (forall a, In a gens -> forall x, x < n -> c !!! (a !!! x) = c !!! x) ->
  l <= length m -> (forall i, i < l -> m !!! i < n) ->
  k <= length f -> (forall i, i < k -> f !!! i < n) ->
  (exists x, orbit_select sparsenauty g l m k f t = ret x /\ x < n /\ unused x) \/
  (orbit_select sparsenauty g l m k f t = abort "no eligible orbit" /\
   forall x, x < n -> (forall w, w < n -> c !!! w = c !!! x -> x <= w) ->
     ~ unused x).
Proof.
  intros n c gens unused Hg Hc Hl Hm Hk Hf.
  set (p := graph_orbit_cells sparsenauty g).
  set (q0 := eligible_init n l m k f).
  destruct (orbit_cells_spec c n) as [Hperm Hlex].
  change (orbit_cells_of n c) with p in Hperm, Hlex.
  assert (Hread : forall y, y < n -> (0 <? q0 !!! y) = true <-> unused y).
  { intros y Hy. unfold q0. rewrite eligible_init_read by assumption.
    unfold unused. destruct (decide (y ∈ take l m /\ y ∉ take k f)) as [H|H].
    - split; [intros _; exact H|reflexivity].
    - split; [discriminate|intros H'; contradiction]. }
  assert (Hms : forall z, In z (take l m) -> z < n).
  { intros z Hz. apply list_elem_of_In in Hz.
    apply elem_of_take_lookup in Hz as (i & Hi & <-); [|exact Hl].
    apply Hm. exact Hi. }
  unfold orbit_select. fold n c p gens q0.
  destruct (match t with Some t0 => previous_orbit_hit n q0 t0 | None => None end)
    as [s|] eqn:Ehit.
  { left. exists s. split; [reflexivity|].
    destruct t as [t0|]; [|discriminate]. unfold previous_orbit_hit in Ehit.
    apply find_seq_first in Ehit as (H1 & H2 & _).
    apply andb_true_iff in H2 as [H2 _]. split; [lia|]. apply Hread; [lia|exact H2]. }
  destruct (eligible_init_spec n l m k f) as [Hl0 Hq0]. fold q0 in Hl0, Hq0.
  destruct (select_loop_spec c n p gens (take l m) q0 Hperm Hlex Hg Hc Hms n 0
              (mk_select q0 (-1)%Z 0 false false 0))
    as (st' & S1 & S2 & S3 & S4).
  { intros _. left. reflexivity. }
  { split; [exact Hl0|]. split; [|reflexivity].
    intros z _. specialize (Hq0 z). simpl. lia. }
  set (E := List.filter (eligible q0 p) (scan_cells n c p n 0)) in *.
  cbn [sel_of have_good max_length max_p have_first_eligible first_eligible orb]
    in S2, S3, S4.
  rewrite S1.
  assert (HE : forall e, In e E -> cell_first p e < n /\ unused (cell_first p e)).
  { intros e He. apply List.filter_In in He as [He Hel].
    apply (scan_cells_are_cells c n p n 0 e) in He as [Hcell _];
      [|intros _; left; reflexivity].
    destruct Hcell as (C1 & C2 & _).
    assert (Hb : cell_first p e < n)
      by (apply (p_bound n p Hperm); lia).
    split; [exact Hb|]. apply Hread; [exact Hb|exact Hel]. }
  destruct E as [|e0 E'] eqn:EE.
  - right. rewrite S3. simpl. split; [reflexivity|].
    intros x Hx Hleast Hu.
    destruct (p_surj n p Hperm x Hx) as (j & Hj & Ej). subst x.
    assert (Hcs : cell_start c p j)
      by (apply (cell_start_min c n p Hperm Hlex j Hj); exact Hleast).
    destruct (scan_cells_cover c n p n 0 j) as (cell & Hin & H1 & H2);
      [lia|intros _; left; reflexivity|lia|exact Hj|].
    pose proof (scan_cells_are_cells c n p n 0 cell
                  ltac:(intros _; left; reflexivity) Hin) as [Hcell _].
    assert (Hfst : fst cell = j).
    { destruct (Nat.eq_dec (fst cell) j) as [|Hne]; [assumption|]. exfalso.
      destruct Hcell as (C1 & C2 & C3 & C4 & C5).
      destruct Hcs as [->|Hcs]; [lia|]. apply Hcs.
      rewrite (C4 (j - 1)), (C4 j) by lia. reflexivity. }
    assert (Hel : eligible q0 p cell = true).
    { unfold eligible. rewrite Hfst. apply Hread; [apply (p_bound n p Hperm); exact Hj|].
      exact Hu. }
    assert (Hin' : In cell E)
      by (apply List.filter_In; split; assumption).
    rewrite EE in Hin'. destruct Hin'.
  - left. rewrite S3. simpl.
    destruct (fold_cell_sel_source c p gens (take l m) (e0 :: E')
                (sel_of (mk_select q0 (-1)%Z 0 false false 0)))
      as [[H1 H2]|(e & He & H1 & H2)].
    + rewrite <- S2 in H1. simpl in H1. rewrite H1. simpl.
      exists (first_eligible st'). split; [reflexivity|]. rewrite S4.
      apply HE. left. reflexivity.
    + rewrite <- S2 in H1, H2. simpl in H1, H2.
      destruct (2 <=? max_length st')%Z.
      * exists (max_p st'). split; [reflexivity|]. rewrite H2. apply HE. exact He.
      * exists (first_eligible st'). split; [reflexivity|]. rewrite S4.
        apply HE. left. reflexivity.
Qed.

Lemma orbit_select_returns_unused_witness :
  (exists x, orbit_select pairs_labeler pairs_graph 4 [0; 1; 2; 3] 0 [] None = ret x /\
             x < 5 /\ (x ∈ take 4 [0; 1; 2; 3] /\ x ∉ take 0 (@nil nat))) \/
  (orbit_select pairs_labeler pairs_graph 4 [0; 1; 2; 3] 0 [] None
   = abort "no eligible orbit" /\
   forall x, x < 5 ->
     (forall w, w < 5 ->
        graph_orbits pairs_labeler pairs_graph !!! w
        = graph_orbits pairs_labeler pairs_graph !!! x -> x <= w) ->
     ~ (x ∈ take 4 [0; 1; 2; 3] /\ x ∉ take 0 (@nil nat))).
Proof.
  apply (orbit_select_returns_unused pairs_labeler pairs_graph 4 [0; 1; 2; 3]
           0 [] None).
  - intros a [<-|[]]. unfold perm_of.
    apply (bool_decide_unpack _). vm_compute. exact I.
  - intros a [<-|[]] x Hx. simpl in Hx.
    do 5 (destruct x as [|x]; [reflexivity|]). lia.
  - simpl. lia.
  - intros i H. simpl. do 4 (destruct i as [|i]; [simpl; lia|]). lia.
  - simpl. lia.
  - intros i H. lia.
Defined.

(** ** The command-line parser: what a successful parse holds *)

(** The parameter stored for an argument of a given type: nothing, a
    long, a string that does not start with '-', or an int array that
    starts with the number of its further entries.  A long is also what
    the long form stores for an int-array argument. *)
Definition param_fits (t : Args.argtype) (v : Args.param) : Prop :=
  match t, v with
  | Args.ARG_NO_PARAM, Args.PNull => True
  | Args.ARG_LONG_PARAM, Args.PLong _ => True
  | Args.ARG_STRING_PARAM, Args.PString s => Args.char_at s 0 <> "-"%char
  | Args.ARG_INT_ARRAY_PARAM, Args.PIntArray a =>
      exists b, a = Z.of_nat (length b) :: b
  | Args.ARG_INT_ARRAY_PARAM, Args.PLong _ => True
  | _, _ => False
  end.

Definition entry_fits (nm : string) (v : Args.param) : Prop :=
  exists a, Args.find_long nm = Some a /\ param_fits (Args.type a) v.

Definition parse_inv (p : Args.argparse_t) : Prop :=
  NoDup (Args.parsed_args p) /\
  Forall2 entry_fits (Args.parsed_args p) (Args.parsed_params p).

Lemma find_long_of_entry (a : Args.argdef_t) :
  In a Args.argdefs -> Args.find_long (Args.long_desc a) = Some a.
Proof.
  intros H. vm_compute in H.
  repeat (destruct H as [<-|H]; [reflexivity|]). destruct H.
Qed.

Lemma find_short_entry (d : ascii) (a : Args.argdef_t) :
  Args.find_short d = Some a -> In a Args.argdefs.
Proof. intros H. apply find_some in H as [H _]. exact H. Qed.

Lemma int_array_fill_length av i k len b :
  Args.int_array_fill av i k len = Ok b -> length b = len.
Proof.
  revert k b. induction len as [|len IH]; intros k b H; simpl in H.
  - injection H as <-. reflexivity.
  - destruct (Args.sscanf_d _) as [v|]; [|discriminate].
    destruct (Args.int_array_fill av i (S k) len) as [b'| |] eqn:E;
      simpl in H; try discriminate.
    injection H as <-. simpl. f_equal. apply (IH _ _ E).
Qed.

Lemma arg_get_long_fits av i v i' :
  Args.arg_get_long av i = Ok (v, i') -> exists l, v = Args.PLong l.
Proof.
  unfold Args.arg_get_long. destruct (length av <=? i + 1); [discriminate|].
  destruct (Args.sscanf_ld _) as [l|]; [|discriminate].
  intros H. injection H as <- _. exists l. reflexivity.
Qed.

Lemma read_short_fits av i t v i' :
  Args.read_short av i t = Ok (v, i') -> param_fits t v.
Proof.
  destruct t; simpl.
  - intros H. injection H as <- _. exact I.
  - unfold Args.arg_get_string. destruct (length av <=? i + 1); [discriminate|].
    destruct (Ascii.eqb_spec (Args.char_at (Args.arg_at av (i + 1)) 0) "-");
      [discriminate|].
    intros H. injection H as <- _. simpl. assumption.
  - intros H. apply arg_get_long_fits in H as [l ->]. exact I.
  - unfold Args.arg_get_int_array.
    destruct (Args.int_array_fill av i 0 _) as [b| |] eqn:E; simpl; try discriminate.
    intros H. injection H as <- _. simpl. exists b.
    rewrite (int_array_fill_length _ _ _ _ _ E). reflexivity.
Qed.

Lemma read_long_fits av i t v i' :
  Args.read_long av i t = Ok (v, i') -> param_fits t v.
Proof.
  destruct t; simpl.
  - intros H. injection H as <- _. exact I.
  - unfold Args.arg_get_string. destruct (length av <=? i + 1); [discriminate|].
    destruct (Ascii.eqb_spec (Args.char_at (Args.arg_at av (i + 1)) 0) "-");
      [discriminate|].
    intros H. injection H as <- _. simpl. assumption.
  - intros H. apply arg_get_long_fits in H as [l ->]. exact I.
  - intros H. apply arg_get_long_fits in H as [l ->]. exact I.
Qed.

Lemma record_arg_inv p a r p' i' :
  In a Args.argdefs ->
  (forall v i, r = Ok (v, i) -> param_fits (Args.type a) v) ->
  Args.record_arg p a r = Ok (p', i') -> parse_inv p ->
  parse_inv p' /\ Args.argv p' = Args.argv p.
Proof.
  intros Ha Hr H [Hnd Hf]. unfold Args.record_arg in H.
  destruct (Args.is_dup (Args.long_desc a) (Args.parsed_args p)) eqn:Ed;
    [discriminate|].
  destruct r as [[v i]| |]; simpl in H; try discriminate.
  injection H as <- <-. simpl. split; [|reflexivity]. split.
  - apply NoDup_app. split; [exact Hnd|]. split; [|apply NoDup_singleton].
    intros x Hx Hx'. apply list_elem_of_singleton in Hx'. subst x.
    assert (Args.is_dup (Args.long_desc a) (Args.parsed_args p) = true).
    { apply existsb_exists. exists (Args.long_desc a).
      split; [apply list_elem_of_In; exact Hx|apply String.eqb_refl]. }
    congruence.
  - apply Forall2_app; [exact Hf|]. constructor; [|constructor].
    exists a. split; [apply find_long_of_entry; exact Ha|].
    apply (Hr v i). reflexivity.
Qed.

Lemma parse_short_inv s : forall p i p' i',
  Args.parse_short s p i = Ok (p', i') -> parse_inv p ->
  parse_inv p' /\ Args.argv p' = Args.argv p.
Proof.
  induction s as [|d rest IH]; intros p i p' i' H Hinv; simpl in H.
  - injection H as <- <-. split; [exact Hinv|reflexivity].
  - destruct (Args.find_short d) as [a|] eqn:Ea; [|discriminate].
    destruct (Args.record_arg p a _) as [[p1 i1]| |] eqn:Er; simpl in H;
      try discriminate.
    apply record_arg_inv in Er as [H1 H2];
      [|apply (find_short_entry d); exact Ea
       |intros v j; apply read_short_fits|exact Hinv].
    destruct (Args.has_param (Args.type a)).
    + injection H as <- <-. split; assumption.
    + apply IH in H as [H3 H4]; [|exact H1]. split; [exact H3|congruence].
Qed.

Lemma parse_long_inv s p i p' i' :
  Args.parse_long s p i = Ok (p', i') -> parse_inv p ->
  parse_inv p' /\ Args.argv p' = Args.argv p.
Proof.
  unfold Args.parse_long. intros H Hinv.
  destruct (Args.find_long _) as [a|] eqn:Ea; [|discriminate].
  apply record_arg_inv in H; [exact H| |intros v j; apply read_long_fits|exact Hinv].
  unfold Args.find_long in Ea. apply find_some in Ea as [Ea _]. exact Ea.
Qed.

Lemma parse_args_inv fuel : forall p i p',
  Args.parse_args fuel p i = Ok p' -> parse_inv p ->
  parse_inv p' /\ Args.argv p' = Args.argv p.
Proof.
  induction fuel as [|fuel IH]; intros p i p' H Hinv; simpl in H.
  - injection H as <-. split; [exact Hinv|reflexivity].
  - destruct (Args.argc p <=? i).
    { injection H as <-. split; [exact Hinv|reflexivity]. }
    destruct (Args.is_short _).
    + destruct (Args.parse_short _ p i) as [[p1 i1]| |] eqn:E; simpl in H;
        try discriminate.
      apply parse_short_inv in E as [E1 E2]; [|exact Hinv].
      apply IH in H as [H1 H2]; [|exact E1]. split; [exact H1|congruence].
    + destruct (Args.is_long _); [|discriminate].
      destruct (Args.parse_long _ p i) as [[p1 i1]| |] eqn:E; simpl in H;
        try discriminate.
      apply parse_long_inv in E as [E1 E2]; [|exact Hinv].
      apply IH in H as [H1 H2]; [|exact E1]. split; [exact H1|congruence].
Qed.

Lemma lookup_param_fits names ps s :
  Forall2 entry_fits names ps ->
  if existsb (String.eqb s) names
  then exists v, Args.lookup_param names ps s = Some v /\ entry_fits s v
  else Args.lookup_param names ps s = None.
Proof.
  induction 1 as [|nm v names ps Hfit _ IH]; simpl; [reflexivity|].
  destruct (String.eqb_spec s nm) as [->|Hne]; simpl.
  - exists v. split; [reflexivity|exact Hfit].
  - exact IH.
Qed.

(** X10: after a successful [arg_parse] no argument is recorded twice
    and every recorded argument is one of the table; [arg_have] tells
    whether a name was recorded, and the parameter stored under a
    recorded name fits the type of the argument in the table: nothing for
    a flag, a long for "threshold" and "length", a string that does not
    start with '-' for "file" and "output", and for "prefix" an int array
    headed by its length or, from the long form, a long.  A name that was
    not recorded makes [arg_int_array] abort. *)
Theorem arg_parse_well_formed (av : list string) (p : Args.argparse_t) :
  Args.arg_parse av = Ok p ->
  Args.argv p = av /\
  NoDup (Args.parsed_args p) /\
  length (Args.parsed_params p) = length (Args.parsed_args p) /\
  (forall s, Args.arg_have p s = true ->
     exists a v, Args.find_long s = Some a /\
       Args.lookup_param (Args.parsed_args p) (Args.parsed_params p) s = Some v /\
       param_fits (Args.type a) v) /\
  (forall s, Args.arg_have p s = false ->
     Args.arg_int_array p s = Abort "argument not found").
Proof.
  unfold Args.arg_parse. intros H.
  destruct (Args.check_args (tail av) 0) as [c| |]; simpl in H; try discriminate.
  apply parse_args_inv in H as [[Hnd Hf] Hav];
    [|split; [apply NoDup_nil_2|constructor]].
  split; [exact Hav|]. split; [exact Hnd|].
  split; [symmetry; apply (Forall2_length _ _ _ Hf)|].
  split.
  - intros s Hs. pose proof (lookup_param_fits _ _ s Hf) as Hl.
    unfold Args.arg_have in Hs. rewrite Hs in Hl.
    destruct Hl as (v & Hv & a & Ha & Hfit). exists a, v. auto.
  - intros s Hs. pose proof (lookup_param_fits _ _ s Hf) as Hl.
    unfold Args.arg_have in Hs. rewrite Hs in Hl.
    unfold Args.arg_int_array. rewrite Hl. reflexivity.
Qed.

Lemma arg_parse_well_formed_witness :
  NoDup ["no-cnf"; "graph"; "length"]%string.
Proof.
  destruct (arg_parse_well_formed ["reduce"; "-ng"; "--length"; "3"]%string
    (Args.mk_argparse ["reduce"; "-ng"; "--length"; "3"]%string
       ["no-cnf"; "graph"; "length"]%string
       [Args.PNull; Args.PNull; Args.PLong 3])) as (_ & H & _).
  - vm_compute. reflexivity.
  - exact H.
Defined.

(** ** The command-line parser: rejected tokens and the short prefix form *)

Lemma string_from_1 (c : ascii) (s : string) :
  Args.string_from (String c s) 1 = s.
Proof.
  unfold Args.string_from. simpl. rewrite Nat.sub_0_r.
  induction s as [|d s IH]; [reflexivity|]. simpl. f_equal. exact IH.
Qed.

Lemma check_short_no_abort s : forall c m, Args.check_short s c <> Abort m.
Proof.
  induction s as [|d rest IH]; intros c m; simpl; [discriminate|].
  destruct (Args.find_short d) as [a|]; [|discriminate].
  destruct (_ && _); [discriminate|apply IH].
Qed.

Lemma check_args_rejects (tok : string) (d : ascii) (rest : string) l :
  tok = String "-" (String d rest) -> d <> "-"%char ->
  Args.find_short d = None -> In tok l ->
  forall c, exists msg, Args.check_args l c = Error msg.
Proof.
  intros Htok Hd Hfind. induction l as [|a l IH]; intros Hin c; [destruct Hin|].
  simpl.
  destruct (string_dec a tok) as [->|Hne].
  - assert (Hs : Args.is_short tok = true).
    { subst tok. unfold Args.is_short, Args.char_at. simpl.
      destruct (Ascii.eqb_spec d "-"); [contradiction|reflexivity]. }
    rewrite Hs. subst tok. rewrite string_from_1. simpl. rewrite Hfind. simpl.
    eexists. reflexivity.
  - destruct Hin as [E|Hin]; [contradiction|].
    destruct (if Args.is_short a then _ else _) as [c1|m|m] eqn:E1; simpl.
    + destruct (if Args.is_long a then _ else _) as [c2|m|m] eqn:E2; simpl.
      * apply IH. exact Hin.
      * eexists. reflexivity.
      * exfalso. destruct (Args.is_long a); [|discriminate].
        destruct (Args.find_long _); discriminate.
    + eexists. reflexivity.
    + exfalso. destruct (Args.is_short a); [|discriminate].
      apply check_short_no_abort in E1. exact E1.
Qed.

(** X11: a command-line token that starts with '-' followed by a
    character that is neither '-' nor the letter of an argument makes
    [arg_parse] stop with an error wherever the token stands, also in
    the place of a parameter. *)
Theorem unknown_letter_rejected (av : list string) (tok : string)
    (d : ascii) (rest : string) :
  In tok (tail av) -> tok = String "-" (String d rest) ->
  d <> "-"%char -> Args.find_short d = None ->
  exists msg, Args.arg_parse av = Error msg.
Proof.
  intros Hin Htok Hd Hfind. unfold Args.arg_parse.
  destruct (check_args_rejects tok d rest (tail av) Htok Hd Hfind Hin 0)
    as [msg E].
  rewrite E. exists msg. reflexivity.
Qed.

Lemma unknown_letter_rejected_witness :
  exists msg, Args.arg_parse ["reduce"; "-t"; "-5"]%string = Error msg.
Proof.
  apply (unknown_letter_rejected ["reduce"; "-t"; "-5"]%string "-5"%string
           "5"%char ""%string).
  - simpl. auto.
  - reflexivity.
  - discriminate.
  - vm_compute. reflexivity.
Defined.

Definition plain_token (t : string) : Prop := Args.char_at t 0 <> "-"%char.

Lemma plain_not_short t : plain_token t -> Args.is_short t = false.
Proof.
  unfold plain_token, Args.is_short. intros H.
  destruct (Ascii.eqb_spec (Args.char_at t 0) "-"); [contradiction|reflexivity].
Qed.

Lemma plain_not_long t : plain_token t -> Args.is_long t = false.
Proof.
  unfold plain_token, Args.is_long. intros H.
  destruct (Ascii.eqb_spec (Args.char_at t 0) "-"); [contradiction|reflexivity].
Qed.

Lemma check_args_plain ts c :
  Forall plain_token ts -> Args.check_args ts c = Ok c.
Proof.
  induction 1 as [|t ts Ht _ IH]; [reflexivity|].
  simpl. rewrite (plain_not_short t Ht), (plain_not_long t Ht). simpl. exact IH.
Qed.

Lemma int_array_end_plain av fuel j :
  (forall k, j <= k -> k < length av -> plain_token (Args.arg_at av k)) ->
  j <= length av -> length av <= j + fuel ->
  Args.int_array_end fuel av j = length av.
Proof.
  revert j. induction fuel as [|fuel IH]; intros j Hp Hj Hf; simpl; [lia|].
  destruct (Nat.ltb_spec j (length av)) as [Hlt|Hge]; simpl; [|lia].
  specialize (Hp j (le_n j) Hlt) as Hpj. unfold plain_token in Hpj.
  destruct (Ascii.eqb_spec (Args.char_at (Args.arg_at av j) 0) "-");
    [contradiction|]. simpl.
  apply IH; [intros k Hk1 Hk2; apply Hp; lia|lia|lia].
Qed.

Lemma int_array_fill_map av i ts vs k :
  (forall u, u < length ts -> Args.arg_at av (i + 1 + k + u) = nth u ts EmptyString) ->
  Forall2 (fun t v => Args.sscanf_d t = Some v /\ (- 2 ^ 31 < v)%Z) ts vs ->
  Args.int_array_fill av i k (length ts) = Ok (map (fun v => (v - 1)%Z) vs).
Proof.
  intros Hat Hf. revert k Hat.
  induction Hf as [|t v ts vs [Hs Hv] _ IH]; intros k Hat; [reflexivity|].
  simpl. specialize (Hat 0 ltac:(simpl; lia)) as H0.
  rewrite Nat.add_0_r in H0. simpl in H0. rewrite H0, Hs.
  assert (Hr : (- 2 ^ 31 <= v < 2 ^ 31)%Z).
  { unfold Args.sscanf_d in Hs. destruct (Args.scan_integer t) as [z|];
      [|discriminate]. injection Hs as <-. unfold AutOrder.int_of_long.
    pose proof (Z.mod_pos_bound (Args.clamp_long z + 2 ^ 31) (2 ^ 32) ltac:(lia)).
    lia. }
  rewrite int_of_long_small by lia.
  rewrite (IH (S k)); [reflexivity|].
  intros u Hu. specialize (Hat (S u) ltac:(simpl; lia)). simpl in Hat.
  rewrite <- Hat. f_equal. lia.
Qed.

Lemma ints_at_array (a : list Z) (i : nat) :
  Args.ints_at (Args.PIntArray a) i (length a - i) = Some (drop i a).
Proof.
  remember (length a - i) as cnt eqn:E. revert i E.
  induction cnt as [|cnt IH]; intros i E; simpl.
  - rewrite drop_ge by lia. reflexivity.
  - destruct (lookup_lt_is_Some_2 a i ltac:(lia)) as [x Hx]. rewrite Hx.
    rewrite (IH (S i)) by lia. rewrite (drop_S _ _ _ Hx). reflexivity.
Qed.

(** X12: the short form "-p" followed by tokens that do not start with
    '-' and that [sscanf] with "%d" stores as the ints v1, ..., vk, each
    above the least int, and by nothing else, gives [reducer_parse] the
    prefix v1 - 1, ..., vk - 1: vertices are numbered from 1 on the
    command line and from 0 in the program. *)
Theorem short_prefix_form (prog : string) (ts : list string) (vs : list Z) :
  Forall plain_token ts ->
  Forall2 (fun t v => Args.sscanf_d t = Some v /\ (- 2 ^ 31 < v)%Z) ts vs ->
  Args.cli_prefix (prog :: "-p"%string :: ts)
  = Some (Ok (map (fun v => (v - 1)%Z) vs)).
Proof.
  intros Hplain Hscan.
  set (av := prog :: "-p"%string :: ts).
  assert (Hlen : length av = S (S (length ts))) by reflexivity.
  assert (Hend : Args.int_array_end (length av) av 2 = length av).
  { apply int_array_end_plain; [|lia|lia].
    intros k Hk1 Hk2. destruct k as [|[|k]]; [lia|lia|].
    unfold av, Args.arg_at. simpl.
    rewrite Forall_forall in Hplain. apply Hplain.
    apply list_elem_of_In. apply nth_In. rewrite Hlen in Hk2. lia. }
  assert (Hfill : Args.int_array_fill av 1 0 (length ts)
                  = Ok (map (fun v => (v - 1)%Z) vs)).
  { apply int_array_fill_map; [|exact Hscan]. intros u Hu. reflexivity. }
  assert (Hget : Args.arg_get_int_array av 1
                 = Ok (Args.PIntArray (Z.of_nat (length ts)
                                        :: map (fun v => (v - 1)%Z) vs),
                       S (length ts))).
  { unfold Args.arg_get_int_array. change (1 + 1) with 2. rewrite Hend, Hlen.
    replace (S (S (length ts)) - 2) with (length ts) by lia.
    rewrite Hfill. cbn [bind]. repeat f_equal; lia. }
  assert (Hparse : Args.arg_parse av
                   = Ok (Args.mk_argparse av ["prefix"%string]
                           [Args.PIntArray (Z.of_nat (length ts)
                                             :: map (fun v => (v - 1)%Z) vs)])).
  { unfold Args.arg_parse.
    assert (Hc : Args.check_args (tail av) 0 = Ok 1).
    { unfold av. cbn [tail Args.check_args].
      change (Args.is_short "-p") with true. change (Args.is_long "-p") with false.
      change (Args.check_short (Args.string_from "-p" 1) 0) with (@Ok nat 1).
      cbn [bind]. apply check_args_plain. exact Hplain. }
    rewrite Hc. cbn [bind]. rewrite Hlen. cbn [Args.parse_args].
    change (Args.argc (Args.mk_argparse av [] [])) with (length av).
    rewrite Hlen. cbn [Nat.leb].
    change (Args.arg_at (Args.argv (Args.mk_argparse av [] [])) 1)
      with "-p"%string.
    change (Args.is_short "-p") with true. cbv iota.
    change (Args.string_from "-p" 1) with "p"%string.
    cbn [Args.parse_short].
    change (Args.find_short "p")
      with (Some (Args.mk_argdef "p" "prefix" Args.ARG_INT_ARRAY_PARAM)).
    cbv iota beta. cbn [Args.type Args.read_short Args.argv].
    rewrite Hget. unfold Args.record_arg. cbn.
    destruct (length ts) as [|m] eqn:El.
    - cbn. reflexivity.
    - cbn. destruct (Nat.leb_spec m m); [reflexivity|lia]. }
  unfold Args.cli_prefix. rewrite Hparse.
  cbn [Args.arg_have Args.parsed_args existsb String.eqb Ascii.eqb Bool.eqb orb
       Args.arg_int_array Args.lookup_param Args.parsed_params Args.int_at
       lookup list_lookup].
  destruct (Z.ltb_spec (Z.of_nat (length ts)) 0) as [E|_]; [lia|].
  rewrite Nat2Z.id.
  pose proof (ints_at_array (Z.of_nat (length ts) :: map (fun v => (v - 1)%Z) vs) 1)
    as Hr.
  cbn [length] in Hr. rewrite length_map in Hr.
  rewrite <- (Forall2_length _ _ _ Hscan) in Hr.
  replace (S (length ts) - 1) with (length ts) in Hr by lia.
  rewrite Hr. reflexivity.
Qed.

Lemma short_prefix_form_witness :
  Args.cli_prefix ["reduce"; "-p"; "3"; "4294967297"]%string
  = Some (Ok [2%Z; 0%Z]).
Proof.
  apply (short_prefix_form "reduce" ["3"; "4294967297"]%string [3%Z; 1%Z]).
  - repeat constructor; discriminate.
  - repeat constructor; vm_compute; reflexivity.
Defined.

(** ** The edge buffer (graph.c) *)

(** The graph as graph.c stores it: every edge is one [long] that holds
    the smaller end in its high and the larger end in its low 32 bits.
    [edgebuf] is the used part of the buffer ([num_edges] entries) and
    [edgebuf_size] its capacity; [lab] and [ptn] are the colour partition
    in the format of the labeler. *)
Module EdgeBuffer.

Record graph_t := mk_graph {
  order : nat;
  edgebuf : list Z;
  edgebuf_size : nat;
  edgebuf_is_sorted : bool;
  lab : list Z;
  ptn : list Z
}.

Definition edge_make (i j : Z) : Z :=
  if (i <? j)%Z then Z.lor (Z.shiftl i 32) j else Z.lor (Z.shiftl j 32) i.

Definition edge_i (e : Z) : Z := AutOrder.int_of_long (Z.shiftr e 32).

Definition edge_j (e : Z) : Z := AutOrder.int_of_long (Z.land e 4294967295).

Definition at_int (p : list Z) (i : Z) : Z := p !!! Z.to_nat i.

Definition edge_relabel (p : list Z) (e : Z) : Z :=
  edge_make (at_int p (edge_i e)) (at_int p (edge_j e)).

(** The second loop of [graph_permcheck]; [pc] marks the values seen. *)
Fixpoint permcheck_loop (n : nat) (p : list Z) (pc : list nat) (i cnt : nat)
  : outcome unit :=
  match cnt with
  | 0 => Ok tt
  | S cnt' =>
      let x := p !!! i in
      if (x <? 0)%Z || (Z.of_nat n <=? x)%Z || negb (pc !!! Z.to_nat x =? 0)
      then Abort "invalid permutation"
      else permcheck_loop n p (<[Z.to_nat x := 1]> pc) (S i) cnt'
  end.

Definition graph_permcheck (n : nat) (p : list Z) : outcome unit :=
  permcheck_loop n p (replicate n 0) 0 n.

Definition graph_relabel (g : graph_t) (p : list Z) : outcome graph_t :=
  let* _ := graph_permcheck (order g) p in
  Ok (mk_graph (order g) (map (edge_relabel p) (edgebuf g)) (edgebuf_size g)
               false (map (at_int p) (lab g)) (ptn g)).

(** [for(i < order) pinv[p[i]] = i] over the fresh local array, whose
    initial contents are [junk]. *)
Definition invert (n : nat) (p junk : list Z) : list Z :=
  fold_left (fun q i => <[Z.to_nat (p !!! i) := Z.of_nat i]> q) (seq 0 n) junk.

Definition graph_relabel_inv (g : graph_t) (p junk : list Z) : outcome graph_t :=
  let* _ := graph_permcheck (order g) p in
  graph_relabel g (invert (order g) p junk).

Definition graph_dup (g : graph_t) : outcome graph_t :=
  graph_relabel g (map Z.of_nat (seq 0 (order g))).

Definition enlarge_edgebuf (g : graph_t) (size : nat) : outcome graph_t :=
  if size <=? edgebuf_size g then Abort "too small size"
  else Ok (mk_graph (order g) (edgebuf g) size (edgebuf_is_sorted g)
                    (lab g) (ptn g)).

Definition graph_add_edge (g : graph_t) (i j : Z) : outcome graph_t :=
  if (i <? 0)%Z || (j <? 0)%Z || (Z.of_nat (order g) <=? i)%Z
     || (Z.of_nat (order g) <=? j)%Z || (i =? j)%Z
  then Abort "bad edge"
  else
    let g := mk_graph (order g) (edgebuf g) (edgebuf_size g) false
                      (lab g) (ptn g) in
    let* g := (if length (edgebuf g) =? edgebuf_size g
               then enlarge_edgebuf g (2 * edgebuf_size g) else Ok g) in
    Ok (mk_graph (order g) (edgebuf g ++ [edge_make i j]) (edgebuf_size g)
                 (edgebuf_is_sorted g) (lab g) (ptn g)).

End EdgeBuffer.

Section EdgeCodes.

Local Open Scope Z_scope.

Lemma lor_shiftl_add (i j : Z) :
  0 <= j < 2 ^ 32 -> Z.lor (Z.shiftl i 32) j = i * 2 ^ 32 + j.
Proof.
  intros Hj. rewrite <- (Z.shiftl_mul_pow2 i 32) by lia.
  rewrite <- Z.add_lor_land.
  assert (H0 : Z.land (Z.shiftl i 32) j = 0).
  { apply Z.bits_inj'. intros n Hn. rewrite Z.land_spec, Z.bits_0.
    destruct (Z.lt_ge_cases n 32) as [Hlt|Hge].
    - rewrite Z.shiftl_spec_low by exact Hlt. reflexivity.
    - destruct (Z.eq_dec j 0) as [->|Hne].
      + rewrite Z.bits_0. apply andb_false_r.
      + rewrite (Z.bits_above_log2 j n); [apply andb_false_r|lia|].
        assert (Z.log2 j < 32) by (apply Z.log2_lt_pow2; lia). lia. }
  rewrite H0. lia.
Qed.

Lemma edge_make_value (i j : Z) :
  0 <= i < 2 ^ 31 -> 0 <= j < 2 ^ 31 ->
  EdgeBuffer.edge_make i j = Z.min i j * 2 ^ 32 + Z.max i j.
Proof.
  intros Hi Hj. unfold EdgeBuffer.edge_make.
  destruct (Z.ltb_spec i j); rewrite lor_shiftl_add by lia; f_equal; lia.
Qed.

Lemma edge_i_value (a b : Z) :
  0 <= a < 2 ^ 31 -> 0 <= b < 2 ^ 32 ->
  EdgeBuffer.edge_i (a * 2 ^ 32 + b) = a.
Proof.
  intros Ha Hb. unfold EdgeBuffer.edge_i, AutOrder.int_of_long.
  rewrite Z.shiftr_div_pow2 by lia.
  rewrite Z.div_add_l by lia. rewrite (Z.div_small b) by lia.
  rewrite Z.add_0_r, Z.mod_small by lia. lia.
Qed.

Lemma edge_j_value (a b : Z) :
  0 <= a -> 0 <= b < 2 ^ 31 ->
  EdgeBuffer.edge_j (a * 2 ^ 32 + b) = b.
Proof.
  intros Ha Hb. unfold EdgeBuffer.edge_j, AutOrder.int_of_long.
  change 4294967295 with (Z.ones 32). rewrite Z.land_ones by lia.
  assert (E : (a * 2 ^ 32 + b) mod 2 ^ 32 = b).
  { rewrite (Z.add_comm (a * 2 ^ 32) b), Z.mod_add by lia.
    apply Z.mod_small. lia. }
  rewrite E, Z.mod_small by lia. lia.
Qed.

End EdgeCodes.

(** X13: for vertex numbers below 2^31 the edge code does not depend on
    the order of the two ends, [edge_i] and [edge_j] give back the smaller
    and the larger end, and codes compare as the pairs (smaller end,
    larger end) compare lexicographically. *)
Theorem edge_code_round_trip (i j i' j' : Z) :
  (0 <= i < 2 ^ 31)%Z -> (0 <= j < 2 ^ 31)%Z ->
  (0 <= i' < 2 ^ 31)%Z -> (0 <= j' < 2 ^ 31)%Z ->
  EdgeBuffer.edge_make i j = EdgeBuffer.edge_make j i /\
  EdgeBuffer.edge_i (EdgeBuffer.edge_make i j) = Z.min i j /\
  EdgeBuffer.edge_j (EdgeBuffer.edge_make i j) = Z.max i j /\
  ((EdgeBuffer.edge_make i j < EdgeBuffer.edge_make i' j')%Z <->
   (Z.min i j < Z.min i' j' \/
    (Z.min i j = Z.min i' j' /\ Z.max i j < Z.max i' j'))%Z).
Proof.
  intros Hi Hj Hi' Hj'.
  rewrite (edge_make_value i j), (edge_make_value j i),
    (edge_make_value i' j') by assumption.
  split; [rewrite Z.min_comm, Z.max_comm; reflexivity|].
  split; [apply edge_i_value; lia|].
  split; [apply edge_j_value; lia|].
  change (2 ^ 32)%Z with 4294967296%Z. change (2 ^ 31)%Z with 2147483648%Z in *.
  lia.
Qed.

Lemma edge_code_round_trip_witness :
  EdgeBuffer.edge_i (EdgeBuffer.edge_make 7 3) = 3%Z /\
  EdgeBuffer.edge_j (EdgeBuffer.edge_make 7 3) = 7%Z.
Proof.
  destruct (edge_code_round_trip 7 3 0 0) as (_ & H1 & H2 & _);
    [lia|lia|lia|lia|].
  split; [exact H1|exact H2].
Defined.

(** ** Permutation check and relabeling (graph.c) *)

Definition in_range (n : nat) (p : list Z) : Prop :=
  forall i, i < n -> (0 <= p !!! i < Z.of_nat n)%Z.

Definition distinct (n : nat) (p : list Z) : Prop :=
  forall i j, i < j -> j < n -> p !!! i <> p !!! j.

Lemma permcheck_loop_spec (n : nat) (p : list Z) :
  forall cnt i pc,
  i + cnt = n -> length pc = n ->
  (forall x, x < n ->
     (pc !!! x <> 0 <-> exists k, k < i /\ p !!! k = Z.of_nat x)) ->
  (EdgeBuffer.permcheck_loop n p pc i cnt = Ok tt <->
   (forall k, i <= k -> k < n -> (0 <= p !!! k < Z.of_nat n)%Z) /\
   (forall k1 k2, k1 < k2 -> i <= k2 -> k2 < n -> p !!! k1 <> p !!! k2)) /\
  (EdgeBuffer.permcheck_loop n p pc i cnt = Ok tt \/
   EdgeBuffer.permcheck_loop n p pc i cnt = Abort "invalid permutation").
Proof.
  induction cnt as [|cnt IH]; intros i pc Hi Hlen Hpc.
  - simpl. split; [|left; reflexivity].
    split; [intros _; split; intros; lia|reflexivity].
  - simpl. set (x := p !!! i).
    destruct (Z.ltb_spec x 0) as [Hneg|Hnn]; cbn [orb].
    { split; [|right; reflexivity]. split; [discriminate|].
      intros [H _]. specialize (H i ltac:(lia) ltac:(lia)). fold x in H. lia. }
    destruct (Z.leb_spec (Z.of_nat n) x) as [Hbig|Hlt]; cbn [orb].
    { split; [|right; reflexivity]. split; [discriminate|].
      intros [H _]. specialize (H i ltac:(lia) ltac:(lia)). fold x in H. lia. }
    assert (Hx : Z.to_nat x < n) by lia.
    destruct (Nat.eqb_spec (pc !!! Z.to_nat x) 0) as [Hz|Hnz]; cbn [negb].
    + destruct (IH (S i) (<[Z.to_nat x := 1]> pc)) as [IH1 IH2];
        [lia|rewrite length_insert; exact Hlen| |].
      { intros y Hy. destruct (Nat.eq_dec (Z.to_nat x) y) as [E|E].
        - rewrite <- E, list_lookup_total_insert_eq by (rewrite Hlen; exact Hx).
          split; [intros _|intros _; discriminate].
          exists i. split; [lia|]. fold x. lia.
        - rewrite list_lookup_total_insert_ne by exact E. rewrite (Hpc y Hy).
          split.
          + intros (k & Hk & Ek). exists k. split; [lia|exact Ek].
          + intros (k & Hk & Ek). exists k. split; [|exact Ek].
            destruct (Nat.eq_dec k i) as [->|]; [|lia].
            exfalso. apply E. fold x in Ek. lia. }
      split; [|exact IH2]. rewrite IH1. split.
      * intros [R D]. split.
        -- intros k Hk1 Hk2. destruct (Nat.eq_dec k i) as [->|];
             [fold x; lia|apply R; lia].
        -- intros k1 k2 H12 Hk2 Hk2'. destruct (Nat.eq_dec k2 i) as [->|];
             [|apply D; lia].
           intros E. fold x in E.
           assert (Hex : pc !!! Z.to_nat x <> 0).
           { apply (Hpc (Z.to_nat x) Hx). exists k1. split; [lia|].
             rewrite E. lia. }
           contradiction.
      * intros [R D]. split; [intros; apply R; lia|intros; apply D; lia].
    + split; [|right; reflexivity]. split; [discriminate|].
      intros [_ D]. exfalso.
      apply (Hpc (Z.to_nat x) Hx) in Hnz as (k & Hk & Ek).
      apply (D k i Hk ltac:(lia) ltac:(lia)). fold x. lia.
Qed.

Lemma graph_permcheck_iff (n : nat) (p : list Z) :
  (EdgeBuffer.graph_permcheck n p = Ok tt <-> in_range n p /\ distinct n p) /\
  (EdgeBuffer.graph_permcheck n p = Ok tt \/
   EdgeBuffer.graph_permcheck n p = Abort "invalid permutation").
Proof.
  unfold EdgeBuffer.graph_permcheck.
  destruct (permcheck_loop_spec n p n 0 (replicate n 0)) as [H1 H2];
    [lia|apply length_replicate| |].
  { intros x Hx. rewrite lookup_total_replicate_2 by exact Hx.
    split; [intros H; contradiction|intros (k & Hk & _); lia]. }
  split; [|exact H2]. rewrite H1. unfold in_range, distinct. split.
  - intros [R D]. split; [intros; apply R; lia|intros; apply D; lia].
  - intros [R D]. split; [intros; apply R; lia|intros; apply D; lia].
Qed.

(** X14: [graph_permcheck(n, p)] returns exactly when the first n entries
    of p are pairwise distinct numbers from 0 to n-1, that is, when they
    list 0, ..., n-1 in some order; in every other case it aborts with
    "invalid permutation". *)
Theorem graph_permcheck_spec (n : nat) (p : list Z) :
  n <= length p ->
  (EdgeBuffer.graph_permcheck n p = Ok tt <->
   take n p ≡ₚ map Z.of_nat (seq 0 n)) /\
  (EdgeBuffer.graph_permcheck n p = Ok tt \/
   EdgeBuffer.graph_permcheck n p = Abort "invalid permutation").
Proof.
  intros Hn. destruct (graph_permcheck_iff n p) as [H1 H2].
  split; [|exact H2]. rewrite H1.
  assert (Hlen : length (take n p) = n) by (rewrite length_take; lia).
  assert (Hat : forall i, i < n -> take n p !! i = Some (p !!! i)).
  { intros i Hi. rewrite lookup_take_lt by exact Hi.
    apply list_lookup_lookup_total_lt. lia. }
  split.
  - intros [R D].
    assert (Hnd : NoDup (take n p)).
    { apply NoDup_alt. intros i j x Hi Hj.
      assert (i < n) by (apply lookup_lt_Some in Hi; lia).
      assert (j < n) by (apply lookup_lt_Some in Hj; lia).
      rewrite Hat in Hi, Hj by assumption.
      destruct (Nat.lt_trichotomy i j) as [Hlt|[E|Hgt]]; [|exact E|]; exfalso.
      + apply (D i j Hlt); congruence.
      + apply (D j i Hgt); congruence. }
    apply NoDup_Permutation_bis.
    + apply NoDup_ListNoDup. exact Hnd.
    + rewrite length_map, length_seq, Hlen. lia.
    + intros x Hx. apply list_elem_of_In in Hx.
      apply list_elem_of_lookup in Hx as [i Hi].
      assert (i < n) by (apply lookup_lt_Some in Hi; lia).
      rewrite Hat in Hi by assumption. injection Hi as <-.
      specialize (R i ltac:(assumption)).
      apply in_map_iff. exists (Z.to_nat (p !!! i)). split; [lia|].
      apply in_seq. lia.
  - intros Hperm.
    assert (Hnd : NoDup (take n p)).
    { rewrite Hperm. apply NoDup_fmap_2; [intros a b; lia|apply NoDup_seq]. }
    split.
    + intros i Hi.
      assert (Hin : p !!! i ∈ map Z.of_nat (seq 0 n)).
      { rewrite <- Hperm. apply list_elem_of_lookup. exists i. apply Hat. exact Hi. }
      apply list_elem_of_In, in_map_iff in Hin as (y & <- & Hy).
      apply in_seq in Hy. lia.
    + intros i j Hij Hj E.
      pose proof (NoDup_lookup _ i j (p !!! i) Hnd (Hat i ltac:(lia))) as Hu.
      rewrite E in Hu. specialize (Hu (Hat j Hj)). lia.
Qed.

Lemma graph_permcheck_spec_witness :
  EdgeBuffer.graph_permcheck 3 [2; 0; 1]%Z = Ok tt <->
  take 3 [2; 0; 1]%Z ≡ₚ map Z.of_nat (seq 0 3).
Proof.
  refine (proj1 (graph_permcheck_spec 3 [2; 0; 1]%Z _)). simpl. lia.
Defined.

(** A graph as [graph_init], [graph_add_edge] and [graph_relabel] build
    it: vertex numbers fit an [int], the stored edges fit the buffer,
    every stored edge is the code of a pair of distinct vertices, and
    [lab] holds vertices. *)
Definition well_formed (g : EdgeBuffer.graph_t) : Prop :=
  (Z.of_nat (EdgeBuffer.order g) < 2 ^ 31)%Z /\
  length (EdgeBuffer.edgebuf g) <= EdgeBuffer.edgebuf_size g /\
  Forall (fun e => exists a b,
            (0 <= a < b)%Z /\ (b < Z.of_nat (EdgeBuffer.order g))%Z /\
            e = EdgeBuffer.edge_make a b) (EdgeBuffer.edgebuf g) /\
  Forall (fun l => (0 <= l < Z.of_nat (EdgeBuffer.order g))%Z) (EdgeBuffer.lab g).

Lemma edge_relabel_code (n : nat) (q : list Z) a b :
  (Z.of_nat n < 2 ^ 31)%Z -> in_range n q -> (0 <= a < b)%Z -> (b < Z.of_nat n)%Z ->
  EdgeBuffer.edge_relabel q (EdgeBuffer.edge_make a b)
  = EdgeBuffer.edge_make (EdgeBuffer.at_int q a) (EdgeBuffer.at_int q b).
Proof.
  intros Hn Hq Ha Hb. unfold EdgeBuffer.edge_relabel.
  rewrite (edge_make_value a b) by lia.
  rewrite edge_i_value, edge_j_value by lia.
  rewrite Z.min_l, Z.max_r by lia. reflexivity.
Qed.

Section Relabel.

Variable n : nat.
Variable p : list Z.
Hypothesis Hn : (Z.of_nat n < 2 ^ 31)%Z.
Hypothesis Hrange : in_range n p.
Hypothesis Hdistinct : distinct n p.

Lemma perm_injective i j : i < n -> j < n -> p !!! i = p !!! j -> i = j.
Proof.
  intros Hi Hj E. destruct (Nat.lt_trichotomy i j) as [Hlt|[->|Hgt]];
    [|reflexivity|]; exfalso.
  - apply (Hdistinct i j Hlt Hj E).
  - apply (Hdistinct j i Hgt Hi). symmetry. exact E.
Qed.

Lemma perm_surjective x : x < n -> exists i, i < n /\ p !!! i = Z.of_nat x.
Proof.
  intros Hx.
  set (l := map (fun i => Z.to_nat (p !!! i)) (seq 0 n)).
  assert (Hnd : List.NoDup l).
  { unfold l. apply NoDup_ListNoDup. apply NoDup_fmap_2_strong; [|apply NoDup_seq].
    intros a b Ha Hb E. apply elem_of_seq in Ha, Hb.
    apply perm_injective; [lia|lia|].
    pose proof (Hrange a ltac:(lia)). pose proof (Hrange b ltac:(lia)). lia. }
  assert (Hp : Permutation l (seq 0 n)).
  { apply NoDup_Permutation_bis; [exact Hnd| |].
    - unfold l. rewrite length_map. lia.
    - intros y Hy. unfold l in Hy. apply in_map_iff in Hy as (i & <- & Hi).
      apply in_seq in Hi. pose proof (Hrange i ltac:(lia)).
      apply in_seq. lia. }
  assert (Hin : In x l).
  { apply (Permutation_in x (Permutation_sym Hp)). apply in_seq. lia. }
  unfold l in Hin. apply in_map_iff in Hin as (i & E & Hi). apply in_seq in Hi.
  exists i. split; [lia|]. pose proof (Hrange i ltac:(lia)). lia.
Qed.

Variable junk : list Z.
Hypothesis Hjunk : length junk = n.

Lemma invert_prefix m :
  m <= n ->
  length (fold_left (fun q i => <[Z.to_nat (p !!! i) := Z.of_nat i]> q)
            (seq 0 m) junk) = n /\
  forall i, i < m ->
    fold_left (fun q i => <[Z.to_nat (p !!! i) := Z.of_nat i]> q) (seq 0 m) junk
      !!! Z.to_nat (p !!! i) = Z.of_nat i.
Proof.
  induction m as [|m IH]; intros Hm.
  - split; [exact Hjunk|intros; lia].
  - destruct (IH ltac:(lia)) as [IH1 IH2].
    rewrite seq_S, Common.fold_left_snoc. simpl.
    split; [rewrite length_insert; exact IH1|].
    intros i Hi. pose proof (Hrange m ltac:(lia)) as Rm.
    destruct (Nat.eq_dec i m) as [->|Hne].
    + apply list_lookup_total_insert_eq. rewrite IH1. lia.
    + rewrite list_lookup_total_insert_ne; [apply IH2; lia|].
      intros E. apply Hne. pose proof (Hrange i ltac:(lia)).
      symmetry. apply perm_injective; [lia|lia|lia].
Qed.

Lemma invert_at i :
  i < n -> EdgeBuffer.invert n p junk !!! Z.to_nat (p !!! i) = Z.of_nat i.
Proof. intros Hi. apply (proj2 (invert_prefix n (le_n n))). exact Hi. Qed.

Lemma invert_in_range : in_range n (EdgeBuffer.invert n p junk).
Proof.
  intros x Hx. destruct (perm_surjective x Hx) as (i & Hi & E).
  replace x with (Z.to_nat (p !!! i)) by lia. rewrite invert_at by exact Hi. lia.
Qed.

Lemma invert_distinct : distinct n (EdgeBuffer.invert n p junk).
Proof.
  intros x y Hxy Hy E.
  destruct (perm_surjective x ltac:(lia)) as (i & Hi & Ei).
  destruct (perm_surjective y Hy) as (j & Hj & Ej).
  replace x with (Z.to_nat (p !!! i)) in E by lia.
  replace y with (Z.to_nat (p !!! j)) in E by lia.
  rewrite !invert_at in E by assumption.
  assert (i = j) by lia. subst j. lia.
Qed.

Lemma at_int_invert a :
  (0 <= a < Z.of_nat n)%Z ->
  EdgeBuffer.at_int (EdgeBuffer.invert n p junk) (EdgeBuffer.at_int p a) = a.
Proof.
  intros Ha. unfold EdgeBuffer.at_int.
  rewrite invert_at by lia. lia.
Qed.

Lemma edge_relabel_invert a b :
  (0 <= a < b)%Z -> (b < Z.of_nat n)%Z ->
  EdgeBuffer.edge_relabel (EdgeBuffer.invert n p junk)
    (EdgeBuffer.edge_relabel p (EdgeBuffer.edge_make a b))
  = EdgeBuffer.edge_make a b.
Proof.
  intros Ha Hb. rewrite (edge_relabel_code n p a b Hn Hrange Ha Hb).
  pose proof (Hrange (Z.to_nat a) ltac:(lia)) as Ra.
  pose proof (Hrange (Z.to_nat b) ltac:(lia)) as Rb.
  fold (EdgeBuffer.at_int p a) in Ra. fold (EdgeBuffer.at_int p b) in Rb.
  assert (Hne : EdgeBuffer.at_int p a <> EdgeBuffer.at_int p b).
  { unfold EdgeBuffer.at_int. intros E.
    apply perm_injective in E; lia. }
  assert (Hsym : forall x y, (0 <= x < 2 ^ 31)%Z -> (0 <= y < 2 ^ 31)%Z ->
            EdgeBuffer.edge_make x y = EdgeBuffer.edge_make y x).
  { intros x y Hx Hy. rewrite !edge_make_value by assumption.
    rewrite Z.min_comm, Z.max_comm. reflexivity. }
  destruct (Z.lt_ge_cases (EdgeBuffer.at_int p a) (EdgeBuffer.at_int p b)) as [Hlt|Hge].
  - rewrite (edge_relabel_code n _ _ _ Hn invert_in_range) by lia.
    rewrite !at_int_invert by lia. reflexivity.
  - rewrite (Hsym (EdgeBuffer.at_int p a) (EdgeBuffer.at_int p b)) by lia.
    rewrite (edge_relabel_code n _ _ _ Hn invert_in_range) by lia.
    rewrite !at_int_invert by lia. apply Hsym; lia.
Qed.

End Relabel.

(** X15: relabeling a graph by a permutation p and then by the inverse
    of p ([graph_relabel_inv]) gives back the stored edges, the labeling
    array and the partition of the graph, whatever the fresh local array
    of [graph_relabel_inv] held; neither call aborts. *)
Theorem graph_relabel_inv_round_trip (g : EdgeBuffer.graph_t) (p junk : list Z) :
  well_formed g ->
  EdgeBuffer.order g <= length p -> length junk = EdgeBuffer.order g ->
  EdgeBuffer.graph_permcheck (EdgeBuffer.order g) p = Ok tt ->
  exists g1,
    EdgeBuffer.graph_relabel g p = Ok g1 /\
    EdgeBuffer.graph_relabel_inv g1 p junk
    = Ok (EdgeBuffer.mk_graph (EdgeBuffer.order g) (EdgeBuffer.edgebuf g)
            (EdgeBuffer.edgebuf_size g) false
            (EdgeBuffer.lab g) (EdgeBuffer.ptn g)).
Proof.
  intros (Hn & Hcap & Hedges & Hlab) Hlen Hjunk Hcheck.
  pose proof (proj1 (proj1 (graph_permcheck_iff _ p)) Hcheck) as [Hr Hd].
  unfold EdgeBuffer.graph_relabel at 1. rewrite Hcheck. cbn [bind].
  eexists. split; [reflexivity|].
  unfold EdgeBuffer.graph_relabel_inv. cbn [EdgeBuffer.order].
  rewrite Hcheck. cbn [bind]. unfold EdgeBuffer.graph_relabel.
  cbn [EdgeBuffer.order EdgeBuffer.edgebuf EdgeBuffer.edgebuf_size
       EdgeBuffer.lab EdgeBuffer.ptn].
  assert (Hinv : EdgeBuffer.graph_permcheck (EdgeBuffer.order g)
                   (EdgeBuffer.invert (EdgeBuffer.order g) p junk) = Ok tt).
  { apply (proj1 (graph_permcheck_iff _ _)). split.
    - apply (invert_in_range _ p Hr Hd junk Hjunk).
    - apply (invert_distinct _ p Hr Hd junk Hjunk). }
  rewrite Hinv. cbn [bind]. f_equal. f_equal.
  - rewrite map_map. rewrite <- (map_id (EdgeBuffer.edgebuf g)) at 2.
    apply map_ext_in. intros e He. rewrite List.Forall_forall in Hedges.
    destruct (Hedges e He) as (a & b & Ha & Hb & ->).
    apply (edge_relabel_invert _ p Hn Hr Hd junk Hjunk a b Ha Hb).
  - rewrite map_map. rewrite <- (map_id (EdgeBuffer.lab g)) at 2.
    apply map_ext_in. intros l Hl. rewrite List.Forall_forall in Hlab.
    apply (at_int_invert _ p Hr Hd junk Hjunk). apply Hlab. exact Hl.
Qed.

Definition triangle : EdgeBuffer.graph_t :=
  EdgeBuffer.mk_graph 3
    [EdgeBuffer.edge_make 0 1; EdgeBuffer.edge_make 2 1; EdgeBuffer.edge_make 0 2]
    9 false [0; 1; 2]%Z [1; 1; 0]%Z.

Lemma triangle_well_formed : well_formed triangle.
Proof.
  split; [simpl; lia|]. split; [simpl; lia|]. split.
  - repeat constructor.
    + exists 0%Z, 1%Z. split; [lia|]. split; [simpl; lia|reflexivity].
    + exists 1%Z, 2%Z. split; [lia|]. split; [simpl; lia|reflexivity].
    + exists 0%Z, 2%Z. split; [lia|]. split; [simpl; lia|reflexivity].
  - repeat constructor; simpl; lia.
Qed.

Lemma graph_relabel_inv_round_trip_witness :
  exists g1,
    EdgeBuffer.graph_relabel triangle [2; 0; 1]%Z = Ok g1 /\
    EdgeBuffer.graph_relabel_inv g1 [2; 0; 1]%Z [7; 7; 7]%Z = Ok triangle.
Proof.
  apply (graph_relabel_inv_round_trip triangle [2; 0; 1]%Z [7; 7; 7]%Z).
  - exact triangle_well_formed.
  - simpl. lia.
  - reflexivity.
  - vm_compute. reflexivity.
Defined.

(** X16: [graph_dup] of a graph never aborts and returns a graph with
    the same order, the same stored edges in the same positions and the
    same partition; only the flag that the edges are sorted is cleared. *)
Theorem graph_dup_copies (g : EdgeBuffer.graph_t) :
  well_formed g ->
  EdgeBuffer.graph_dup g
  = Ok (EdgeBuffer.mk_graph (EdgeBuffer.order g) (EdgeBuffer.edgebuf g)
          (EdgeBuffer.edgebuf_size g) false
          (EdgeBuffer.lab g) (EdgeBuffer.ptn g)).
Proof.
  intros (Hn & Hcap & Hedges & Hlab). unfold EdgeBuffer.graph_dup, EdgeBuffer.graph_relabel.
  set (n := EdgeBuffer.order g) in *.
  set (pid := map Z.of_nat (seq 0 n)).
  assert (Hat : forall i, i < n -> pid !!! i = Z.of_nat i).
  { intros i Hi. apply list_lookup_total_correct. unfold pid.
    rewrite list_lookup_fmap, lookup_seq_lt by exact Hi. reflexivity. }
  assert (Hr : in_range n pid) by (intros i Hi; rewrite Hat by exact Hi; lia).
  assert (Hd : distinct n pid).
  { intros i j Hij Hj. rewrite !Hat by lia. lia. }
  rewrite (proj2 (proj1 (graph_permcheck_iff n pid)) (conj Hr Hd)). cbn [bind].
  assert (Hid : forall a, (0 <= a < Z.of_nat n)%Z -> EdgeBuffer.at_int pid a = a).
  { intros a Ha. unfold EdgeBuffer.at_int. rewrite Hat by lia. lia. }
  f_equal. f_equal.
  - rewrite <- (map_id (EdgeBuffer.edgebuf g)) at 2.
    apply map_ext_in. intros e He. rewrite List.Forall_forall in Hedges.
    destruct (Hedges e He) as (a & b & Ha & Hb & ->).
    rewrite (edge_relabel_code n pid a b Hn Hr Ha Hb), !Hid by lia. reflexivity.
  - rewrite <- (map_id (EdgeBuffer.lab g)) at 2.
    apply map_ext_in. intros l Hl. rewrite List.Forall_forall in Hlab.
    apply Hid. apply Hlab. exact Hl.
Qed.

Lemma graph_dup_copies_witness : EdgeBuffer.graph_dup triangle = Ok triangle.
Proof. apply (graph_dup_copies triangle). exact triangle_well_formed. Defined.

(** X17: [graph_add_edge(g, i, j)] aborts with "bad edge" exactly when
    an end is not a vertex or the ends are equal; otherwise it appends
    the code of the edge to the stored edges, leaves the earlier edges,
    the order and the partition as they are and clears the sorted flag.
    The buffer is doubled when it is full, so a graph whose buffer has
    capacity 0 cannot take an edge: the call aborts with
    "too small size". *)
Theorem graph_add_edge_spec (g : EdgeBuffer.graph_t) (i j : Z) :
  well_formed g ->
  let n := Z.of_nat (EdgeBuffer.order g) in
  let valid := (0 <= i < n /\ 0 <= j < n /\ i <> j)%Z in
  (~ valid -> EdgeBuffer.graph_add_edge g i j = Abort "bad edge") /\
  (valid -> EdgeBuffer.edgebuf_size g = 0 ->
   EdgeBuffer.graph_add_edge g i j = Abort "too small size") /\
  (valid -> 0 < EdgeBuffer.edgebuf_size g ->
   exists g', EdgeBuffer.graph_add_edge g i j = Ok g' /\ well_formed g' /\
     EdgeBuffer.edgebuf g' = EdgeBuffer.edgebuf g ++ [EdgeBuffer.edge_make i j] /\
     EdgeBuffer.order g' = EdgeBuffer.order g /\
     EdgeBuffer.lab g' = EdgeBuffer.lab g /\
     EdgeBuffer.ptn g' = EdgeBuffer.ptn g /\
     EdgeBuffer.edgebuf_is_sorted g' = false).
Proof.
  intros (Hn & Hcap & Hedges & Hlab) n valid. unfold EdgeBuffer.graph_add_edge.
  fold n.
  destruct (Z.ltb_spec i 0) as [H1|H1]; cbn [orb].
  { split; [reflexivity|]. split; intros (? & _); lia. }
  destruct (Z.ltb_spec j 0) as [H2|H2]; cbn [orb].
  { split; [reflexivity|]. split; intros (_ & ? & _); lia. }
  destruct (Z.leb_spec n i) as [H3|H3]; cbn [orb].
  { split; [reflexivity|]. split; intros (? & _); lia. }
  destruct (Z.leb_spec n j) as [H4|H4]; cbn [orb].
  { split; [reflexivity|]. split; intros (_ & ? & _); lia. }
  destruct (Z.eqb_spec i j) as [H5|H5].
  { split; [reflexivity|]. split; intros (_ & _ & ?); lia. }
  assert (Hn' : (n < 2 ^ 31)%Z) by exact Hn.
  assert (Hv : valid) by (unfold valid; lia).
  split; [intros H; contradiction|].
  cbn [EdgeBuffer.edgebuf EdgeBuffer.edgebuf_size EdgeBuffer.order
       EdgeBuffer.lab EdgeBuffer.ptn EdgeBuffer.edgebuf_is_sorted].
  assert (Hcode : exists a b, (0 <= a < b)%Z /\ (b < n)%Z /\
             EdgeBuffer.edge_make i j = EdgeBuffer.edge_make a b).
  { exists (Z.min i j), (Z.max i j). split; [lia|]. split; [lia|].
    clearbody n.
    rewrite (edge_make_value i j), (edge_make_value (Z.min i j) (Z.max i j)) by lia.
    rewrite (Z.min_l (Z.min i j)), (Z.max_r (Z.min i j)) by lia. reflexivity. }
  split.
  - intros _ H0. rewrite H0 in *.
    assert (E : length (EdgeBuffer.edgebuf g) = 0) by lia. rewrite E.
    unfold EdgeBuffer.enlarge_edgebuf. cbn. reflexivity.
  - intros _ Hpos.
    destruct (Nat.eqb_spec (length (EdgeBuffer.edgebuf g)) (EdgeBuffer.edgebuf_size g))
      as [Efull|Efree].
    + unfold EdgeBuffer.enlarge_edgebuf.
      cbn [EdgeBuffer.edgebuf EdgeBuffer.edgebuf_size EdgeBuffer.order
           EdgeBuffer.lab EdgeBuffer.ptn EdgeBuffer.edgebuf_is_sorted].
      destruct (Nat.leb_spec (2 * EdgeBuffer.edgebuf_size g) (EdgeBuffer.edgebuf_size g));
        [lia|].
      cbn [bind EdgeBuffer.edgebuf EdgeBuffer.edgebuf_size EdgeBuffer.order
           EdgeBuffer.lab EdgeBuffer.ptn EdgeBuffer.edgebuf_is_sorted].
      eexists. split; [reflexivity|].
      cbn [EdgeBuffer.edgebuf EdgeBuffer.edgebuf_size EdgeBuffer.order
           EdgeBuffer.lab EdgeBuffer.ptn EdgeBuffer.edgebuf_is_sorted].
      split; [|repeat split; reflexivity].
      unfold well_formed.
      cbn [EdgeBuffer.edgebuf EdgeBuffer.edgebuf_size EdgeBuffer.order
           EdgeBuffer.lab EdgeBuffer.ptn EdgeBuffer.edgebuf_is_sorted].
      split; [exact Hn|]. split; [rewrite length_app; simpl; lia|].
      split; [|exact Hlab].
      apply Forall_app. split; [exact Hedges|]. constructor; [exact Hcode|constructor].
    + cbn [bind EdgeBuffer.edgebuf EdgeBuffer.edgebuf_size EdgeBuffer.order
           EdgeBuffer.lab EdgeBuffer.ptn EdgeBuffer.edgebuf_is_sorted].
      eexists. split; [reflexivity|].
      cbn [EdgeBuffer.edgebuf EdgeBuffer.edgebuf_size EdgeBuffer.order
           EdgeBuffer.lab EdgeBuffer.ptn EdgeBuffer.edgebuf_is_sorted].
      split; [|repeat split; reflexivity].
      unfold well_formed.
      cbn [EdgeBuffer.edgebuf EdgeBuffer.edgebuf_size EdgeBuffer.order
           EdgeBuffer.lab EdgeBuffer.ptn EdgeBuffer.edgebuf_is_sorted].
      split; [exact Hn|]. split; [rewrite length_app; simpl; lia|].
      split; [|exact Hlab].
      apply Forall_app. split; [exact Hedges|]. constructor; [exact Hcode|constructor].
Qed.

Lemma graph_add_edge_spec_witness :
  exists g', EdgeBuffer.graph_add_edge triangle 2 0 = Ok g' /\
    EdgeBuffer.edgebuf g'
    = EdgeBuffer.edgebuf triangle ++ [EdgeBuffer.edge_make 2 0].
Proof.
  destruct (graph_add_edge_spec triangle 2 0 triangle_well_formed)
    as (_ & _ & H).
  destruct H as (g' & H1 & _ & H2 & _).
  - simpl. lia.
  - simpl. lia.
  - exists g'. split; [exact H1|exact H2].
Defined.

(** ** The iterator over the generators (graph.c) *)

(** [graph_aut_gen]: the generator at the cursor [idx_gen], or NULL and
    the cursor back at 0 when the generators are used up. *)
Definition graph_aut_gen (gens : list (list nat)) (idx_gen : nat)
  : option (list nat) * nat :=
  if length gens <=? idx_gen then (None, 0)
  else (Some (gens !!! idx_gen), S idx_gen).

(** [while((a = graph_aut_gen(g)) != NULL) body(a);] *)
Fixpoint gen_loop {S : Type} (fuel : nat) (gens : list (list nat))
    (idx_gen : nat) (body : S -> list nat -> S) (s : S) : option (S * nat) :=
  match fuel with
  | 0 => None
  | Datatypes.S fuel' =>
      match graph_aut_gen gens idx_gen with
      | (None, idx') => Some (s, idx')
      | (Some a, idx') => gen_loop fuel' gens idx' body (body s a)
      end
  end.

(** X18: a loop [while((a = graph_aut_gen(g)) != NULL)] that is entered
    with the cursor at position idx ends after the remaining generators:
    it runs its body on each of them once, in their order, and leaves the
    cursor at 0; so every loop that starts with the cursor at 0 sees all
    generators, and the next loop does again. *)
Theorem gen_loop_visits_all {S : Type} (gens : list (list nat)) (idx fuel : nat)
    (body : S -> list nat -> S) (s : S) :
  idx <= length gens -> length gens - idx < fuel ->
  gen_loop fuel gens idx body s = Some (fold_left body (drop idx gens) s, 0).
Proof.
  revert idx s. induction fuel as [|fuel IH]; intros idx s Hidx Hfuel; [lia|].
  simpl. unfold graph_aut_gen.
  destruct (Nat.leb_spec (length gens) idx) as [Hge|Hlt].
  - rewrite drop_ge by lia. reflexivity.
  - rewrite IH by lia.
    assert (E : drop idx gens = gens !!! idx :: drop (Datatypes.S idx) gens).
    { apply drop_S. apply list_lookup_lookup_total_lt. exact Hlt. }
    rewrite E. reflexivity.
Qed.

Lemma gen_loop_visits_all_witness :
  gen_loop 3 [[1; 0; 2]; [0; 2; 1]] 0 (fun s a => s ++ [a !!! 0]) []
  = Some ([1; 0], 0).
Proof.
  exact (gen_loop_visits_all [[1; 0; 2]; [0; 2; 1]] 0 3
           (fun (s : list nat) a => s ++ [a !!! 0]) []
           ltac:(simpl; lia) ltac:(simpl; lia)).
Defined.

(** ** The current variable of a frame and the inverse permutation *)

Lemma inverse_of_at (n : nat) (tau : list nat) (x : nat) :
  perm_of n tau -> x < n -> inverse_of n tau !!! (tau !!! x) = x.
Proof.
  intros Hperm Hx. unfold inverse_of.
  assert (H : forall m, m <= n ->
    length (fold_left (fun nu i => <[tau !!! i := i]> nu) (seq 0 m)
              (replicate n 0)) = n /\
    forall i, i < m ->
      fold_left (fun nu i => <[tau !!! i := i]> nu) (seq 0 m) (replicate n 0)
        !!! (tau !!! i) = i).
  { induction m as [|m IH]; intros Hm.
    - split; [apply length_replicate|intros; lia].
    - destruct (IH ltac:(lia)) as [IH1 IH2].
      rewrite seq_S, Common.fold_left_snoc. simpl.
      split; [rewrite length_insert; exact IH1|].
      intros i Hi. destruct (Nat.eq_dec i m) as [->|Hne].
      + apply list_lookup_total_insert_eq. rewrite IH1.
        apply (p_bound n tau Hperm). lia.
      + rewrite list_lookup_total_insert_ne; [apply IH2; lia|].
        apply not_eq_sym.
        apply (perm_lookup_distinct n tau i m Hperm); lia. }
  apply (proj2 (H n (le_n n))). exact Hx.
Qed.

(** X19: when the two loops of [reducer_get_prefix_assignment] find a
    current variable, it is a variable of the frame that is the image of
    the prefix element of the level under the traversal permutation
    found with it; and if that permutation is a permutation of the
    vertices, the array nu built from it sends the current variable back
    to the prefix element, which is what the test "bad nu" asks for. *)
Theorem current_variable_inverse (r : reducer_t) (lvl : nat) (vars : Z)
    (size : nat) (current current_idx : Z) :
  find_current r lvl vars size = (current, current_idx) ->
  current <> (-1)%Z ->
  let root := r_prefix r !!! lvl in
  let tau := (r_traversals r !!! lvl) !!! Z.to_nat current in
  root < r_n r -> perm_of (r_n r) tau ->
  (0 <= current < Z.of_nat (r_trav_sizes r !!! lvl))%Z /\
  (0 <= current_idx < Z.of_nat size)%Z /\
  rdZ (r_work r) (vars + current_idx) = Z.of_nat (tau !!! root) /\
  inverse_of (r_n r) tau !!! Z.to_nat (rdZ (r_work r) (vars + current_idx)) = root.
Proof.
  intros Hfind Hcur root tau Hroot Hperm.
  destruct (find_current_match r lvl vars size)
    as [E|(j & i & Hj & Hi & Hm & E)].
  - rewrite E in Hfind. injection Hfind as <- _. contradiction.
  - rewrite E in Hfind. injection Hfind as <- <-.
    unfold tau in *. rewrite Nat2Z.id in *.
    split; [lia|]. split; [lia|]. split; [exact Hm|].
    rewrite Hm, Nat2Z.id. apply inverse_of_at; assumption.
Qed.

Lemma current_variable_inverse_witness :
  inverse_of 4 [0; 1; 2; 3]
    !!! Z.to_nat (rdZ (r_work seeded_reducer) (0 + 0)) = 0.
Proof.
  refine (proj2 (proj2 (proj2
            (current_variable_inverse seeded_reducer 0 0%Z 1 0%Z 0%Z _ _ _ _)))).
  - vm_compute. reflexivity.
  - lia.
  - simpl. lia.
  - unfold perm_of. apply (bool_decide_unpack _). vm_compute. exact I.
Defined.

(** ** Enlarging the arrays of the reducer *)

Lemma enlarge_spec {A : Type} `{Inhabited A} (d : A) (a : list A) (c m : nat) :
  (m <= c -> enlarge d a c m = Abort "new capacity is no larger than old") /\
  (c < m -> c <= length a -> exists b, enlarge d a c m = Ok b /\
     length b = m /\ forall i, i < c -> b !!! i = a !!! i).
Proof.
  unfold enlarge. destruct (Nat.leb_spec m c) as [Hle|Hlt].
  - split; [reflexivity|lia].
  - split; [lia|]. intros _ Hlen. eexists. split; [reflexivity|]. split.
    + rewrite length_app, length_take, length_replicate. lia.
    + intros i Hi. rewrite lookup_total_app_l by (rewrite length_take; lia).
      apply list_lookup_total_correct. rewrite lookup_take_lt by exact Hi.
      apply list_lookup_lookup_total_lt. lia.
Qed.

(** The arrays of the reducer have at least the entries that the
    capacity promises. *)
Definition arrays_fit (r : reducer_t) : Prop :=
  let c := r_prefix_capacity r in
  c <= length (r_prefix r) /\
  (r_initialized r = true ->
   c <= length (r_orbits r) /\ c <= length (r_seed_min r) /\
   c <= length (r_trav_sizes r) /\ c <= length (r_trav_ind r) /\
   c <= length (r_traversals r) /\
   (2 * c + 1) * (c + 1) <= length (r_work r) /\
   2 * c + 2 <= length (r_scratch r) /\
   c <= length (r_stat_gen r) /\ c <= length (r_stat_can r) /\
   c <= length (r_stat_out r)).

Definition same_fields (r r' : reducer_t) : Prop :=
  r_n r' = r_n r /\ r_base r' = r_base r /\ r_v r' = r_v r /\
  r_var r' = r_var r /\ r_r r' = r_r r /\ r_val r' = r_val r /\
  r_t r' = r_t r /\ r_target_length r' = r_target_length r /\
  r_k r' = r_k r /\ r_initialized r' = r_initialized r /\
  r_last_prefix_g r' = r_last_prefix_g r /\
  r_stack_top r' = r_stack_top r /\ r_verbose r' = r_verbose r.

Definition same_entries (c : nat) (r r' : reducer_t) : Prop :=
  (forall i, i < c ->
     r_prefix r' !!! i = r_prefix r !!! i /\
     r_orbits r' !!! i = r_orbits r !!! i /\
     r_seed_min r' !!! i = r_seed_min r !!! i /\
     r_trav_sizes r' !!! i = r_trav_sizes r !!! i /\
     r_trav_ind r' !!! i = r_trav_ind r !!! i /\
     r_traversals r' !!! i = r_traversals r !!! i /\
     r_stat_gen r' !!! i = r_stat_gen r !!! i /\
     r_stat_can r' !!! i = r_stat_can r !!! i /\
     r_stat_out r' !!! i = r_stat_out r !!! i) /\
  (forall i, i < (2 * c + 1) * (c + 1) -> r_work r' !!! i = r_work r !!! i) /\
  (forall i, i < 2 * c + 2 -> r_scratch r' !!! i = r_scratch r !!! i).

Lemma reducer_enlarge_prefix_grows (r : reducer_t) (capacity : nat) :
  arrays_fit r -> r_prefix_capacity r < capacity ->
  exists r', reducer_enlarge_prefix r capacity = Ok r' /\
    r_prefix_capacity r' = capacity /\
    same_entries (r_prefix_capacity r) r r' /\ same_fields r r' /\ arrays_fit r'.
Proof.
  intros Hfit Hc. set (c := r_prefix_capacity r) in *.
  assert (Hw : (2 * c + 1) * (c + 1) < (2 * capacity + 1) * (capacity + 1)) by nia.
  assert (Hs : 2 * c + 2 < 2 * capacity + 2) by lia.
  unfold reducer_enlarge_prefix. fold c.
  destruct Hfit as [F0 F].
  destruct (proj2 (enlarge_spec 0 (r_prefix r) c capacity) Hc F0)
    as (b0 & E0 & L0 & K0).
  rewrite E0. cbn [bind].
  destruct r as [n base v var rr val t pc tl k prefix init orbits tsz tind trav
                   lpg work seed scratch top sg sc so verbose].
  cbn [r_initialized set_prefix r_prefix r_orbits r_seed_min r_trav_sizes
       r_trav_ind r_traversals r_work r_scratch r_stat_gen r_stat_can r_stat_out
       r_prefix_capacity] in *.
  destruct init.
  - destruct (F eq_refl) as (F1 & F2 & F3 & F4 & F5 & F6 & F7 & F8 & F9 & F10).
    destruct (proj2 (enlarge_spec [] orbits c capacity) Hc F1) as (b1 & E1 & L1 & K1).
    destruct (proj2 (enlarge_spec [] seed c capacity) Hc F2) as (b2 & E2 & L2 & K2).
    destruct (proj2 (enlarge_spec 0 tsz c capacity) Hc F3) as (b3 & E3 & L3 & K3).
    destruct (proj2 (enlarge_spec [] tind c capacity) Hc F4) as (b4 & E4 & L4 & K4).
    destruct (proj2 (enlarge_spec [] trav c capacity) Hc F5) as (b5 & E5 & L5 & K5).
    destruct (proj2 (enlarge_spec 0%Z work _ _) Hw F6) as (b6 & E6 & L6 & K6).
    destruct (proj2 (enlarge_spec 0%Z scratch _ _) Hs F7) as (b7 & E7 & L7 & K7).
    destruct (proj2 (enlarge_spec 0%Z sg c capacity) Hc F8) as (b8 & E8 & L8 & K8).
    destruct (proj2 (enlarge_spec 0%Z sc c capacity) Hc F9) as (b9 & E9 & L9 & K9).
    destruct (proj2 (enlarge_spec 0%Z so c capacity) Hc F10) as (b10 & E10 & L10 & K10).
    rewrite E1. cbn [bind]. rewrite E2. cbn [bind]. rewrite E3. cbn [bind].
    rewrite E4. cbn [bind]. rewrite E5. cbn [bind]. rewrite E6. cbn [bind].
    rewrite E7. cbn [bind]. rewrite E8. cbn [bind]. rewrite E9. cbn [bind].
    rewrite E10. cbn [bind].
    eexists. split; [reflexivity|]. unfold same_entries, same_fields, arrays_fit.
    cbn. split; [reflexivity|]. split; [|split; [auto 20|]].
    + split; [intros i Hi; repeat split; auto|]. split; assumption.
    + split; [lia|]. intros _. repeat split; lia.
  - cbn [bind]. eexists. split; [reflexivity|].
    unfold same_entries, same_fields, arrays_fit.
    cbn. split; [reflexivity|]. split; [|split; [auto 20|]].
    + split; [intros i Hi; repeat split; auto|]. split; reflexivity.
    + split; [lia|]. discriminate.
Qed.


Lemma seeded_reducer_fits : arrays_fit seeded_reducer.
Proof.
  split; [simpl; lia|]. intros _. simpl. repeat split; lia.
Qed.


(** ** Printing an assignment (reduce.c) *)

(** [for(j = 0; j < cnt; j++) if(x == l[j]) break;]: the value of [j]
    after the loop. *)
Fixpoint first_index (x : Z) (l : list nat) (j cnt : nat) : nat :=
  match cnt with
  | 0 => j
  | S cnt' =>
      if (x =? Z.of_nat (l !!! j))%Z then j else first_index x l (S j) cnt'
  end.

(** The loop of [reducer_print_assignment] over the positions of the
    record [a]; the output is the list of the pairs (j, jj) whose
    legends are printed. *)
Fixpoint print_loop (r : reducer_t) (a : list Z) (size i cnt : nat)
  : outcome (list (nat * nat)) :=
  match cnt with
  | 0 => Ok []
  | S cnt' =>
      let j := first_index (a !!! (1 + i)) (r_var r) 0 (r_v r) in
      let jj := first_index (a !!! (1 + size + i)) (r_val r) 0 (r_r r) in
      if (j =? r_v r) || (jj =? r_r r) then Abort "no data for assignment"
      else
        let* rest := print_loop r a size (S i) cnt' in
        Ok ((j, jj) :: rest)
  end.

Definition reducer_print_assignment (r : reducer_t) (a : list Z)
  : outcome (list (nat * nat)) :=
  let size := Z.to_nat (a !!! 0) in
  print_loop r a size 0 size.

Lemma first_index_spec (x : Z) (l : list nat) (cnt j : nat) :
  let k := first_index x l j cnt in
  j <= k /\ k <= j + cnt /\
  (forall u, j <= u -> u < k -> x <> Z.of_nat (l !!! u)) /\
  (k < j + cnt -> x = Z.of_nat (l !!! k)).
Proof.
  revert j. induction cnt as [|cnt IH]; intros j; cbv zeta; simpl.
  - split; [lia|]. split; [lia|]. split; intros; lia.
  - destruct (Z.eqb_spec x (Z.of_nat (l !!! j))) as [E|E].
    + split; [lia|]. split; [lia|]. split; [intros; lia|intros _; exact E].
    + destruct (IH (S j)) as (H1 & H2 & H3 & H4). cbv zeta in *.
      split; [lia|]. split; [lia|]. split.
      * intros u Hu1 Hu2. destruct (Nat.eq_dec u j) as [->|]; [exact E|].
        apply H3; lia.
      * intros Hk. apply H4. lia.
Qed.

Definition listed (x : Z) (l : list nat) (cnt : nat) : Prop :=
  exists j, j < cnt /\ x = Z.of_nat (l !!! j).

Lemma first_index_listed (x : Z) (l : list nat) (cnt : nat) :
  first_index x l 0 cnt <> cnt <-> listed x l cnt.
Proof.
  destruct (first_index_spec x l cnt 0) as (H1 & H2 & H3 & H4). cbv zeta in *.
  split.
  - intros Hne. exists (first_index x l 0 cnt). split; [lia|]. apply H4. lia.
  - intros (j & Hj & E) Heq. apply (H3 j); [lia|lia|exact E].
Qed.

Lemma print_loop_spec (r : reducer_t) (a : list Z) (size : nat) :
  forall cnt i,
  ((forall u, i <= u -> u < i + cnt ->
      listed (a !!! (1 + u)) (r_var r) (r_v r) /\
      listed (a !!! (1 + size + u)) (r_val r) (r_r r)) ->
   exists out, print_loop r a size i cnt = Ok out /\ length out = cnt /\
     forall u, u < cnt ->
       fst (out !!! u) < r_v r /\ snd (out !!! u) < r_r r /\
       a !!! (1 + i + u) = Z.of_nat (r_var r !!! fst (out !!! u)) /\
       a !!! (1 + size + i + u) = Z.of_nat (r_val r !!! snd (out !!! u))) /\
  (~ (forall u, i <= u -> u < i + cnt ->
      listed (a !!! (1 + u)) (r_var r) (r_v r) /\
      listed (a !!! (1 + size + u)) (r_val r) (r_r r)) ->
   print_loop r a size i cnt = Abort "no data for assignment").
Proof.
  induction cnt as [|cnt IH]; intros i.
  - split.
    + intros _. exists []. split; [reflexivity|]. split; [reflexivity|]. intros; lia.
    + intros H. exfalso. apply H. intros; lia.
  - simpl.
    pose proof (first_index_listed (a !!! S i) (r_var r) (r_v r)) as Hv.
    pose proof (first_index_listed (a !!! S (size + i)) (r_val r) (r_r r)) as Hw.
    pose proof (first_index_spec (a !!! S i) (r_var r) (r_v r) 0) as (V1 & V2 & _ & V4).
    pose proof (first_index_spec (a !!! S (size + i)) (r_val r) (r_r r) 0)
      as (W1 & W2 & _ & W4).
    cbv zeta in *.
    set (j := first_index (a !!! S i) (r_var r) 0 (r_v r)) in *.
    set (jj := first_index (a !!! S (size + i)) (r_val r) 0 (r_r r)) in *.
    destruct (IH (S i)) as [IH1 IH2].
    destruct (Nat.eqb_spec j (r_v r)) as [Ej|Ej]; cbn [orb].
    { split; [|reflexivity]. intros H. exfalso.
      destruct (H i ltac:(lia) ltac:(lia)) as [Hl _]. apply Hv in Hl. contradiction. }
    destruct (Nat.eqb_spec jj (r_r r)) as [Ejj|Ejj].
    { split; [|reflexivity]. intros H. exfalso.
      destruct (H i ltac:(lia) ltac:(lia)) as [_ Hl]. apply Hw in Hl. contradiction. }
    split.
    + intros H. destruct IH1 as (out & E & L & K); [intros; apply H; lia|].
      rewrite E. cbn [bind]. eexists. split; [reflexivity|].
      split; [simpl; lia|]. intros [|u] Hu.
      * simpl. rewrite !Nat.add_0_r. split; [lia|]. split; [lia|].
        split; [apply V4; lia|apply W4; lia].
      * simpl. specialize (K u ltac:(lia)).
        replace (i + S u) with (S i + u) by lia.
        replace (size + i + S u) with (size + S i + u) by lia. exact K.
    + intros H. rewrite IH2; [reflexivity|]. intros H'. apply H.
      intros u Hu1 Hu2. destruct (Nat.eq_dec u i) as [->|]; [|apply H'; lia].
      split; [apply Hv; exact Ej|apply Hw; exact Ejj].
Qed.

(** X21: [reducer_print_assignment] prints a record exactly when each
    of its variables is among the first v entries of the variable list
    and each of its values among the first r entries of the value list;
    then the legends printed for position i are those of the first
    matching entries.  A record with an unlisted variable or value makes
    it abort with "no data for assignment". *)
Theorem reducer_print_assignment_spec (r : reducer_t) (a : list Z) :
  let size := Z.to_nat (a !!! 0) in
  let all_listed := forall u, u < size ->
    listed (a !!! (1 + u)) (r_var r) (r_v r) /\
    listed (a !!! (1 + size + u)) (r_val r) (r_r r) in
  (all_listed ->
   exists out, reducer_print_assignment r a = Ok out /\ length out = size /\
     forall u, u < size ->
       fst (out !!! u) < r_v r /\ snd (out !!! u) < r_r r /\
       a !!! (1 + u) = Z.of_nat (r_var r !!! fst (out !!! u)) /\
       a !!! (1 + size + u) = Z.of_nat (r_val r !!! snd (out !!! u))) /\
  (~ all_listed ->
   reducer_print_assignment r a = Abort "no data for assignment").
Proof.
  intros size all_listed. unfold reducer_print_assignment. fold size.
  destruct (print_loop_spec r a size size 0) as [H1 H2]. split.
  - intros H. destruct H1 as (out & E & L & K); [intros; apply H; lia|].
    exists out. split; [exact E|]. split; [exact L|].
    intros u Hu. specialize (K u Hu).
    replace (1 + 0 + u) with (1 + u) in K by lia.
    replace (1 + size + 0 + u) with (1 + size + u) in K by lia. exact K.
  - intros H. apply H2. intros H'. apply H. intros u Hu. apply H'; lia.
Qed.

(** ** The conjunct clauses of the CNF output (main) *)

Section Conjuncts.

Variable val0 : Z.
Variable var_trans : list Z.
Variable nv : Z.


















End Conjuncts.



(** ** What [reducer_expand_prefix] records for a level *)

Lemma add_prefix_edges_order g prefix val j cnt g' :
  add_prefix_edges g prefix val j cnt = Ok g' -> graph_order g' = graph_order g.
Proof.
  revert g j. induction cnt as [|cnt IH]; intros g j H; simpl in H.
  - injection H as <-. reflexivity.
  - apply outcome_bind_Ok in H as (g1 & H1 & H).
    apply IH in H. rewrite H. unfold graph_add_edge in H1.
    destruct (_ || _); [discriminate|]. injection H1 as <-. reflexivity.
Qed.

Lemma same_orbit_row_spec (sparsenauty : graph_t -> canon_t) g i :
  forall cnt j row,
  same_orbit_row sparsenauty g i j cnt = Ok row ->
  length row = cnt /\
  forall u, u < cnt ->
    row !!! u = if same_orbit sparsenauty g i (j + u) then 1 else 0.
Proof.
  induction cnt as [|cnt IH]; intros j row H; simpl in H.
  - injection H as <-. split; [reflexivity|intros; lia].
  - apply outcome_bind_Ok in H as (b & Hb & H).
    apply outcome_bind_Ok in H as (rest & Hr & H). injection H as <-.
    apply IH in Hr as [L K]. split; [simpl; lia|].
    assert (Eb : b = same_orbit sparsenauty g i j).
    { unfold graph_same_orbit in Hb. destruct (_ || _); [discriminate|].
      unfold same_orbit. destruct (i =? j); [injection Hb as <-; reflexivity|].
      apply outcome_bind_Ok in Hb as (c & _ & Hb). injection Hb as <-.
      reflexivity. }
    intros [|u] Hu; simpl.
    + rewrite Nat.add_0_r, Eb. reflexivity.
    + rewrite (K u ltac:(lia)). replace (j + S u) with (S j + u) by lia.
      reflexivity.
Qed.

Lemma fold_left_of_map {A B C : Type} (f : A -> B -> A) (g : C -> B)
    (l : list C) (init : A) :
  fold_left f (map g l) init = fold_left (fun a x => f a (g x)) l init.
Proof.
  revert init. induction l as [|x l IH]; intros init; [reflexivity|].
  simpl. apply IH.
Qed.

Lemma fold_mark_list (n : nat) (L : list nat) (x : nat) :
  (forall v, In v L -> v < n) -> x < n ->
  fold_left (fun ind v => <[v := 1]> ind) L (replicate n 0) !!! x =
  if decide (x ∈ L) then 1 else 0.
Proof.
  intros HL Hx.
  assert (E : fold_left (fun ind v => <[v := 1]> ind) L (replicate n 0)
              = fold_left (fun q i => <[L !!! i := 1]> q) (seq 0 (length L))
                  (replicate n 0)).
  { rewrite <- (fold_left_of_map (fun ind v => <[v := 1]> ind) (fun i => L !!! i)).
    f_equal. apply list_eq. intros i.
    rewrite list_lookup_fmap.
    destruct (Nat.lt_ge_cases i (length L)) as [Hi|Hi].
    - rewrite lookup_seq_lt by exact Hi. simpl.
      apply list_lookup_lookup_total_lt. exact Hi.
    - rewrite lookup_seq_ge by exact Hi. apply lookup_ge_None_2. exact Hi. }
  rewrite E, indicator_read; [|lia| |exact Hx].
  - rewrite take_ge by lia. reflexivity.
  - intros i Hi. apply HL. apply list_elem_of_In, list_elem_of_lookup.
    exists i. apply list_lookup_lookup_total_lt. exact Hi.
Qed.

(** What a level holds once it has been expanded with the graph [g] and
    the graph [g'] that has one prefix edge more. *)
Definition level_data (sparsenauty : graph_t -> canon_t) (r : reducer_t)
    (k : nat) (g g' : graph_t) : Prop :=
  let p := r_prefix r !!! k in
  p < r_n r /\
  r_trav_sizes r !!! k = length (orbit_elems sparsenauty g p) /\
  (forall j v, orbit_elems sparsenauty g p !! j = Some v ->
     ((r_traversals r !!! k) !!! j) !!! p = v) /\
  (forall x, x < r_n r ->
     (r_trav_ind r !!! k) !!! x = if same_orbit sparsenauty g x p then 1 else 0) /\
  (forall j, j < r_n r ->
     (r_orbits r !!! k) !!! j = if same_orbit sparsenauty g' p j then 1 else 0).

(** What an expansion of level [k] leaves as it is. *)
Definition expand_frame (r r' : reducer_t) (k : nat) : Prop :=
  arrays_fit r' /\ r_initialized r' = true /\
  r_k r' <= r_prefix_capacity r' /\
  r_prefix_capacity r <= r_prefix_capacity r' /\
  r_base r' = r_base r /\ r_n r' = r_n r /\ r_val r' = r_val r /\
  r_v r' = r_v r /\ r_var r' = r_var r /\ r_r r' = r_r r /\
  r_verbose r' = r_verbose r /\
  forall i, i <> k -> i < r_prefix_capacity r ->
    r_prefix r' !!! i = r_prefix r !!! i /\
    r_trav_sizes r' !!! i = r_trav_sizes r !!! i /\
    r_traversals r' !!! i = r_traversals r !!! i /\
    r_trav_ind r' !!! i = r_trav_ind r !!! i /\
    r_orbits r' !!! i = r_orbits r !!! i.

Lemma reducer_expand_prefix_full (sparsenauty : graph_t -> canon_t)
    (residue : nat -> list nat)
    (fuel : nat) (r : reducer_t) (k p : nat) (prev : option graph_t)
    (r' : reducer_t) (g' : graph_t) :
  arrays_fit r -> r_k r <= r_prefix_capacity r ->
  graph_order (r_base r) = r_n r ->
  (forall g0, prev = Some g0 -> graph_order g0 = r_n r) ->
  reducer_expand_prefix sparsenauty residue fuel r k p prev = Some (Ok (r', g')) ->
  exists g,
    match prev with
    | Some g0 => g = g0
    | None => add_prefix_edges (graph_dup (r_base r)) (r_prefix r') (r_val r) 0 k
              = Ok g
    end /\
    add_prefix_edges (graph_dup (r_base r)) (r_prefix r') (r_val r) 0 (k + 1)
    = Ok g' /\
    k <= r_k r /\ r_k r' = Nat.max (r_k r) (k + 1) /\
    r_prefix r' !!! k = p /\
    level_data sparsenauty r' k g g' /\
    r_seed_min r' !!! k = residue k /\
    expand_frame r r' k.
Proof.
  intros Hfit Hk Hbase Hprev H. unfold reducer_expand_prefix in H.
  destruct (r_initialized r) eqn:Hinit; cbn [negb] in H; [|discriminate].
  apply bindM_Ok in H as (r1 & H1 & H).
  assert (K1 : exists c1, r_prefix_capacity r1 = c1 /\
               (k <= r_k r -> k < c1) /\ r_prefix_capacity r <= c1 /\
               arrays_fit r1 /\ same_fields r r1 /\
               same_entries (r_prefix_capacity r) r r1).
  { unfold lift in H1. injection H1 as H1. revert H1.
    destruct (Nat.leb_spec (r_prefix_capacity r) (k + 1)) as [Hfull|Hfree];
      intros H1.
    - destruct (reducer_enlarge_prefix_grows r (2 * r_prefix_capacity r + 1) Hfit
                  ltac:(lia)) as (r1' & E & C & SE & SF & F).
      change (reducer_enlarge_prefix r (2 * r_prefix_capacity r + 1) = Ok r1) in H1.
      rewrite E in H1. injection H1 as <-.
      exists (2 * r_prefix_capacity r + 1).
      split; [exact C|]. split; [intros; lia|]. split; [lia|].
      split; [exact F|]. split; [exact SF|exact SE].
    - injection H1 as <-. exists (r_prefix_capacity r).
      split; [reflexivity|]. split; [intros; lia|]. split; [lia|].
      split; [exact Hfit|].
      split; [unfold same_fields|unfold same_entries]; repeat split; reflexivity. }
  destruct K1 as (c1 & C1 & C3 & C4 & F1 & SF & SE).
  destruct SE as (SE & _ & _).
  destruct SF as (S1 & S2 & S3 & S4 & S5 & S6 & S7 & S8 & S9 & S10 & S11 & S12 & S13).
  destruct r1 as [n1 base1 v1 var1 rr1 val1 t1 pc1 tl1 k1 prefix1 init1 orbits1
                    tsz1 tind1 trav1 lpg1 work1 seed1 scratch1 top1 sg1 sc1 so1
                    verbose1].
  cbn [r_n r_base r_v r_var r_r r_val r_t r_prefix_capacity r_target_length r_k
       r_prefix r_initialized r_orbits r_trav_sizes r_trav_ind r_traversals
       r_last_prefix_g r_work r_seed_min r_scratch r_stack_top r_stat_gen
       r_stat_can r_stat_out r_verbose set_prefix] in *.
  subst n1 base1 v1 var1 rr1 val1 t1 tl1 k1 init1 lpg1 top1 verbose1 pc1.
  revert H. destruct (Nat.ltb_spec (r_k r) k) as [Hlt|Hge]; [discriminate|].
  intros H.
  assert (Hkc : k < c1) by (apply C3; lia).
  destruct F1 as [F0 F]. cbn in F0, F.
  destruct (F Hinit) as (Fo & Fs & Fz & Fi & Ft & Fw & Fx & Fg & Fc & Fu).
  set (pre := <[k := p]> prefix1) in *.
  assert (Hpre : pre !!! k = p)
    by (apply list_lookup_total_insert_eq; lia).
  set (r3 := if r_k r =? k then _ else _) in H.
  assert (R3 : r_prefix r3 = pre /\ r_val r3 = r_val r /\ r_base r3 = r_base r /\
               r_n r3 = r_n r /\ r_v r3 = r_v r /\ r_var r3 = r_var r /\
               r_k r3 = Nat.max (r_k r) (k + 1) /\
               r_traversals r3 = trav1 /\ r_trav_sizes r3 = tsz1 /\
               r_trav_ind r3 = tind1 /\ r_seed_min r3 = seed1 /\
               r_orbits r3 = orbits1 /\
               r_prefix_capacity r3 = c1 /\ r_initialized r3 = true /\
               r_r r3 = r_r r /\ r_verbose r3 = r_verbose r /\
               r_work r3 = work1 /\ r_scratch r3 = scratch1 /\
               length (r_stat_gen r3) = length sg1 /\
               length (r_stat_can r3) = length sc1 /\
               length (r_stat_out r3) = length so1).
  { unfold r3. destruct (Nat.eqb_spec (r_k r) k) as [E|E]; cbn;
      rewrite ?length_insert; repeat split; try reflexivity; try assumption; lia. }
  destruct R3 as (P1 & P2 & P3 & P4 & P5 & P6 & P7 & P8 & P9 & P10 & P11 & P12
                  & P13 & P14 & P15 & P16 & P17 & P18 & P19 & P20 & P21).
  apply bindM_Ok in H as (g & Hg & H).
  apply bindM_Ok in H as (u0 & _ & H).
  apply bindM_Ok in H as (u1 & _ & H).
  apply bindM_Ok in H as (u2 & _ & H).
  apply bindM_Ok in H as (u3 & _ & H).
  apply bindM_Ok in H as ([len trav] & Htrav & H).
  apply bindM_Ok in H as (g2 & Hg2 & H).
  apply bindM_Ok in H as (row & Hrow & H).
  injection H as <- <-.
  cbn [r_n r_base r_v r_var r_r r_val r_t r_prefix_capacity r_target_length r_k
       r_prefix r_initialized r_orbits r_trav_sizes r_trav_ind r_traversals
       r_last_prefix_g r_work r_seed_min r_scratch r_stack_top r_stat_gen
       r_stat_can r_stat_out r_verbose set_prefix set_traversals set_trav_sizes
       set_trav_ind set_seed_min set_orbits] in Hg, Hg2, Htrav, Hrow |- *.
  rewrite ?P1, ?P2, ?P3, ?P4, ?Hpre in Hg.
  rewrite ?P1, ?P2, ?P3, ?P4, ?Hpre in Hg2.
  rewrite ?P1, ?P2, ?P3, ?P4, ?Hpre in Htrav.
  rewrite ?P1, ?P2, ?P3, ?P4, ?Hpre in Hrow.
  unfold level_data, expand_frame, arrays_fit.
  cbn [r_n r_base r_v r_var r_r r_val r_t r_prefix_capacity r_target_length r_k
       r_prefix r_initialized r_orbits r_trav_sizes r_trav_ind r_traversals
       r_last_prefix_g r_work r_seed_min r_scratch r_stack_top r_stat_gen
       r_stat_can r_stat_out r_verbose set_prefix set_traversals set_trav_sizes
       set_trav_ind set_seed_min set_orbits].
  rewrite ?P1, ?P2, ?P3, ?P4, ?P5, ?P6, ?P7, ?P8, ?P9, ?P10, ?P11, ?P12, ?P13,
    ?P14, ?P15, ?P16, ?P17, ?P18, ?P19, ?P20, ?P21, ?Hpre.
  unfold lift in Hg, Hg2, Hrow.
  injection Hg as Hg. injection Hg2 as Hg2. injection Hrow as Hrow.
  assert (Og : graph_order g = r_n r).
  { destruct prev as [g0|].
    - injection Hg as <-. apply Hprev. reflexivity.
    - apply add_prefix_edges_order in Hg. rewrite Hg. exact Hbase. }
  assert (Og2 : graph_order g2 = r_n r).
  { apply add_prefix_edges_order in Hg2. rewrite Hg2. exact Hbase. }
  pose proof (traversal_prepare_root _ _ _ _ _ Htrav) as Hroot.
  destruct (traversal_prepare_images _ _ _ _ _ _ Htrav) as [Hlen Himg].
  apply same_orbit_row_spec in Hrow as [Lrow Krow].
  exists g. split; [destruct prev as [g0|]; [injection Hg as <-; reflexivity|exact Hg]|].
  split; [exact Hg2|]. split; [exact Hge|]. split; [reflexivity|].
  split; [reflexivity|]. split; [split; [lia|]|].
  split; [rewrite list_lookup_total_insert_eq by lia; exact Hlen|].
  split.
  { intros j v Hj. rewrite list_lookup_total_insert_eq by lia. apply Himg. exact Hj. }
  split.
  { intros x Hx. rewrite list_lookup_total_insert_eq by lia.
    set (L := orbit_elems sparsenauty g p) in *.
    assert (Ea : map (fun j => (trav !!! j) !!! p) (seq 0 len) = L).
    { apply list_eq. intros j. rewrite list_lookup_fmap.
      destruct (Nat.lt_ge_cases j len) as [Hj|Hj].
      - rewrite lookup_seq_lt by exact Hj. simpl.
        assert (Hl : L !! j = Some (L !!! j))
          by (apply list_lookup_lookup_total_lt; lia).
        rewrite Hl. f_equal. apply Himg. exact Hl.
      - rewrite lookup_seq_ge by exact Hj. symmetry.
        apply lookup_ge_None_2. lia. }
    rewrite Ea. rewrite fold_mark_list; [| |exact Hx].
    - destruct (decide (x ∈ L)) as [Hin|Hin].
      + apply list_elem_of_In, orbit_elems_In in Hin as [_ ->]. reflexivity.
      + destruct (same_orbit sparsenauty g x p) eqn:Eo; [|reflexivity].
        exfalso. apply Hin. apply list_elem_of_In, orbit_elems_In.
        split; [lia|exact Eo].
    - intros v Hv. apply orbit_elems_In in Hv as [Hv _]. lia. }
  { intros j Hj. rewrite list_lookup_total_insert_eq by lia.
    rewrite (Krow j Hj). reflexivity. }
  split; [apply list_lookup_total_insert_eq; lia|].
  split.
  { split; [unfold pre; rewrite length_insert; lia|]. intros _.
    rewrite !length_insert. repeat split; lia. }
  split; [reflexivity|]. split; [lia|]. split; [lia|].
  do 7 (split; [reflexivity|]).
  intros i Hi Hic. destruct (SE i Hic) as (E1 & E2 & _ & E4 & E5 & E6 & _).
  unfold pre. rewrite !list_lookup_total_insert_ne by lia.
  repeat split; assumption.
Qed.


(** X23: a call of [reducer_expand_prefix] for level k that returns has
    stored p as the k-th prefix element and, for the graph g it was
    given (or built from the base graph and the first k prefix
    elements): the size of the orbit of p in g as traversal size; as
    traversal, for each vertex of that orbit in ascending order, a row
    that sends p to it; as traversal indicator the indicator of that
    orbit; and as orbit indicator of the level the indicator of the orbit
    of p in the graph returned, which is the base graph with the edges
    from the first k+1 prefix elements to the first value vertex.  The
    row of seed minima of the level is the block that the call has
    allocated and not written. *)
Theorem reducer_expand_prefix_level (sparsenauty : graph_t -> canon_t)
    (residue : nat -> list nat)
    (fuel : nat) (r : reducer_t) (k p : nat) (prev : option graph_t)
    (r' : reducer_t) (g' : graph_t) :
  arrays_fit r -> r_k r <= r_prefix_capacity r ->
  graph_order (r_base r) = r_n r ->
  (forall g0, prev = Some g0 -> graph_order g0 = r_n r) ->
  reducer_expand_prefix sparsenauty residue fuel r k p prev = Some (Ok (r', g')) ->
  exists g,
    match prev with
    | Some g0 => g = g0
    | None => add_prefix_edges (graph_dup (r_base r)) (r_prefix r') (r_val r) 0 k
              = Ok g
    end /\
    add_prefix_edges (graph_dup (r_base r)) (r_prefix r') (r_val r) 0 (k + 1)
    = Ok g' /\
    k <= r_k r /\ r_k r' = Nat.max (r_k r) (k + 1) /\
    r_prefix r' !!! k = p /\ p < r_n r /\
    r_trav_sizes r' !!! k = length (orbit_elems sparsenauty g p) /\
    (forall j v, orbit_elems sparsenauty g p !! j = Some v ->
       ((r_traversals r' !!! k) !!! j) !!! p = v) /\
    (forall x, x < r_n r ->
       (r_trav_ind r' !!! k) !!! x = if same_orbit sparsenauty g x p then 1 else 0) /\
    (forall j, j < r_n r ->
       (r_orbits r' !!! k) !!! j = if same_orbit sparsenauty g' p j then 1 else 0) /\
    r_seed_min r' !!! k = residue k.
Proof.
  intros Hfit Hk Hbase Hprev H.
  destruct (reducer_expand_prefix_full sparsenauty residue fuel r k p prev r' g'
              Hfit Hk Hbase Hprev H)
    as (g & Hg & Hg' & Hle & Hmax & Hp & Hlevel & Hseed & Hframe).
  destruct Hlevel as (L1 & L2 & L3 & L4 & L5).
  destruct Hframe as (_ & _ & _ & _ & _ & Hn & _).
  rewrite Hp, Hn in *.
  exists g. repeat split; assumption.
Qed.

Lemma reducer_expand_prefix_level_witness :
  exists r' g',
    reducer_expand_prefix discrete_labeler stale_rows 2 seeded_reducer 1 1
      (Some (mk_graph 4 [(0, 2)] [0; 1; 2; 3])) = Some (Ok (r', g')) /\
    r_prefix r' !!! 1 = 1 /\
    r_trav_sizes r' !!! 1
    = length (orbit_elems discrete_labeler (mk_graph 4 [(0, 2)] [0; 1; 2; 3]) 1).
Proof.
  destruct (reducer_expand_prefix discrete_labeler stale_rows 2 seeded_reducer 1 1
              (Some (mk_graph 4 [(0, 2)] [0; 1; 2; 3])))
    as [[[r' g']|m|m]|] eqn:E;
    [|vm_compute in E; discriminate..].
  destruct (reducer_expand_prefix_level discrete_labeler stale_rows 2
              seeded_reducer 1 1
              (Some (mk_graph 4 [(0, 2)] [0; 1; 2; 3])) r' g')
    as (g & Hg & _ & _ & _ & Hp & _ & Hs & _).
  - exact seeded_reducer_fits.
  - simpl. lia.
  - reflexivity.
  - intros g0 H0. injection H0 as <-. reflexivity.
  - exact E.
  - subst g. exists r', g'. split; [reflexivity|]. split; [exact Hp|exact Hs].
Defined.

(** ** The integer parameters of the command line *)

Lemma long_parameter_parse (prog opt t : string) (a : Args.argdef_t) (v : Z) :
  plain_token t -> Args.sscanf_ld t = Some v ->
  Args.type a = Args.ARG_LONG_PARAM ->
  In a Args.argdefs ->
  ((Args.is_short opt = true /\
    Args.string_from opt 1 = String (Args.short_desc a) EmptyString /\
    Args.find_short (Args.short_desc a) = Some a) \/
   (Args.is_short opt = false /\ Args.is_long opt = true /\
    Args.find_long (Args.string_from opt 2) = Some a)) ->
  Args.arg_parse [prog; opt; t]
  = Ok (Args.mk_argparse [prog; opt; t] [Args.long_desc a] [Args.PLong v]).
Proof.
  intros Hplain Hscan Htype Hin Hopt. unfold Args.arg_parse.
  assert (Hget : Args.arg_get_long [prog; opt; t] 1 = Ok (Args.PLong v, 2)).
  { unfold Args.arg_get_long. cbn [length Nat.add Nat.leb Args.arg_at nth].
    rewrite Hscan. reflexivity. }
  assert (Hrec : forall rd, rd = Args.arg_get_long [prog; opt; t] 1 ->
            Args.record_arg (Args.mk_argparse [prog; opt; t] [] []) a rd
            = Ok (Args.mk_argparse [prog; opt; t] [Args.long_desc a] [Args.PLong v], 2)).
  { intros rd ->. unfold Args.record_arg. cbn [Args.parsed_args Args.is_dup existsb].
    rewrite Hget. reflexivity. }
  destruct Hopt as [(Hs & Hfrom & Hfind)|(Hs & Hl & Hfind)].
  - assert (Hc : Args.check_args (tail [prog; opt; t]) 0 = Ok 1).
    { cbn [tail Args.check_args]. rewrite Hs, Hfrom.
      cbn [Args.check_short]. rewrite Hfind, Htype.
      cbn [Args.has_param String.eqb negb andb bind].
      assert (Hnl : Args.is_long opt = false).
      { unfold Args.is_short in Hs. unfold Args.is_long.
        apply andb_true_iff in Hs as [H1 H2]. rewrite H1.
        apply negb_true_iff in H2. rewrite H2. reflexivity. }
      rewrite Hnl. cbn [bind].
      rewrite (plain_not_short t Hplain), (plain_not_long t Hplain). reflexivity. }
    rewrite Hc. cbn [bind length Args.parse_args Args.argc Args.argv Nat.leb
                     Args.arg_at nth].
    rewrite Hs, Hfrom. cbn [Args.parse_short]. rewrite Hfind, Htype.
    cbn [Args.read_short Args.argv]. rewrite (Hrec _ eq_refl).
    cbn [bind Args.has_param]. reflexivity.
  - assert (Hc : Args.check_args (tail [prog; opt; t]) 0 = Ok 1).
    { cbn [tail Args.check_args]. rewrite Hs, Hl, Hfind. cbn [bind].
      rewrite (plain_not_short t Hplain), (plain_not_long t Hplain). reflexivity. }
    rewrite Hc. cbn [bind length Args.parse_args Args.argc Args.argv Nat.leb
                     Args.arg_at nth].
    rewrite Hs, Hl. unfold Args.parse_long. rewrite Hfind, Htype.
    cbn [Args.read_long Args.argv]. rewrite (Hrec _ eq_refl).
    cbn [bind]. reflexivity.
Qed.

(** X24: for a token t that does not start with '-' and that [sscanf]
    with "%ld" stores as the long v, each of the command lines "-l t",
    "--length t", "-t t" and "--threshold t" is parsed, and [arg_long]
    then returns v for "length", respectively "threshold". *)
Theorem long_parameter_forms (prog t : string) (v : Z) :
  plain_token t -> Args.sscanf_ld t = Some v ->
  (forall opt, opt = "-l"%string \/ opt = "--length"%string ->
     exists p, Args.arg_parse [prog; opt; t] = Ok p /\
       Args.arg_have p "length" = true /\
       Args.arg_long p "length" = Some (Ok v)) /\
  (forall opt, opt = "-t"%string \/ opt = "--threshold"%string ->
     exists p, Args.arg_parse [prog; opt; t] = Ok p /\
       Args.arg_have p "threshold" = true /\
       Args.arg_long p "threshold" = Some (Ok v)).
Proof.
  intros Hplain Hscan. split; intros opt Hopt.
  - eexists. split; [|split].
    + apply (long_parameter_parse prog opt t
               (Args.mk_argdef "l" "length" Args.ARG_LONG_PARAM) v Hplain Hscan);
        [reflexivity|vm_compute; tauto|].
      destruct Hopt as [->| ->]; [left|right]; vm_compute; auto.
    + reflexivity.
    + reflexivity.
  - eexists. split; [|split].
    + apply (long_parameter_parse prog opt t
               (Args.mk_argdef "t" "threshold" Args.ARG_LONG_PARAM) v Hplain Hscan);
        [reflexivity|vm_compute; tauto|].
      destruct Hopt as [->| ->]; [left|right]; vm_compute; auto.
    + reflexivity.
    + reflexivity.
Qed.

Lemma long_parameter_forms_witness :
  exists p,
    Args.arg_parse ["reduce"; "--length"; "99999999999999999999x"]%string = Ok p /\
    Args.arg_have p "length" = true /\
    Args.arg_long p "length" = Some (Ok 9223372036854775807%Z).
Proof.
  refine (proj1 (long_parameter_forms "reduce" "99999999999999999999x"
                   9223372036854775807 _ _) "--length"%string _).
  - discriminate.
  - vm_compute. reflexivity.
  - right. reflexivity.
Defined.

(** ** What [reducer_initialize] leaves for the levels of the prefix *)

Lemma add_prefix_edges_ext (p1 p2 val : list nat) cnt : forall j g,
  (forall u, j <= u -> u < j + cnt -> p1 !!! u = p2 !!! u) ->
  add_prefix_edges g p1 val j cnt = add_prefix_edges g p2 val j cnt.
Proof.
  induction cnt as [|cnt IH]; intros j g0 H; [reflexivity|].
  simpl. rewrite (H j) by lia.
  destruct (graph_add_edge g0 (p2 !!! j) (val !!! 0)) as [g1| |]; simpl;
    try reflexivity.
  apply IH. intros u Hu1 Hu2. apply H; lia.
Qed.

Lemma level_data_frame (sparsenauty : graph_t -> canon_t) (r r' : reducer_t)
    (k j : nat) (g g' : graph_t) :
  expand_frame r r' k -> j <> k -> j < r_prefix_capacity r ->
  level_data sparsenauty r j g g' -> level_data sparsenauty r' j g g'.
Proof.
  intros (_ & _ & _ & _ & _ & Hn & _ & _ & _ & _ & _ & Hsame) Hjk Hj.
  destruct (Hsame j Hjk Hj) as (E1 & E2 & E3 & E4 & E5).
  unfold level_data. rewrite E1, E2, E3, E4, E5, Hn. tauto.
Qed.

(** The levels below [i] hold their data, for the graphs got from the
    base graph with the first prefix elements of [r0]. *)
Definition levels_ready (sparsenauty : graph_t -> canon_t) (r0 r : reducer_t)
    (i : nat) : Prop :=
  forall j, j < i ->
    r_prefix r !!! j = r_prefix r0 !!! j /\
    exists g g',
      add_prefix_edges (graph_dup (r_base r0)) (r_prefix r0) (r_val r0) 0 j = Ok g /\
      add_prefix_edges (graph_dup (r_base r0)) (r_prefix r0) (r_val r0) 0 (j + 1)
      = Ok g' /\
      level_data sparsenauty r j g g'.

Definition init_inv (sparsenauty : graph_t -> canon_t) (r0 r : reducer_t)
    (gopt : option graph_t) (i : nat) : Prop :=
  arrays_fit r /\ r_initialized r = true /\
  r_k r = r_k r0 /\ r_k r0 <= r_prefix_capacity r /\
  r_base r = r_base r0 /\ r_n r = r_n r0 /\ r_val r = r_val r0 /\
  r_v r = r_v r0 /\ r_var r = r_var r0 /\ r_verbose r = r_verbose r0 /\
  (forall j, j < r_k r0 -> r_prefix r !!! j = r_prefix r0 !!! j) /\
  match gopt with
  | None => i = 0
  | Some g =>
      0 < i /\
      add_prefix_edges (graph_dup (r_base r0)) (r_prefix r0) (r_val r0) 0 i = Ok g
  end /\
  levels_ready sparsenauty r0 r i.

Lemma initialize_levels_inv (sparsenauty : graph_t -> canon_t)
    (residue : nat -> list nat) (fuel : nat) (r0 : reducer_t) :
  graph_order (r_base r0) = r_n r0 ->
  forall cnt i r gopt r' gopt',
  i + cnt = r_k r0 ->
  init_inv sparsenauty r0 r gopt i ->
  initialize_levels sparsenauty residue fuel r gopt i cnt = Some (Ok (r', gopt')) ->
  init_inv sparsenauty r0 r' gopt' (r_k r0).
Proof.
  intros Hbase. induction cnt as [|cnt IH]; intros i r gopt r' gopt' Hi Hinv H.
  - simpl in H. injection H as <- <-. replace (r_k r0) with i by lia. exact Hinv.
  - simpl in H. apply bindM_Ok in H as ([r1 g1] & H1 & H).
    destruct Hinv as (I1 & I0 & I2 & I3 & I4 & I5 & I6 & I7 & I8 & I9 & I10 & I11 & I12).
    destruct (reducer_expand_prefix_full sparsenauty residue fuel r i
                (r_prefix r !!! i) gopt r1 g1)
      as (g & Hg & Hg1 & _ & Hmax & Hp & Hlevel & _ & Hframe);
      [exact I1|lia|rewrite I4, I5; exact Hbase| |exact H1|].
    { intros g0 ->. destruct I11 as [_ E].
      apply add_prefix_edges_order in E. rewrite E, I5. exact Hbase. }
    pose proof Hframe as (F1 & F2 & F3 & F4 & F5 & F6 & F7 & F8 & F9 & F10 & F11 & F12).
    assert (Hpre : forall j, j < r_k r0 -> r_prefix r1 !!! j = r_prefix r0 !!! j).
    { intros j Hj. destruct (Nat.eq_dec j i) as [->|Hne].
      - rewrite Hp. apply I10. exact Hj.
      - destruct (F12 j Hne ltac:(lia)) as (E & _). rewrite E. apply I10. exact Hj. }
    assert (Hext : forall c, c <= r_k r0 ->
              add_prefix_edges (graph_dup (r_base r)) (r_prefix r1) (r_val r) 0 c
              = add_prefix_edges (graph_dup (r_base r0)) (r_prefix r0) (r_val r0) 0 c).
    { intros c Hc. rewrite I4, I6. apply add_prefix_edges_ext.
      intros u _ Hu. apply Hpre. lia. }
    rewrite Hext in Hg1 by lia.
    assert (Hg0 : add_prefix_edges (graph_dup (r_base r0)) (r_prefix r0) (r_val r0) 0 i
                  = Ok g).
    { destruct gopt as [g0|].
      - subst g. apply I11.
      - rewrite Hext in Hg by lia. exact Hg. }
    apply (IH (S i) r1 (Some g1) r' gopt'); [lia| |exact H].
    split; [exact F1|]. split; [exact F2|].
    split; [rewrite Hmax, I2; lia|]. split; [lia|].
    split; [congruence|]. split; [congruence|]. split; [congruence|].
    split; [congruence|]. split; [congruence|]. split; [congruence|].
    split; [exact Hpre|].
    split; [split; [lia|]; replace (S i) with (i + 1) by lia; exact Hg1|].
    intros j Hj. split; [apply Hpre; lia|].
    destruct (Nat.eq_dec j i) as [->|Hne].
    + exists g, g1. split; [exact Hg0|]. split; [exact Hg1|exact Hlevel].
    + destruct (I12 j ltac:(lia)) as (_ & gj & gj' & G1 & G2 & G3).
      exists gj, gj'. split; [exact G1|]. split; [exact G2|].
      apply (level_data_frame sparsenauty r r1 i j); [exact Hframe|exact Hne|lia|exact G3].
Qed.

(** X25: a call of [reducer_initialize] on a reducer that is not yet
    initialized and that returns leaves the prefix and its length as
    they are and has, for every level i below the prefix length, with
    G_i the base graph plus the edges from the first i prefix elements
    to the first value vertex: as traversal size the size of the orbit
    of the i-th prefix element in G_i, as traversal a row for each vertex
    of that orbit that sends the prefix element to it, as traversal
    indicator the indicator of that orbit, and as orbit indicator the
    indicator of the orbit of the prefix element in G_(i+1).  The graph
    kept as last prefix graph is G_k. *)
Theorem reducer_initialize_levels (sparsenauty : graph_t -> canon_t)
    (residue : nat -> list nat) (fuel : nat) (r r' : reducer_t) :
  r_initialized r = false ->
  r_prefix_capacity r <= length (r_prefix r) ->
  graph_order (r_base r) = r_n r ->
  reducer_initialize sparsenauty residue fuel r = Some (Ok r') ->
  r_k r <= r_prefix_capacity r /\
  r_initialized r' = true /\ r_k r' = r_k r /\
  levels_ready sparsenauty r r' (r_k r) /\
  (0 < r_k r ->
   exists g,
     add_prefix_edges (graph_dup (r_base r)) (r_prefix r) (r_val r) 0 (r_k r)
     = Ok g /\
     r_last_prefix_g r' = Some g).
Proof.
  intros Hinit Hcap Hbase H. unfold reducer_initialize in H.
  rewrite Hinit in H.
  revert H. destruct (Nat.ltb_spec (r_prefix_capacity r) (r_k r)) as [Hlt|Hge];
    [discriminate|]. intros H.
  apply bindM_Ok in H as ([r1 gopt] & H1 & H).
  apply (initialize_levels_inv sparsenauty residue fuel r Hbase (r_k r) 0 _ None)
    in H1;
    [|lia|].
  - destruct H1 as (I1 & I0 & I2 & I3 & I4 & I5 & I6 & I7 & I8 & I9 & I10 & I11 & I12).
    assert (Hready : forall r2, r_prefix r2 = r_prefix r1 ->
              r_n r2 = r_n r1 -> r_trav_sizes r2 = r_trav_sizes r1 ->
              r_traversals r2 = r_traversals r1 ->
              r_trav_ind r2 = r_trav_ind r1 -> r_orbits r2 = r_orbits r1 ->
              levels_ready sparsenauty r r2 (r_k r)).
    { intros r2 E1 E2 E3 E4 E5 E6 j Hj.
      destruct (I12 j Hj) as (P & g & g' & G1 & G2 & G3).
      split; [rewrite E1; exact P|]. exists g, g'.
      split; [exact G1|]. split; [exact G2|].
      unfold level_data in *. rewrite E1, E2, E3, E4, E5, E6. exact G3. }
    split; [exact Hge|].
    destruct gopt as [g|].
    + destruct I11 as [Hpos Hg].
      apply bindM_Ok in H as (u0 & _ & H).
      apply bindM_Ok in H as (u1 & _ & H). apply bindM_Ok in H as (u2 & _ & H).
      injection H as <-. split; [exact I0|]. split; [exact I2|].
      split; [apply Hready; reflexivity|].
      intros _. exists g. split; [exact Hg|reflexivity].
    + injection H as <-. split; [exact I0|]. split; [exact I2|].
      split; [apply Hready; reflexivity|]. intros Hpos. lia.
  - unfold init_inv, arrays_fit, levels_ready. cbn.
    rewrite !length_replicate.
    split; [split; [exact Hcap|intros _; repeat split; lia]|].
    split; [reflexivity|]. split; [reflexivity|]. split; [exact Hge|].
    do 6 (split; [reflexivity|]).
    split; [intros; reflexivity|]. split; [reflexivity|]. intros j Hj. lia.
Qed.

Lemma reducer_initialize_levels_witness :
  exists r',
    reducer_initialize discrete_labeler stale_rows 2 parsed_reducer
    = Some (Ok r') /\
    r_k r' = 1 /\ levels_ready discrete_labeler parsed_reducer r' 1.
Proof.
  destruct (reducer_initialize discrete_labeler stale_rows 2 parsed_reducer)
    as [[r'|m|m]|] eqn:E; [|vm_compute in E; discriminate..].
  destruct (reducer_initialize_levels discrete_labeler stale_rows 2
              parsed_reducer r')
    as (_ & _ & Hk & Hl & _).
  - reflexivity.
  - simpl. lia.
  - reflexivity.
  - exact E.
  - exists r'. split; [reflexivity|]. split; [exact Hk|exact Hl].
Defined.

(** ** Shellsort (common.c) *)

(** [for(int i = n/3; h < i; h = 3*h+1);] *)
Fixpoint first_gap (fuel h i : nat) : nat :=
  match fuel with
  | 0 => h
  | S fuel' => if h <? i then first_gap fuel' (3 * h + 1) i else h
  end.

(** [do { t = a[j-h]; if(t <= v) break; a[j] = t; j -= h; } while(j >= h);]
    the array and [j] after the loop. *)
Fixpoint shift_gap (fuel : nat) (a : list Z) (h : nat) (v : Z) (j : nat)
  : list Z * nat :=
  match fuel with
  | 0 => (a, j)
  | S fuel' =>
      let t := a !!! (j - h) in
      if (t <=? v)%Z then (a, j)
      else
        let a' := <[j := t]> a in
        if h <=? j - h then shift_gap fuel' a' h v (j - h) else (a', j - h)
  end.

(** The body of [for(int i = h; i < n; i++)]. *)
Definition insert_gap (a : list Z) (h i : nat) : list Z :=
  let v := a !!! i in
  let '(a', j) := shift_gap (S i) a h v i in
  <[j := v]> a'.

Definition gap_pass (n h : nat) (a : list Z) : list Z :=
  fold_left (fun a i => insert_gap a h i) (seq h (n - h)) a.

(** [do { ...; h /= 3; } while(h > 0);] *)
Fixpoint gap_passes (fuel n h : nat) (a : list Z) : list Z :=
  match fuel with
  | 0 => a
  | S fuel' =>
      let a' := gap_pass n h a in
      if 0 <? h / 3 then gap_passes fuel' n (h / 3) a' else a'
  end.

Definition shellsort_int (n : nat) (a : list Z) : list Z :=
  let h := first_gap n 1 (n / 3) in
  gap_passes h n h a.

(** The gaps 1, 4, 13, 40, ... *)
Inductive gap : nat -> Prop :=
| gap_one : gap 1
| gap_next h : gap h -> gap (3 * h + 1).

Lemma first_gap_exits fuel i : forall h, i <= h + fuel -> i <= first_gap fuel h i.
Proof.
  induction fuel as [|fuel IH]; intros h Hh; simpl; [lia|].
  destruct (Nat.ltb_spec h i); [apply IH|]; lia.
Qed.

Lemma first_gap_gap fuel i : forall h, gap h -> gap (first_gap fuel h i).
Proof.
  induction fuel as [|fuel IH]; intros h Hh; simpl; [exact Hh|].
  destruct (h <? i); [|exact Hh]. apply IH. constructor. exact Hh.
Qed.

Lemma gap_pos h : gap h -> 1 <= h.
Proof. induction 1; lia. Qed.

(** Two arrays with the same entries above position [m], one a
    rearrangement of the other. *)
Definition rearranged (m : nat) (a b : list Z) : Prop :=
  length b = length a /\ b ≡ₚ a /\ forall u, m <= u -> b !! u = a !! u.

Lemma rearranged_refl m a : rearranged m a a.
Proof. split; [reflexivity|]. split; [reflexivity|]. intros; reflexivity. Qed.

Lemma rearranged_trans m a b c :
  rearranged m a b -> rearranged m b c -> rearranged m a c.
Proof.
  intros (L1 & P1 & U1) (L2 & P2 & U2). split; [congruence|].
  split; [rewrite P2; exact P1|]. intros u Hu. rewrite U2, U1 by exact Hu.
  reflexivity.
Qed.

Lemma shift_gap_S (fuel : nat) (a : list Z) (h : nat) (v : Z) (j : nat) :
  shift_gap (S fuel) a h v j =
  if Z.leb (a !!! (j - h)) v then (a, j)
  else if h <=? j - h then shift_gap fuel (<[j := a !!! (j - h)]> a) h v (j - h)
       else (<[j := a !!! (j - h)]> a, j - h).
Proof. reflexivity. Qed.

Lemma shift_gap_rearranged (h : nat) (v : Z) :
  1 <= h -> forall fuel a j,
  j < fuel -> h <= j -> j < length a ->
  let r := shift_gap fuel a h v j in
  length (fst r) = length a /\ snd r <= j /\
  (forall u, j < u -> fst r !! u = a !! u) /\
  <[snd r := v]> (fst r) ≡ₚ <[j := v]> a.
Proof.
  intros Hh. induction fuel as [|fuel IH]; intros a j Hf Hj Hlen; [lia|].
  cbv zeta. rewrite shift_gap_S.
  destruct (Z.leb (a !!! (j - h)) v).
  { simpl. split; [reflexivity|]. split; [lia|]. split; [intros; reflexivity|].
    reflexivity. }
  set (t := a !!! (j - h)).
  assert (Hswap : <[j - h := v]> (<[j := t]> a) ≡ₚ <[j := v]> a).
  { rewrite <- (list_insert_insert_eq a j t v).
    apply Permutation_insert_swap.
    - apply list_lookup_insert_eq. exact Hlen.
    - rewrite list_lookup_insert_ne by lia.
      apply list_lookup_lookup_total_lt. lia. }
  destruct (Nat.leb_spec h (j - h)) as [Hge|Hlt].
  - destruct (IH (<[j := t]> a) (j - h)) as (L & B & U & P);
      [lia|exact Hge|rewrite length_insert; lia|].
    cbv zeta in L, B, U, P. rewrite length_insert in L.
    split; [exact L|]. split; [lia|]. split.
    + intros u Hu. rewrite U by lia. apply list_lookup_insert_ne. lia.
    + rewrite P. exact Hswap.
  - simpl. split; [apply length_insert|]. split; [lia|]. split.
    + intros u Hu. apply list_lookup_insert_ne. lia.
    + exact Hswap.
Qed.

Lemma insert_gap_rearranged (h i : nat) (a : list Z) :
  1 <= h -> h <= i -> i < length a ->
  rearranged (S i) a (insert_gap a h i).
Proof.
  intros Hh Hi Hlen. unfold insert_gap.
  destruct (shift_gap_rearranged h (a !!! i) Hh (S i) a i) as (L & B & U & P);
    [lia|exact Hi|exact Hlen|].
  cbv zeta in L, B, U, P.
  destruct (shift_gap (S i) a h (a !!! i) i) as [a' j]. simpl in L, B, U, P.
  split; [rewrite length_insert; exact L|]. split.
  - rewrite P. rewrite list_insert_id; [reflexivity|].
    apply list_lookup_lookup_total_lt. exact Hlen.
  - intros u Hu. rewrite list_lookup_insert_ne by lia. apply U. lia.
Qed.

Lemma gap_pass_rearranged (n h : nat) (a : list Z) :
  1 <= h -> n <= length a -> rearranged n a (gap_pass n h a).
Proof.
  intros Hh Hn. unfold gap_pass.
  assert (H : forall m, h + m <= n ->
            rearranged n a
              (fold_left (fun a i => insert_gap a h i) (seq h m) a)).
  { induction m as [|m IH]; intros Hm; [apply rearranged_refl|].
    rewrite seq_S, Common.fold_left_snoc.
    specialize (IH ltac:(lia)).
    apply (rearranged_trans n _ _ _ IH).
    destruct IH as (L & _ & _).
    destruct (insert_gap_rearranged h (h + m)
                (fold_left (fun a i => insert_gap a h i) (seq h m) a) Hh)
      as (L' & P' & U'); [lia|lia|].
    split; [exact L'|]. split; [exact P'|]. intros u Hu. apply U'. lia. }
  destruct (Nat.le_gt_cases h n) as [Hle|Hgt].
  - apply H. lia.
  - replace (n - h) with 0 by lia. apply rearranged_refl.
Qed.

(** The pass with gap 1 is the insertion sort. *)
Lemma shift_one_sorted (a0 : list Z) (i : nat) (v : Z) :
  v = a0 !!! i -> i < length a0 ->
  (forall x y, x <= y -> y < i -> (a0 !!! x <= a0 !!! y)%Z) ->
  forall fuel a j,
  j < fuel -> 1 <= j -> j <= i -> length a = length a0 ->
  (forall u, u < j -> a !!! u = a0 !!! u) ->
  (forall u, j < u -> u <= i ->
     a !!! u = a0 !!! (u - 1) /\ Z.lt v (a0 !!! (u - 1))) ->
  let r := shift_gap fuel a 1 v j in
  let b := <[snd r := v]> (fst r) in
  forall x y, x <= y -> y <= i -> (b !!! x <= b !!! y)%Z.
Proof.
  intros Hv Hi Hs. induction fuel as [|fuel IH]; intros a j Hf Hj1 Hji Hlen H1 H2;
    [lia|].
  cbv zeta. rewrite shift_gap_S.
  assert (Ht : a !!! (j - 1) = a0 !!! (j - 1)) by (apply H1; lia).
  assert (Hfinal : forall (a' : list Z) j',
            length a' = length a0 -> j' <= i ->
            (forall u, u < j' -> a' !!! u = a0 !!! u) ->
            (forall u, j' < u -> u <= i ->
               a' !!! u = a0 !!! (u - 1) /\ Z.lt v (a0 !!! (u - 1))) ->
            (j' = 0 \/ Z.le (a0 !!! (j' - 1)) v) ->
            forall x y, x <= y -> y <= i ->
              (<[j' := v]> a' !!! x <= <[j' := v]> a' !!! y)%Z).
  { intros a' j' L' Hj' G1 G2 G3 x y Hxy Hy.
    assert (R : forall u, u <= i ->
              <[j' := v]> a' !!! u =
              if u <? j' then a0 !!! u else if u =? j' then v else a0 !!! (u - 1)).
    { intros u Hu. destruct (Nat.ltb_spec u j') as [Hl|Hg].
      - rewrite list_lookup_total_insert_ne by lia. apply G1. exact Hl.
      - destruct (Nat.eqb_spec u j') as [->|Hne].
        + apply list_lookup_total_insert_eq. lia.
        + rewrite list_lookup_total_insert_ne by lia. apply G2; lia. }
    rewrite (R x), (R y) by lia.
    destruct (Nat.ltb_spec x j') as [Hx|Hx]; destruct (Nat.ltb_spec y j') as [Hy'|Hy'];
      try lia.
    - apply Hs; lia.
    - assert (Z.le (a0 !!! x) (a0 !!! (j' - 1))) by (apply Hs; lia).
      assert (Z.le (a0 !!! (j' - 1)) v) by (destruct G3; [lia|assumption]).
      destruct (Nat.eqb_spec y j') as [_|Hne]; [lia|].
      destruct (G2 y ltac:(lia) Hy) as [_ ?]. lia.
    - destruct (Nat.eqb_spec x j') as [->|Hnx]; destruct (Nat.eqb_spec y j') as [->|Hny];
        try lia.
      + destruct (G2 y ltac:(lia) Hy) as [_ ?]. lia.
      + apply Hs; lia. }
  destruct (Z.leb_spec (a !!! (j - 1)) v) as [Hle|Hgt].
  { simpl. apply Hfinal; try assumption. right. rewrite <- Ht. exact Hle. }
  set (t := a !!! (j - 1)) in *.
  assert (G1 : forall u, u < j - 1 -> <[j := t]> a !!! u = a0 !!! u).
  { intros u Hu. rewrite list_lookup_total_insert_ne by lia. apply H1. lia. }
  assert (G2 : forall u, j - 1 < u -> u <= i ->
            <[j := t]> a !!! u = a0 !!! (u - 1) /\ Z.lt v (a0 !!! (u - 1))).
  { intros u Hu1 Hu2. destruct (Nat.eq_dec u j) as [->|Hne].
    - rewrite list_lookup_total_insert_eq by lia. rewrite <- Ht. split; [reflexivity|lia].
    - rewrite list_lookup_total_insert_ne by lia. apply H2; lia. }
  destruct (Nat.leb_spec 1 (j - 1)) as [Hge|Hlt].
  - apply IH; try assumption; try lia. rewrite length_insert. exact Hlen.
  - simpl. apply Hfinal; try assumption; try lia.
    rewrite length_insert. exact Hlen.
Qed.

Lemma insert_one_sorted (a : list Z) (i : nat) :
  1 <= i -> i < length a ->
  (forall x y, x <= y -> y < i -> (a !!! x <= a !!! y)%Z) ->
  forall x y, x <= y -> y < S i ->
    (insert_gap a 1 i !!! x <= insert_gap a 1 i !!! y)%Z.
Proof.
  intros Hi Hlen Hs x y Hxy Hy. unfold insert_gap.
  pose proof (shift_one_sorted a i (a !!! i) eq_refl Hlen Hs (S i) a i
                ltac:(lia) Hi (le_n i) eq_refl
                ltac:(intros; reflexivity) ltac:(intros; lia)) as H.
  cbv zeta in H.
  destruct (shift_gap (S i) a 1 (a !!! i) i) as [a' j]. simpl in H.
  apply H; lia.
Qed.

Lemma gap_pass_one_sorted (n : nat) (a : list Z) :
  n <= length a ->
  forall x y, x <= y -> y < n ->
    (gap_pass n 1 a !!! x <= gap_pass n 1 a !!! y)%Z.
Proof.
  intros Hn. unfold gap_pass.
  assert (H : forall m, 1 + m <= n ->
            let b := fold_left (fun a i => insert_gap a 1 i) (seq 1 m) a in
            length b = length a /\
            forall x y, x <= y -> y < 1 + m -> (b !!! x <= b !!! y)%Z).
  { induction m as [|m IH]; intros Hm; cbv zeta.
    - simpl. split; [reflexivity|]. intros x y Hxy Hy.
      replace y with 0 by lia. replace x with 0 by lia. lia.
    - destruct (IH ltac:(lia)) as [L Hs]. cbv zeta in L, Hs.
      rewrite seq_S, Common.fold_left_snoc.
      destruct (insert_gap_rearranged 1 (1 + m)
                  (fold_left (fun a i => insert_gap a 1 i) (seq 1 m) a))
        as (L' & _ & _); [lia|lia|lia|].
      split; [congruence|].
      intros x y Hxy Hy. apply insert_one_sorted; try lia. exact Hs. }
  destruct n as [|n]; [intros; lia|].
  destruct (H n ltac:(lia)) as [_ Hs]. cbv zeta in Hs.
  replace (S n - 1) with n by lia. exact Hs.
Qed.

Lemma gap_passes_S (fuel n h : nat) (a : list Z) :
  gap_passes (S fuel) n h a =
  if 0 <? h / 3 then gap_passes fuel n (h / 3) (gap_pass n h a)
  else gap_pass n h a.
Proof. reflexivity. Qed.

Lemma gap_passes_last (n : nat) : forall fuel h a,
  gap h -> h <= fuel -> n <= length a ->
  exists b, rearranged n a b /\ gap_passes fuel n h a = gap_pass n 1 b.
Proof.
  induction fuel as [|fuel IH]; intros h a Hg Hf Hn.
  - apply gap_pos in Hg. lia.
  - rewrite gap_passes_S. destruct Hg as [|h' Hg'].
    + exists a. split; [apply rearranged_refl|reflexivity].
    + pose proof (gap_pos h' Hg') as Hp.
      assert (E : (3 * h' + 1) / 3 = h').
      { symmetry. apply (Nat.div_unique _ 3 h' 1); lia. }
      rewrite E. destruct (Nat.ltb_spec 0 h') as [_|]; [|lia].
      pose proof (gap_pass_rearranged n (3 * h' + 1) a ltac:(lia) Hn) as R.
      destruct (IH h' (gap_pass n (3 * h' + 1) a) Hg' ltac:(lia))
        as (b & Rb & Eb).
      { destruct R as (L & _). lia. }
      exists b. split; [exact (rearranged_trans n _ _ _ R Rb)|exact Eb].
Qed.

Lemma pointwise_sorted (s : list Z) :
  (forall x y, x <= y -> y < length s -> (s !!! x <= s !!! y)%Z) ->
  StronglySorted Z.le s.
Proof.
  induction s as [|v s IH]; intros H; constructor.
  - apply IH. intros x y Hxy Hy. apply (H (S x) (S y)); simpl; lia.
  - apply Forall_forall. intros w Hw.
    apply list_elem_of_lookup in Hw. destruct Hw as [u Hu].
    pose proof (lookup_lt_Some _ _ _ Hu) as Hl.
    specialize (H 0 (S u) ltac:(lia) ltac:(simpl; lia)).
    rewrite <- (list_lookup_total_correct _ _ _ Hu). exact H.
Qed.

(** X26: [shellsort_int(n, a)], for n within the array, replaces the
    first n entries by a rearrangement of them in nondecreasing order
    and leaves the entries from position n on as they are. *)
Theorem shellsort_int_sorts (n : nat) (a : list Z) :
  n <= length a ->
  exists s, shellsort_int n a = s ++ drop n a /\
            s ≡ₚ take n a /\ StronglySorted Z.le s.
Proof.
  intros Hn. unfold shellsort_int.
  set (h := first_gap n 1 (n / 3)).
  assert (Hg : gap h) by (apply first_gap_gap; constructor).
  destruct (gap_passes_last n h h a Hg (le_n h) Hn) as (b & Rb & E).
  rewrite E.
  assert (Hnb : n <= length b) by (destruct Rb as (L & _); lia).
  pose proof (gap_pass_rearranged n 1 b (le_n 1) Hnb) as Rc.
  pose proof (rearranged_trans n _ _ _ Rb Rc) as (L & P & U).
  pose proof (gap_pass_one_sorted n b Hnb) as Hs.
  set (c := gap_pass n 1 b) in *.
  assert (Hdrop : drop n c = drop n a).
  { apply list_eq. intros u. rewrite !lookup_drop. apply U. lia. }
  exists (take n c). split; [rewrite <- Hdrop; symmetry; apply take_drop|].
  split.
  - apply (Permutation_app_inv_r (drop n a)).
    rewrite <- Hdrop at 1. rewrite !take_drop. exact P.
  - apply pointwise_sorted. intros x y Hxy Hy.
    rewrite length_take in Hy.
    rewrite !lookup_total_take_lt by lia. apply Hs; lia.
Qed.

Lemma shellsort_int_sorts_witness :
  exists s, shellsort_int 14
              [9; 3; -7; 3; 1; 12; 0; 5; 8; -2; 11; 4; 6; 10; 1; 0]%Z
            = s ++ [1; 0]%Z /\ StronglySorted Z.le s.
Proof.
  destruct (shellsort_int_sorts 14
              [9; 3; -7; 3; 1; 12; 0; 5; 8; -2; 11; 4; 6; 10; 1; 0]%Z)
    as (s & E & _ & Hs).
  - simpl. lia.
  - exists s. split; [exact E|exact Hs].
Defined.
